(** * OnChipDataCompression: a shallow embedding of the codec core

    Data model and operations of [pixel_studies]: the bit package
    ([Package], [Package::iterator]), the geometry ([RegionLayout],
    [MultiRegionLayout]), the alphabet statistics and their collection, the
    Huffman tree and the four package makers behind [ChipDataEncoder].

    Machine integers are [Z] with their wrap-around written out: [size_t] and
    [uint64_t] modulo 2^64 ([sz]), the [int16_t] pixel coordinates by
    [to_i16], [uint8_t] bytes modulo 256.  A C++ exception is the [Err]
    branch of [result]; its message template is kept, the format arguments
    are not modelled. *)

From Stdlib Require Import ZArith Lia.
From stdpp Require Import base list gmap sorting strings.

Open Scope Z_scope.

(* ------------------------------------------------------------------ *)
(** ** Errors and the result monad *)

Inductive error :=
  | Exception (template : string)   (* pixel_studies::exception *)
  | OutOfRange.                      (* std::out_of_range from at() *)

Inductive result (A : Type) :=
  | Ok (a : A)
  | Err (e : error).
Arguments Ok {A} a.
Arguments Err {A} e.

Definition bind {A B} (m : result A) (k : A -> result B) : result B :=
  match m with Ok a => k a | Err e => Err e end.

Notation "'let*' x ':=' m 'in' k" := (bind m (fun x => k))
  (at level 200, x pattern, m at level 100, k at level 200).

Definition throw {A} (msg : string) : result A := Err (Exception msg).

(** [std::vector::at] / [std::map::at]. *)
Definition vat {A} (l : list A) (i : Z) : result A :=
  if i <? 0 then Err OutOfRange else
  match nth_error l (Z.to_nat i) with Some x => Ok x | None => Err OutOfRange end.

(** [size_t] / [uint64_t] arithmetic. *)
Definition sz (z : Z) : Z := z mod 2 ^ 64.
(** Conversion to [int16_t] (the pixel [Coordinate]). *)
Definition to_i16 (z : Z) : Z := (z + 2 ^ 15) mod 2 ^ 16 - 2 ^ 15.

(* ------------------------------------------------------------------ *)
(** ** Package (AlphabetStatisticsCollection.h, struct Package) *)

Module Pkg.

Definition BitsPerItem : Z := 8.
Definition BitsPerInteger : Z := 64.

(** [data], the positions of [begin_iter] and [end_iter], and
    [readout_position_collection]. *)
Record Package := mkPackage {
  data : list Z;
  begin_pos : Z;
  end_pos : Z;
  readout_positions : list Z
}.

Definition empty : Package := mkPackage [] 0 0 [].

(** [Package(const Package& other)]: data and both iterator positions are
    copied, the readout positions are not. *)
Definition copy (other : Package) : Package :=
  mkPackage (data other) (begin_pos other) (end_pos other) [].

Definition size (p : Package) : Z := end_pos p.

Definition Mask (n_bits : Z) : Z :=
  if n_bits =? BitsPerInteger then 2 ^ 64 - 1 else sz (Z.shiftl 1 n_bits) - 1.

(** [data.back() |= v] on a [uint8_t] element. *)
Fixpoint or_back (v : Z) (l : list Z) : list Z :=
  match l with
  | [] => []
  | [b] => [(Z.lor b v) mod 256]
  | b :: l' => b :: or_back v l'
  end.

(** The width check shared by [write] and [write_ex]. *)
Definition check_width (value number_of_bits : Z) : result unit :=
  if BitsPerInteger <? number_of_bits then throw "Number of bits is too big."
  else if number_of_bits <? BitsPerInteger then
    let max_input_value := sz (Z.shiftl 1 number_of_bits) - 1 in
    if max_input_value <? value
    then throw "Input value = %1% is too big. Max value for n_bits = %2% is %3%."
    else Ok tt
  else Ok tt.

(** The [while(n_written < number_of_bits)] loop of [write_ex]; every turn
    writes at least one bit, so [number_of_bits] turns of fuel suffice. *)
Fixpoint write_ex_loop (fuel : nat) (value number_of_bits n_written : Z)
    (d : list Z) (e : Z) : result (list Z * Z) :=
  match fuel with
  | O => Ok (d, e)
  | S fuel' =>
    if n_written <? number_of_bits then
      let current_shift := e mod BitsPerItem in
      let d1 := if current_shift =? 0 then d ++ [0] else d in
      let delta := number_of_bits - n_written in
      let n_to_write := Z.min (BitsPerItem - current_shift) delta in
      let mask := Mask n_to_write in
      let masked_value := Z.land (Z.shiftr value n_written) mask in
      let max_to_write := Z.shiftl 1 n_to_write - 1 in
      if max_to_write <? masked_value then throw "shifted value is too big" else
      let value_to_write := sz (Z.shiftl masked_value current_shift) in
      write_ex_loop fuel' value number_of_bits (n_written + n_to_write)
        (or_back value_to_write d1) (e + n_to_write)
    else Ok (d, e)
  end.

(** A mutating member function returns the object as it is when it returns
    or throws, and the exception if any. *)
Definition write_ex (p : Package) (value number_of_bits : Z) : Package * option error :=
  match check_width value number_of_bits with
  | Err e => (p, Some e)
  | Ok _ =>
    match write_ex_loop (Z.to_nat number_of_bits) value number_of_bits 0 (data p) (end_pos p) with
    | Ok (d, e) => (mkPackage d (begin_pos p) e (readout_positions p), None)
    | Err er => (p, Some er)
    end
  end.

(** The loop of [write(value, n)]: bit [n - k - 1] for k = 0 .. n-1. *)
Fixpoint write_loop (fuel : nat) (value number_of_bits n : Z) (p : Package)
    : Package * option error :=
  match fuel with
  | O => (p, None)
  | S fuel' =>
    if n <? number_of_bits then
      let shift := number_of_bits - n - 1 in
      let bit := Z.land (Z.shiftr value shift) 1 in
      match write_ex p bit 1 with
      | (p', None) => write_loop fuel' value number_of_bits (n + 1) p'
      | (p', Some e) => (p', Some e)
      end
    else (p, None)
  end.

Definition write (p : Package) (value number_of_bits : Z) : Package * option error :=
  match check_width value number_of_bits with
  | Err e => (p, Some e)
  | Ok _ => write_loop (Z.to_nat number_of_bits) value number_of_bits 0 p
  end.

Definition next_readout_cicle (p : Package) : Package :=
  mkPackage (data p) (begin_pos p) (end_pos p) (readout_positions p ++ [end_pos p]).

(** [operator==]: compares the bit sizes and then [data.at(n)] against
    [other.data.at(n)] for every index of [data]. *)
Fixpoint data_eq (d o : list Z) (n : Z) : result bool :=
  match d with
  | [] => Ok true
  | b :: d' =>
    let* ob := vat o n in
    if negb (b =? ob) then Ok false else data_eq d' o (n + 1)
  end.

Definition package_eq (p other : Package) : result bool :=
  if negb (end_pos p =? end_pos other) then Ok false
  else data_eq (data p) (data other) 0.

(** [iterator::read_ex]: the loop over the bytes. *)
Fixpoint read_ex_loop (fuel : nat) (d : list Z) (number_of_bits n_read pos res : Z)
    : result (Z * Z) :=
  match fuel with
  | O => Ok (res, pos)
  | S fuel' =>
    if n_read <? number_of_bits then
      let shift := pos mod BitsPerItem in
      let n_to_read := Z.min (BitsPerItem - shift) (number_of_bits - n_read) in
      let* byte := vat d (pos / BitsPerItem) in
      let x := Z.shiftr byte shift in
      let x := Z.land x (Mask n_to_read) in
      let x := sz (Z.shiftl x n_read) in
      read_ex_loop fuel' d number_of_bits (n_read + n_to_read) (pos + n_to_read) (Z.lor res x)
    else Ok (res, pos)
  end.

(** [iterator::read_ex(n, use_zeros_for_missing_data)] on an iterator at
    [pos] of [p]: the value read and the new iterator position. *)
Definition read_ex (p : Package) (pos number_of_bits_requested : Z) (use_zeros : bool)
    : result (Z * Z) :=
  if 64 <? number_of_bits_requested then throw "Number of bits to read is too big." else
  let bits_left := sz (end_pos p - pos) in
  if (bits_left <? number_of_bits_requested) && negb use_zeros
  then throw "No enough data in the package to perform read operation. Number of bits requested = %1%, number of bits left = %2%."
  else
  let number_of_bits := Z.min number_of_bits_requested bits_left in
  let* (res, pos') := read_ex_loop (Z.to_nat number_of_bits) (data p) number_of_bits 0 pos 0 in
  Ok (sz (Z.shiftl res (number_of_bits_requested - number_of_bits)), pos').

(** [iterator::read]: one [read_ex(1, false)] per bit, most significant first. *)
Fixpoint read_loop (fuel : nat) (p : Package) (number_of_bits n_read pos res : Z)
    : result (Z * Z) :=
  match fuel with
  | O => Ok (res, pos)
  | S fuel' =>
    if n_read <? number_of_bits then
      let* (bit, pos') := read_ex p pos 1 false in
      read_loop fuel' p number_of_bits (n_read + 1) pos' (sz (sz (Z.shiftl res 1) + bit))
    else Ok (res, pos)
  end.

Definition read (p : Package) (pos number_of_bits_requested : Z) (use_zeros : bool)
    : result (Z * Z) :=
  if 64 <? number_of_bits_requested then throw "Number of bits to read is too big." else
  let bits_left := sz (end_pos p - pos) in
  if (bits_left <? number_of_bits_requested) && negb use_zeros
  then throw "No enough data in the package to perform read operation. Number of bits requested = %1%, number of bits left = %2%."
  else
  let number_of_bits := Z.min number_of_bits_requested bits_left in
  let* (res, pos') := read_loop (Z.to_nat number_of_bits) p number_of_bits 0 pos 0 in
  Ok (sz (Z.shiftl res (number_of_bits_requested - number_of_bits)), pos').

Definition BitsPerByte : Z := 8.

(** [finalize_byte]: zero bits up to the next byte boundary. *)
Definition finalize_byte (p : Package) : Package * option error :=
  let n_written := end_pos p mod BitsPerByte in
  let n_to_write := if n_written =? 0 then 0 else BitsPerByte - n_written in
  write p 0 n_to_write.

(** [iterator::operator-] between two iterators of the same package. *)
Definition iter_sub (pos other_pos : Z) : result Z :=
  if pos <? other_pos then throw "Negative difference between iterators is not supported."
  else Ok (pos - other_pos).

(** The loop of [write(const Package& other)], for [other] a package other
    than [*this]: [min(64, other.end() - iter)] bits are read with [read]
    and written back with [write] until the iterator reaches [other.end()].
    Every turn moves the iterator forward, so [other.end() - other.begin()]
    turns and the final test are all the fuel the loop can use. *)
Fixpoint write_package_loop (fuel : nat) (other : Package) (pos : Z) (p : Package)
    : Package * option error :=
  match fuel with
  | O => (p, None)
  | S fuel' =>
    if pos =? end_pos other then (p, None) else
    match iter_sub (end_pos other) pos with
    | Err e => (p, Some e)
    | Ok d =>
      let n_to_read := Z.min BitsPerInteger d in
      match read other pos n_to_read false with
      | Err e => (p, Some e)
      | Ok (value, pos') =>
        match write p value n_to_read with
        | (p', None) => write_package_loop fuel' other pos' p'
        | (p', Some e) => (p', Some e)
        end
      end
    end
  end.

Definition write_package (p other : Package) : Package * option error :=
  write_package_loop (S (Z.to_nat (end_pos other - begin_pos other))) other (begin_pos other) p.

End Pkg.

(* ------------------------------------------------------------------ *)
(** ** The bit view of a package *)

Module PkgView.
Import Pkg.

(** Bit [i] of the stream lives at bit [i mod 8] of byte [i / 8]. *)
Definition bit_at (d : list Z) (i : Z) : bool :=
  Z.testbit (nth (Z.to_nat (i / 8)) d 0) (i mod 8).

(** The shape every package built by the operations has: one byte per
    started group of 8 bits, bytes in [0, 256), and no bit set at or after
    the end position. *)
Definition wfd (d : list Z) (e : Z) : Prop :=
  0 <= e /\ length d = Z.to_nat ((e + 7) / 8) /\
  Forall (fun b => 0 <= b < 256) d /\
  forall i, e <= i -> bit_at d i = false.

Definition wf (p : Package) : Prop := wfd (data p) (end_pos p).

(** The packages a program can hold: the empty package, and whatever the
    writers, [next_readout_cicle] and the copy constructor return from one
    of them, for [uint64_t] values and [size_t] widths. *)
Inductive built : Package -> Prop :=
  | built_empty : built empty
  | built_write_ex p value n :
      built p -> 0 <= value < 2 ^ 64 -> 0 <= n -> built (fst (write_ex p value n))
  | built_write p value n :
      built p -> 0 <= value < 2 ^ 64 -> 0 <= n -> built (fst (write p value n))
  | built_next p : built p -> built (next_readout_cicle p)
  | built_copy p : built p -> built (copy p).

(** The value of the [m] stream bits from [pos] on, read most significant
    first. *)
Fixpoint bits_msb (d : list Z) (pos : Z) (m : nat) : Z :=
  match m with
  | O => 0
  | S m' => Z.b2z (bit_at d pos) * 2 ^ Z.of_nat m' + bits_msb d (pos + 1) m'
  end.

End PkgView.

(* ------------------------------------------------------------------ *)
(** ** Geometry (Pixel.h, Chip.h, Chip.cc) *)

Module Geo.

(** [Pixel = Position<int16_t>]. *)
Record Pixel := mkPixel { row : Z; column : Z }.

Definition pixel_eqb (a b : Pixel) : bool := (row a =? row b) && (column a =? column b).

Record RegionLayout := mkRegionLayout { n_rows : Z; n_columns : Z }.

Definition make_RegionLayout (n_rows n_columns : Z) : result RegionLayout :=
  if (n_rows =? 0) || (n_columns =? 0) then throw "Invalid region dimensions %1%x%2%."
  else Ok (mkRegionLayout n_rows n_columns).

(** [CheckPixel]: [size_t(pixel.row)] of a non-negative [int16_t] is the
    row itself. *)
Definition CheckPixel (l : RegionLayout) (pixel : Pixel) : result unit :=
  if (row pixel <? 0) || (n_rows l <=? row pixel)
  then throw "Pixel %1% = %2% is outside of the region interval [0, %3%]." else
  if (column pixel <? 0) || (n_columns l <=? column pixel)
  then throw "Pixel %1% = %2% is outside of the region interval [0, %3%]."
  else Ok tt.

Definition IsPixelInside (l : RegionLayout) (pixel : Pixel) : bool :=
  (0 <=? row pixel) && (row pixel <? n_rows l) && (0 <=? column pixel) && (column pixel <? n_columns l).

Definition GetPixelId (l : RegionLayout) (pixel : Pixel) : result Z :=
  let* _ := CheckPixel l pixel in
  Ok (sz (sz (row pixel) * n_columns l + sz (column pixel))).

(** [GetPixel]: the [size_t] row and column are narrowed to [int16_t] by
    the [Pixel] constructor before [CheckPixel]. *)
Definition GetPixel (l : RegionLayout) (pixel_id : Z) : result Pixel :=
  let column := pixel_id mod n_columns l in
  let row := (pixel_id - column) / n_columns l in
  let pixel := mkPixel (to_i16 row) (to_i16 column) in
  let* _ := CheckPixel l pixel in
  Ok pixel.

Definition GetNumberOfPixels (l : RegionLayout) : Z := sz (n_rows l * n_columns l).

(** [std::ceil(static_cast<double>(a) / b)] converted back to [size_t]:
    the exact ceiling of the quotient (the double quotient is exact for the
    operands below 2^53 considered here).  A zero divisor gives 0 here,
    which the constructors then reject. *)
Definition ceil_div (a b : Z) : Z := if b =? 0 then 0 else (a + b - 1) / b.

(** [BitsPerValue(v) = ceil(log2(double(v)))]. *)
Definition BitsPerValue (max_value : Z) : Z := Z.log2_up max_value.

Record MultiRegionLayout := mkMultiRegionLayout {
  base : RegionLayout;
  region_layout : RegionLayout;
  n_region_rows : Z;
  n_region_columns : Z;
  n_last_region_rows : Z;
  n_last_region_columns : Z
}.

(** [MultiRegionLayout(n_rows, n_columns, region_layout)]. *)
Definition make_MultiRegionLayout (n_rows n_columns : Z) (rl : RegionLayout)
    : result MultiRegionLayout :=
  let* b := make_RegionLayout n_rows n_columns in
  let nrr := ceil_div n_rows (Geo.n_rows rl) in
  let nrc := ceil_div n_columns (Geo.n_columns rl) in
  if (nrr =? 0) || (nrc =? 0) then throw "Invalid multi-region layout." else
  Ok (mkMultiRegionLayout b rl nrr nrc
        (sz (n_rows - sz ((nrr - 1) * Geo.n_rows rl)))
        (sz (n_columns - sz ((nrc - 1) * Geo.n_columns rl)))).

(** [MultiRegionLayout(n_rows, n_columns, n_region_rows, n_region_columns)]:
    the region size is derived from the requested counts, the counts are
    then recomputed from the region size. *)
Definition make_MultiRegionLayout4 (n_rows n_columns req_rows req_columns : Z)
    : result MultiRegionLayout :=
  let* b := make_RegionLayout n_rows n_columns in
  let rr := ceil_div n_rows req_rows in
  let rc := ceil_div n_columns req_columns in
  let nrr := ceil_div n_rows rr in
  let nrc := ceil_div n_columns rc in
  if (nrr =? 0) || (nrc =? 0) then throw "Invalid multi-region layout." else
  Ok (mkMultiRegionLayout b (mkRegionLayout rr rc) nrr nrc
        (sz (n_rows - sz ((nrr - 1) * rr)))
        (sz (n_columns - sz ((nrc - 1) * rc)))).

Definition GetNumberOfRegions (m : MultiRegionLayout) : Z :=
  sz (n_region_rows m * n_region_columns m).

(** [ConvertToRegionPixel]: the [int16_t] coordinates are converted to
    [size_t] for the division by the region size. *)
Definition ConvertToRegionPixel (m : MultiRegionLayout) (pixel : Pixel) : Z * Pixel :=
  let rl := region_layout m in
  let region_row_index := sz (row pixel) / n_rows rl in
  let region_column_index := sz (column pixel) / n_columns rl in
  let region_id := sz (sz (region_row_index * n_region_columns m) + region_column_index) in
  (region_id, mkPixel (to_i16 (sz (row pixel) mod n_rows rl))
                      (to_i16 (sz (column pixel) mod n_columns rl))).

Definition ConvertFromRegionPixel (m : MultiRegionLayout) (region_id : Z) (region_pixel : Pixel)
    : Pixel :=
  let rl := region_layout m in
  let region_column_index := region_id mod n_region_columns m in
  let region_row_index := (region_id - region_column_index) / n_region_columns m in
  mkPixel (to_i16 (sz (sz (region_row_index * n_rows rl) + sz (row region_pixel))))
          (to_i16 (sz (sz (region_column_index * n_columns rl) + sz (column region_pixel)))).

Definition GetRegionId (m : MultiRegionLayout) (region_row_index region_column_index : Z) : Z :=
  sz (sz (region_row_index * n_region_columns m) + region_column_index).

Definition ActualRegionLayout (m : MultiRegionLayout) (region_id : Z) : result RegionLayout :=
  let region_column_index := region_id mod n_region_columns m in
  let region_row_index := (region_id - region_column_index) / n_region_columns m in
  let region_n_columns := if sz (region_column_index + 1) =? n_region_columns m
                          then n_last_region_columns m else n_columns (region_layout m) in
  let region_n_rows := if sz (region_row_index + 1) =? n_region_rows m
                       then n_last_region_rows m else n_rows (region_layout m) in
  make_RegionLayout region_n_rows region_n_columns.

(** [IsRegionComplete]: the actual layout of the region equals the
    nominal region layout ([RegionLayout::operator==]). *)
Definition IsRegionComplete (m : MultiRegionLayout) (region_id : Z) : result bool :=
  let* actual_region_layout := ActualRegionLayout m region_id in
  Ok ((n_rows actual_region_layout =? n_rows (region_layout m)) &&
      (n_columns actual_region_layout =? n_columns (region_layout m))).

(** The multi-region layouts the constructors build from [size_t]
    arguments; the delegating constructors are instances of these two. *)
Inductive constructed : MultiRegionLayout -> Prop :=
  | constructed3 nr nc rr rc m :
      0 <= nr < 2 ^ 64 -> 0 <= nc < 2 ^ 64 -> 0 <= rr < 2 ^ 64 -> 0 <= rc < 2 ^ 64 ->
      (let* rl := make_RegionLayout rr rc in make_MultiRegionLayout nr nc rl) = Ok m ->
      constructed m
  | constructed4 nr nc a b m :
      0 <= nr < 2 ^ 64 -> 0 <= nc < 2 ^ 64 -> 0 <= a < 2 ^ 64 -> 0 <= b < 2 ^ 64 ->
      make_MultiRegionLayout4 nr nc a b = Ok m -> constructed m.

Definition layout_eqb (a b : RegionLayout) : bool :=
  (n_rows a =? n_rows b) && (n_columns a =? n_columns b).

(** [MultiRegionLayout::operator==]: the region layout and the region
    counts; the total size is not compared. *)
Definition multi_layout_eqb (a b : MultiRegionLayout) : bool :=
  layout_eqb (region_layout a) (region_layout b) && (n_region_rows a =? n_region_rows b)
  && (n_region_columns a =? n_region_columns b).

End Geo.

(* ------------------------------------------------------------------ *)
(** ** AlphabetStatisticsCollection (AlphabetStatisticsCollection.h) *)

Module Coll.

Inductive AlphabetType := Adc | ActiveAdc | DeltaRow | DeltaColumn | DeltaRowColumn.

(** The [StatisticsMap], name to statistics, for statistics of type [S]. *)
Definition Collection (S : Type) := gmap string S.

Definition at_name {S} (c : Collection S) (name : string) : result S :=
  match c !! name with
  | Some s => Ok s
  | None => throw "Alphabet statistics '%1%' not found."
  end.

(** The static [alphabetTypeNames] map, with its three entries. *)
Definition alphabetTypeNames (t : AlphabetType) : option string :=
  match t with
  | Adc => Some "all_adc"
  | ActiveAdc => Some "active_adc"
  | DeltaRowColumn => Some "delta_row_column"
  | DeltaRow | DeltaColumn => None
  end.

(** [at(alphabet_type)]: [alphabetTypeNames.at] throws [std::out_of_range]
    for a type without an entry. *)
Definition at_type {S} (c : Collection S) (t : AlphabetType) : result S :=
  match alphabetTypeNames t with
  | Some name => at_name c name
  | None => Err OutOfRange
  end.

End Coll.

(* ------------------------------------------------------------------ *)
(** ** AlphabetStatisticsProducer (AlphabetStatisticsProducer::Reduce) *)

Module Prod.

Definition IntegerMax : Z := 2 ^ 64 - 1.

(** Letters are integers; [Integer] is [uint64_t]. *)
Record Producer := mkProducer {
  name : string;
  n_counts : Z;
  letter_frequencies : gmap Z Z
}.

(** [AlphabetStatisticsProducer(name, alphabet)]: every letter of the
    alphabet starts with frequency 0. *)
Definition make_with_alphabet (nm : string) (alphabet : list Z) : Producer :=
  mkProducer nm 0 (foldl (fun m l => <[l := 0]> m) ∅ alphabet).

(** The copy constructor keeps the name. *)
Definition copy (other : Producer) : Producer :=
  mkProducer (name other) (n_counts other) (letter_frequencies other).

Definition IntegerLimitIsReached (p : Producer) : bool := n_counts p =? IntegerMax.

(** [AddCount]: [++letter_frequencies[letter]] creates a missing letter
    with 0 first. *)
Definition AddCount (p : Producer) (letter : Z) : Producer :=
  if IntegerLimitIsReached p then p else
  let f := default 0 (letter_frequencies p !! letter) in
  mkProducer (name p) (sz (n_counts p + 1)) (<[letter := sz (f + 1)]> (letter_frequencies p)).

(** The comparator given to [std::sort], as the induced non-strict order:
    by frequency, and among equal frequencies the larger letter first. *)
Definition freq_le (a b : Z * Z) : Prop :=
  ((a.2 <? b.2) || ((a.2 =? b.2) && (b.1 <=? a.1))) = true.

#[global] Instance freq_le_dec : RelDecision freq_le.
Proof. intros a b. unfold freq_le. apply _. Defined.

(** [GetFrequenceyOrderedLetters]: the comparator is a strict total order
    on entries with distinct letters, so the sorted vector is unique and
    any sorting algorithm gives it; a merge sort stands for [std::sort]. *)
Definition GetFrequenceyOrderedLetters (p : Producer) : result (list (Z * Z)) :=
  if n_counts p =? 0 then throw "Statistics is not available for '%1%'."
  else Ok (merge_sort freq_le (map_to_list (letter_frequencies p))).

(** The loop [for(n = 0; n < new_alphabet_size - 1; ++n)] of [Reduce]. *)
Fixpoint reduce_loop (fuel : nat) (ordered_letters : list (Z * Z)) (n bound : Z)
    (freqs : gmap Z Z) (count : Z) : result (gmap Z Z * Z) :=
  match fuel with
  | O => Ok (freqs, count)
  | S fuel' =>
    if n <? bound then
      let index := sz (Z.of_nat (length ordered_letters) - n - 1) in
      let* (letter, frequency) := vat ordered_letters index in
      reduce_loop fuel' ordered_letters (n + 1) bound (<[letter := frequency]> freqs)
        (sz (count + frequency))
    else Ok (freqs, count)
  end.

Definition Reduce (p : Producer) (new_alphabet_size : Z) (new_name : string) (special_letter : Z)
    : result Producer :=
  if new_alphabet_size <=? 1 then throw "New alphabet size = %1% is too small." else
  if bool_decide (is_Some (letter_frequencies p !! special_letter))
  then throw "Special letter '%1%' already present in the alphabet." else
  let* ordered_letters := GetFrequenceyOrderedLetters p in
  if Z.of_nat (length ordered_letters) <=? new_alphabet_size then Ok (copy p) else
  let bound := sz (new_alphabet_size - 1) in
  let* (freqs, count) := reduce_loop (Z.to_nat bound) ordered_letters 0 bound ∅ 0 in
  Ok (mkProducer new_name (n_counts p)
        (<[special_letter := sz (n_counts p - count)]> freqs)).

(** The producers a program can hold, for [size_t] alphabet sizes (a
    [std::map] holds fewer than 2^64 entries). *)
Inductive reachable : Producer -> Prop :=
  | reachable_new nm alphabet :
      Z.of_nat (size (letter_frequencies (make_with_alphabet nm alphabet))) < 2 ^ 64 ->
      reachable (make_with_alphabet nm alphabet)
  | reachable_add p letter :
      reachable p -> Z.of_nat (size (letter_frequencies (AddCount p letter))) < 2 ^ 64 ->
      reachable (AddCount p letter)
  | reachable_copy p : reachable p -> reachable (copy p)
  | reachable_reduce p k nm sp p' :
      reachable p -> 0 <= k < 2 ^ 64 -> Reduce p k nm sp = Ok p' -> reachable p'.

(** The sum of the frequencies of a map, over its entries. *)
Definition freq_sum (l : list (Z * Z)) : Z := fold_right (fun e acc => e.2 + acc) 0 l.

Definition total (m : gmap Z Z) : Z := freq_sum (map_to_list m).

End Prod.

(* ------------------------------------------------------------------ *)
(** ** HuffmanCode and HuffmanTree *)

Module Huff.

(** [HuffmanCode]: a [uint64_t] code with its number of bits; bit [n] of
    the code is the [n]-th appended bit. *)
Record HuffmanCode := mkHuffmanCode { code : Z; n_bits : Z }.

Definition MaxNumberOfBits : Z := 64.

(** [HuffmanCode()]. *)
Definition code0 : HuffmanCode := mkHuffmanCode 0 0.

(** [operator==] (also the equivalence of [operator<]). *)
Definition code_eqb (a b : HuffmanCode) : bool :=
  (code a =? code b) && (n_bits a =? n_bits b).

(** [HuffmanCode(prefix, _code)], i.e. [Append]. *)
Definition Append (c : HuffmanCode) (bit : bool) : result HuffmanCode :=
  if n_bits c + 1 >? MaxNumberOfBits then throw "Huffman code is too long." else
  Ok (mkHuffmanCode (sz (Z.lor (sz (Z.shiftl (Z.b2z bit) (n_bits c))) (code c)))
                    (sz (n_bits c + 1))).

(** The nodes of the tree.  A leaf is a node registered in [letter_nodes],
    so it carries its letter; a combined node carries its two daughters. *)
Inductive Node :=
  | Leaf (letter : Z) (frequency : Z)
  | Cmb (first second : Node) (frequency : Z).

Definition frequency (n : Node) : Z :=
  match n with Leaf _ f => f | Cmb _ _ f => f end.

(** [Node(first_daughter, second_daughter)]: the frequency is a [uint64_t] sum. *)
Definition make_cmb (first second : Node) : Node :=
  Cmb first second (sz (frequency first + frequency second)).

(** [boost::bimap::insert]: refused if the letter or the code is already in
    the table. *)
Definition HuffmanTable := list (Z * HuffmanCode).

Definition table_insert (table : HuffmanTable) (e : Z * HuffmanCode) : HuffmanTable :=
  if existsb (fun x => (x.1 =? e.1) || code_eqb x.2 e.2) table then table
  else table ++ [e].

(** [BuildTable]. *)
Fixpoint BuildTable (node : Node) (c : HuffmanCode) (table : HuffmanTable)
    : result HuffmanTable :=
  match node with
  | Leaf letter _ => Ok (table_insert table (letter, c))
  | Cmb first second _ =>
      let* c0 := Append c false in
      let* table := BuildTable first c0 table in
      let* c1 := Append c true in
      BuildTable second c1 table
  end.

(** The merge loop of the constructor, for a priority queue given by its
    [top]-then-[pop] operation [pop_top] ([None] on an empty queue) and
    [push] at the back of the container. *)
Fixpoint merge_loop (pop_top : list Node -> option (Node * list Node))
    (fuel : nat) (queue : list Node) : list Node :=
  match fuel with
  | O => queue
  | S fuel' =>
    if (1 <? length queue)%nat then
      match pop_top queue with
      | Some (first, q1) =>
        match pop_top q1 with
        | Some (second, q2) => merge_loop pop_top fuel' (q2 ++ [make_cmb first second])
        | None => queue
        end
      | None => queue
      end
    else queue
  end.

(** [std::map] iterates in key order. *)
Definition key_le (a b : Z * Z) : Prop := a.1 <= b.1.
#[global] Instance key_le_dec : RelDecision key_le.
Proof. intros a b. unfold key_le. apply _. Defined.

Definition map_entries (m : gmap Z Z) : list (Z * Z) := merge_sort key_le (map_to_list m).

(** The constructor of [HuffmanTree] followed by [GetTable]; [top()] of an
    empty queue (an empty letter map) is undefined behaviour. *)
Definition HuffmanTree (pop_top : list Node -> option (Node * list Node))
    (letter_frequencies : gmap Z Z) : result HuffmanTable :=
  let leaves := map (fun e => Leaf e.1 (Z.max 1 e.2)) (map_entries letter_frequencies) in
  match merge_loop pop_top (length leaves) leaves with
  | root_node :: _ => BuildTable root_node code0 []
  | [] => throw "top() of an empty priority queue"
  end.

(** A [std::priority_queue] ordered by [first->frequency > second->frequency]
    has a node of least frequency on top; among equal frequencies the
    standard leaves the choice open.  [pop_min] takes the first of them in
    the container. *)
Fixpoint select_min (best : Node) (rest : list Node) : Node * list Node :=
  match rest with
  | [] => (best, [])
  | x :: rest' =>
    if frequency x <? frequency best then
      let '(b, r) := select_min x rest' in (b, best :: r)
    else
      let '(b, r) := select_min best rest' in (b, x :: r)
  end.

Definition pop_min (queue : list Node) : option (Node * list Node) :=
  match queue with
  | [] => None
  | x :: rest => Some (select_min x rest)
  end.

(** A proper prefix in append order: the first [n_bits a] bits of [b] are [a]. *)
Definition is_proper_prefix (a b : HuffmanCode) : Prop :=
  n_bits a < n_bits b /\ code b mod 2 ^ n_bits a = code a.

(** Views of a tree: its letters, the path to each leaf (the bits appended
    on the way down) and its depth. *)
Fixpoint leaves (n : Node) : list Z :=
  match n with
  | Leaf l _ => [l]
  | Cmb a b _ => leaves a ++ leaves b
  end.

Fixpoint leaf_paths (n : Node) : list (Z * list bool) :=
  match n with
  | Leaf l _ => [(l, [])]
  | Cmb a b _ =>
      map (fun e => (e.1, false :: e.2)) (leaf_paths a) ++
      map (fun e => (e.1, true :: e.2)) (leaf_paths b)
  end.

Fixpoint depth (n : Node) : nat :=
  match n with
  | Leaf _ _ => 0
  | Cmb a b _ => S (Nat.max (depth a) (depth b))
  end.

(** The value of a path as a code, first bit least significant. *)
Fixpoint path_value (p : list bool) : Z :=
  match p with
  | [] => 0
  | b :: p' => Z.b2z b + 2 * path_value p'
  end.

Definition path_code (p : list bool) : HuffmanCode :=
  mkHuffmanCode (path_value p) (Z.of_nat (length p)).

End Huff.

(* ------------------------------------------------------------------ *)
(** ** Sample inputs *)

Module Samples.

(** A producer of 16 counts over the letters 1..4. *)
Definition reduce_example : Prod.Producer :=
  foldl Prod.AddCount (Prod.make_with_alphabet "adc" [1; 2; 3; 4])
    [1; 1; 1; 1; 1; 2; 2; 2; 3; 3; 3; 3; 3; 3; 3; 4].

(** 66 letters with pairwise distinct frequencies, each above the sum of
    all but the last two smaller ones (a Fibonacci-like growth, total about
    1.2e14): at every step the two nodes taken from the queue are strictly
    the two least frequent ones, and the tree is a chain of depth 65. *)
Definition huffman_deep : gmap Z Z :=
  list_to_map [(1, 1); (2, 2); (3, 4); (4, 5); (5, 8); (6, 13); (7, 21); (8, 34); (9, 55); (10, 89); (11, 144); (12, 233); (13, 377); (14, 610); (15, 987); (16, 1597); (17, 2584); (18, 4181); (19, 6765); (20, 10946); (21, 17711); (22, 28657); (23, 46368); (24, 75025); (25, 121393); (26, 196418); (27, 317811); (28, 514229); (29, 832040); (30, 1346269); (31, 2178309); (32, 3524578); (33, 5702887); (34, 9227465); (35, 14930352); (36, 24157817); (37, 39088169); (38, 63245986); (39, 102334155); (40, 165580141); (41, 267914296); (42, 433494437); (43, 701408733); (44, 1134903170); (45, 1836311903); (46, 2971215073); (47, 4807526976); (48, 7778742049); (49, 12586269025); (50, 20365011074); (51, 32951280099); (52, 53316291173); (53, 86267571272); (54, 139583862445); (55, 225851433717); (56, 365435296162); (57, 591286729879); (58, 956722026041); (59, 1548008755920); (60, 2504730781961); (61, 4052739537881); (62, 6557470319842); (63, 10610209857723); (64, 17167680177565); (65, 27777890035288); (66, 44945570212853)].

Definition huffman_small : gmap Z Z := list_to_map [(1, 5); (2, 3); (3, 7); (4, 1)].

End Samples.

(* ------------------------------------------------------------------ *)
(** ** Chip (PixelRegion, PixelMultiRegion) and the single-pixel encoder *)

Module Chips.

(** [Position::operator<]: by row, then by column. *)
Definition pixel_ltb (a b : Geo.Pixel) : bool :=
  (Geo.row a <? Geo.row b) || ((Geo.row a =? Geo.row b) && (Geo.column a <? Geo.column b)).

(** [PixelWithAdcMap = std::map<Pixel, Adc>] as its ordered entries;
    [Adc] is [uint16_t]. *)
Fixpoint map_insert (p : Geo.Pixel) (adc : Z) (m : list (Geo.Pixel * Z)) : list (Geo.Pixel * Z) :=
  match m with
  | [] => [(p, adc)]
  | (q, a) :: m' => if pixel_ltb p q then (p, adc) :: m else (q, a) :: map_insert p adc m'
  end.

Record PixelRegion := mkPixelRegion {
  region_layout : Geo.RegionLayout;
  pixels : list (Geo.Pixel * Z)
}.

(** [PixelRegion::AddPixel]. *)
Definition AddPixel_region (r : PixelRegion) (pixel : Geo.Pixel) (adc : Z) : result PixelRegion :=
  let* _ := Geo.CheckPixel (region_layout r) pixel in
  if existsb (fun e => Geo.pixel_eqb e.1 pixel) (pixels r) then throw "Pixel is alrady present."
  else Ok (mkPixelRegion (region_layout r) (map_insert pixel (adc mod 2 ^ 16) (pixels r))).

(** [PixelMultiRegion]: its [PixelRegion] base, its layout and the vector
    of region pointers ([None] for a null pointer). *)
Record PixelMultiRegion := mkPixelMultiRegion {
  base_region : PixelRegion;
  multi_region_layout : Geo.MultiRegionLayout;
  regions : list (option PixelRegion)
}.

(** [AddPixelToRegion]. *)
Definition AddPixelToRegion (c : PixelMultiRegion) (pixel : Geo.Pixel) (adc : Z)
    : result PixelMultiRegion :=
  let ml := multi_region_layout c in
  if Geo.GetNumberOfRegions ml <=? 1 then Ok c else
  let '(region_id, region_pixel) := Geo.ConvertToRegionPixel ml pixel in
  let* slot := vat (regions c) region_id in
  let region := match slot with
                | Some r => r
                | None => mkPixelRegion (Geo.region_layout ml) []
                end in
  let* region' := AddPixel_region region region_pixel adc in
  Ok (mkPixelMultiRegion (base_region c) ml (<[Z.to_nat region_id := Some region']> (regions c))).

(** [CreateRegions]. *)
Definition CreateRegions (c : PixelMultiRegion) : result PixelMultiRegion :=
  let n := Geo.GetNumberOfRegions (multi_region_layout c) in
  if 1 <? n then
    fold_left (fun acc e => let* c' := acc in AddPixelToRegion c' e.1 e.2)
      (pixels (base_region c))
      (Ok (mkPixelMultiRegion (base_region c) (multi_region_layout c) (repeat None (Z.to_nat n))))
  else Ok c.

(** [PixelMultiRegion(const MultiRegionLayout&)]. *)
Definition make_Chip (layout : Geo.MultiRegionLayout) : result PixelMultiRegion :=
  CreateRegions (mkPixelMultiRegion (mkPixelRegion (Geo.base layout) []) layout []).

(** [PixelMultiRegion(original, n_region_rows, n_region_columns)]. *)
Definition split_Chip (original : PixelMultiRegion) (n_region_rows n_region_columns : Z)
    : result PixelMultiRegion :=
  let rl := region_layout (base_region original) in
  let* ml := Geo.make_MultiRegionLayout4 (Geo.n_rows rl) (Geo.n_columns rl)
               n_region_rows n_region_columns in
  CreateRegions (mkPixelMultiRegion (base_region original) ml []).

(** [PixelMultiRegion::AddPixel]. *)
Definition AddPixel (c : PixelMultiRegion) (pixel : Geo.Pixel) (adc : Z) : result PixelMultiRegion :=
  let* b := AddPixel_region (base_region c) pixel adc in
  AddPixelToRegion (mkPixelMultiRegion b (multi_region_layout c) (regions c)) pixel adc.

Definition IsRegionActive (c : PixelMultiRegion) (region_id : Z) : result bool :=
  let n := Geo.GetNumberOfRegions (multi_region_layout c) in
  if n <=? region_id then throw "Invalid region id = %1%." else
  if n =? 1 then Ok (negb (length (pixels (base_region c)) =? 0)%nat) else
  let* slot := vat (regions c) region_id in
  Ok (bool_decide (is_Some slot)).

Definition GetRegion (c : PixelMultiRegion) (region_id : Z) : result PixelRegion :=
  let* active := IsRegionActive c region_id in
  if negb active then throw "Region %1% is not active." else
  if Geo.GetNumberOfRegions (multi_region_layout c) =? 1 then Ok (base_region c) else
  let* slot := vat (regions c) region_id in
  match slot with Some r => Ok r | None => throw "Region %1% is not active." end.

(** [package.write] as a statement that may throw. *)
Definition write_or_throw (p : Pkg.Package) (value n_bits : Z) : result Pkg.Package :=
  match Pkg.write p value n_bits with
  | (p', None) => Ok p'
  | (_, Some e) => Err e
  end.

(** [RegionIterator]: the pixels and [current_position]. *)
Record RegionIterator := mkRegionIterator {
  it_pixels : list (Geo.Pixel * Z);
  current_position : Z
}.

Definition has_current (it : RegionIterator) : bool :=
  current_position it <? Z.of_nat (length (it_pixels it)).

Fixpoint mapM {A B} (f : A -> result B) (l : list A) : result (list B) :=
  match l with
  | [] => Ok []
  | x :: l' => let* y := f x in let* ys := mapM f l' in Ok (y :: ys)
  end.

(** One pass of the inner [for] over the region iterators. *)
Fixpoint make_round (ml : Geo.MultiRegionLayout) (n_bits_per_pixel_id n_bits_per_adc : Z)
    (its : list RegionIterator) (package : Pkg.Package)
    : result (list RegionIterator * Pkg.Package) :=
  match its with
  | [] => Ok ([], package)
  | it :: rest =>
    if has_current it then
      let* (pixel, adc) := vat (it_pixels it) (current_position it) in
      let* pixel_id := Geo.GetPixelId (Geo.base ml) pixel in
      let* package := write_or_throw package pixel_id n_bits_per_pixel_id in
      let* package := write_or_throw package adc n_bits_per_adc in
      let it' := mkRegionIterator (it_pixels it) (sz (current_position it + 1)) in
      let* (rest', package) := make_round ml n_bits_per_pixel_id n_bits_per_adc rest package in
      Ok (it' :: rest', package)
    else
      let* (rest', package) := make_round ml n_bits_per_pixel_id n_bits_per_adc rest package in
      Ok (it :: rest', package)
  end.

(** [for(size_t n = 0; n < max_size; ++n)]. *)
Fixpoint make_loop (fuel : nat) (ml : Geo.MultiRegionLayout) (n_bits_per_pixel_id n_bits_per_adc : Z)
    (n max_size : Z) (its : list RegionIterator) (package : Pkg.Package) : result Pkg.Package :=
  match fuel with
  | O => Ok package
  | S fuel' =>
    if n <? max_size then
      let* (its, package) := make_round ml n_bits_per_pixel_id n_bits_per_adc its package in
      let package := if (sz (n + 1) mod 2 =? 0) || (sz (n + 1) =? max_size)
                     then Pkg.next_readout_cicle package else package in
      make_loop fuel' ml n_bits_per_pixel_id n_bits_per_adc (n + 1) max_size its package
    else Ok package
  end.

(** [DefaultPackageMaker::Make] (the round-robin over macro-regions). *)
Definition DefaultPackageMaker_Make (n_bits_per_adc : Z) (chip : PixelMultiRegion) : result Pkg.Package :=
  let ml := multi_region_layout chip in
  let n_macro_regions := Geo.GetNumberOfRegions ml in
  let n_bits_per_pixel_id := Geo.BitsPerValue (Geo.GetNumberOfPixels (Geo.base ml)) in
  let* its := mapM (fun id =>
      let macro_region_id := Z.of_nat id in
      let* active := IsRegionActive chip macro_region_id in
      if active then
        let* region := GetRegion chip macro_region_id in
        Ok (mkRegionIterator
              (map (fun e => (Geo.ConvertFromRegionPixel ml macro_region_id e.1, e.2)) (pixels region)) 0)
      else Ok (mkRegionIterator [] 0))
    (seq 0 (Z.to_nat n_macro_regions)) in
  let max_size := fold_left (fun m it => Z.max m (Z.of_nat (length (it_pixels it)))) its 0 in
  make_loop (Z.to_nat max_size) ml n_bits_per_pixel_id n_bits_per_adc 0 max_size its Pkg.empty.

(** The loop of [DefaultPackageMaker::Read]: while the iterator is not at
    [package.end()], a pixel id and an ADC (narrowed to the [uint16_t]
    [Adc]) are read, the id is turned into a pixel of the layout and the
    pixel is added to the chip.  [None] when the fuel runs out. *)
Fixpoint read_pixels_loop (fuel : nat) (layout : Geo.MultiRegionLayout)
    (n_bits_per_pixel_id n_bits_per_adc : Z) (package : Pkg.Package) (pos : Z)
    (chip : PixelMultiRegion) : option (result PixelMultiRegion) :=
  match fuel with
  | O => None
  | S fuel' =>
    if pos =? Pkg.end_pos package then Some (Ok chip) else
    match (let* (pixel_id, pos1) := Pkg.read package pos n_bits_per_pixel_id false in
           let* (adc, pos2) := Pkg.read package pos1 n_bits_per_adc false in
           let* pixel := Geo.GetPixel (Geo.base layout) pixel_id in
           let* chip' := AddPixel chip pixel (adc mod 2 ^ 16) in
           Ok (chip', pos2)) with
    | Err e => Some (Err e)
    | Ok (chip', pos2) =>
      read_pixels_loop fuel' layout n_bits_per_pixel_id n_bits_per_adc package pos2 chip'
    end
  end.

(** [DefaultPackageMaker::Read].  Every turn of the loop that does not throw
    moves the iterator forward by [n_bits_per_pixel_id + n_bits_per_adc]
    bits without passing [package.end()], so one turn per bit between
    [begin()] and [end()] and the final test are all the fuel a terminating
    loop can use; [None] stands for the loop that never ends (both widths
    zero on a package that is not empty). *)
Definition DefaultPackageMaker_Read (n_bits_per_adc : Z) (package : Pkg.Package)
    (layout : Geo.MultiRegionLayout) : option (result PixelMultiRegion) :=
  let n_bits_per_pixel_id := Geo.BitsPerValue (Geo.GetNumberOfPixels (Geo.base layout)) in
  match make_Chip layout with
  | Err e => Some (Err e)
  | Ok chip =>
    read_pixels_loop (S (Z.to_nat (sz (Pkg.end_pos package - Pkg.begin_pos package))))
      layout n_bits_per_pixel_id n_bits_per_adc package (Pkg.begin_pos package) chip
  end.

(** [ChipDataEncoder::Encode] for [EncoderFormat::SinglePixel]: the package
    maker is [DefaultPackageMaker(BitsPerValue(max_adc))]. *)
Definition Encode_SinglePixel (chip_layout : Geo.MultiRegionLayout) (max_adc : Z)
    (original_chip : PixelMultiRegion) : result Pkg.Package :=
  let n_bits_per_adc := Geo.BitsPerValue max_adc in
  let* chip := if Geo.multi_layout_eqb (multi_region_layout original_chip) chip_layout
               then Ok original_chip
               else split_Chip original_chip (Geo.n_region_rows chip_layout)
                      (Geo.n_region_columns chip_layout) in
  DefaultPackageMaker_Make n_bits_per_adc chip.

(** [ChipDataEncoder::Decode] for [EncoderFormat::SinglePixel]:
    [package_maker->Read(package, chip_layout)]. *)
Definition Decode_SinglePixel (chip_layout : Geo.MultiRegionLayout) (max_adc : Z)
    (package : Pkg.Package) : option (result PixelMultiRegion) :=
  let n_bits_per_adc := Geo.BitsPerValue max_adc in
  DefaultPackageMaker_Read n_bits_per_adc package chip_layout.

(** [PixelRegion::GetAdc]: [pixels.find(pixel)], 0 when absent. *)
Definition GetAdc (r : PixelRegion) (pixel : Geo.Pixel) : Z :=
  match find (fun e => Geo.pixel_eqb e.1 pixel) (pixels r) with
  | Some e => e.2
  | None => 0
  end.

(** The loop of [HasSamePixels]: both maps are walked in step and
    [*this_iter != *other_iter] compares the pixel and the ADC; the sizes
    are equal there, so both walks end together. *)
Fixpoint same_pixels_loop (a b : list (Geo.Pixel * Z)) : bool :=
  match a, b with
  | x :: a', y :: b' =>
    if Geo.pixel_eqb x.1 y.1 && (x.2 =? y.2) then same_pixels_loop a' b' else false
  | _, _ => true
  end.

(** [PixelRegion::HasSamePixels] (without the debug stream);
    [PixelMultiRegion::operator==] is this on the base region. *)
Definition HasSamePixels (r other : PixelRegion) : bool :=
  if negb (length (pixels r) =? length (pixels other))%nat then false
  else same_pixels_loop (pixels r) (pixels other).

Inductive Ordering := ByRow | ByColumn | ByRegionByRow | ByRegionByColumn.

(** [pixel_orderers::ByRow] and [pixel_orderers::ByColumn]. *)
Definition ByRow_lt (first second : Geo.Pixel * Z) : bool :=
  if Geo.row first.1 =? Geo.row second.1 then Geo.column first.1 <? Geo.column second.1
  else Geo.row first.1 <? Geo.row second.1.

Definition ByColumn_lt (first second : Geo.Pixel * Z) : bool :=
  if Geo.column first.1 =? Geo.column second.1 then Geo.row first.1 <? Geo.row second.1
  else Geo.column first.1 <? Geo.column second.1.

(** The non-strict order induced by a [std::sort] comparator:
    [a] may precede [b] when [b < a] does not hold. *)
Definition sort_le (lt : Geo.Pixel * Z -> Geo.Pixel * Z -> bool) (a b : Geo.Pixel * Z) : Prop :=
  lt b a = false.

#[global] Instance sort_le_dec lt : RelDecision (sort_le lt).
Proof. intros a b. unfold sort_le. apply _. Defined.

(** [PixelRegion::GetOrderedPixels]: both comparators are strict total
    orders on entries with distinct pixels, so the sorted vector is unique
    and a merge sort stands for [std::sort]. *)
Definition GetOrderedPixels_region (r : PixelRegion) (ordering : Ordering)
    : result (list (Geo.Pixel * Z)) :=
  match ordering with
  | ByRow => Ok (merge_sort (sort_le ByRow_lt) (pixels r))
  | ByColumn => Ok (merge_sort (sort_le ByColumn_lt) (pixels r))
  | _ => throw "Unsupported ordering"
  end.

(** A [for] loop over a list whose body may throw. *)
Fixpoint foldM {A B} (f : B -> A -> result B) (l : list A) (b : B) : result B :=
  match l with
  | [] => Ok b
  | x :: l' => let* b' := f b x in foldM f l' b'
  end.

(** The body of the inner loop of [PixelMultiRegion::GetOrderedPixels]:
    the pixels of an active region, back in chip coordinates, are
    appended to [result]. *)
Definition append_region (c : PixelMultiRegion) (res : list (Geo.Pixel * Z)) (region_id : Z)
    : result (list (Geo.Pixel * Z)) :=
  let* active := IsRegionActive c region_id in
  if negb active then Ok res else
  let* region := GetRegion c region_id in
  Ok (res ++ map (fun e => (Geo.ConvertFromRegionPixel (multi_region_layout c) region_id e.1, e.2))
                 (pixels region)).

(** [PixelMultiRegion::GetOrderedPixels]. *)
Definition GetOrderedPixels (c : PixelMultiRegion) (ordering : Ordering)
    : result (list (Geo.Pixel * Z)) :=
  match ordering with
  | ByRow | ByColumn => GetOrderedPixels_region (base_region c) ordering
  | _ =>
    let ml := multi_region_layout c in
    let by_row := match ordering with ByRegionByRow => true | _ => false end in
    let getRegionId (n k : Z) := if by_row then Geo.GetRegionId ml n k else Geo.GetRegionId ml k n in
    let '(n_first, n_second) := if by_row then (Geo.n_region_rows ml, Geo.n_region_columns ml)
                                else (Geo.n_region_columns ml, Geo.n_region_rows ml) in
    foldM (fun res n =>
        foldM (fun res k => append_region c res (getRegionId (Z.of_nat n) (Z.of_nat k)))
          (seq 0 (Z.to_nat n_second)) res)
      (seq 0 (Z.to_nat n_first)) []
  end.

End Chips.

(* ------------------------------------------------------------------ *)
(** ** Sample chips *)

Module ChipSamples.

(** The configuration of the end-to-end scenarios: [chip_layout =
    MultiRegionLayout(400, 400, 1, 4)], and a chip holding the single pixel
    (10, 20) with the given ADC, encoded as [SinglePixel] for [max_adc]. *)
Definition encode_one_pixel (max_adc adc : Z) : result Pkg.Package :=
  let* chip_layout := Geo.make_MultiRegionLayout4 400 400 1 4 in
  let* chip := Chips.make_Chip chip_layout in
  let* chip := Chips.AddPixel chip (Geo.mkPixel 10 20) adc in
  Chips.Encode_SinglePixel chip_layout max_adc chip.

End ChipSamples.

Module ChipView.
Import Geo Chips.

(** A 10x10 layout cut into 3x4 regions of 4x3 pixels, as
    [MultiRegionLayout(10, 10, 3, 4)] builds it. *)
Definition sample_layout : MultiRegionLayout :=
  mkMultiRegionLayout (mkRegionLayout 10 10) (mkRegionLayout 4 3) 3 4 2 1.

(** A chip on [sample_layout] with two pixels, in regions 6 and 8. *)
Definition ok_or {A} (r : result A) (d : A) : A := match r with Ok x => x | Err _ => d end.

Definition empty_chip : PixelMultiRegion :=
  mkPixelMultiRegion (mkPixelRegion (base sample_layout) []) sample_layout [].

Definition sample_chip0 : PixelMultiRegion := ok_or (make_Chip sample_layout) empty_chip.
Definition sample_chip1 : PixelMultiRegion :=
  ok_or (AddPixel sample_chip0 (mkPixel 5 7) 100) empty_chip.
Definition sample_chip : PixelMultiRegion :=
  ok_or (AddPixel sample_chip1 (mkPixel 9 1) 7) empty_chip.

(** A chip on [MultiRegionLayout(1, 1, 1, 1)] holding its one pixel with
    ADC 0. *)
Definition one_pixel_layout : MultiRegionLayout := ok_or (make_MultiRegionLayout4 1 1 1 1) sample_layout.
Definition one_pixel_chip0 : PixelMultiRegion := ok_or (make_Chip one_pixel_layout) empty_chip.
Definition one_pixel_chip : PixelMultiRegion :=
  ok_or (AddPixel one_pixel_chip0 (mkPixel 0 0) 0) empty_chip.

(** [MultiRegionLayout(10, 10, 1, 1)]: the size of [sample_layout] as one
    region. *)
Definition single_region_layout : MultiRegionLayout :=
  ok_or (make_MultiRegionLayout4 10 10 1 1) sample_layout.

(** The entries of a [std::map<Pixel, Adc>] are in increasing pixel order. *)
Definition keys_sorted (m : list (Pixel * Z)) : Prop :=
  StronglySorted (fun a b => pixel_ltb a.1 b.1 = true) m.

(** The entries of a chip that fall into region [region_id], in region
    coordinates. *)
Definition region_entries (ml : MultiRegionLayout) (region_id : Z) (l : list (Pixel * Z))
    : list (Pixel * Z) :=
  map (fun e => ((ConvertToRegionPixel ml e.1).2, e.2))
      (List.filter (fun e => (ConvertToRegionPixel ml e.1).1 =? region_id) l).

Definition slot_ok (ml : MultiRegionLayout) (region_id : Z) (l : list (Pixel * Z))
    (slot : option PixelRegion) : Prop :=
  match slot with
  | None => region_entries ml region_id l = []
  | Some r => Chips.region_layout r = Geo.region_layout ml /\
              region_entries ml region_id l <> [] /\
              Permutation (pixels r) (region_entries ml region_id l)
  end.

(** What [PixelMultiRegion] keeps: a sorted map of pixels inside the
    layout with 16-bit ADCs, and (with more than one region) one slot per
    region holding exactly the pixels of that region. *)
Definition chip_inv (c : PixelMultiRegion) : Prop :=
  let ml := multi_region_layout c in
  constructed ml /\ n_rows (base ml) <= 2 ^ 15 /\ n_columns (base ml) <= 2 ^ 15 /\
  Chips.region_layout (base_region c) = base ml /\
  keys_sorted (pixels (base_region c)) /\
  Forall (fun e => IsPixelInside (base ml) e.1 = true /\ 0 <= e.2 < 2 ^ 16) (pixels (base_region c)) /\
  (1 < GetNumberOfRegions ml ->
     length (regions c) = Z.to_nat (GetNumberOfRegions ml) /\
     forall region_id, 0 <= region_id < GetNumberOfRegions ml ->
       slot_ok ml region_id (pixels (base_region c)) (nth (Z.to_nat region_id) (regions c) None)).

(** The chips the program builds: from a layout, by [AddPixel], and by
    splitting into regions, with coordinates in the [int16_t] range and
    [size_t] region counts. *)
Inductive chip_built : PixelMultiRegion -> Prop :=
  | chip_built_make layout c :
      constructed layout -> n_rows (base layout) <= 2 ^ 15 -> n_columns (base layout) <= 2 ^ 15 ->
      make_Chip layout = Ok c -> chip_built c
  | chip_built_add c pixel adc c' :
      chip_built c -> AddPixel c pixel adc = Ok c' -> chip_built c'
  | chip_built_split c a b c' :
      chip_built c -> 0 <= a < 2 ^ 64 -> 0 <= b < 2 ^ 64 -> split_Chip c a b = Ok c' -> chip_built c'.

End ChipView.

(* ------------------------------------------------------------------ *)
(** ** Huffman letter coding (HuffmanEncoder.h, HuffmanDecoder.h, AlphabetStatistics) *)

Module HuffCoder.
Import Pkg Huff.

(** The part of [AlphabetStatistics] the coder reads: the alphabet and the
    [boost::bimap] Huffman table. *)
Record Statistics := mkStatistics {
  alphabet : list Z;
  huffman_table : HuffmanTable
}.

(** [AlphabetStatistics::CheckLetter]. *)
Definition CheckLetter (s : Statistics) (letter : Z) : result unit :=
  if existsb (Z.eqb letter) (alphabet s) then Ok tt
  else throw "Letter '%1%' not present in the alphabet.".

(** [GetHuffmanCode]: [huffman_table.left.at(letter)] throws
    [std::out_of_range] for a letter without a code. *)
Definition GetHuffmanCode (s : Statistics) (letter : Z) : result HuffmanCode :=
  let* _ := CheckLetter s letter in
  match List.find (fun e => e.1 =? letter) (huffman_table s) with
  | Some e => Ok e.2
  | None => Err OutOfRange
  end.

(** [GetLetterFromHuffmanCode]: the letter with this code, if any. *)
Definition GetLetterFromHuffmanCode (s : Statistics) (c : HuffmanCode) : option Z :=
  match List.find (fun e => code_eqb e.2 c) (huffman_table s) with
  | Some e => Some e.1
  | None => None
  end.

(** The loop of [EncodeLetter]: bit [n] of the code, for n = 0 .. n_bits-1,
    written with [package.write(bit, 1)]. *)
Fixpoint encode_loop (fuel : nat) (c : HuffmanCode) (n : Z) (p : Package)
    : Package * option error :=
  match fuel with
  | O => (p, None)
  | S fuel' =>
    if n <? n_bits c then
      let bit := Z.land (Z.shiftr (code c) n) 1 in
      match write p bit 1 with
      | (p', None) => encode_loop fuel' c (n + 1) p'
      | (p', Some e) => (p', Some e)
      end
    else (p, None)
  end.

Definition EncodeLetter (s : Statistics) (letter : Z) (p : Package) : Package * option error :=
  match GetHuffmanCode s letter with
  | Err e => (p, Some e)
  | Ok c => encode_loop (Z.to_nat (n_bits c)) c 0 p
  end.

(** The [do ... while] loop of [DecodeLetter] on an iterator at [pos]:
    read one bit, append it to the code, stop at the first code of the
    table.  The 65th [Append] throws, so 65 turns are all the loop can
    make; the fuel never runs out before. *)
Fixpoint decode_loop (fuel : nat) (s : Statistics) (p : Package) (c : HuffmanCode) (pos : Z)
    : result (Z * Z) :=
  match fuel with
  | O => throw "Huffman code is too long."
  | S fuel' =>
    let* (bit, pos') := read p pos 1 false in
    let* c' := Append c (negb (bit =? 0)) in
    match GetLetterFromHuffmanCode s c' with
    | Some letter => Ok (letter, pos')
    | None => decode_loop fuel' s p c' pos'
    end
  end.

(** [DecodeLetter]: the letter and the new iterator position. *)
Definition DecodeLetter (s : Statistics) (p : Package) (pos : Z) : result (Z * Z) :=
  decode_loop 65 s p code0 pos.

(** A table the decoder can read back: every code has 1 to 64 bits and a
    value below [2 ^ n_bits], no code is a proper prefix of another, and
    equal codes belong to the same letter. *)
Definition code_ok (c : HuffmanCode) : bool :=
  (1 <=? n_bits c) && (n_bits c <=? 64) && (0 <=? code c) && (code c <? 2 ^ n_bits c).

Definition prefix_of (a b : HuffmanCode) : bool :=
  (n_bits a <? n_bits b) && (code b mod 2 ^ n_bits a =? code a).

Definition table_ok (t : HuffmanTable) : bool :=
  forallb (fun e => code_ok e.2) t &&
  forallb (fun e1 => forallb (fun e2 =>
      negb (prefix_of e1.2 e2.2) && (negb (code_eqb e1.2 e2.2) || (e1.1 =? e2.1))) t) t.

(** The three-letter table with codes 0, 10 and 11 (first bit first). *)
Definition sample_statistics : Statistics :=
  mkStatistics [1; 2; 3] [(1, mkHuffmanCode 0 1); (2, mkHuffmanCode 1 2); (3, mkHuffmanCode 3 2)].

End HuffCoder.

(* ------------------------------------------------------------------ *)
(** ** DictionaryBuilder::ProcessOrderedPixels *)

Module Dict.
Import Geo Prod.

(** The conversion of a [size_t] value to the [int] letter type. *)
Definition to_int (z : Z) : Z := (z + 2 ^ 31) mod 2 ^ 32 - 2 ^ 31.

(** [CreateProducer(name, begin, end)]: the loop [for(letter = begin;
    letter != end; ++letter)] over [int] letters inserts
    [(end - begin) mod 2^32] letters into the [std::set] alphabet, in
    increasing order when [begin <= end]. *)
Definition CreateProducer (nm : string) (begin end_ : Z) : Producer :=
  make_with_alphabet nm
    (map (fun i => to_int (begin + Z.of_nat i)) (seq 0 (Z.to_nat ((end_ - begin) mod 2 ^ 32)))).

(** One turn of the loop: the [int16_t] coordinates are converted to
    [size_t] for the deltas, and [Pixel(delta_row, delta_column)] narrows
    them back to [int16_t]. *)
Definition process_pixel (layout : RegionLayout) (st : Producer * Producer * Pixel)
    (pixel_with_adc : Pixel * Z) : result (Producer * Producer * Pixel) :=
  let '(active_adc_prod, delta_row_column_prod, previous_pixel) := st in
  let pixel := pixel_with_adc.1 in
  let adc := pixel_with_adc.2 in
  let delta_row := sz (sz (sz (row pixel) + n_rows layout) - sz (row previous_pixel)) mod n_rows layout in
  let delta_column :=
    sz (sz (sz (column pixel) + n_columns layout) - sz (column previous_pixel)) mod n_columns layout in
  let* delta_row_column := GetPixelId layout (mkPixel (to_i16 delta_row) (to_i16 delta_column)) in
  Ok (AddCount active_adc_prod adc, AddCount delta_row_column_prod (to_int delta_row_column), pixel).

Fixpoint process_loop (layout : RegionLayout) (ordered_pixels : list (Pixel * Z))
    (st : Producer * Producer * Pixel) : result (Producer * Producer * Pixel) :=
  match ordered_pixels with
  | [] => Ok st
  | e :: rest => let* st' := process_pixel layout st e in process_loop layout rest st'
  end.

(** [ProcessOrderedPixels] on the builder's [active_adc_prod] and
    [delta_row_column_prod], for [layout = chip_layout.region_layout]. *)
Definition ProcessOrderedPixels (layout : RegionLayout) (ordered_pixels : list (Pixel * Z))
    (active_adc_prod delta_row_column_prod : Producer) : result (Producer * Producer) :=
  let* st := process_loop layout ordered_pixels
                (active_adc_prod, delta_row_column_prod, mkPixel 0 0) in
  let '(a, d, _) := st in Ok (a, d).

(** Reading the pixel positions back from the delta letters: each letter
    is the pixel id of the (row, column) step from the previous pixel,
    modulo the layout. *)
Fixpoint delta_decode (layout : RegionLayout) (previous_pixel : Pixel) (letters : list Z)
    : list Pixel :=
  match letters with
  | [] => []
  | x :: rest =>
    let pixel := mkPixel ((row previous_pixel + x / n_columns layout) mod n_rows layout)
                         ((column previous_pixel + x mod n_columns layout) mod n_columns layout) in
    pixel :: delta_decode layout pixel rest
  end.

End Dict.

(* ------------------------------------------------------------------ *)
(** ** The letter coder of DeltaPackageMaker *)

Module DeltaMaker.
Import Pkg Huff HuffCoder.

(** [DeltaPackageMaker::SpecialLetter]. *)
Definition SpecialLetter : Z := -1.

(** The private [DeltaPackageMaker::EncodeLetter]: a letter of the
    alphabet is Huffman-coded; any other value is sent as the special
    letter followed by [abs_value] in [bits_per_raw_data] raw bits.  A
    throwing write stops the function with the package as it is. *)
Definition EncodeLetter (package : Package) (stat : Statistics)
    (letter abs_value bits_per_raw_data : Z) : Package * option error :=
  if existsb (Z.eqb letter) (alphabet stat) then HuffCoder.EncodeLetter stat letter package
  else
    match HuffCoder.EncodeLetter stat SpecialLetter package with
    | (p', None) => write p' abs_value bits_per_raw_data
    | (p', Some e) => (p', Some e)
    end.

(** The private template [DeltaPackageMaker::DecodeLetter] on an iterator
    at [pos]: the returned flag, the letter, the [abs_value] reference
    (unchanged unless the special letter is read) and the new iterator
    position.  [to_letter] and [to_abs] are the conversions of the decoded
    [int] letter to [LetterType] and of the [uint64_t] raw value to
    [AbsValueType]. *)
Definition DecodeLetterAs (to_letter to_abs : Z -> Z) (p : Package) (pos : Z) (stat : Statistics)
    (abs_value bits_per_raw_data : Z) : result (bool * Z * Z * Z) :=
  let* (decoded, pos1) := HuffCoder.DecodeLetter stat p pos in
  let letter := to_letter decoded in
  if letter =? SpecialLetter then
    let* (v, pos2) := read p pos1 bits_per_raw_data false in
    Ok (negb (letter =? SpecialLetter), letter, to_abs v, pos2)
  else Ok (negb (letter =? SpecialLetter), letter, abs_value, pos1).

(** The instance of the combined mode: [LetterType = int],
    [AbsValueType = size_t], no conversion. *)
Definition DecodeLetter (p : Package) (pos : Z) (stat : Statistics)
    (abs_value bits_per_raw_data : Z) : result (bool * Z * Z * Z) :=
  DecodeLetterAs (fun x => x) (fun x => x) p pos stat abs_value bits_per_raw_data.

Inductive Mode := SeparateDelta | CombinedDelta.

(** The statistics a [DeltaPackageMaker] holds. *)
Record DeltaPackageMaker := mkDeltaPackageMaker {
  mode : Mode;
  adc_stat : Statistics;
  delta_row_stat : Statistics;
  delta_column_stat : Statistics;
  delta_rowcolumn_stat : Statistics
}.

(** [EncodePixel]: the [size_t] deltas are narrowed to [Coordinate]
    ([int16_t]); the separate mode passes them as [int] letters with the
    [size_t] row and column as raw values, the combined mode the [int]
    conversion of the delta's pixel id with the pixel id as raw value. *)
Definition EncodePixel (m : DeltaPackageMaker) (package : Package) (layout : Geo.RegionLayout)
    (pixel previous_pixel : Geo.Pixel) : Package * option error :=
  let delta_row := to_i16 (sz (sz (sz (Geo.row pixel) + Geo.n_rows layout)
                               - sz (Geo.row previous_pixel)) mod Geo.n_rows layout) in
  let delta_column := to_i16 (sz (sz (sz (Geo.column pixel) + Geo.n_columns layout)
                                  - sz (Geo.column previous_pixel)) mod Geo.n_columns layout) in
  match mode m with
  | SeparateDelta =>
    match EncodeLetter package (delta_row_stat m) delta_row (sz (Geo.row pixel))
            (Geo.BitsPerValue (Geo.n_rows layout)) with
    | (p', None) =>
      EncodeLetter p' (delta_column_stat m) delta_column (sz (Geo.column pixel))
        (Geo.BitsPerValue (Geo.n_columns layout))
    | (p', Some e) => (p', Some e)
    end
  | CombinedDelta =>
    match Geo.GetPixelId layout (Geo.mkPixel delta_row delta_column) with
    | Err e => (package, Some e)
    | Ok delta_rowcolumn =>
      match Geo.GetPixelId layout pixel with
      | Err e => (package, Some e)
      | Ok pixel_id =>
        EncodeLetter package (delta_rowcolumn_stat m) (Dict.to_int delta_rowcolumn) pixel_id
          (Geo.BitsPerValue (Geo.GetNumberOfPixels layout))
      end
    end
  end.

(** [DecodePixel] on an iterator at [pos]: the pixel and the new position.
    [delta] and [pixel] start as [Pixel()] = (0, 0).  In the separate mode
    the letters and raw values are stored in [int16_t] fields; in the
    combined mode the uninitialised [pixel_id] is only read after the
    special letter has set it (0 stands for it here).  The new row is
    [(previous_pixel.row + delta.row) % n_rows] in [size_t], stored back in
    [int16_t]. *)
Definition DecodePixel (m : DeltaPackageMaker) (p : Package) (pos : Z) (layout : Geo.RegionLayout)
    (previous_pixel : Geo.Pixel) : result (Geo.Pixel * Z) :=
  let* (hdr, hdc, delta, pixel, pos') :=
    match mode m with
    | SeparateDelta =>
      let* (has_delta_row, delta_row, pixel_row, pos1) :=
        DecodeLetterAs to_i16 to_i16 p pos (delta_row_stat m) 0 (Geo.BitsPerValue (Geo.n_rows layout)) in
      let* (has_delta_column, delta_column, pixel_column, pos2) :=
        DecodeLetterAs to_i16 to_i16 p pos1 (delta_column_stat m) 0
          (Geo.BitsPerValue (Geo.n_columns layout)) in
      Ok (has_delta_row, has_delta_column, Geo.mkPixel delta_row delta_column,
          Geo.mkPixel pixel_row pixel_column, pos2)
    | CombinedDelta =>
      let* (has_delta, delta_rowcolumn, pixel_id, pos1) :=
        DecodeLetter p pos (delta_rowcolumn_stat m) 0 (Geo.BitsPerValue (Geo.GetNumberOfPixels layout)) in
      if has_delta then
        let* delta := Geo.GetPixel layout (sz delta_rowcolumn) in
        Ok (true, true, delta, Geo.mkPixel 0 0, pos1)
      else
        let* pixel := Geo.GetPixel layout pixel_id in
        Ok (false, false, Geo.mkPixel 0 0, pixel, pos1)
    end in
  let r := if hdr then to_i16 (sz (Geo.row previous_pixel + Geo.row delta) mod Geo.n_rows layout)
           else Geo.row pixel in
  let c := if hdc then to_i16 (sz (Geo.column previous_pixel + Geo.column delta) mod Geo.n_columns layout)
           else Geo.column pixel in
  Ok (Geo.mkPixel r c, pos').

(** A table for letters 0 and 1 and the special letter, with codes 0,
    10 and 11 (first bit first). *)
Definition sample_delta_statistics : Statistics :=
  mkStatistics [-1; 0; 1]
    [(-1, mkHuffmanCode 0 1); (0, mkHuffmanCode 1 2); (1, mkHuffmanCode 3 2)].

(** A maker in the combined mode with that table for the deltas. *)
Definition sample_delta_maker : DeltaPackageMaker :=
  mkDeltaPackageMaker CombinedDelta sample_delta_statistics sample_delta_statistics
    sample_delta_statistics sample_delta_statistics.

(** The same table in the separate mode, for the row and column deltas. *)
Definition sample_separate_maker : DeltaPackageMaker :=
  mkDeltaPackageMaker SeparateDelta sample_delta_statistics sample_delta_statistics
    sample_delta_statistics sample_delta_statistics.

End DeltaMaker.

(* ------------------------------------------------------------------ *)
(** ** BlockPackageMaker with raw ADCs (BlockPackageMaker.h) *)

(** [BlockPackageMaker] built with [encode_adc = false], as
    [ChipDataEncoder] does for [EncoderFormat::Region]: [adc_stat] is null
    and every ADC is written with [package.write(adc, n_bits_per_adc)]. *)
Module BlockMaker.
Import Geo Chips.

(** [GetFullRegionId]. *)
Definition GetFullRegionId (macro_region_id region_id n_macro_regions : Z) : Z :=
  sz (sz (region_id * n_macro_regions) + macro_region_id).

(** [SplitFullRegionId]: [(macro_region_id, region_id)]. *)
Definition SplitFullRegionId (full_region_id n_macro_regions : Z) : Z * Z :=
  let macro_region_id := full_region_id mod n_macro_regions in
  (macro_region_id, sz (full_region_id - macro_region_id) / n_macro_regions).

(** [PixelMultiRegion(const PixelRegion& original, const RegionLayout& _region_layout)]. *)
Definition make_Chip_layout (original : PixelRegion) (rl : RegionLayout) : result PixelMultiRegion :=
  let* ml := make_MultiRegionLayout (Geo.n_rows (Chips.region_layout original))
               (Geo.n_columns (Chips.region_layout original)) rl in
  CreateRegions (mkPixelMultiRegion original ml []).

(** The inner loop of [Make] over the regions of [pixel_area]: the active
    ones with their [PixelRegion]. *)
Fixpoint active_regions (pixel_area : PixelMultiRegion) (ids : list nat)
    : result (list (Z * PixelRegion)) :=
  match ids with
  | [] => Ok []
  | id :: ids' =>
    let region_id := Z.of_nat id in
    let* active := IsRegionActive pixel_area region_id in
    if negb active then active_regions pixel_area ids' else
    let* region := GetRegion pixel_area region_id in
    let* rest := active_regions pixel_area ids' in
    Ok ((region_id, region) :: rest)
  end.

(** The outer loop of [Make] over the macro-regions: the [n_regions] left
    by the last active macro-region and [region_pixels], whose entries are
    the macro-regions with at least one active region. *)
Fixpoint collect_regions (chip : PixelMultiRegion) (readout_unit_layout : RegionLayout)
    (ids : list nat) (n_regions : Z) : result (Z * list (Z * list (Z * PixelRegion))) :=
  match ids with
  | [] => Ok (n_regions, [])
  | id :: ids' =>
    let macro_region_id := Z.of_nat id in
    let* active := IsRegionActive chip macro_region_id in
    if negb active then collect_regions chip readout_unit_layout ids' n_regions else
    let* region := GetRegion chip macro_region_id in
    let* pixel_area := make_Chip_layout region readout_unit_layout in
    let n_regions := GetNumberOfRegions (multi_region_layout pixel_area) in
    let* regions := active_regions pixel_area (seq 0 (Z.to_nat n_regions)) in
    let* (n_regions', rest) := collect_regions chip readout_unit_layout ids' n_regions in
    Ok (n_regions', if (length regions =? 0)%nat then rest else (macro_region_id, regions) :: rest)
  end.

(** The two [for] loops of [Make] over the readout unit:
    [package.write(region.GetAdc(row, column), n_bits_per_adc)], where
    [GetAdc(row, column)] builds the [int16_t] [Pixel(row, column)]. *)
Definition write_unit (readout_unit_layout : RegionLayout) (n_bits_per_adc : Z)
    (region : PixelRegion) (package : Pkg.Package) : result Pkg.Package :=
  fold_left (fun acc row =>
    fold_left (fun acc column =>
      let* package := acc in
      let adc := GetAdc region (mkPixel (to_i16 (Z.of_nat row)) (to_i16 (Z.of_nat column))) in
      write_or_throw package adc n_bits_per_adc)
    (seq 0 (Z.to_nat (Geo.n_columns readout_unit_layout))) acc)
  (seq 0 (Z.to_nat (Geo.n_rows readout_unit_layout))) (Ok package).

(** One pass of the [for] over [region_pixels]: the first region of every
    macro-region is written and erased, and a macro-region left without
    regions is erased.  A macro-region enters [region_pixels] with at least
    one region and leaves it with its last one, so its list is never empty
    here (the program would dereference [begin()] of an empty list). *)
Fixpoint write_pass (readout_unit_layout : RegionLayout)
    (n_bits_per_address n_bits_per_adc n_macro_regions : Z)
    (region_pixels : list (Z * list (Z * PixelRegion))) (package : Pkg.Package)
    : result (list (Z * list (Z * PixelRegion)) * Pkg.Package) :=
  match region_pixels with
  | [] => Ok ([], package)
  | (macro_region_id, regions) :: rest =>
    match regions with
    | [] => throw "begin() of an empty list."
    | (region_id, region) :: regions' =>
      let full_region_id := GetFullRegionId macro_region_id region_id n_macro_regions in
      let* package := write_or_throw package full_region_id n_bits_per_address in
      let* package := write_unit readout_unit_layout n_bits_per_adc region package in
      let* (rest', package) := write_pass readout_unit_layout n_bits_per_address n_bits_per_adc
                                 n_macro_regions rest package in
      Ok (if (length regions' =? 0)%nat then rest' else (macro_region_id, regions') :: rest', package)
    end
  end.

(** [while(region_pixels.size())], with [package.next_readout_cicle()]
    after every pass.  Every pass erases at least one region, so one turn
    per region and the final test are all the fuel the loop can use. *)
Fixpoint write_regions_loop (fuel : nat) (readout_unit_layout : RegionLayout)
    (n_bits_per_address n_bits_per_adc n_macro_regions : Z)
    (region_pixels : list (Z * list (Z * PixelRegion))) (package : Pkg.Package)
    : result Pkg.Package :=
  match fuel with
  | O => Ok package
  | S fuel' =>
    match region_pixels with
    | [] => Ok package
    | _ :: _ =>
      let* (region_pixels', package) := write_pass readout_unit_layout n_bits_per_address
                                          n_bits_per_adc n_macro_regions region_pixels package in
      write_regions_loop fuel' readout_unit_layout n_bits_per_address n_bits_per_adc
        n_macro_regions region_pixels' (Pkg.next_readout_cicle package)
    end
  end.

(** [BlockPackageMaker::Make]. *)
Definition BlockPackageMaker_Make (readout_unit_layout : RegionLayout) (n_bits_per_adc : Z)
    (chip : PixelMultiRegion) : result Pkg.Package :=
  let multi_layout := multi_region_layout chip in
  let n_macro_regions := GetNumberOfRegions multi_layout in
  let* (n_regions, region_pixels) :=
    collect_regions chip readout_unit_layout (seq 0 (Z.to_nat n_macro_regions)) 0 in
  let n_bits_per_address := BitsPerValue (sz (n_regions * n_macro_regions)) in
  write_regions_loop (S (length (concat (map snd region_pixels)))) readout_unit_layout
    n_bits_per_address n_bits_per_adc n_macro_regions region_pixels Pkg.empty.

(** The two [for] loops of [Read] over the readout unit: an ADC per cell,
    narrowed to the [uint16_t] [Adc], and for a non-zero one the pixel of
    the chip at that cell added with it. *)
Definition read_unit (multi_layout layout : MultiRegionLayout) (readout_unit_layout : RegionLayout)
    (n_bits_per_adc : Z) (package : Pkg.Package) (macro_region_id region_id : Z)
    (pos : Z) (chip : PixelMultiRegion) : result (Z * PixelMultiRegion) :=
  fold_left (fun acc row =>
    fold_left (fun acc column =>
      let* (pos, chip) := acc in
      let* (value, pos') := Pkg.read package pos n_bits_per_adc false in
      let adc := value mod 2 ^ 16 in
      if adc =? 0 then Ok (pos', chip) else
      let readout_pixel := mkPixel (to_i16 (Z.of_nat row)) (to_i16 (Z.of_nat column)) in
      let macro_region_pixel := ConvertFromRegionPixel layout region_id readout_pixel in
      let chip_pixel := ConvertFromRegionPixel multi_layout macro_region_id macro_region_pixel in
      let* chip := AddPixel chip chip_pixel adc in
      Ok (pos', chip))
    (seq 0 (Z.to_nat (Geo.n_columns readout_unit_layout))) acc)
  (seq 0 (Z.to_nat (Geo.n_rows readout_unit_layout))) (Ok (pos, chip)).

(** The loop of [Read] while the iterator is not at [package.end()].
    [None] when the fuel runs out. *)
Fixpoint read_regions_loop (fuel : nat) (multi_layout layout : MultiRegionLayout)
    (readout_unit_layout : RegionLayout) (n_bits_per_address n_bits_per_adc n_macro_regions : Z)
    (package : Pkg.Package) (pos : Z) (chip : PixelMultiRegion) : option (result PixelMultiRegion) :=
  match fuel with
  | O => None
  | S fuel' =>
    if pos =? Pkg.end_pos package then Some (Ok chip) else
    match (let* (full_region_id, pos1) := Pkg.read package pos n_bits_per_address false in
           let '(macro_region_id, region_id) := SplitFullRegionId full_region_id n_macro_regions in
           read_unit multi_layout layout readout_unit_layout n_bits_per_adc package
             macro_region_id region_id pos1 chip) with
    | Err e => Some (Err e)
    | Ok (pos2, chip') =>
      read_regions_loop fuel' multi_layout layout readout_unit_layout n_bits_per_address
        n_bits_per_adc n_macro_regions package pos2 chip'
    end
  end.

(** [BlockPackageMaker::Read].  A turn of the loop that does not throw
    moves the iterator forward by the size of a record without passing
    [package.end()], so one turn per bit between [begin()] and [end()] and
    the final test are all the fuel a terminating loop can use; [None]
    stands for the loop that never ends (records of zero bits on a package
    that is not empty). *)
Definition BlockPackageMaker_Read (readout_unit_layout : RegionLayout) (n_bits_per_adc : Z)
    (package : Pkg.Package) (multi_layout : MultiRegionLayout) : option (result PixelMultiRegion) :=
  match make_Chip multi_layout with
  | Err e => Some (Err e)
  | Ok chip =>
    let n_macro_regions := GetNumberOfRegions multi_layout in
    match make_MultiRegionLayout (Geo.n_rows (Geo.region_layout multi_layout))
            (Geo.n_columns (Geo.region_layout multi_layout)) readout_unit_layout with
    | Err e => Some (Err e)
    | Ok layout =>
      let n_regions := GetNumberOfRegions layout in
      let n_bits_per_address := BitsPerValue (sz (n_regions * n_macro_regions)) in
      read_regions_loop (S (Z.to_nat (sz (Pkg.end_pos package - Pkg.begin_pos package))))
        multi_layout layout readout_unit_layout n_bits_per_address n_bits_per_adc
        n_macro_regions package (Pkg.begin_pos package) chip
    end
  end.

(** [ChipDataEncoder::Encode] for [EncoderFormat::Region]: the package
    maker is [BlockPackageMaker(nullptr, readout_unit_layout,
    BitsPerValue(max_adc), false)]. *)
Definition Encode_Region (chip_layout : MultiRegionLayout) (readout_unit_layout : RegionLayout)
    (max_adc : Z) (original_chip : PixelMultiRegion) : result Pkg.Package :=
  let n_bits_per_adc := BitsPerValue max_adc in
  let* chip := if multi_layout_eqb (multi_region_layout original_chip) chip_layout
               then Ok original_chip
               else split_Chip original_chip (n_region_rows chip_layout) (n_region_columns chip_layout) in
  BlockPackageMaker_Make readout_unit_layout n_bits_per_adc chip.

(** [ChipDataEncoder::Decode] for [EncoderFormat::Region]:
    [package_maker->Read(package, chip_layout)]. *)
Definition Decode_Region (chip_layout : MultiRegionLayout) (readout_unit_layout : RegionLayout)
    (max_adc : Z) (package : Pkg.Package) : option (result PixelMultiRegion) :=
  let n_bits_per_adc := BitsPerValue max_adc in
  BlockPackageMaker_Read readout_unit_layout n_bits_per_adc package chip_layout.

End BlockMaker.

Example pkg_write_read_ex :
  let '(p, _) := Pkg.write_ex Pkg.empty 13 5 in
  let '(p, _) := Pkg.write_ex p 1000 11 in
  (Pkg.read_ex p 0 5 false, Pkg.read_ex p 5 11 false, Pkg.data p) =
  (Ok (13, 5), Ok (1000, 16), [13; 125]).
Proof. vm_compute. reflexivity. Qed.

Example pkg_write_read :
  let '(p, _) := Pkg.write Pkg.empty 6 3 in
  let '(p, _) := Pkg.write p 77 9 in
  (Pkg.read p 0 3 false, Pkg.read p 3 9 false, Pkg.read p 3 12 true) =
  (Ok (6, 3), Ok (77, 12), Ok (77 * 8, 12)).
Proof. vm_compute. reflexivity. Qed.

(* ------------------------------------------------------------------ *)
(** ** Machine arithmetic *)

Module Machine.

Lemma sz_small z : 0 <= z < 2 ^ 64 -> sz z = z.
Proof. intros H. unfold sz. apply Z.mod_small. exact H. Qed.

Lemma pow2_le_64 n : 0 <= n <= 64 -> 2 ^ n <= 2 ^ 64.
Proof. intros H. apply Z.pow_le_mono_r; lia. Qed.

Lemma to_i16_small x : - 2 ^ 15 <= x < 2 ^ 15 -> to_i16 x = x.
Proof.
  intros H. unfold to_i16. rewrite Z.mod_small by lia. lia.
Qed.

End Machine.

(* ------------------------------------------------------------------ *)
(** ** Lemmas on the bit view *)

Module PkgBits.
Import Machine Pkg PkgView.

Lemma Mask_small k : 0 <= k < 64 -> Mask k = Z.ones k.
Proof.
  intros Hk. unfold Mask, BitsPerInteger.
  destruct (Z.eqb_spec k 64); [lia|].
  rewrite Z.shiftl_1_l, Z.ones_equiv. unfold sz.
  rewrite Z.mod_small; [lia|]. split; [lia|].
  apply Z.pow_lt_mono_r; lia.
Qed.

Lemma nth_app_zero (d : list Z) k : nth k (d ++ [0]) 0 = nth k d 0.
Proof.
  revert k. induction d as [|b d IH]; intros [|k]; simpl; auto.
  destruct k; reflexivity.
Qed.

Lemma length_or_back v (l : list Z) : length (or_back v l) = length l.
Proof.
  induction l as [|b l IH]; simpl; auto.
  destruct l; simpl in *; auto.
Qed.

Lemma nth_or_back v (l : list Z) k :
  l <> [] ->
  nth k (or_back v l) 0 =
  if Nat.eqb k (length l - 1) then (Z.lor (nth k l 0) v) mod 256 else nth k l 0.
Proof.
  revert k. induction l as [|b l IH]; intros k Hne; [congruence|].
  destruct l as [|b' l].
  - destruct k as [|[|k]]; simpl; auto.
  - destruct k as [|k].
    + reflexivity.
    + change (nth (S k) (or_back v (b :: b' :: l)) 0) with (nth k (or_back v (b' :: l)) 0).
      rewrite IH by discriminate.
      simpl length. replace (S (S (length l)) - 1)%nat with (S (length l)) by lia.
      replace (S (length l) - 1)%nat with (length l) by lia.
      reflexivity.
Qed.

Lemma Forall_or_back v (l : list Z) :
  Forall (fun b => 0 <= b < 256) l -> Forall (fun b => 0 <= b < 256) (or_back v l).
Proof.
  induction 1 as [|b l Hb Hl IH]; simpl; [constructor|].
  destruct l as [|b' l].
  - constructor; [apply Z.mod_pos_bound; lia | constructor].
  - constructor; auto.
Qed.

Lemma nth_default_ge (l : list Z) k : (length l <= k)%nat -> nth k l 0 = 0.
Proof. intros H. apply nth_overflow. exact H. Qed.

Lemma Forall_nth_byte (l : list Z) k :
  Forall (fun b => 0 <= b < 256) l -> 0 <= nth k l 0 < 256.
Proof.
  intros H. destruct (Nat.lt_ge_cases k (length l)) as [Hk|Hk].
  - rewrite Forall_forall in H. apply H. apply list_elem_of_In, nth_In. exact Hk.
  - rewrite nth_default_ge by exact Hk. lia.
Qed.

(** A non-negative integer all of whose bits from [n] on are clear is
    below [2^n]. *)
Lemma bits_bound r n :
  0 <= r -> 0 <= n -> (forall j, n <= j -> Z.testbit r j = false) -> r < 2 ^ n.
Proof.
  intros Hr Hn H.
  destruct (Z.lt_ge_cases r (2 ^ n)) as [Hlt|Hge]; [exact Hlt|exfalso].
  assert (Hpos : 0 < r) by (pose proof (Z.pow_pos_nonneg 2 n); lia).
  assert (Hlog : n <= Z.log2 r).
  { rewrite <- (Z.log2_pow2 n) by exact Hn. apply Z.log2_le_mono. exact Hge. }
  pose proof (Z.bit_log2 r Hpos) as Hb. rewrite H in Hb by exact Hlog. discriminate.
Qed.

Lemma testbit_small_high v n j : 0 <= v < 2 ^ n -> 0 <= n <= j -> Z.testbit v j = false.
Proof.
  intros Hv Hj. destruct (Z.eq_dec v 0) as [->|Hv0]; [apply Z.testbit_0_l|].
  apply Z.bits_above_log2; [lia|].
  apply Z.lt_le_trans with n; [|lia].
  apply Z.log2_lt_pow2; lia.
Qed.

Lemma vtw_bits value nw k s j :
  0 <= value -> 0 <= nw -> 0 <= s -> 0 <= k -> s + k <= 64 -> 0 <= j ->
  Z.testbit (sz (Z.shiftl (Z.land (Z.shiftr value nw) (Z.ones k)) s)) j =
  (s <=? j) && (j <? s + k) && Z.testbit value (nw + (j - s)).
Proof.
  intros Hv Hnw Hs Hk Hsk Hj.
  set (m := Z.land (Z.shiftr value nw) (Z.ones k)).
  assert (Hm : 0 <= m <= Z.ones k).
  { subst m. rewrite Z.land_ones by exact Hk.
    pose proof (Z.mod_pos_bound (Z.shiftr value nw) (2 ^ k) ltac:(apply Z.pow_pos_nonneg; lia)).
    rewrite Z.ones_equiv. lia. }
  assert (Hsm : 0 <= Z.shiftl m s < 2 ^ 64).
  { rewrite Z.shiftl_mul_pow2 by exact Hs. rewrite Z.ones_equiv in Hm.
    assert (2 ^ k * 2 ^ s <= 2 ^ 64).
    { rewrite <- Z.pow_add_r by lia. apply Z.pow_le_mono_r; lia. }
    pose proof (Z.pow_pos_nonneg 2 s). nia. }
  unfold sz. rewrite Z.mod_small by exact Hsm.
  destruct (Z.lt_ge_cases j s) as [Hjs|Hjs].
  - rewrite Z.shiftl_spec_low by exact Hjs.
    destruct (Z.leb_spec s j); [lia|reflexivity].
  - rewrite Z.shiftl_spec_high by lia. subst m.
    rewrite Z.land_spec, Z.testbit_ones by lia.
    rewrite Z.shiftr_spec by lia.
    destruct (Z.leb_spec s j); [|lia].
    destruct (Z.leb_spec 0 (j - s)); [|lia].
    destruct (Z.ltb_spec (j - s) k); destruct (Z.ltb_spec j (s + k)); try lia;
      simpl; rewrite ?andb_true_r, ?andb_false_r; f_equal; lia.
Qed.

(** One turn of the [write_ex] loop. *)
Lemma write_step d e value nb nw s k d1 d2 :
  wfd d e -> 0 <= nw < nb -> nb <= 64 -> 0 <= value ->
  s = e mod 8 -> k = Z.min (8 - s) (nb - nw) ->
  d1 = (if s =? 0 then d ++ [0] else d) ->
  d2 = or_back (sz (Z.shiftl (Z.land (Z.shiftr value nw) (Mask k)) s)) d1 ->
  wfd d2 (e + k) /\
  (forall i, 0 <= i < e -> bit_at d2 i = bit_at d i) /\
  (forall i, e <= i < e + k -> bit_at d2 i = Z.testbit value (nw + (i - e))).
Proof.
  intros [He [Hlen [Hbytes Hhigh]]] Hnw Hnb Hv Hsd Hkd Hd1 Hd2.
  assert (Hs : 0 <= s < 8) by (subst s; apply Z.mod_pos_bound; lia).
  assert (Hk : 1 <= k /\ s + k <= 8) by (subst k; lia).
  rewrite Mask_small in Hd2 by lia.
  set (vtw := sz (Z.shiftl (Z.land (Z.shiftr value nw) (Z.ones k)) s)) in Hd2.
  set (q := e / 8).
  assert (Hq : 0 <= q) by (subst q; apply Z.div_pos; lia).
  assert (He8 : e = 8 * q + s) by (subst q s; apply Z.div_mod; lia).
  assert (Hnth1 : forall j, nth j d1 0 = nth j d 0).
  { intros j. rewrite Hd1. destruct (s =? 0); [apply nth_app_zero|reflexivity]. }
  assert (Hlen1 : length d1 = S (Z.to_nat q)).
  { rewrite Hd1. destruct (Z.eqb_spec s 0) as [Hs0|Hs0].
    - rewrite length_app, Hlen. simpl.
      replace ((e + 7) / 8) with q by (subst q; Z.div_mod_to_equations; lia). lia.
    - rewrite Hlen. replace ((e + 7) / 8) with (q + 1) by (Z.div_mod_to_equations; lia).
      lia. }
  assert (Hne1 : d1 <> []) by (intros H; rewrite H in Hlen1; discriminate).
  assert (Hnth2 : forall j, nth j d2 0 =
    if Nat.eqb j (Z.to_nat q) then (Z.lor (nth j d 0) vtw) mod 256 else nth j d 0).
  { intros j. rewrite Hd2, nth_or_back by exact Hne1. rewrite Hlen1, Hnth1.
    replace (S (Z.to_nat q) - 1)%nat with (Z.to_nat q) by lia. reflexivity. }
  assert (Hbit2 : forall i, 0 <= i -> bit_at d2 i =
    if Z.eqb (i / 8) q then Z.testbit (nth (Z.to_nat q) d 0) (i mod 8) || Z.testbit vtw (i mod 8)
    else bit_at d i).
  { intros i Hi. unfold bit_at. rewrite Hnth2.
    assert (Hi8 : 0 <= i / 8) by (apply Z.div_pos; lia).
    assert (Him : 0 <= i mod 8 < 8) by (apply Z.mod_pos_bound; lia).
    destruct (Z.eqb_spec (i / 8) q) as [Heq|Hneq].
    - rewrite Heq, Nat.eqb_refl. change 256 with (2 ^ 8).
      rewrite Z.mod_pow2_bits_low by lia. apply Z.lor_spec.
    - destruct (Nat.eqb_spec (Z.to_nat (i / 8)) (Z.to_nat q)) as [Hn|Hn]; [|reflexivity].
      exfalso. apply Hneq. apply Z2Nat.inj; lia. }
  assert (Hvtw : forall j, 0 <= j -> Z.testbit vtw j =
    (s <=? j) && (j <? s + k) && Z.testbit value (nw + (j - s))).
  { intros j Hj. apply vtw_bits; lia. }
  split; [|split].
  - split; [lia|split; [|split]].
    + rewrite Hd2, length_or_back, Hlen1.
      replace ((e + k + 7) / 8) with (q + 1) by (Z.div_mod_to_equations; lia). lia.
    + rewrite Hd2. apply Forall_or_back. rewrite Hd1.
      destruct (s =? 0); [apply Forall_app; split; [exact Hbytes|repeat constructor; lia]|exact Hbytes].
    + intros i Hi. rewrite Hbit2 by lia.
      destruct (Z.eqb_spec (i / 8) q) as [Heq|Hneq]; [|apply Hhigh; lia].
      assert (Hi8 : i mod 8 = i - 8 * q) by (Z.div_mod_to_equations; lia).
      pose proof (Hhigh i ltac:(lia)) as Hd. unfold bit_at in Hd. rewrite Heq in Hd.
      rewrite Hd, Hvtw by (Z.div_mod_to_equations; lia). simpl.
      destruct (Z.ltb_spec (i mod 8) (s + k)); [lia|].
      rewrite andb_false_r. reflexivity.
  - intros i Hi. rewrite Hbit2 by lia.
    destruct (Z.eqb_spec (i / 8) q) as [Heq|Hneq]; [|reflexivity].
    assert (Hi8 : i mod 8 = i - 8 * q) by (Z.div_mod_to_equations; lia).
    rewrite Hvtw by (Z.div_mod_to_equations; lia). destruct (Z.leb_spec s (i mod 8)); [lia|].
    rewrite orb_false_r. unfold bit_at. rewrite Heq. reflexivity.
  - intros i Hi. rewrite Hbit2 by lia.
    assert (Heq : i / 8 = q) by (Z.div_mod_to_equations; lia).
    assert (Hi8 : i mod 8 = i - 8 * q) by (Z.div_mod_to_equations; lia).
    rewrite Heq, Z.eqb_refl.
    pose proof (Hhigh i ltac:(lia)) as Hd. unfold bit_at in Hd. rewrite Heq in Hd.
    rewrite Hd, Hvtw by (Z.div_mod_to_equations; lia). simpl.
    destruct (Z.leb_spec s (i mod 8)); [|lia].
    destruct (Z.ltb_spec (i mod 8) (s + k)); [|lia]. simpl. f_equal. lia.
Qed.

(** The [write_ex] loop appends bits [n_written .. number_of_bits - 1] of
    the value, least significant first, and never throws. *)
Lemma write_ex_loop_spec fuel value nb nw d e :
  wfd d e -> 0 <= nw <= nb -> nb <= 64 -> 0 <= value ->
  (Z.to_nat (nb - nw) <= fuel)%nat ->
  exists d', write_ex_loop fuel value nb nw d e = Ok (d', e + (nb - nw)) /\
    wfd d' (e + (nb - nw)) /\
    (forall i, 0 <= i < e -> bit_at d' i = bit_at d i) /\
    (forall i, e <= i < e + (nb - nw) -> bit_at d' i = Z.testbit value (nw + (i - e))).
Proof.
  revert nw d e. induction fuel as [|fuel IH]; intros nw d e Hwf Hnw Hnb Hv Hf.
  - assert (nw = nb) by lia. subst nw. exists d. simpl.
    rewrite Z.sub_diag, Z.add_0_r.
    split; [reflexivity|split; [exact Hwf|split; intros i Hi; [reflexivity|lia]]].
  - pose proof (proj1 Hwf) as He0. simpl. destruct (Z.ltb_spec nw nb) as [Hlt|Hge].
    2:{ assert (nw = nb) by lia. subst nw. exists d.
        rewrite Z.sub_diag, Z.add_0_r.
    split; [reflexivity|split; [exact Hwf|split; intros i Hi; [reflexivity|lia]]]. }
    set (s := e mod BitsPerItem).
    set (k := Z.min (BitsPerItem - s) (nb - nw)).
    assert (Hs : 0 <= s < 8) by (apply Z.mod_pos_bound; unfold BitsPerItem; lia).
    assert (Hk : 1 <= k <= 8) by (unfold k, BitsPerItem in *; lia).
    rewrite Mask_small by lia.
    assert (Hm : (Z.shiftl 1 k - 1 <? Z.land (Z.shiftr value nw) (Z.ones k)) = false).
    { apply Z.ltb_ge. rewrite Z.land_ones by lia.
      pose proof (Z.mod_pos_bound (Z.shiftr value nw) (2 ^ k) ltac:(apply Z.pow_pos_nonneg; lia)).
      rewrite Z.shiftl_1_l. lia. }
    rewrite Hm.
    set (d1 := if s =? 0 then d ++ [0] else d).
    set (d2 := or_back (sz (Z.shiftl (Z.land (Z.shiftr value nw) (Z.ones k)) s)) d1).
    destruct (write_step d e value nb nw s k d1 d2) as [Hwf2 [Hlow2 Hnew2]];
      try assumption; try lia; try reflexivity.
    { unfold d2. rewrite Mask_small by lia. reflexivity. }
    destruct (IH (nw + k) d2 (e + k)) as [d' [Hrun [Hwf' [Hlow' Hnew']]]];
      try assumption; try lia.
    assert (E : e + k + (nb - (nw + k)) = e + (nb - nw)) by lia.
    rewrite E in Hrun, Hwf', Hnew'. exists d'. rewrite Hrun.
    split; [reflexivity|split; [exact Hwf'|split]].
    + intros i Hi. rewrite Hlow' by lia. apply Hlow2; lia.
    + intros i Hi. destruct (Z.lt_ge_cases i (e + k)) as [Hik|Hik].
      * rewrite Hlow' by lia. apply Hnew2; lia.
      * rewrite Hnew' by lia. f_equal. lia.
Qed.


(** The width check passes exactly when [n <= 64] and [value < 2^n], for
    a [uint64_t] value and a [size_t] width. *)
Lemma check_width_spec value n :
  0 <= value < 2 ^ 64 -> 0 <= n ->
  match check_width value n with
  | Ok _ => n <= 64 /\ value < 2 ^ n
  | Err _ => 64 < n \/ 2 ^ n <= value
  end.
Proof.
  intros Hv Hn. unfold check_width, BitsPerInteger.
  destruct (Z.ltb_spec 64 n); [now left|].
  destruct (Z.ltb_spec n 64).
  - rewrite Z.shiftl_1_l, sz_small.
    2:{ pose proof (Z.pow_pos_nonneg 2 n ltac:(lia)).
        assert (2 ^ n < 2 ^ 64) by (apply Z.pow_lt_mono_r; lia). lia. }
    destruct (Z.ltb_spec (2 ^ n - 1) value); [right; lia|split; lia].
  - assert (n = 64) by lia. subst n. split; lia.
Qed.

Lemma check_width_ok value n :
  0 <= n <= 64 -> 0 <= value < 2 ^ n -> check_width value n = Ok tt.
Proof.
  intros Hn Hv. pose proof (pow2_le_64 n Hn).
  pose proof (check_width_spec value n ltac:(lia) ltac:(lia)) as Hc.
  destruct (check_width value n) as [[]|e]; [reflexivity|lia].
Qed.

(** [write_ex(value, n)] on a well-formed package appends the [n] bits of
    [value], least significant first. *)
Lemma write_ex_spec p value n :
  wf p -> 0 <= n <= 64 -> 0 <= value < 2 ^ n ->
  exists d', write_ex p value n =
      (mkPackage d' (begin_pos p) (end_pos p + n) (readout_positions p), None) /\
    wfd d' (end_pos p + n) /\
    (forall i, 0 <= i < end_pos p -> bit_at d' i = bit_at (data p) i) /\
    (forall j, 0 <= j < n -> bit_at d' (end_pos p + j) = Z.testbit value j).
Proof.
  intros Hwf Hn Hv. unfold write_ex. rewrite check_width_ok by assumption.
  destruct (write_ex_loop_spec (Z.to_nat n) value n 0 (data p) (end_pos p))
    as [d' [Hrun [Hwf' [Hlow Hnew]]]]; try assumption; try lia.
  rewrite Z.sub_0_r in Hrun, Hwf', Hnew. rewrite Hrun.
  exists d'. split; [reflexivity|split; [exact Hwf'|split; [exact Hlow|]]].
  intros j Hj. rewrite Hnew by lia. f_equal. lia.
Qed.

Lemma testbit_bit_of value shift :
  0 <= shift -> Z.testbit (Z.land (Z.shiftr value shift) 1) 0 = Z.testbit value shift.
Proof.
  intros Hs. rewrite Z.land_spec, Z.shiftr_spec by lia.
  change (Z.testbit 1 0) with true. rewrite andb_true_r. f_equal.
Qed.

Lemma bit_of_small value shift : 0 <= shift -> 0 <= Z.land (Z.shiftr value shift) 1 < 2 ^ 1.
Proof.
  intros Hs.
  assert (E : Z.land (Z.shiftr value shift) 1 = Z.shiftr value shift mod 2)
    by (apply (Z.land_ones _ 1); lia).
  rewrite E. pose proof (Z.mod_pos_bound (Z.shiftr value shift) 2 ltac:(lia)).
  simpl. lia.
Qed.

(** The loop of [write(value, n)] appends bits [nb - n - 1] down to [0] of
    the value, most significant first. *)
Lemma write_loop_spec fuel value nb n p :
  wf p -> 0 <= n <= nb -> 0 <= value -> (Z.to_nat (nb - n) <= fuel)%nat ->
  exists d', write_loop fuel value nb n p =
      (mkPackage d' (begin_pos p) (end_pos p + (nb - n)) (readout_positions p), None) /\
    wfd d' (end_pos p + (nb - n)) /\
    (forall i, 0 <= i < end_pos p -> bit_at d' i = bit_at (data p) i) /\
    (forall j, 0 <= j < nb - n -> bit_at d' (end_pos p + j) = Z.testbit value (nb - n - 1 - j)).
Proof.
  revert n p. induction fuel as [|fuel IH]; intros n p Hwf Hn Hv Hf.
  - assert (n = nb) by lia. subst n. exists (data p). simpl.
    rewrite Z.sub_diag, Z.add_0_r. destruct p; simpl.
    split; [reflexivity|split; [exact Hwf|split; intros i Hi; [reflexivity|lia]]].
  - simpl. destruct (Z.ltb_spec n nb) as [Hlt|Hge].
    2:{ assert (n = nb) by lia. subst n. exists (data p).
        rewrite Z.sub_diag, Z.add_0_r. destruct p; simpl.
        split; [reflexivity|split; [exact Hwf|split; intros i Hi; [reflexivity|lia]]]. }
    destruct (write_ex_spec p (Z.land (Z.shiftr value (nb - n - 1)) 1) 1)
      as [d1 [Hw1 [Hwf1 [Hlow1 Hnew1]]]]; try assumption; try lia.
    { apply bit_of_small; lia. }
    rewrite Hw1.
    destruct (IH (n + 1) (mkPackage d1 (begin_pos p) (end_pos p + 1) (readout_positions p)))
      as [d' [Hrun [Hwf' [Hlow' Hnew']]]]; try assumption; try lia.
    simpl in Hrun, Hwf', Hlow', Hnew'.
    assert (E : end_pos p + 1 + (nb - (n + 1)) = end_pos p + (nb - n)) by lia.
    rewrite E in Hrun, Hwf'. exists d'. rewrite Hrun.
    split; [reflexivity|split; [exact Hwf'|split]].
    + intros i Hi. rewrite Hlow' by lia. apply Hlow1; lia.
    + intros j Hj. destruct (Z.eq_dec j 0) as [->|Hj0].
      * rewrite Hlow' by (pose proof (proj1 Hwf); lia).
        rewrite Z.add_0_r. specialize (Hnew1 0 ltac:(lia)). rewrite Z.add_0_r in Hnew1.
        rewrite Hnew1, testbit_bit_of by lia. f_equal. lia.
      * replace (end_pos p + j) with (end_pos p + 1 + (j - 1)) by lia.
        rewrite Hnew' by lia. f_equal. lia.
Qed.

(** [write(value, n)]: the width check, then the MSB-first bit loop. *)
Lemma write_spec p value n :
  wf p -> 0 <= n <= 64 -> 0 <= value < 2 ^ n ->
  exists d', write p value n =
      (mkPackage d' (begin_pos p) (end_pos p + n) (readout_positions p), None) /\
    wfd d' (end_pos p + n) /\
    (forall i, 0 <= i < end_pos p -> bit_at d' i = bit_at (data p) i) /\
    (forall j, 0 <= j < n -> bit_at d' (end_pos p + j) = Z.testbit value (n - 1 - j)).
Proof.
  intros Hwf Hn Hv. unfold write. rewrite check_width_ok by assumption.
  destruct (write_loop_spec (Z.to_nat n) value n 0 p) as [d' [Hrun [Hwf' [Hlow Hnew]]]];
    try assumption; try lia.
  rewrite Z.sub_0_r in Hrun, Hwf', Hnew. exists d'. rewrite Hrun.
  split; [reflexivity|split; [exact Hwf'|split; [exact Hlow|]]].
  intros j Hj. apply Hnew; lia.
Qed.

(** Both writers leave the package untouched when the width check fails. *)
Lemma write_fail p value n e :
  check_width value n = Err e -> write p value n = (p, Some e) /\ write_ex p value n = (p, Some e).
Proof. intros H. unfold write, write_ex. rewrite H. split; reflexivity. Qed.

Lemma vat_nth (l : list Z) i :
  0 <= i -> (Z.to_nat i < length l)%nat -> vat l i = Ok (nth (Z.to_nat i) l 0).
Proof.
  intros Hi Hl. unfold vat. destruct (Z.ltb_spec i 0); [lia|].
  rewrite (nth_error_nth' l 0 Hl). reflexivity.
Qed.

(** The [read_ex] loop: bits [n_read .. number_of_bits - 1] of the result
    are the stream bits from [pos] on, bits below [n_read] are those of
    [res]. *)
Lemma read_ex_loop_spec fuel d e nb nr pos res :
  wfd d e -> 0 <= pos -> pos + (nb - nr) <= e -> 0 <= nr <= nb -> nb <= 64 ->
  0 <= res -> (forall j, nr <= j -> Z.testbit res j = false) ->
  (Z.to_nat (nb - nr) <= fuel)%nat ->
  exists r, read_ex_loop fuel d nb nr pos res = Ok (r, pos + (nb - nr)) /\ 0 <= r /\
    forall j, 0 <= j -> Z.testbit r j =
      if j <? nr then Z.testbit res j else (j <? nb) && bit_at d (pos + (j - nr)).
Proof.
  revert nr pos res. induction fuel as [|fuel IH];
    intros nr pos res Hwf Hpos Hend Hnr Hnb Hres Hhigh Hf.
  - assert (nr = nb) by lia. subst nr. exists res. simpl.
    rewrite Z.sub_diag, Z.add_0_r. split; [reflexivity|split; [exact Hres|]].
    intros j Hj. destruct (Z.ltb_spec j nb); [reflexivity|].
    rewrite Hhigh by lia. reflexivity.
  - destruct Hwf as [He [Hlen [Hbytes Hzero]]].
    simpl. destruct (Z.ltb_spec nr nb) as [Hlt|Hge].
    2:{ assert (nr = nb) by lia. subst nr. exists res.
        rewrite Z.sub_diag, Z.add_0_r. split; [reflexivity|split; [exact Hres|]].
        intros j Hj. destruct (Z.ltb_spec j nb); [reflexivity|].
        rewrite Hhigh by lia. reflexivity. }
    set (s := pos mod BitsPerItem).
    set (k := Z.min (BitsPerItem - s) (nb - nr)).
    assert (Hs : 0 <= s < 8) by (apply Z.mod_pos_bound; unfold BitsPerItem; lia).
    assert (Hk : 1 <= k /\ s + k <= 8 /\ k <= nb - nr) by (unfold k, BitsPerItem in *; lia).
    assert (Hp8 : pos = 8 * (pos / 8) + s) by (unfold s, BitsPerItem; apply Z.div_mod; lia).
    assert (Hq : 0 <= pos / 8) by (apply Z.div_pos; lia).
    rewrite vat_nth.
    2:{ unfold BitsPerItem. apply Z.div_pos; lia. }
    2:{ unfold BitsPerItem. rewrite Hlen. apply Z2Nat.inj_lt; try (apply Z.div_pos); try lia.
        Z.div_mod_to_equations; lia. }
    rewrite Mask_small by lia.
    set (byte := nth (Z.to_nat (pos / BitsPerItem)) d 0).
    assert (Hbyte : 0 <= byte < 256) by (apply Forall_nth_byte; exact Hbytes).
    set (x := sz (Z.shiftl (Z.land (Z.shiftr byte s) (Z.ones k)) nr)).
    assert (Hx : forall j, 0 <= j -> Z.testbit x j =
      (nr <=? j) && (j <? nr + k) && Z.testbit byte (s + (j - nr))).
    { intros j Hj. apply vtw_bits; lia. }
    assert (Hxpos : 0 <= x) by (apply Z.mod_pos_bound; lia).
    destruct (IH (nr + k) (pos + k) (Z.lor res x)) as [r [Hrun [Hr Hbits]]];
      try (split; [lia|split; [exact Hlen|split; assumption]]); try lia.
    { apply Z.lor_nonneg; lia. }
    { intros j Hj. rewrite Z.lor_spec, Hhigh, Hx by lia.
      destruct (Z.ltb_spec j (nr + k)); [lia|]. rewrite andb_false_r. reflexivity. }
    assert (E : pos + k + (nb - (nr + k)) = pos + (nb - nr)) by lia.
    rewrite E in Hrun. exists r. split; [exact Hrun|split; [exact Hr|]].
    intros j Hj. rewrite Hbits by exact Hj.
    destruct (Z.ltb_spec j nr) as [Hjn|Hjn].
    + destruct (Z.ltb_spec j (nr + k)); [|lia].
      rewrite Z.lor_spec, Hx by lia. destruct (Z.leb_spec nr j); [lia|].
      apply orb_false_r.
    + destruct (Z.ltb_spec j (nr + k)) as [Hjk|Hjk].
      * rewrite Z.lor_spec, Hx, Hhigh by lia.
        destruct (Z.leb_spec nr j); [|lia]. destruct (Z.ltb_spec j nb); [|lia].
        rewrite (proj2 (Z.ltb_lt j (nr + k)) Hjk). simpl. unfold bit_at.
        replace ((pos + (j - nr)) / 8) with (pos / 8) by (Z.div_mod_to_equations; lia).
        replace ((pos + (j - nr)) mod 8) with (s + (j - nr)) by (Z.div_mod_to_equations; lia).
        reflexivity.
      * f_equal. f_equal. lia.
Qed.

(** A full run of the [read_ex] loop from bit 0. *)
Lemma read_ex_loop_run d e nb pos :
  wfd d e -> 0 <= pos -> pos + nb <= e -> 0 <= nb <= 64 ->
  exists r, read_ex_loop (Z.to_nat nb) d nb 0 pos 0 = Ok (r, pos + nb) /\ 0 <= r < 2 ^ nb /\
    forall j, 0 <= j -> Z.testbit r j = (j <? nb) && bit_at d (pos + j).
Proof.
  intros Hwf Hpos Hend Hnb.
  destruct (read_ex_loop_spec (Z.to_nat nb) d e nb 0 pos 0) as [r [Hrun [Hr Hbits]]];
    try assumption; try lia.
  { intros j _. apply Z.testbit_0_l. }
  rewrite Z.sub_0_r in Hrun. exists r. split; [exact Hrun|].
  assert (Hb : forall j, 0 <= j -> Z.testbit r j = (j <? nb) && bit_at d (pos + j)).
  { intros j Hj. rewrite Hbits by exact Hj. destruct (Z.ltb_spec j 0); [lia|].
    f_equal. f_equal. lia. }
  split; [|exact Hb]. split; [exact Hr|].
  apply bits_bound; try lia. intros j Hj. rewrite Hb by lia.
  destruct (Z.ltb_spec j nb); [lia|reflexivity].
Qed.

Lemma sz_sub_small e pos : 0 <= e - pos < 2 ^ 64 -> sz (e - pos) = e - pos.
Proof. apply sz_small. Qed.

(** [read_ex(n)] with at least [n] bits left: bit [j] of the result is the
    stream bit [pos + j]. *)
Lemma read_ex_spec p pos n flag :
  wf p -> 0 <= pos -> pos + n <= end_pos p -> end_pos p - pos < 2 ^ 64 -> 0 <= n <= 64 ->
  exists r, read_ex p pos n flag = Ok (r, pos + n) /\ 0 <= r < 2 ^ n /\
    forall j, 0 <= j -> Z.testbit r j = (j <? n) && bit_at (data p) (pos + j).
Proof.
  intros Hwf Hpos Hend Hsz Hn. unfold read_ex.
  destruct (Z.ltb_spec 64 n); [lia|].
  rewrite sz_sub_small by lia.
  destruct (Z.ltb_spec (end_pos p - pos) n); [lia|]. simpl.
  rewrite Z.min_l by lia.
  destruct (read_ex_loop_run (data p) (end_pos p) n pos) as [r [Hrun [Hr Hbits]]];
    try assumption; try lia.
  rewrite Hrun. simpl. exists r. rewrite Z.sub_diag, Z.shiftl_0_r, sz_small.
  - split; [reflexivity|split; assumption].
  - pose proof (pow2_le_64 n Hn). lia.
Qed.


Lemma bits_msb_bound d pos m : 0 <= bits_msb d pos m < 2 ^ Z.of_nat m.
Proof.
  revert pos. induction m as [|m IH]; intros pos; simpl; [lia|].
  specialize (IH (pos + 1)). rewrite Nat2Z.inj_succ, Z.pow_succ_r by lia.
  destruct (bit_at d pos); simpl; lia.
Qed.

Lemma bits_msb_value d pos m v :
  (forall j, 0 <= j < Z.of_nat m -> bit_at d (pos + j) = Z.testbit v (Z.of_nat m - 1 - j)) ->
  0 <= v < 2 ^ Z.of_nat m -> bits_msb d pos m = v.
Proof.
  revert pos v. induction m as [|m IH]; intros pos v Hb Hv.
  - simpl in *. lia.
  - simpl. rewrite Nat2Z.inj_succ in Hb, Hv.
    assert (Hm : 0 < 2 ^ Z.of_nat m) by (apply Z.pow_pos_nonneg; lia).
    rewrite (IH (pos + 1) (v mod 2 ^ Z.of_nat m)).
    + specialize (Hb 0 ltac:(lia)). rewrite Z.add_0_r in Hb. rewrite Hb.
      replace (Z.succ (Z.of_nat m) - 1 - 0) with (Z.of_nat m) by lia.
      rewrite Z.testbit_spec' by lia.
      rewrite Z.pow_succ_r in Hv by lia.
      assert (Hq : 0 <= v / 2 ^ Z.of_nat m < 2).
      { split; [apply Z.div_pos; lia|]. apply Z.div_lt_upper_bound; lia. }
      rewrite (Z.mod_small (v / 2 ^ Z.of_nat m) 2) by exact Hq.
      pose proof (Z.div_mod v (2 ^ Z.of_nat m) ltac:(lia)). lia.
    + intros j Hj. rewrite Z.mod_pow2_bits_low by lia.
      rewrite <- Z.add_assoc, Hb by lia. f_equal. lia.
    + apply Z.mod_pos_bound. exact Hm.
Qed.

(** One [read_ex(1, false)] inside the stream yields the stream bit. *)
Lemma read_ex_one p pos :
  wf p -> 0 <= pos < end_pos p -> end_pos p - pos < 2 ^ 64 ->
  read_ex p pos 1 false = Ok (Z.b2z (bit_at (data p) pos), pos + 1).
Proof.
  intros Hwf Hpos Hsz.
  destruct (read_ex_spec p pos 1 false) as [r [Hr [Hrb Hbits]]]; try assumption; try lia.
  rewrite Hr. f_equal. f_equal.
  apply Z.bits_inj'. intros j Hj. rewrite Hbits by exact Hj.
  destruct (Z.eq_dec j 0) as [->|Hj0].
  - rewrite Z.add_0_r. destruct (bit_at (data p) pos); reflexivity.
  - destruct (Z.ltb_spec j 1); [lia|]. simpl.
    destruct (bit_at (data p) pos); simpl;
      [symmetry; apply (testbit_small_high 1 1); simpl; lia|symmetry; apply Z.testbit_0_l].
Qed.

(** The loop of [read(n)]: one bit per turn, shifted in from the right. *)
Lemma read_loop_spec fuel p nb nr pos res :
  wf p -> 0 <= pos -> pos + (nb - nr) <= end_pos p -> end_pos p - pos < 2 ^ 64 ->
  0 <= nr <= nb -> nb <= 64 -> 0 <= res < 2 ^ nr -> (Z.to_nat (nb - nr) <= fuel)%nat ->
  read_loop fuel p nb nr pos res =
    Ok (res * 2 ^ (nb - nr) + bits_msb (data p) pos (Z.to_nat (nb - nr)), pos + (nb - nr)).
Proof.
  revert nr pos res. induction fuel as [|fuel IH];
    intros nr pos res Hwf Hpos Hend Hsz Hnr Hnb Hres Hf.
  - assert (nr = nb) by lia. subst nr. rewrite Z.sub_diag. simpl. f_equal. f_equal; lia.
  - simpl. destruct (Z.ltb_spec nr nb) as [Hlt|Hge].
    2:{ assert (nr = nb) by lia. subst nr. rewrite Z.sub_diag. simpl. f_equal. f_equal; lia. }
    rewrite read_ex_one by (try assumption; lia). simpl.
    set (b := bit_at (data p) pos).
    assert (H2 : 2 ^ (nr + 1) <= 2 ^ 64) by (apply pow2_le_64; lia).
    rewrite Z.pow_add_r in H2 by lia. change (2 ^ 1) with 2 in H2.
    assert (Hb : 0 <= Z.b2z b <= 1) by (destruct b; simpl; lia).
    rewrite Z.shiftl_mul_pow2 by lia. change (2 ^ 1) with 2.
    rewrite (sz_small (res * 2)) by lia.
    rewrite (sz_small (res * 2 + Z.b2z b)) by lia.
    rewrite IH; try assumption; try lia.
    2:{ rewrite Z.pow_add_r by lia. change (2 ^ 1) with 2. lia. }
    replace (Z.to_nat (nb - nr)) with (S (Z.to_nat (nb - (nr + 1)))) by lia.
    simpl bits_msb. rewrite Z2Nat.id by lia. fold b.
    replace (pos + 1 + (nb - (nr + 1))) with (pos + (nb - nr)) by lia.
    f_equal. f_equal.
    replace (nb - nr) with (Z.succ (nb - (nr + 1))) by lia.
    rewrite Z.pow_succ_r by lia. ring.
Qed.

(** [read(n)] with at least [n] bits left: the [n] stream bits from [pos],
    most significant first. *)
Lemma read_spec p pos n flag :
  wf p -> 0 <= pos -> pos + n <= end_pos p -> end_pos p - pos < 2 ^ 64 -> 0 <= n <= 64 ->
  read p pos n flag = Ok (bits_msb (data p) pos (Z.to_nat n), pos + n).
Proof.
  intros Hwf Hpos Hend Hsz Hn. unfold read.
  destruct (Z.ltb_spec 64 n); [lia|].
  rewrite sz_sub_small by lia.
  destruct (Z.ltb_spec (end_pos p - pos) n); [lia|]. simpl.
  rewrite Z.min_l by lia.
  rewrite read_loop_spec by (try assumption; lia). simpl.
  rewrite Z.sub_0_r, Z.sub_diag, Z.shiftl_0_r, sz_small.
  - reflexivity.
  - pose proof (bits_msb_bound (data p) pos (Z.to_nat n)) as Hb.
    rewrite Z2Nat.id in Hb by lia. pose proof (pow2_le_64 n Hn). lia.
Qed.




Lemma wf_empty : wf empty.
Proof.
  unfold wf, wfd. simpl. split; [lia|split; [reflexivity|split; [constructor|]]].
  intros i _. unfold bit_at. destruct (Z.to_nat (i / 8)); apply Z.testbit_0_l.
Qed.

Lemma wf_write_ex p value n :
  wf p -> 0 <= value < 2 ^ 64 -> 0 <= n -> wf (fst (write_ex p value n)).
Proof.
  intros Hwf Hv Hn. pose proof (check_width_spec value n Hv Hn) as Hc.
  destruct (check_width value n) as [[]|er] eqn:E.
  - destruct (write_ex_spec p value n) as [d' [Hw [Hwf' _]]]; try assumption; try lia.
    rewrite Hw. exact Hwf'.
  - unfold write_ex. rewrite E. exact Hwf.
Qed.

Lemma wf_write p value n :
  wf p -> 0 <= value < 2 ^ 64 -> 0 <= n -> wf (fst (write p value n)).
Proof.
  intros Hwf Hv Hn. pose proof (check_width_spec value n Hv Hn) as Hc.
  destruct (check_width value n) as [[]|er] eqn:E.
  - destruct (write_spec p value n) as [d' [Hw [Hwf' _]]]; try assumption; try lia.
    rewrite Hw. exact Hwf'.
  - unfold write. rewrite E. exact Hwf.
Qed.

Lemma built_wf p : built p -> wf p.
Proof.
  induction 1.
  - apply wf_empty.
  - apply wf_write_ex; assumption.
  - apply wf_write; assumption.
  - exact IHbuilt.
  - exact IHbuilt.
Qed.

Lemma data_eq_self_suffix (d pre : list Z) :
  data_eq d (pre ++ d) (Z.of_nat (length pre)) = Ok true.
Proof.
  revert pre. induction d as [|b d IH]; intros pre; simpl; [reflexivity|].
  rewrite vat_nth by (rewrite ?length_app; simpl; lia).
  rewrite Nat2Z.id, app_nth2, Nat.sub_diag by lia. simpl.
  rewrite Z.eqb_refl. simpl.
  specialize (IH (pre ++ [b])). rewrite <- app_assoc in IH. simpl in IH.
  rewrite length_app in IH. simpl in IH.
  replace (Z.of_nat (length pre + 1)) with (Z.of_nat (length pre) + 1) in IH by lia.
  exact IH.
Qed.

Lemma data_eq_refl (d : list Z) : data_eq d d 0 = Ok true.
Proof. apply (data_eq_self_suffix d []). Qed.

End PkgBits.

(* ------------------------------------------------------------------ *)
(** ** Claims on the package *)

Module PkgClaims.
Import Machine Pkg PkgView PkgBits.

(** C2: on any package the program can build, [write_ex(v, n)] followed by
    [read_ex(n)] from the old end position gives back [v] for every
    [n <= 64] and [v < 2^n]; the same holds for [write(v, n)] and
    [read(n)]. *)
Theorem write_read_roundtrip p v n :
  built p -> 0 <= n <= 64 -> 0 <= v < 2 ^ n ->
  snd (write_ex p v n) = None /\
  read_ex (fst (write_ex p v n)) (end_pos p) n false = Ok (v, end_pos p + n) /\
  snd (write p v n) = None /\
  read (fst (write p v n)) (end_pos p) n false = Ok (v, end_pos p + n).
Proof.
  intros Hb Hn Hv. pose proof (built_wf p Hb) as Hwf.
  pose proof (proj1 Hwf) as He.
  destruct (write_ex_spec p v n) as [d1 [Hw1 [Hwf1 [_ Hnew1]]]]; try assumption.
  destruct (write_spec p v n) as [d2 [Hw2 [Hwf2 [_ Hnew2]]]]; try assumption.
  rewrite Hw1, Hw2. simpl.
  split; [reflexivity|split; [|split; [reflexivity|]]].
  - destruct (read_ex_spec (mkPackage d1 (begin_pos p) (end_pos p + n) (readout_positions p))
                (end_pos p) n false) as [r [Hr [_ Hbits]]];
      try exact Hwf1; simpl; try lia.
    rewrite Hr. f_equal. f_equal.
    apply Z.bits_inj'. intros j Hj. rewrite Hbits by exact Hj. simpl.
    destruct (Z.ltb_spec j n).
    + apply Hnew1. lia.
    + symmetry. apply (testbit_small_high v n j); lia.
  - rewrite read_spec by (try exact Hwf2; simpl; lia). simpl. f_equal. f_equal.
    apply bits_msb_value; rewrite Z2Nat.id by lia; [|exact Hv].
    intros j Hj. apply Hnew2. exact Hj.
Qed.

Lemma write_read_roundtrip_witness :
  built empty /\
  snd (write_ex empty 1000 11) = None /\
  read_ex (fst (write_ex empty 1000 11)) 0 11 false = Ok (1000, 11) /\
  snd (write empty 1000 11) = None /\
  read (fst (write empty 1000 11)) 0 11 false = Ok (1000, 11).
Proof.
  split; [exact built_empty|].
  apply (write_read_roundtrip empty 1000 11); [exact built_empty|lia|simpl; lia].
Defined.

(** C8: for a [uint64_t] value and a [size_t] width, [write(value, n)]
    throws exactly when [n > 64] or [value >= 2^n]; when it throws the
    package (bytes, bit size, readout positions) is the one it started
    from; when it succeeds the bit size grows by [n], the readout positions
    and the bits already written are kept, and the new bits are those of
    the value, most significant first. *)
Theorem write_fails_iff p value n :
  built p -> 0 <= value < 2 ^ 64 -> 0 <= n ->
  (snd (write p value n) <> None <-> 64 < n \/ 2 ^ n <= value) /\
  (snd (write p value n) <> None -> fst (write p value n) = p) /\
  (snd (write p value n) = None ->
     let p' := fst (write p value n) in
     end_pos p' = end_pos p + n /\ begin_pos p' = begin_pos p /\
     readout_positions p' = readout_positions p /\
     (forall i, 0 <= i < end_pos p -> bit_at (data p') i = bit_at (data p) i) /\
     (forall j, 0 <= j < n -> bit_at (data p') (end_pos p + j) = Z.testbit value (n - 1 - j))).
Proof.
  intros Hb Hv Hn. pose proof (built_wf p Hb) as Hwf.
  pose proof (check_width_spec value n Hv Hn) as Hc.
  destruct (check_width value n) as [[]|er] eqn:E.
  - destruct (write_spec p value n) as [d' [Hw [_ [Hlow Hnew]]]]; try assumption; try lia.
    rewrite Hw. simpl. split; [|split].
    + split; [congruence|lia].
    + congruence.
    + intros _. repeat split; assumption.
  - destruct (write_fail p value n er E) as [Hw _]. rewrite Hw. simpl.
    split; [split; [intros _; exact Hc|discriminate]|split; [reflexivity|discriminate]].
Qed.

Lemma write_fails_iff_witness :
  built empty /\ 0 <= 5 < 2 ^ 64 /\ 0 <= 3 /\
  ((snd (write empty 5 3) <> None <-> 64 < 3 \/ 2 ^ 3 <= 5) /\
   (snd (write empty 5 3) <> None -> fst (write empty 5 3) = empty) /\
   (snd (write empty 5 3) = None ->
     let p' := fst (write empty 5 3) in
     end_pos p' = end_pos empty + 3 /\ begin_pos p' = begin_pos empty /\
     readout_positions p' = readout_positions empty /\
     (forall i, 0 <= i < end_pos empty -> bit_at (data p') i = bit_at (data empty) i) /\
     (forall j, 0 <= j < 3 -> bit_at (data p') (end_pos empty + j) = Z.testbit 5 (3 - 1 - j)))).
Proof.
  split; [exact built_empty|split; [lia|split; [lia|]]].
  apply (write_fails_iff empty 5 3); [exact built_empty|lia|lia].
Defined.




(** C10: the copy constructor copies the bytes and the bit size, so the
    copy compares equal to the original, and starts with no readout
    position, also when the original has some (for instance after a
    [next_readout_cicle]). *)
Theorem copy_keeps_data_not_readouts p :
  data (copy p) = data p /\ size (copy p) = size p /\
  package_eq (copy p) p = Ok true /\ readout_positions (copy p) = [] /\
  readout_positions (next_readout_cicle p) <> [] /\
  package_eq (copy (next_readout_cicle p)) (next_readout_cicle p) = Ok true /\
  readout_positions (copy (next_readout_cicle p)) = [].
Proof.
  assert (Heq : forall q, package_eq (copy q) q = Ok true).
  { intros q. unfold package_eq, copy. simpl. rewrite Z.eqb_refl. simpl. apply data_eq_refl. }
  split; [reflexivity|split; [reflexivity|split; [apply Heq|split; [reflexivity|split]]]].
  - unfold next_readout_cicle. simpl. destruct (readout_positions p); discriminate.
  - split; [apply Heq|reflexivity].
Qed.

End PkgClaims.

(* ------------------------------------------------------------------ *)
(** ** Claims on the geometry *)

Module GeoClaims.
Import Machine Geo.

Lemma divmod_exact q b c : 0 <= c < b -> (q * b + c) / b = q /\ (q * b + c) mod b = c.
Proof.
  intros Hc. split.
  - symmetry. apply (Z.div_unique_pos _ _ _ c); lia.
  - symmetry. apply (Z.mod_unique_pos _ _ q); lia.
Qed.

Lemma CheckPixel_inside l p : IsPixelInside l p = true -> CheckPixel l p = Ok tt.
Proof.
  unfold IsPixelInside, CheckPixel. intros H.
  repeat rewrite andb_true_iff in H. destruct H as [[[H1 H2] H3] H4].
  apply Z.leb_le in H1, H3. apply Z.ltb_lt in H2, H4.
  destruct (Z.ltb_spec (row p) 0); [lia|]. destruct (Z.leb_spec (n_rows l) (row p)); [lia|].
  destruct (Z.ltb_spec (column p) 0); [lia|]. destruct (Z.leb_spec (n_columns l) (column p)); [lia|].
  reflexivity.
Qed.

Lemma inside_bounds l p :
  IsPixelInside l p = true -> 0 <= row p < n_rows l /\ 0 <= column p < n_columns l.
Proof.
  unfold IsPixelInside. intros H.
  repeat rewrite andb_true_iff in H. destruct H as [[[H1 H2] H3] H4].
  apply Z.leb_le in H1, H3. apply Z.ltb_lt in H2, H4. lia.
Qed.

(** C5 as stated, for [RegionLayout(40000, 1)]: pixel id 39999 is below
    the 40000 pixels, but its row does not fit the [int16_t] coordinate, so
    [GetPixel] throws instead of returning a pixel. *)
Lemma pixel_id_counterexample :
  make_RegionLayout 40000 1 = Ok (mkRegionLayout 40000 1) /\
  39999 < GetNumberOfPixels (mkRegionLayout 40000 1) /\
  GetPixel (mkRegionLayout 40000 1) 39999 =
    throw "Pixel %1% = %2% is outside of the region interval [0, %3%].".
Proof. vm_compute. split; [reflexivity|split; [reflexivity|reflexivity]]. Qed.

(** C5 (amended to layouts of at most 2^15 rows and columns, the range of
    the [int16_t] coordinates): [GetPixel] inverts [GetPixelId] on the
    pixels inside the layout, and [GetPixelId] inverts [GetPixel] on the
    ids below the number of pixels. *)
Theorem pixel_id_roundtrip l :
  1 <= n_rows l <= 2 ^ 15 -> 1 <= n_columns l <= 2 ^ 15 ->
  (forall p, IsPixelInside l p = true -> (let* id := GetPixelId l p in GetPixel l id) = Ok p) /\
  (forall id, 0 <= id < GetNumberOfPixels l -> (let* p := GetPixel l id in GetPixelId l p) = Ok id).
Proof.
  intros Hr Hc. split.
  - intros p Hin. pose proof (inside_bounds l p Hin) as [Hpr Hpc].
    unfold GetPixelId. rewrite CheckPixel_inside by exact Hin. simpl.
    assert (Hrow : row p * n_columns l < 2 ^ 30).
    { assert (row p * n_columns l <= (2 ^ 15 - 1) * 2 ^ 15) by nia. lia. }
    rewrite (sz_small (row p)), (sz_small (column p)), sz_small by lia.
    destruct (divmod_exact (row p) (n_columns l) (column p) Hpc) as [Hd Hm].
    unfold GetPixel. rewrite Hm.
    replace (row p * n_columns l + column p - column p) with (row p * n_columns l) by lia.
    rewrite Z.div_mul by lia.
    rewrite !to_i16_small by lia. destruct p as [pr pc]. simpl in *.
    rewrite CheckPixel_inside; [reflexivity|].
    unfold IsPixelInside. simpl.
    destruct (Z.leb_spec 0 pr), (Z.ltb_spec pr (n_rows l)), (Z.leb_spec 0 pc),
      (Z.ltb_spec pc (n_columns l)); simpl; lia.
  - intros id Hid. unfold GetNumberOfPixels in Hid.
    rewrite sz_small in Hid by (split; [nia|]; assert (n_rows l * n_columns l <= 2 ^ 15 * 2 ^ 15) by nia; lia).
    unfold GetPixel.
    set (c := id mod n_columns l).
    assert (Hcb : 0 <= c < n_columns l) by (apply Z.mod_pos_bound; lia).
    assert (Hid2 : id = n_columns l * (id / n_columns l) + c) by (apply Z.div_mod; lia).
    replace (id - c) with (id / n_columns l * n_columns l) by lia.
    rewrite Z.div_mul by lia.
    assert (Hq : 0 <= id / n_columns l < n_rows l).
    { split; [apply Z.div_pos; lia|]. apply Z.div_lt_upper_bound; lia. }
    rewrite !to_i16_small by lia.
    rewrite CheckPixel_inside.
    2:{ unfold IsPixelInside. simpl.
        destruct (Z.leb_spec 0 (id / n_columns l)), (Z.ltb_spec (id / n_columns l) (n_rows l)),
          (Z.leb_spec 0 c), (Z.ltb_spec c (n_columns l)); simpl; lia. }
    simpl. unfold GetPixelId. rewrite CheckPixel_inside.
    2:{ unfold IsPixelInside. simpl.
        destruct (Z.leb_spec 0 (id / n_columns l)), (Z.ltb_spec (id / n_columns l) (n_rows l)),
          (Z.leb_spec 0 c), (Z.ltb_spec c (n_columns l)); simpl; lia. }
    simpl. rewrite (sz_small (id / n_columns l)), (sz_small c) by lia.
    rewrite sz_small by nia. f_equal. lia.
Qed.

Lemma pixel_id_roundtrip_witness :
  1 <= n_rows (mkRegionLayout 400 400) <= 2 ^ 15 /\ 1 <= n_columns (mkRegionLayout 400 400) <= 2 ^ 15 /\
  (forall p, IsPixelInside (mkRegionLayout 400 400) p = true ->
     (let* id := GetPixelId (mkRegionLayout 400 400) p in GetPixel (mkRegionLayout 400 400) id) = Ok p) /\
  (forall id, 0 <= id < GetNumberOfPixels (mkRegionLayout 400 400) ->
     (let* p := GetPixel (mkRegionLayout 400 400) id in GetPixelId (mkRegionLayout 400 400) p) = Ok id).
Proof.
  split; [simpl; lia|split; [simpl; lia|]].
  apply pixel_id_roundtrip; simpl; lia.
Defined.

Lemma ceil_div_spec a b :
  1 <= a -> 1 <= b -> 1 <= ceil_div a b /\ (ceil_div a b - 1) * b < a <= ceil_div a b * b.
Proof.
  intros Ha Hb. unfold ceil_div. destruct (Z.eqb_spec b 0); [lia|].
  pose proof (Z.div_mod (a + b - 1) b ltac:(lia)) as Hd.
  pose proof (Z.mod_pos_bound (a + b - 1) b ltac:(lia)) as Hm.
  set (q := (a + b - 1) / b) in *. set (r := (a + b - 1) mod b) in *.
  assert (1 <= q) by nia. split; [lia|]. nia.
Qed.

Lemma ceil_div_le a b : 1 <= a -> 1 <= b -> ceil_div a b <= a.
Proof.
  intros Ha Hb. destruct (ceil_div_spec a b Ha Hb) as [H1 [H2 _]]. nia.
Qed.

Ltac split_orb_false H :=
  apply orb_false_iff in H; destruct H as [?%Z.eqb_neq ?%Z.eqb_neq].

(** What the constructors establish. *)
Lemma constructed_facts m : constructed m ->
  exists N M R C, base m = mkRegionLayout N M /\ region_layout m = mkRegionLayout R C /\
    1 <= N < 2 ^ 64 /\ 1 <= M < 2 ^ 64 /\ 1 <= R /\ 1 <= C /\
    n_region_rows m = ceil_div N R /\ n_region_columns m = ceil_div M C /\
    n_last_region_rows m = N - (ceil_div N R - 1) * R /\
    n_last_region_columns m = M - (ceil_div M C - 1) * C.
Proof.
  intros [nr nc rr rc m' Hnr Hnc Hrr Hrc H | nr nc a b m' Hnr Hnc Ha Hb H].
  - unfold bind, make_MultiRegionLayout, make_RegionLayout in H.
    destruct ((rr =? 0) || (rc =? 0)) eqn:E1; [discriminate|]. split_orb_false E1.
    destruct ((nr =? 0) || (nc =? 0)) eqn:E2; [discriminate|]. split_orb_false E2.
    simpl in H.
    destruct (ceil_div_spec nr rr ltac:(lia) ltac:(lia)) as [Hq1 [Hq2 Hq3]].
    destruct (ceil_div_spec nc rc ltac:(lia) ltac:(lia)) as [Hp1 [Hp2 Hp3]].
    destruct (Z.eqb_spec (ceil_div nr rr) 0); [lia|].
    destruct (Z.eqb_spec (ceil_div nc rc) 0); [lia|]. simpl in H.
    injection H as <-.
    exists nr, nc, rr, rc. simpl. repeat split; try reflexivity; try lia.
    + rewrite (sz_small ((ceil_div nr rr - 1) * rr)) by nia. apply sz_small. nia.
    + rewrite (sz_small ((ceil_div nc rc - 1) * rc)) by nia. apply sz_small. nia.
  - unfold make_MultiRegionLayout4, bind, make_RegionLayout in H.
    destruct ((nr =? 0) || (nc =? 0)) eqn:E2; [discriminate|]. split_orb_false E2.
    simpl in H.
    destruct (Z.eqb_spec a 0) as [->|Ha0].
    { unfold ceil_div at 2 3 in H. simpl in H. discriminate. }
    destruct (Z.eqb_spec b 0) as [->|Hb0].
    { destruct (ceil_div nr (ceil_div nr a) =? 0); [discriminate|].
      unfold ceil_div at 2 in H. simpl in H. discriminate. }
    destruct (ceil_div_spec nr a ltac:(lia) ltac:(lia)) as [Ha1 _].
    destruct (ceil_div_spec nc b ltac:(lia) ltac:(lia)) as [Hb1 _].
    pose proof (ceil_div_le nr a ltac:(lia) ltac:(lia)).
    pose proof (ceil_div_le nc b ltac:(lia) ltac:(lia)).
    set (rr := ceil_div nr a) in *. set (rc := ceil_div nc b) in *.
    destruct (ceil_div_spec nr rr ltac:(lia) ltac:(lia)) as [Hq1 [Hq2 Hq3]].
    destruct (ceil_div_spec nc rc ltac:(lia) ltac:(lia)) as [Hp1 [Hp2 Hp3]].
    destruct (Z.eqb_spec (ceil_div nr rr) 0); [lia|].
    destruct (Z.eqb_spec (ceil_div nc rc) 0); [lia|]. simpl in H.
    injection H as <-.
    exists nr, nc, rr, rc. simpl. repeat split; try reflexivity; try lia.
    + rewrite (sz_small ((ceil_div nr rr - 1) * rr)) by nia. apply sz_small. nia.
    + rewrite (sz_small ((ceil_div nc rc - 1) * rc)) by nia. apply sz_small. nia.
Qed.

Lemma inside_iff l p :
  IsPixelInside l p = true <-> 0 <= row p < n_rows l /\ 0 <= column p < n_columns l.
Proof.
  split; [apply inside_bounds|]. intros [[H1 H2] [H3 H4]]. unfold IsPixelInside.
  destruct (Z.leb_spec 0 (row p)), (Z.ltb_spec (row p) (n_rows l)), (Z.leb_spec 0 (column p)),
    (Z.ltb_spec (column p) (n_columns l)); simpl; lia.
Qed.

(** One coordinate of [ConvertToRegionPixel] followed by
    [ConvertFromRegionPixel]. *)
Lemma coord_from_to x R : 0 <= x < 2 ^ 15 -> 1 <= R ->
  to_i16 (sz (sz (x / R * R) + sz (to_i16 (x mod R)))) = x.
Proof.
  intros Hx HR.
  pose proof (Z.mod_pos_bound x R ltac:(lia)). pose proof (Z.mod_le x R ltac:(lia) ltac:(lia)).
  pose proof (Z.div_mod x R ltac:(lia)).
  rewrite (to_i16_small (x mod R)) by lia.
  rewrite (sz_small (x / R * R)) by nia. rewrite (sz_small (x mod R)) by lia.
  rewrite sz_small by nia. replace (x / R * R + x mod R) with x by nia.
  apply to_i16_small. lia.
Qed.

(** One coordinate of [ConvertFromRegionPixel] followed by
    [ConvertToRegionPixel]. *)
Lemma coord_to_from q R y : 0 <= q -> 0 <= y < R -> q * R + y < 2 ^ 15 ->
  to_i16 (sz (sz (q * R) + sz y)) = q * R + y /\
  sz (q * R + y) / R = q /\ to_i16 (sz (q * R + y) mod R) = y.
Proof.
  intros Hq Hy Hx.
  assert (0 <= q * R) by nia.
  rewrite (sz_small (q * R)), (sz_small y), (sz_small (q * R + y)) by lia.
  destruct (divmod_exact q R y Hy) as [Hd Hm].
  rewrite Hd, Hm, !to_i16_small by lia. split; [reflexivity|split; reflexivity].
Qed.

(** C4 as stated, for [MultiRegionLayout(80000, 1, RegionLayout(40000, 1))]:
    region 1 is valid and the pixel (0, 0) lies in it, but its chip row
    40000 does not fit the [int16_t] coordinate, so converting back does
    not return region 1 and the pixel. *)
Lemma region_pixel_counterexample :
  exists m, (let* rl := make_RegionLayout 40000 1 in make_MultiRegionLayout 80000 1 rl) = Ok m /\
    1 < GetNumberOfRegions m /\
    ActualRegionLayout m 1 = Ok (mkRegionLayout 40000 1) /\
    IsPixelInside (mkRegionLayout 40000 1) (mkPixel 0 0) = true /\
    ConvertToRegionPixel m (ConvertFromRegionPixel m 1 (mkPixel 0 0)) <> (1, mkPixel 0 0).
Proof.
  eexists. split; [vm_compute; reflexivity|].
  vm_compute. split; [reflexivity|split; [reflexivity|split; [reflexivity|discriminate]]].
Qed.

(** C4 (amended to chips of at most 2^15 rows and columns, the range of
    the [int16_t] coordinates): on a layout built by the constructors,
    [ConvertFromRegionPixel] inverts [ConvertToRegionPixel] on the pixels of
    the chip, and [ConvertToRegionPixel] inverts [ConvertFromRegionPixel] on
    the region ids below [GetNumberOfRegions] and the pixels inside
    [ActualRegionLayout] of the region. *)
Theorem region_pixel_roundtrip m :
  constructed m -> n_rows (base m) <= 2 ^ 15 -> n_columns (base m) <= 2 ^ 15 ->
  (forall p, IsPixelInside (base m) p = true ->
     let '(region_id, region_pixel) := ConvertToRegionPixel m p in
     ConvertFromRegionPixel m region_id region_pixel = p) /\
  (forall region_id region_pixel al,
     0 <= region_id < GetNumberOfRegions m -> ActualRegionLayout m region_id = Ok al ->
     IsPixelInside al region_pixel = true ->
     ConvertToRegionPixel m (ConvertFromRegionPixel m region_id region_pixel) =
       (region_id, region_pixel)).
Proof.
  intros Hc HN HM.
  destruct (constructed_facts m Hc)
    as (N & M & R & C & Hb & Hrl & HN1 & HM1 & HR & HC & Hnrr & Hnrc & Hlr & Hlc).
  rewrite Hb in HN, HM. simpl in HN, HM.
  destruct (ceil_div_spec N R ltac:(lia) HR) as [Hq1 [Hq2 Hq3]].
  destruct (ceil_div_spec M C ltac:(lia) HC) as [Hp1 [Hp2 Hp3]].
  pose proof (ceil_div_le N R ltac:(lia) HR). pose proof (ceil_div_le M C ltac:(lia) HC).
  set (nrr := ceil_div N R) in *. set (nrc := ceil_div M C) in *.
  assert (Hregs : GetNumberOfRegions m = nrr * nrc).
  { unfold GetNumberOfRegions. rewrite Hnrr, Hnrc. apply sz_small. nia. }
  split.
  - intros p Hin. rewrite Hb, inside_iff in Hin. simpl in Hin.
    destruct Hin as [Hr Hcol].
    unfold ConvertToRegionPixel, ConvertFromRegionPixel. rewrite Hrl, Hnrc. simpl.
    rewrite (sz_small (row p)), (sz_small (column p)) by lia.
    assert (Hri : 0 <= row p / R < nrr)
      by (split; [apply Z.div_pos; lia|apply Z.div_lt_upper_bound; lia]).
    assert (Hci : 0 <= column p / C < nrc)
      by (split; [apply Z.div_pos; lia|apply Z.div_lt_upper_bound; lia]).
    rewrite (sz_small (row p / R * nrc)) by nia.
    rewrite (sz_small (row p / R * nrc + column p / C)) by nia.
    destruct (divmod_exact (row p / R) nrc (column p / C) Hci) as [Hd Hm].
    rewrite Hm.
    replace (row p / R * nrc + column p / C - column p / C) with (row p / R * nrc) by lia.
    rewrite Z.div_mul by lia.
    rewrite !coord_from_to by lia. destruct p; reflexivity.
  - intros rid rp al Hrid Hal Hin. rewrite Hregs in Hrid.
    unfold ActualRegionLayout in Hal. rewrite Hrl, Hnrc, Hnrr, Hlr, Hlc in Hal. simpl in Hal.
    fold nrr nrc in Hal.
    set (ci := rid mod nrc) in *.
    assert (Hci : 0 <= ci < nrc) by (apply Z.mod_pos_bound; lia).
    assert (Hrid2 : rid = nrc * (rid / nrc) + ci) by (apply Z.div_mod; lia).
    assert (Hri0 : (rid - ci) / nrc = rid / nrc).
    { replace (rid - ci) with (rid / nrc * nrc) by lia. apply Z.div_mul. lia. }
    rewrite Hri0 in Hal.
    set (ri := rid / nrc) in *.
    assert (Hri : 0 <= ri < nrr)
      by (split; [apply Z.div_pos; lia|apply Z.div_lt_upper_bound; lia]).
    rewrite (sz_small (ci + 1)), (sz_small (ri + 1)) in Hal by lia.
    unfold make_RegionLayout in Hal.
    destruct (_ || _); [discriminate|]. injection Hal as <-.
    rewrite inside_iff in Hin. simpl in Hin. destruct Hin as [Hr Hcol].
    assert (Hrow : ri * R + row rp < N /\ row rp < R).
    { destruct (Z.eqb_spec (ri + 1) nrr); split; nia. }
    assert (Hcl : ci * C + column rp < M /\ column rp < C).
    { destruct (Z.eqb_spec (ci + 1) nrc); split; nia. }
    unfold ConvertToRegionPixel, ConvertFromRegionPixel. rewrite Hrl, Hnrc. simpl.
    fold nrc ci. rewrite Hri0. fold ri.
    destruct (coord_to_from ri R (row rp)) as [E1 [E2 E3]]; try lia.
    destruct (coord_to_from ci C (column rp)) as [F1 [F2 F3]]; try lia.
    rewrite E1, F1, E2, F2, E3, F3.
    rewrite (sz_small (ri * nrc)) by nia. rewrite sz_small by nia.
    f_equal; [lia|destruct rp; reflexivity].
Qed.

Lemma region_pixel_roundtrip_witness :
  let m := mkMultiRegionLayout (mkRegionLayout 400 400) (mkRegionLayout 400 100) 1 4 400 100 in
  constructed m /\ n_rows (base m) <= 2 ^ 15 /\ n_columns (base m) <= 2 ^ 15 /\
  ((forall p, IsPixelInside (base m) p = true ->
     let '(region_id, region_pixel) := ConvertToRegionPixel m p in
     ConvertFromRegionPixel m region_id region_pixel = p) /\
  (forall region_id region_pixel al,
     0 <= region_id < GetNumberOfRegions m -> ActualRegionLayout m region_id = Ok al ->
     IsPixelInside al region_pixel = true ->
     ConvertToRegionPixel m (ConvertFromRegionPixel m region_id region_pixel) =
       (region_id, region_pixel))).
Proof.
  assert (Hc : constructed (mkMultiRegionLayout (mkRegionLayout 400 400) (mkRegionLayout 400 100) 1 4 400 100)).
  { apply (constructed4 400 400 1 4); try lia. vm_compute. reflexivity. }
  split; [exact Hc|split; [simpl; lia|split; [simpl; lia|]]].
  apply region_pixel_roundtrip; [exact Hc|simpl; lia|simpl; lia].
Defined.

End GeoClaims.

(* ------------------------------------------------------------------ *)
(** ** Claims on the collection *)

Module CollClaims.
Import Coll.

(** C3 (a divergence): [at(name)] returns the statistics stored under a
    name and throws the collection's "not found" error for every missing
    name, and [at(Adc)], [at(ActiveAdc)], [at(DeltaRowColumn)] look up
    [all_adc], [active_adc], [delta_row_column]; but [at(DeltaRow)] and
    [at(DeltaColumn)] throw [std::out_of_range] from the type-to-name map,
    also when statistics named [delta_row] and [delta_column] are stored. *)
Theorem at_type_delta_separate {S} (c : Collection S) sr sc :
  c !! "delta_row" = Some sr -> c !! "delta_column" = Some sc ->
  at_type c DeltaRow = Err OutOfRange /\ at_type c DeltaColumn = Err OutOfRange /\
  at_name c "delta_row" = Ok sr /\ at_name c "delta_column" = Ok sc /\
  at_type c Adc = at_name c "all_adc" /\ at_type c ActiveAdc = at_name c "active_adc" /\
  at_type c DeltaRowColumn = at_name c "delta_row_column" /\
  (forall name, c !! name = None -> at_name c name = throw "Alphabet statistics '%1%' not found.") /\
  (forall name s, c !! name = Some s -> at_name c name = Ok s).
Proof.
  intros Hr Hc. unfold at_name. rewrite Hr, Hc.
  repeat split; try reflexivity.
  - intros name Hn. rewrite Hn. reflexivity.
  - intros name s Hs. rewrite Hs. reflexivity.
Qed.

Lemma at_type_delta_separate_witness :
  let c : Collection Z := <["delta_column" := 2]> (<["delta_row" := 1]> ∅) in
  c !! "delta_row" = Some 1 /\ c !! "delta_column" = Some 2 /\
  (at_type c DeltaRow = Err OutOfRange /\ at_type c DeltaColumn = Err OutOfRange /\
  at_name c "delta_row" = Ok 1 /\ at_name c "delta_column" = Ok 2 /\
  at_type c Adc = at_name c "all_adc" /\ at_type c ActiveAdc = at_name c "active_adc" /\
  at_type c DeltaRowColumn = at_name c "delta_row_column" /\
  (forall name, c !! name = None -> at_name c name = throw "Alphabet statistics '%1%' not found.") /\
  (forall name s, c !! name = Some s -> at_name c name = Ok s)).
Proof.
  assert (Hr : (<["delta_column" := 2]> (<["delta_row" := 1]> ∅) : Collection Z) !! "delta_row" = Some 1)
    by reflexivity.
  assert (Hc : (<["delta_column" := 2]> (<["delta_row" := 1]> ∅) : Collection Z) !! "delta_column" = Some 2)
    by reflexivity.
  split; [exact Hr|split; [exact Hc|]].
  apply (at_type_delta_separate _ 1 2 Hr Hc).
Defined.

End CollClaims.

(* ------------------------------------------------------------------ *)
(** ** Claims on the producer *)

Module ProdClaims.
Import Machine Prod Samples.

Lemma freq_sum_app l1 l2 : freq_sum (l1 ++ l2) = freq_sum l1 + freq_sum l2.
Proof. induction l1 as [|e l1 IH]; simpl; lia. Qed.

Lemma freq_sum_perm l1 l2 : l1 ≡ₚ l2 -> freq_sum l1 = freq_sum l2.
Proof. induction 1; simpl; lia. Qed.

Lemma freq_sum_nonneg l : Forall (fun e => 0 <= e.2) l -> 0 <= freq_sum l.
Proof. induction 1; simpl; lia. Qed.

Lemma total_insert (m : gmap Z Z) i x :
  total (<[i := x]> m) = x + total m - default 0 (m !! i).
Proof.
  unfold total. destruct (m !! i) as [y|] eqn:E; simpl.
  - rewrite <- insert_delete_eq.
    rewrite (freq_sum_perm _ _ (map_to_list_insert (delete i m) i x ltac:(apply lookup_delete_eq))).
    rewrite <- (freq_sum_perm _ _ (map_to_list_delete m i y E)). simpl. lia.
  - rewrite (freq_sum_perm _ _ (map_to_list_insert m i x E)). simpl. lia.
Qed.

(** What every reachable producer satisfies. *)
Definition ok (p : Producer) : Prop :=
  0 <= n_counts p < 2 ^ 64 /\ map_Forall (fun _ v => 0 <= v) (letter_frequencies p) /\
  total (letter_frequencies p) = n_counts p /\
  Z.of_nat (size (letter_frequencies p)) < 2 ^ 64.

Lemma map_Forall_le_total (m : gmap Z Z) i v :
  map_Forall (fun _ v => 0 <= v) m -> m !! i = Some v -> v <= total m.
Proof.
  intros Hall Hi. unfold total.
  rewrite <- (freq_sum_perm _ _ (map_to_list_delete m i v Hi)). simpl.
  cut (0 <= freq_sum (map_to_list (delete i m))); [lia|].
  apply freq_sum_nonneg. apply Forall_forall. intros [j w] Hj.
  apply elem_of_map_to_list in Hj. apply lookup_delete_Some in Hj as [_ Hj].
  exact (Hall j w Hj).
Qed.

Lemma ok_AddCount p letter :
  ok p -> Z.of_nat (size (letter_frequencies (AddCount p letter))) < 2 ^ 64 -> ok (AddCount p letter).
Proof.
  intros (Hn & Hall & Htot & Hsz) Hsz'. unfold AddCount, IntegerLimitIsReached, IntegerMax in *.
  destruct (Z.eqb_spec (n_counts p) (2 ^ 64 - 1)); [exact (conj Hn (conj Hall (conj Htot Hsz)))|].
  set (f := default 0 (letter_frequencies p !! letter)).
  assert (Hf : 0 <= f <= n_counts p).
  { unfold f. destruct (letter_frequencies p !! letter) as [v|] eqn:E; simpl; [|lia].
    split; [exact (Hall letter v E)|]. rewrite <- Htot. apply (map_Forall_le_total _ letter); assumption. }
  unfold ok; simpl in *. rewrite !sz_small by lia.
  split; [lia|split; [|split; [|rewrite <- (sz_small (f + 1)) by lia; exact Hsz']]].
  - apply map_Forall_insert_2; [lia|exact Hall].
  - rewrite total_insert. fold f. lia.
Qed.

Lemma ok_make_with_alphabet nm alphabet :
  Z.of_nat (size (letter_frequencies (make_with_alphabet nm alphabet))) < 2 ^ 64 ->
  ok (make_with_alphabet nm alphabet).
Proof.
  intros Hsz. unfold make_with_alphabet in *. simpl in *.
  assert (H : forall (m : gmap Z Z), map_Forall (fun _ v => v = 0) m ->
    map_Forall (fun _ v => v = 0) (foldl (fun m l => <[l := 0]> m) m alphabet)).
  { clear Hsz. induction alphabet as [|l al IH]; intros m Hm; simpl; [exact Hm|].
    apply IH. apply map_Forall_insert_2; [reflexivity|exact Hm]. }
  specialize (H ∅ (map_Forall_empty _)).
  assert (Ht : forall (m : gmap Z Z), map_Forall (fun _ v => v = 0) m -> total m = 0).
  { intros m Hm. unfold total. apply map_Forall_to_list in Hm.
    induction Hm as [|[j w] l Hw Hl IH]; simpl in *; [reflexivity|]. lia. }
  unfold ok; simpl. split; [lia|split; [|split; [apply Ht, H|exact Hsz]]].
  intros j w Hj. rewrite (H j w Hj). lia.
Qed.

Lemma reduce_loop_spec fuel pre mid suf n bound (F : gmap Z Z) c :
  Z.of_nat (length suf) = n -> Z.of_nat (length mid) = bound - n ->
  Z.of_nat (length (pre ++ mid ++ suf)) < 2 ^ 64 -> 0 <= c < 2 ^ 64 ->
  (Z.to_nat (bound - n) <= fuel)%nat ->
  reduce_loop fuel (pre ++ mid ++ suf) n bound F c =
    Ok (fold_left (fun F e => <[e.1 := e.2]> F) (rev mid) F, sz (c + freq_sum mid)).
Proof.
  revert n mid suf F c. induction fuel as [|fuel IH]; intros n mid suf F c Hsuf Hmid HL Hc Hf.
  - destruct mid as [|e mid]; [|simpl in Hmid; lia].
    simpl. rewrite Z.add_0_r, sz_small by exact Hc. reflexivity.
  - destruct mid as [|e0 mid0] eqn:Em.
    { simpl in Hmid. simpl. destruct (Z.ltb_spec n bound); [lia|].
      rewrite Z.add_0_r, sz_small by exact Hc. reflexivity. }
    rewrite <- Em in *. assert (Hne : mid <> []) by (rewrite Em; discriminate).
    destruct (exists_last Hne) as [mid' [e He]]. clear Em e0 mid0 Hne. subst mid.
    rewrite length_app in Hmid. simpl in Hmid.
    simpl. destruct (Z.ltb_spec n bound) as [Hlt|]; [|lia].
    assert (Hidx : sz (Z.of_nat (length (pre ++ (mid' ++ [e]) ++ suf)) - n - 1) =
                   Z.of_nat (length pre + length mid')).
    { rewrite sz_small; rewrite !length_app in *; simpl in *; lia. }
    rewrite Hidx.
    assert (Hol : pre ++ (mid' ++ [e]) ++ suf = (pre ++ mid') ++ e :: suf)
      by (rewrite <- !app_assoc; reflexivity).
    rewrite Hol. unfold vat.
    destruct (Z.ltb_spec (Z.of_nat (length pre + length mid')) 0); [lia|].
    rewrite Nat2Z.id, <- length_app, nth_error_app2 by lia. rewrite Nat.sub_diag. simpl.
    destruct e as [letter frequency]. simpl.
    rewrite <- app_assoc. rewrite (IH (n + 1) mid' ((letter, frequency) :: suf)); simpl; try lia.
    + rewrite rev_app_distr. simpl. f_equal. f_equal.
      unfold sz. rewrite Zplus_mod_idemp_l. f_equal. rewrite freq_sum_app. simpl. lia.
    + rewrite !length_app in *; simpl in *; lia.
    + apply Z.mod_pos_bound. lia.
Qed.

Lemma fold_insert_rev (l : list (Z * Z)) :
  fold_left (fun F e => <[e.1 := e.2]> F) (rev l) (∅ : gmap Z Z) = list_to_map l.
Proof.
  induction l as [|e l IH]; [reflexivity|].
  simpl. rewrite fold_left_app, IH. reflexivity.
Qed.

#[local] Instance freq_le_total : Total freq_le.
Proof.
  intros [a x] [b y]. unfold freq_le. simpl.
  destruct (Z.ltb_spec x y), (Z.eqb_spec x y), (Z.leb_spec b a), (Z.ltb_spec y x),
    (Z.eqb_spec y x), (Z.leb_spec a b); simpl; auto; lia.
Qed.

#[local] Instance freq_le_trans : Transitive freq_le.
Proof.
  intros [a x] [b y] [c z]. unfold freq_le. simpl.
  destruct (Z.ltb_spec x y), (Z.eqb_spec x y), (Z.leb_spec b a); simpl; try discriminate;
  destruct (Z.ltb_spec y z), (Z.eqb_spec y z), (Z.leb_spec c b); simpl; try discriminate;
  destruct (Z.ltb_spec x z), (Z.eqb_spec x z), (Z.leb_spec c a); simpl; auto; lia.
Qed.

Lemma freq_le_snd a b : freq_le a b -> a.2 <= b.2.
Proof.
  unfold freq_le. destruct (Z.ltb_spec a.2 b.2), (Z.eqb_spec a.2 b.2); simpl; try lia; discriminate.
Qed.

Lemma StronglySorted_app_rel {A} (R : A -> A -> Prop) l1 l2 :
  StronglySorted R (l1 ++ l2) -> forall x y, In x l1 -> In y l2 -> R x y.
Proof.
  induction l1 as [|a l1 IH]; intros H x y Hx Hy; [destruct Hx|].
  apply StronglySorted_inv in H as [H Hall]. destruct Hx as [<-|Hx].
  - rewrite Forall_forall in Hall. apply Hall. apply list_elem_of_In, in_or_app. right. exact Hy.
  - apply IH; assumption.
Qed.

Lemma GetFrequenceyOrderedLetters_perm p :
  n_counts p <> 0 ->
  GetFrequenceyOrderedLetters p = Ok (merge_sort freq_le (map_to_list (letter_frequencies p))) /\
  merge_sort freq_le (map_to_list (letter_frequencies p)) ≡ₚ map_to_list (letter_frequencies p) /\
  StronglySorted freq_le (merge_sort freq_le (map_to_list (letter_frequencies p))).
Proof.
  intros Hn. unfold GetFrequenceyOrderedLetters.
  destruct (Z.eqb_spec (n_counts p) 0); [contradiction|].
  split; [reflexivity|split].
  - apply merge_sort_Permutation.
  - apply StronglySorted_merge_sort; apply _.
Qed.

Lemma total_list_to_map (l : list (Z * Z)) :
  NoDup l.*1 -> total (list_to_map l) = freq_sum l.
Proof.
  intros Hnd. unfold total. apply freq_sum_perm. apply map_to_list_to_map. exact Hnd.
Qed.

Lemma Reduce_spec p k nm sp :
  ok p -> n_counts p <> 0 -> 1 < k < 2 ^ 64 -> letter_frequencies p !! sp = None ->
  exists p', Reduce p k nm sp = Ok p' /\ ok p' /\
    total (letter_frequencies p') = total (letter_frequencies p) /\
    Z.of_nat (size (letter_frequencies p')) = Z.min k (Z.of_nat (size (letter_frequencies p))) /\
    n_counts p' = n_counts p /\
    (k < Z.of_nat (size (letter_frequencies p)) ->
     exists dropped kept,
       map_to_list (letter_frequencies p) ≡ₚ dropped ++ kept /\
       Z.of_nat (length kept) = k - 1 /\
       (forall d e, d ∈ dropped -> e ∈ kept -> d.2 <= e.2) /\
       (forall e, e ∈ kept -> letter_frequencies p' !! e.1 = Some e.2) /\
       letter_frequencies p' !! sp = Some (freq_sum dropped) /\
       (forall l f, letter_frequencies p' !! l = Some f -> l = sp \/ (l, f) ∈ kept)).
Proof.
  intros Hok Hn0 Hk Hsp. pose proof Hok as (Hn & Hall & Htot & Hsz).
  destruct (GetFrequenceyOrderedLetters_perm p Hn0) as (HG & Hperm & Hsort).
  remember (merge_sort freq_le (map_to_list (letter_frequencies p))) as ol eqn:Eol.
  assert (HL : length ol = size (letter_frequencies p))
    by (rewrite (Permutation_length Hperm), length_map_to_list; reflexivity).
  assert (Hnd : NoDup ol.*1) by (rewrite Hperm; apply NoDup_fst_map_to_list).
  assert (Hmem : forall e, e ∈ ol -> letter_frequencies p !! e.1 = Some e.2).
  { intros [i v] He. rewrite Hperm in He. apply elem_of_map_to_list in He. exact He. }
  assert (Hsum : freq_sum ol = n_counts p) by (rewrite (freq_sum_perm _ _ Hperm); exact Htot).
  assert (Hnn : Forall (fun e => 0 <= e.2) ol).
  { apply Forall_forall. intros [i v] He. apply Hmem in He. exact (Hall i v He). }
  unfold Reduce. destruct (Z.leb_spec k 1); [lia|].
  rewrite Hsp, bool_decide_eq_false_2 by (intros [x Hx]; discriminate).
  rewrite HG. simpl bind.
  destruct (Z.leb_spec (Z.of_nat (length ol)) k) as [Hle|Hgt].
  { exists (copy p). split; [reflexivity|]. unfold copy; simpl.
    split; [exact Hok|]. split; [reflexivity|]. split; [lia|]. split; [reflexivity|]. lia. }
  set (dropped := take (length ol - Z.to_nat (k - 1)) ol).
  set (kept := drop (length ol - Z.to_nat (k - 1)) ol).
  assert (Hsplit : ol = dropped ++ kept ++ []) by (rewrite app_nil_r; symmetry; apply take_drop).
  assert (Hlk : Z.of_nat (length kept) = k - 1) by (unfold kept; rewrite length_drop; lia).
  rewrite sz_small by lia. rewrite Hsplit.
  rewrite (reduce_loop_spec _ dropped kept [] 0 (k - 1)); simpl; try lia;
    [|rewrite <- Hsplit; lia].
  simpl bind. rewrite fold_insert_rev.
  rewrite Hsplit, app_nil_r in Hnd, Hsum, Hnn, Hmem, Hsort.
  rewrite fmap_app in Hnd. apply NoDup_app in Hnd as (Hndd & Hdisj & Hndk).
  rewrite freq_sum_app in Hsum. apply Forall_app in Hnn as [Hnnd Hnnk].
  pose proof (freq_sum_nonneg _ Hnnd) as Hd0. pose proof (freq_sum_nonneg _ Hnnk) as Hk0.
  assert (Hv : sz (n_counts p - sz (0 + freq_sum kept)) = freq_sum dropped)
    by (rewrite (sz_small (0 + freq_sum kept)) by lia; rewrite sz_small by lia; lia).
  rewrite Hv.
  assert (Hspk : (list_to_map kept : gmap Z Z) !! sp = None).
  { apply not_elem_of_list_to_map_1. intros Hin. apply list_elem_of_fmap in Hin as ([i v] & -> & Hin).
    assert (Hm : (i, v) ∈ dropped ++ kept) by (apply elem_of_app; right; exact Hin).
    apply Hmem in Hm. simpl in *. congruence. }
  assert (Hkeep : forall i v, (list_to_map kept : gmap Z Z) !! i = Some v -> (i, v) ∈ kept)
    by (intros i v Hi; apply elem_of_list_to_map_2; exact Hi).
  assert (Hsize : Z.of_nat (size (<[sp := freq_sum dropped]> (list_to_map kept : gmap Z Z))) = k).
  { rewrite map_size_insert_None by exact Hspk. rewrite map_size_list_to_map by exact Hndk. lia. }
  assert (Htot' : total (<[sp := freq_sum dropped]> (list_to_map kept : gmap Z Z)) = n_counts p).
  { rewrite total_insert, Hspk, total_list_to_map by exact Hndk. simpl. lia. }
  eexists. split; [reflexivity|]. unfold ok. cbn [letter_frequencies n_counts].
  split; [split; [exact Hn|split; [|split; [exact Htot'|rewrite Hsize; lia]]]|].
  { apply map_Forall_insert_2; [exact Hd0|]. intros i v Hi. apply Hkeep in Hi.
    rewrite Forall_forall in Hnnk. exact (Hnnk (i, v) Hi). }
  split; [rewrite Htot'; symmetry; exact Htot|].
  split; [rewrite Hsize; lia|]. split; [reflexivity|].
  intros _. exists dropped, kept.
  split; [rewrite <- Hperm, Hsplit, app_nil_r; reflexivity|]. split; [exact Hlk|].
  split.
  { intros d e Hd He. apply freq_le_snd.
    apply (StronglySorted_app_rel _ dropped kept Hsort); apply list_elem_of_In; assumption. }
  split.
  { intros [i v] He. simpl. rewrite lookup_insert_ne.
    - apply elem_of_list_to_map_1; assumption.
    - intros Heq. subst i. assert (Hm : (sp, v) ∈ dropped ++ kept) by (apply elem_of_app; right; exact He).
      apply Hmem in Hm. simpl in Hm. congruence. }
  split; [apply lookup_insert_eq|].
  intros l f Hl. destruct (decide (sp = l)) as [->|Hne]; [left; reflexivity|].
  right. rewrite lookup_insert_ne in Hl by exact Hne. apply Hkeep, Hl.
Qed.

Lemma Reduce_Ok_inv p k nm sp p' :
  Reduce p k nm sp = Ok p' ->
  1 < k /\ letter_frequencies p !! sp = None /\ n_counts p <> 0.
Proof.
  unfold Reduce. destruct (Z.leb_spec k 1); [discriminate|].
  destruct (letter_frequencies p !! sp) eqn:E.
  { rewrite bool_decide_eq_true_2 by (eexists; reflexivity). discriminate. }
  rewrite bool_decide_eq_false_2 by (intros [x Hx]; discriminate).
  unfold GetFrequenceyOrderedLetters. destruct (Z.eqb_spec (n_counts p) 0); [discriminate|].
  intros _. split; [lia|]. split; [reflexivity|assumption].
Qed.

Lemma reachable_ok p : reachable p -> ok p.
Proof.
  induction 1 as [nm al Hsz|p l Hp IH Hsz|p Hp IH|p k nm sp p' Hp IH Hk HR].
  - apply ok_make_with_alphabet. exact Hsz.
  - apply ok_AddCount; assumption.
  - exact IH.
  - destruct (Reduce_Ok_inv _ _ _ _ _ HR) as (Hk1 & Hsp & Hn0).
    destruct (Reduce_spec p k nm sp IH Hn0 ltac:(lia) Hsp) as (p'' & HR' & Hok & _).
    rewrite HR in HR'. injection HR' as ->. exact Hok.
Qed.

(** C6. For every reachable producer with at least one recorded count,
    every [new_size > 1] (a [size_t]) and every special letter absent from
    the alphabet, [Reduce] succeeds; the result has the same frequency total
    and the same [n_counts], an alphabet of size [min(new_size, |old|)]; and
    when the old alphabet is larger than [new_size], the old entries split
    into dropped and kept ones, none of the [new_size - 1] kept letters less
    frequent than a dropped one, the kept letters keep their frequencies
    verbatim, the special letter carries the sum of the dropped
    frequencies, and there is no other letter. *)
Theorem reduce_preserves p k nm sp :
  reachable p -> n_counts p <> 0 -> 1 < k < 2 ^ 64 -> letter_frequencies p !! sp = None ->
  exists p', Reduce p k nm sp = Ok p' /\
    total (letter_frequencies p') = total (letter_frequencies p) /\
    Z.of_nat (size (letter_frequencies p')) = Z.min k (Z.of_nat (size (letter_frequencies p))) /\
    n_counts p' = n_counts p /\
    (k < Z.of_nat (size (letter_frequencies p)) ->
     exists dropped kept,
       map_to_list (letter_frequencies p) ≡ₚ dropped ++ kept /\
       Z.of_nat (length kept) = k - 1 /\
       (forall d e, d ∈ dropped -> e ∈ kept -> d.2 <= e.2) /\
       (forall e, e ∈ kept -> letter_frequencies p' !! e.1 = Some e.2) /\
       letter_frequencies p' !! sp = Some (freq_sum dropped) /\
       (forall l f, letter_frequencies p' !! l = Some f -> l = sp \/ (l, f) ∈ kept)).
Proof.
  intros Hp Hn0 Hk Hsp.
  destruct (Reduce_spec p k nm sp (reachable_ok p Hp) Hn0 Hk Hsp)
    as (p' & HR & _ & Htot & Hsize & Hn & Hsplit).
  exists p'. split; [exact HR|]. split; [exact Htot|]. split; [exact Hsize|].
  split; [exact Hn|exact Hsplit].
Qed.

Lemma size_AddCount p x :
  (size (letter_frequencies (AddCount p x)) <= S (size (letter_frequencies p)))%nat.
Proof.
  unfold AddCount. destruct (IntegerLimitIsReached p); simpl; [lia|].
  rewrite map_size_insert. destruct (letter_frequencies p !! x); simpl; lia.
Qed.

Lemma reachable_foldl_AddCount l p :
  reachable p -> Z.of_nat (size (letter_frequencies p) + length l) < 2 ^ 64 ->
  reachable (foldl AddCount p l).
Proof.
  revert p. induction l as [|x l IH]; intros p Hp Hsz; simpl; [exact Hp|].
  pose proof (size_AddCount p x). simpl in Hsz.
  apply IH; [apply reachable_add; [exact Hp|]|]; lia.
Qed.

Lemma reduce_example_reachable : reachable reduce_example.
Proof.
  apply reachable_foldl_AddCount.
  - apply reachable_new. vm_compute. reflexivity.
  - vm_compute. reflexivity.
Qed.

Lemma reduce_preserves_witness :
  reachable reduce_example /\ n_counts reduce_example <> 0 /\ 1 < 3 < 2 ^ 64 /\
  letter_frequencies reduce_example !! (-1) = None /\
  exists p', Reduce reduce_example 3 "adc_reduced" (-1) = Ok p' /\
    total (letter_frequencies p') = total (letter_frequencies reduce_example) /\
    Z.of_nat (size (letter_frequencies p')) =
      Z.min 3 (Z.of_nat (size (letter_frequencies reduce_example))) /\
    n_counts p' = n_counts reduce_example /\
    (3 < Z.of_nat (size (letter_frequencies reduce_example)) ->
     exists dropped kept,
       map_to_list (letter_frequencies reduce_example) ≡ₚ dropped ++ kept /\
       Z.of_nat (length kept) = 3 - 1 /\
       (forall d e, d ∈ dropped -> e ∈ kept -> d.2 <= e.2) /\
       (forall e, e ∈ kept -> letter_frequencies p' !! e.1 = Some e.2) /\
       letter_frequencies p' !! (-1) = Some (freq_sum dropped) /\
       (forall l f, letter_frequencies p' !! l = Some f -> l = -1 \/ (l, f) ∈ kept)).
Proof.
  assert (Hn : n_counts reduce_example <> 0) by (vm_compute; discriminate).
  assert (Hsp : letter_frequencies reduce_example !! (-1) = None) by (vm_compute; reflexivity).
  split; [exact reduce_example_reachable|]. split; [exact Hn|]. split; [lia|].
  split; [exact Hsp|].
  apply (reduce_preserves reduce_example 3 "adc_reduced" (-1) reduce_example_reachable Hn);
    [lia|exact Hsp].
Defined.

End ProdClaims.

(* ------------------------------------------------------------------ *)
(** ** Claims on the Huffman tree *)

Module HuffClaims.
Import Machine Huff Samples.

Lemma path_value_bounds p : 0 <= path_value p < 2 ^ Z.of_nat (length p).
Proof.
  induction p as [|b p IH]; simpl; [lia|].
  rewrite Nat2Z.inj_succ, Z.pow_succ_r by lia. destruct b; simpl; lia.
Qed.

Lemma path_value_app p b :
  path_value (p ++ [b]) = path_value p + Z.b2z b * 2 ^ Z.of_nat (length p).
Proof.
  induction p as [|b' p IH]; simpl; [destruct b; simpl; lia|].
  rewrite IH, Nat2Z.inj_succ, Z.pow_succ_r by lia. lia.
Qed.

Lemma lor_pow2_low n x :
  0 <= n -> 0 <= x < 2 ^ n -> Z.lor (2 ^ n) x = 2 ^ n + x.
Proof.
  intros Hn Hx.
  assert (Hl : Z.land (2 ^ n) x = 0).
  { apply Z.bits_inj'; intros i Hi. rewrite Z.land_spec, Z.bits_0, Z.pow2_bits_eqb by lia.
    destruct (Z.eqb_spec n i) as [<-|]; simpl; [|reflexivity].
    rewrite <- (Z.mod_small x (2 ^ n)) by lia. apply Z.mod_pow2_bits_high. lia. }
  rewrite <- Z.lxor_lor, <- Z.add_nocarry_lxor by exact Hl. reflexivity.
Qed.

Lemma Append_path p b :
  (length p < 64)%nat -> Append (path_code p) b = Ok (path_code (p ++ [b])).
Proof.
  intros Hp. pose proof (path_value_bounds p) as Hb.
  assert (H2 : 2 ^ Z.of_nat (length p) <= 2 ^ 63) by (apply Z.pow_le_mono_r; lia).
  unfold Append, path_code, MaxNumberOfBits; simpl.
  destruct (Z.gtb_spec (Z.of_nat (length p) + 1) 64); [lia|].
  rewrite length_app, path_value_app. simpl. f_equal. f_equal; [|rewrite sz_small; lia].
  destruct b; simpl.
  - rewrite Z.shiftl_1_l, (sz_small (2 ^ _)) by lia.
    rewrite lor_pow2_low, sz_small by lia; lia.
  - rewrite Z.shiftl_0_l, (sz_small 0), Z.lor_0_l, sz_small by lia. lia.
Qed.

Lemma Append_long p b :
  (64 <= length p)%nat -> Append (path_code p) b = throw "Huffman code is too long.".
Proof.
  intros Hp. unfold Append, path_code, MaxNumberOfBits; simpl.
  destruct (Z.gtb_spec (Z.of_nat (length p) + 1) 64); [reflexivity|lia].
Qed.

Definition code_of (p : list bool) (e : Z * list bool) : Z * HuffmanCode :=
  (e.1, path_code (p ++ e.2)).

Lemma BuildTable_spec t p tbl :
  (length p + depth t <= 64)%nat ->
  BuildTable t (path_code p) tbl = Ok (fold_left table_insert (map (code_of p) (leaf_paths t)) tbl).
Proof.
  revert p tbl. induction t as [l f|a IHa b IHb f]; intros p tbl Hd; simpl in *.
  - unfold code_of. simpl. rewrite app_nil_r. reflexivity.
  - rewrite Append_path by lia. simpl. rewrite IHa by (rewrite length_app; simpl; lia). simpl.
    rewrite Append_path by lia. simpl. rewrite IHb by (rewrite length_app; simpl; lia).
    rewrite map_app, fold_left_app, !map_map.
    assert (E : forall x, map (code_of (p ++ [x])) (leaf_paths b) =
      map (fun e => code_of p (e.1, x :: e.2)) (leaf_paths b) /\
      map (code_of (p ++ [x])) (leaf_paths a) =
      map (fun e => code_of p (e.1, x :: e.2)) (leaf_paths a)).
    { intros x. split; apply map_ext; intros [l q]; unfold code_of; simpl;
        rewrite <- app_assoc; reflexivity. }
    rewrite (proj1 (E true)), (proj2 (E false)). reflexivity.
Qed.

Lemma BuildTable_Ok_depth t p tbl tbl' :
  (length p <= 64)%nat ->
  BuildTable t (path_code p) tbl = Ok tbl' -> (length p + depth t <= 64)%nat.
Proof.
  revert p tbl tbl'. induction t as [l f|a IHa b IHb f]; intros p tbl tbl' Hp0 H; simpl in *;
    [lia|].
  destruct (Nat.lt_ge_cases (length p) 64) as [Hp|Hp];
    [|rewrite Append_long in H by exact Hp; discriminate].
  rewrite !Append_path in H by exact Hp. simpl in H.
  destruct (BuildTable a (path_code (p ++ [false])) tbl) as [tbl1|e] eqn:Ea; [|discriminate].
  apply IHa in Ea; [|rewrite length_app; simpl; lia].
  apply IHb in H; [|rewrite length_app; simpl; lia].
  rewrite length_app in Ea, H. simpl in *. lia.
Qed.

Lemma BuildTable_Err t c tbl e :
  BuildTable t c tbl = Err e -> e = Exception "Huffman code is too long.".
Proof.
  revert c tbl. induction t as [l f|a IHa b IHb f]; intros c tbl H; simpl in *; [discriminate|].
  unfold Append in H. destruct (n_bits c + 1 >? MaxNumberOfBits); simpl in H;
    [injection H as <-; reflexivity|].
  destruct (BuildTable a _ tbl) as [tbl1|e'] eqn:Ea; simpl in H.
  - apply (IHb _ _ H).
  - injection H as <-. apply (IHa _ _ Ea).
Qed.

Lemma mod_double b v M :
  0 < M -> (0 <= b <= 1) -> (b + 2 * v) mod (2 * M) = b + 2 * (v mod M).
Proof.
  intros HM Hb. symmetry. apply (Z.mod_unique _ _ (v / M)).
  - left. pose proof (Z.mod_pos_bound v M HM). lia.
  - pose proof (Z.div_mod v M ltac:(lia)) as E. nia.
Qed.

Lemma path_value_mod_prefix q1 q2 :
  (length q1 <= length q2)%nat ->
  path_value q2 mod 2 ^ Z.of_nat (length q1) = path_value q1 -> q1 `prefix_of` q2.
Proof.
  revert q2. induction q1 as [|b1 r1 IH]; intros q2 Hl Hv; [apply prefix_nil|].
  destruct q2 as [|b2 r2]; simpl in Hl; [lia|].
  simpl in Hv. rewrite Nat2Z.inj_succ, Z.pow_succ_r in Hv by lia.
  rewrite mod_double in Hv by (try apply Z.pow_pos_nonneg; try destruct b2; simpl; lia).
  assert (Hb : b1 = b2 /\ path_value r2 mod 2 ^ Z.of_nat (length r1) = path_value r1)
    by (destruct b1, b2; simpl in Hv; split; first [reflexivity | lia]).
  destruct Hb as [<- Hr]. apply prefix_cons. apply IH; [lia|exact Hr].
Qed.

Lemma mem_map_cons (b : bool) (L : list (Z * list bool)) l q :
  (l, q) ∈ map (fun e => (e.1, b :: e.2)) L <-> exists q', q = b :: q' /\ (l, q') ∈ L.
Proof.
  induction L as [|[l' q'] L IH]; simpl.
  - split; [intros H; inversion H|intros (q' & _ & H); inversion H].
  - rewrite elem_of_cons, IH. split.
    + intros [H|(q'' & -> & H)]; [injection H as -> ->; exists q'; split; [reflexivity|left]|].
      exists q''. split; [reflexivity|right; exact H].
    + intros (q'' & -> & H). apply elem_of_cons in H as [H|H]; [left|right].
      * injection H as -> ->. reflexivity.
      * exists q''. split; [reflexivity|exact H].
Qed.

Lemma fst_map_cons (b : bool) (L : list (Z * list bool)) :
  (map (fun e => (e.1, b :: e.2)) L).*1 = L.*1.
Proof. induction L as [|e L IH]; simpl; [reflexivity|]. f_equal. exact IH. Qed.

Lemma leaf_paths_fst t : (leaf_paths t).*1 = leaves t.
Proof.
  induction t as [l f|a IHa b IHb f]; simpl; [reflexivity|].
  rewrite fmap_app, !fst_map_cons, IHa, IHb. reflexivity.
Qed.

Lemma leaf_paths_prefix_free t l1 q1 l2 q2 :
  (l1, q1) ∈ leaf_paths t -> (l2, q2) ∈ leaf_paths t -> l1 <> l2 -> ~ q1 `prefix_of` q2.
Proof.
  revert l1 q1 l2 q2. induction t as [l f|a IHa b IHb f]; intros l1 q1 l2 q2 H1 H2 Hne; simpl in *.
  - apply list_elem_of_singleton in H1, H2. congruence.
  - apply elem_of_app in H1, H2. rewrite !mem_map_cons in H1, H2.
    destruct H1 as [(r1 & -> & H1)|(r1 & -> & H1)], H2 as [(r2 & -> & H2)|(r2 & -> & H2)];
      intros Hp.
    + apply prefix_cons_inv_2 in Hp. exact (IHa _ _ _ _ H1 H2 Hne Hp).
    + apply prefix_cons_inv_1 in Hp. discriminate.
    + apply prefix_cons_inv_1 in Hp. discriminate.
    + apply prefix_cons_inv_2 in Hp. exact (IHb _ _ _ _ H1 H2 Hne Hp).
Qed.

Lemma code_eqb_true a b : code_eqb a b = true -> a = b.
Proof.
  destruct a as [ca na], b as [cb nb]. unfold code_eqb. simpl.
  intros H. apply andb_prop in H as [H1 H2]. apply Z.eqb_eq in H1, H2. subst. reflexivity.
Qed.

Lemma fold_table_insert l tbl :
  (forall e e', e ∈ l -> e' ∈ tbl -> e.1 <> e'.1 /\ e.2 <> e'.2) ->
  NoDup l.*1 ->
  (forall e e', e ∈ l -> e' ∈ l -> e.2 = e'.2 -> e.1 = e'.1) ->
  fold_left table_insert l tbl = tbl ++ l.
Proof.
  revert tbl. induction l as [|e l IH]; intros tbl Hout Hnd Hinj; simpl; [rewrite app_nil_r; reflexivity|].
  assert (Hins : table_insert tbl e = tbl ++ [e]).
  { unfold table_insert. destruct (existsb _ tbl) eqn:E; [|reflexivity].
    apply existsb_exists in E as (x & Hx & Hf). apply list_elem_of_In in Hx.
    destruct (Hout e x ltac:(left) Hx) as [H1 H2].
    apply orb_prop in Hf as [Hf|Hf]; [apply Z.eqb_eq in Hf; congruence|].
    apply code_eqb_true in Hf. congruence. }
  rewrite Hins. simpl in Hnd. apply NoDup_cons in Hnd as [He Hnd].
  rewrite IH; [rewrite <- app_assoc; reflexivity| |exact Hnd|].
  - intros e1 e' H1 H'. apply elem_of_app in H' as [H'|H'].
    + apply Hout; [right; exact H1|exact H'].
    + apply list_elem_of_singleton in H'. subst e'. split.
      * intros Heq. apply He. rewrite <- Heq. apply list_elem_of_fmap_2. exact H1.
      * intros Heq. apply He. rewrite <- (Hinj e1 e ltac:(right; exact H1) ltac:(left) Heq).
        apply list_elem_of_fmap_2. exact H1.
  - intros e1 e2 H1 H2. apply Hinj; right; assumption.
Qed.

Lemma path_code_inj q1 q2 : path_code q1 = path_code q2 -> q1 = q2.
Proof.
  unfold path_code. intros H. injection H as Hv Hl.
  apply prefix_length_eq; [|lia].
  apply path_value_mod_prefix; [lia|].
  rewrite Hl, Z.mod_small; [symmetry; exact Hv|apply path_value_bounds].
Qed.

Fixpoint qleaves (q : list Node) : list Z :=
  match q with [] => [] | t :: q' => leaves t ++ qleaves q' end.

Lemma qleaves_app q1 q2 : qleaves (q1 ++ q2) = qleaves q1 ++ qleaves q2.
Proof. induction q1 as [|t q1 IH]; simpl; [reflexivity|]. rewrite IH, app_assoc. reflexivity. Qed.

Lemma qleaves_perm q1 q2 : q1 ≡ₚ q2 -> qleaves q1 ≡ₚ qleaves q2.
Proof.
  induction 1 as [|t q1 q2 _ IH|t t' q|q1 q2 q3 _ IH1 _ IH2]; simpl.
  - reflexivity.
  - rewrite IH. reflexivity.
  - rewrite !app_assoc. apply Permutation_app; [apply Permutation_app_comm|reflexivity].
  - rewrite IH1. exact IH2.
Qed.

Definition pop_ok (pop_top : list Node -> option (Node * list Node)) : Prop :=
  (forall q t q', pop_top q = Some (t, q') -> t :: q' ≡ₚ q) /\
  (forall q, q <> [] -> pop_top q <> None).

Lemma merge_loop_spec pop_top fuel q :
  pop_ok pop_top -> (length q <= S fuel)%nat ->
  length (merge_loop pop_top fuel q) = Nat.min 1 (length q) /\
  qleaves (merge_loop pop_top fuel q) ≡ₚ qleaves q.
Proof.
  intros [Hperm Hsome]. revert q. induction fuel as [|fuel IH]; intros q Hl; cbn [merge_loop].
  - split; [lia|reflexivity].
  - destruct (Nat.ltb_spec 1 (length q)) as [Hlt|Hge]; [|split; [lia|reflexivity]].
    destruct (pop_top q) as [[a q1]|] eqn:E1;
      [|exfalso; apply (Hsome q); [intros ->; simpl in Hlt; lia|exact E1]].
    pose proof (Hperm _ _ _ E1) as P1. pose proof (Permutation_length P1) as L1. simpl in L1.
    destruct (pop_top q1) as [[b q2]|] eqn:E2;
      [|exfalso; apply (Hsome q1); [intros ->; simpl in L1; lia|exact E2]].
    pose proof (Hperm _ _ _ E2) as P2. pose proof (Permutation_length P2) as L2. simpl in L2.
    destruct (IH (q2 ++ [make_cmb a b])) as [IHl IHp]; [rewrite length_app; simpl; lia|].
    split; [rewrite IHl, length_app; cbn [length]; lia|].
    rewrite IHp, qleaves_app. simpl. rewrite app_nil_r.
    rewrite <- (qleaves_perm _ _ P1). simpl. rewrite <- (qleaves_perm _ _ P2). simpl.
    rewrite Permutation_app_comm, <- !app_assoc. reflexivity.
Qed.

Lemma select_min_perm best rest : best :: rest ≡ₚ (select_min best rest).1 :: (select_min best rest).2.
Proof.
  revert best. induction rest as [|x rest IH]; intros best; simpl; [reflexivity|].
  destruct (frequency x <? frequency best).
  - specialize (IH x). destruct (select_min x rest) as [b r]. simpl in *.
    rewrite IH. apply perm_swap.
  - specialize (IH best). destruct (select_min best rest) as [b r]. simpl in *.
    rewrite perm_swap, IH. apply perm_swap.
Qed.

Lemma pop_min_ok : pop_ok pop_min.
Proof.
  split.
  - intros [|x rest] t q' H; [discriminate|]. simpl in H. injection H as E.
    pose proof (select_min_perm x rest) as P. rewrite E in P. symmetry. exact P.
  - intros [|x rest] H; [contradiction|]. discriminate.
Qed.

Lemma NoDup_fst_unique {B} (l : list (Z * B)) x a b :
  NoDup l.*1 -> (x, a) ∈ l -> (x, b) ∈ l -> a = b.
Proof.
  induction l as [|[y c] l IH]; intros Hnd Ha Hb; [inversion Ha|].
  simpl in Hnd. apply NoDup_cons in Hnd as [Hy Hnd].
  apply elem_of_cons in Ha as [Ha|Ha], Hb as [Hb|Hb].
  - injection Ha as E1 E2. injection Hb as E3 E4. congruence.
  - injection Ha as E1 E2. subst. exfalso. apply Hy. apply (list_elem_of_fmap_2 fst _ (y, b) Hb).
  - injection Hb as E1 E2. subst. exfalso. apply Hy. apply (list_elem_of_fmap_2 fst _ (y, a) Ha).
  - apply IH; assumption.
Qed.

Lemma mem_code_of p (L : list (Z * list bool)) l c :
  (l, c) ∈ map (code_of p) L <-> exists q, c = path_code (p ++ q) /\ (l, q) ∈ L.
Proof.
  induction L as [|[l' q'] L IH]; simpl.
  - split; [intros H; inversion H|intros (q & _ & H); inversion H].
  - rewrite elem_of_cons, IH. unfold code_of. simpl. split.
    + intros [H|(q & -> & H)]; [injection H as -> ->; exists q'; split; [reflexivity|left]|].
      exists q. split; [reflexivity|right; exact H].
    + intros (q & -> & H). apply elem_of_cons in H as [H|H]; [left|right].
      * injection H as -> ->. reflexivity.
      * exists q. split; [reflexivity|exact H].
Qed.

Lemma fst_code_of p (L : list (Z * list bool)) : (map (code_of p) L).*1 = L.*1.
Proof. induction L as [|e L IH]; simpl; [reflexivity|]. f_equal. exact IH. Qed.

Lemma qleaves_leaves (l : list (Z * Z)) :
  qleaves (map (fun e => Leaf e.1 (Z.max 1 e.2)) l) = l.*1.
Proof. induction l as [|e l IH]; simpl; [reflexivity|]. rewrite IH. reflexivity. Qed.

Lemma is_Some_fst (m : gmap Z Z) l : is_Some (m !! l) <-> l ∈ (map_to_list m).*1.
Proof.
  split.
  - intros [v Hv]. apply (list_elem_of_fmap_2 fst _ (l, v)). apply elem_of_map_to_list. exact Hv.
  - intros H. apply list_elem_of_fmap in H as ([l' v] & -> & H).
    apply elem_of_map_to_list in H. exists v. exact H.
Qed.

Lemma mem_fst {B} (L : list (Z * B)) l : l ∈ L.*1 <-> exists b, (l, b) ∈ L.
Proof.
  split.
  - intros H. apply list_elem_of_fmap in H as ([l' b] & -> & H). exists b. exact H.
  - intros [b H]. apply (list_elem_of_fmap_2 fst _ (l, b) H).
Qed.

Lemma HuffmanTree_spec pop_top m :
  pop_ok pop_top -> (0 < size m)%nat ->
  HuffmanTree pop_top m = throw "Huffman code is too long." \/
  exists table, HuffmanTree pop_top m = Ok table /\
    (forall l, is_Some (m !! l) <-> exists c, (l, c) ∈ table) /\
    NoDup table.*1 /\
    (forall l1 c1 l2 c2, (l1, c1) ∈ table -> (l2, c2) ∈ table -> ~ is_proper_prefix c1 c2) /\
    (forall l1 c1 l2 c2, (l1, c1) ∈ table -> (l2, c2) ∈ table -> c1 = c2 -> l1 = l2).
Proof.
  intros Hpop Hsz. unfold HuffmanTree.
  set (q0 := map (fun e => Leaf e.1 (Z.max 1 e.2)) (map_entries m)).
  assert (Hq0 : qleaves q0 ≡ₚ (map_to_list m).*1).
  { unfold q0. rewrite qleaves_leaves. unfold map_entries. rewrite merge_sort_Permutation. reflexivity. }
  assert (Hlen : length q0 = size m).
  { unfold q0, map_entries. rewrite length_map, (Permutation_length (merge_sort_Permutation _ _)).
    apply length_map_to_list. }
  destruct (merge_loop_spec pop_top (length q0) q0 Hpop ltac:(lia)) as [Hl Hp].
  assert (Hl1 : length (merge_loop pop_top (length q0) q0) = 1%nat) by (rewrite Hl; lia).
  clear Hl.
  destruct (merge_loop pop_top (length q0) q0) as [|root rest]; [discriminate|].
  destruct rest as [|? ?]; [|discriminate].
  simpl in Hp. rewrite app_nil_r, Hq0 in Hp.
  assert (Hnd : NoDup (leaves root)) by (rewrite Hp; apply NoDup_fst_map_to_list).
  destruct (BuildTable root code0 []) as [tbl|e] eqn:EB;
    [right|left; rewrite (BuildTable_Err _ _ _ _ EB); reflexivity].
  change code0 with (path_code []) in EB.
  pose proof (BuildTable_Ok_depth root [] [] tbl ltac:(simpl; lia) EB) as Hd.
  rewrite BuildTable_spec in EB by exact Hd. injection EB as EB.
  set (L := leaf_paths root) in *.
  assert (HndL : NoDup L.*1) by (unfold L; rewrite leaf_paths_fst; exact Hnd).
  assert (Hpf := leaf_paths_prefix_free root). fold L in Hpf.
  assert (Hsame : forall l q1 q2, (l, q1) ∈ L -> (l, q2) ∈ L -> q1 = q2)
    by (intros l q1 q2; apply NoDup_fst_unique; exact HndL).
  rewrite fold_table_insert in EB; simpl in EB.
  2: { intros e e' _ H'. inversion H'. }
  2: { rewrite fst_code_of. exact HndL. }
  2: { intros [l1 c1] [l2 c2] H1 H2 Hc. simpl in *.
       apply mem_code_of in H1 as (q1 & -> & H1), H2 as (q2 & -> & H2). cbn [app] in *.
       apply path_code_inj in Hc. subst q2.
       destruct (Z.eq_dec l1 l2) as [|Hne]; [assumption|].
       exfalso. exact (Hpf _ _ _ _ H1 H2 Hne (reflexivity _)). }
  subst tbl. exists (map (code_of []) L). split; [reflexivity|].
  split; [|split; [rewrite fst_code_of; exact HndL|split]].
  - intros l. rewrite is_Some_fst, <- Hp, <- leaf_paths_fst. fold L. rewrite mem_fst.
    split.
    + intros [q Hq]. exists (path_code q). apply mem_code_of. exists q. split; [reflexivity|exact Hq].
    + intros [c Hc]. apply mem_code_of in Hc as (q & _ & Hq). exists q. exact Hq.
  - intros l1 c1 l2 c2 H1 H2 [Hlt Hmod].
    apply mem_code_of in H1 as (q1 & -> & H1), H2 as (q2 & -> & H2). cbn [app] in *.
    unfold path_code in *; simpl in *.
    assert (Hpre : q1 `prefix_of` q2) by (apply path_value_mod_prefix; [lia|exact Hmod]).
    destruct (Z.eq_dec l1 l2) as [<-|Hne].
    + rewrite (Hsame _ _ _ H1 H2) in Hlt. lia.
    + exact (Hpf _ _ _ _ H1 H2 Hne Hpre).
  - intros l1 c1 l2 c2 H1 H2 Hc.
    apply mem_code_of in H1 as (q1 & -> & H1), H2 as (q2 & -> & H2). cbn [app] in *.
    apply path_code_inj in Hc. subst q2.
    destruct (Z.eq_dec l1 l2) as [|Hne]; [assumption|].
    exfalso. exact (Hpf _ _ _ _ H1 H2 Hne (reflexivity _)).
Qed.

(** C7 does not hold as stated: for a non-empty letter map of 66 letters
    the tree is 65 deep, [Append] throws "Huffman code is too long." while
    the constructor builds the table, and there is no table at all. *)
Lemma huffman_too_long_counterexample :
  (0 < size huffman_deep)%nat /\
  HuffmanTree pop_min huffman_deep = throw "Huffman code is too long.".
Proof. split; vm_compute; [lia|reflexivity]. Qed.

(** C7 (amended). For every non-empty letter-to-frequency map, building the
    Huffman tree either throws "Huffman code is too long." (a code would
    exceed 64 bits), or succeeds with a table holding exactly one code per
    letter of the map (and no other letter), distinct letters having
    distinct codes, and no code a proper prefix (in append order, first bit
    least significant) of another. *)
Theorem huffman_table_prefix_free m :
  (0 < size m)%nat ->
  HuffmanTree pop_min m = throw "Huffman code is too long." \/
  exists table, HuffmanTree pop_min m = Ok table /\
    (forall l, is_Some (m !! l) <-> exists c, (l, c) ∈ table) /\
    NoDup table.*1 /\
    (forall l1 c1 l2 c2, (l1, c1) ∈ table -> (l2, c2) ∈ table -> ~ is_proper_prefix c1 c2) /\
    (forall l1 c1 l2 c2, (l1, c1) ∈ table -> (l2, c2) ∈ table -> c1 = c2 -> l1 = l2).
Proof. intros Hsz. exact (HuffmanTree_spec pop_min m pop_min_ok Hsz). Qed.

Lemma huffman_table_prefix_free_witness :
  (0 < size huffman_small)%nat /\
  (HuffmanTree pop_min huffman_small = throw "Huffman code is too long." \/
   exists table, HuffmanTree pop_min huffman_small = Ok table /\
    (forall l, is_Some (huffman_small !! l) <-> exists c, (l, c) ∈ table) /\
    NoDup table.*1 /\
    (forall l1 c1 l2 c2, (l1, c1) ∈ table -> (l2, c2) ∈ table -> ~ is_proper_prefix c1 c2) /\
    (forall l1 c1 l2 c2, (l1, c1) ∈ table -> (l2, c2) ∈ table -> c1 = c2 -> l1 = l2)).
Proof.
  assert (H : (0 < size huffman_small)%nat) by (vm_compute; lia).
  split; [exact H|]. apply (huffman_table_prefix_free huffman_small H).
Defined.

End HuffClaims.

(* ------------------------------------------------------------------ *)
(** ** Claims on the chip encoders *)

Module EncClaims.
Import ChipSamples.

(** The single-pixel format, in the spec's S2 configuration, at the top
    of the closed range [1, max_adc].  The raw ADC field has
    [BitsPerValue(max_adc) = ceil(log2(max_adc))] bits, which holds the
    ADCs below [max_adc] but not [max_adc] itself when it is a power of
    two: for [max_adc = 2^k] (k < 16, so that it is an [Adc]) the chip
    whose only pixel (10, 20) has the ADC [max_adc] is not encoded at all:
    [Encode] throws from [Package::write]. *)
Theorem single_pixel_max_adc_not_encoded k :
  0 <= k < 16 ->
  encode_one_pixel (2 ^ k) (2 ^ k) =
    throw "Input value = %1% is too big. Max value for n_bits = %2% is %3%.".
Proof.
  intros Hk.
  assert (E : k = 0 \/ k = 1 \/ k = 2 \/ k = 3 \/ k = 4 \/ k = 5 \/ k = 6 \/ k = 7 \/
              k = 8 \/ k = 9 \/ k = 10 \/ k = 11 \/ k = 12 \/ k = 13 \/ k = 14 \/ k = 15) by lia.
  repeat destruct E as [->|E]; [vm_compute; reflexivity ..|subst k; vm_compute; reflexivity].
Qed.

Lemma single_pixel_max_adc_not_encoded_witness :
  0 <= 4 < 16 /\
  encode_one_pixel (2 ^ 4) (2 ^ 4) =
    throw "Input value = %1% is too big. Max value for n_bits = %2% is %3%.".
Proof. split; [lia|apply (single_pixel_max_adc_not_encoded 4); lia]. Defined.

End EncClaims.

(* ------------------------------------------------------------------ *)
(** ** Further properties of the package *)

Module PkgExtra.
Import Machine Pkg PkgView PkgBits.

Lemma write_ex_begin p v n : begin_pos (fst (write_ex p v n)) = begin_pos p.
Proof.
  unfold write_ex. destruct (check_width v n); [|reflexivity].
  destruct (write_ex_loop _ _ _ _ _ _) as [[d e]|er]; reflexivity.
Qed.

Lemma write_loop_begin fuel v nb n p : begin_pos (fst (write_loop fuel v nb n p)) = begin_pos p.
Proof.
  revert n p. induction fuel as [|fuel IH]; intros n p; simpl; [reflexivity|].
  destruct (n <? nb); [|reflexivity].
  pose proof (write_ex_begin p (Z.land (Z.shiftr v (nb - n - 1)) 1) 1) as H.
  destruct (write_ex p (Z.land (Z.shiftr v (nb - n - 1)) 1) 1) as [p' [e|]]; simpl in *;
    [exact H|rewrite IH; exact H].
Qed.

Lemma write_begin p v n : begin_pos (fst (write p v n)) = begin_pos p.
Proof. unfold write. destruct (check_width v n); [apply write_loop_begin|reflexivity]. Qed.

(** Every package the program builds starts at bit 0. *)
Lemma built_begin p : built p -> begin_pos p = 0.
Proof.
  induction 1; simpl; try rewrite write_ex_begin; try rewrite write_begin; assumption || reflexivity.
Qed.

(** Bit [m - 1 - j] of [bits_msb d pos m] is the stream bit [pos + j]. *)
Lemma bits_msb_testbit d pos m j :
  0 <= j < Z.of_nat m -> Z.testbit (bits_msb d pos m) (Z.of_nat m - 1 - j) = bit_at d (pos + j).
Proof.
  revert pos j. induction m as [|m IH]; intros pos j Hj; [simpl in Hj; lia|].
  cbn [bits_msb]. rewrite Nat2Z.inj_succ in *.
  pose proof (bits_msb_bound d (pos + 1) m) as Hb.
  set (r := bits_msb d (pos + 1) m) in *.
  assert (Hm : 0 < 2 ^ Z.of_nat m) by (apply Z.pow_pos_nonneg; lia).
  destruct (Z.eq_dec j 0) as [->|Hj0].
  - replace (Z.succ (Z.of_nat m) - 1 - 0) with (Z.of_nat m) by lia. rewrite Z.add_0_r.
    rewrite <- (Z.add_0_l (Z.of_nat m)), <- Z.shiftr_spec, Z.shiftr_div_pow2 by lia.
    rewrite Z.div_add_l by lia. rewrite (Z.div_small r) by lia. rewrite Z.add_0_r.
    destruct (bit_at d pos); reflexivity.
  - replace (Z.succ (Z.of_nat m) - 1 - j) with (Z.of_nat m - 1 - (j - 1)) by lia.
    rewrite <- (Z.mod_pow2_bits_low _ (Z.of_nat m)) by lia.
    replace (Z.b2z (bit_at d pos) * 2 ^ Z.of_nat m + r) with (r + Z.b2z (bit_at d pos) * 2 ^ Z.of_nat m)
      by ring.
    rewrite Z.mod_add by lia. rewrite Z.mod_small by lia.
    unfold r. rewrite IH by lia. f_equal. lia.
Qed.

Lemma byte_bits (d : list Z) k j :
  0 <= j < 8 -> bit_at d (8 * Z.of_nat k + j) = Z.testbit (nth k d 0) j.
Proof.
  intros Hj. unfold bit_at.
  replace (8 * Z.of_nat k + j) with (j + Z.of_nat k * 8) by ring.
  rewrite Z.div_add by lia. rewrite Z.mod_add by lia.
  rewrite Z.div_small, Z.mod_small by lia. rewrite Z.add_0_l, Nat2Z.id. reflexivity.
Qed.

(** Two well-formed byte vectors of the same length with the same bits are
    equal. *)
Lemma wfd_ext d e d' e' :
  wfd d e -> wfd d' e' -> length d = length d' ->
  (forall i, 0 <= i -> bit_at d i = bit_at d' i) -> d = d'.
Proof.
  intros (_ & _ & Hb & _) (_ & _ & Hb' & _) Hl Hbits.
  apply nth_ext with (d := 0) (d' := 0); [exact Hl|].
  intros k Hk.
  pose proof (Forall_nth_byte d k Hb) as H1. pose proof (Forall_nth_byte d' k Hb') as H2.
  apply Z.bits_inj'. intros j Hj.
  destruct (Z.lt_ge_cases j 8) as [Hj8|Hj8].
  - rewrite <- !byte_bits by lia. apply Hbits. lia.
  - rewrite !(testbit_small_high _ 8 j) by (simpl; lia). reflexivity.
Qed.

Lemma data_eq_spec (d o pre : list Z) :
  length d = length o ->
  data_eq d (pre ++ o) (Z.of_nat (length pre)) = Ok (bool_decide (d = o)).
Proof.
  revert o pre. induction d as [|b d IH]; intros [|c o] pre Hl; simpl in Hl; try lia.
  - rewrite bool_decide_eq_true_2 by reflexivity. reflexivity.
  - cbn [data_eq]. rewrite vat_nth by (rewrite ?length_app; simpl; lia).
    rewrite Nat2Z.id, app_nth2, Nat.sub_diag by lia. cbn [nth bind].
    destruct (Z.eqb_spec b c) as [<-|Hne]; cbn [negb].
    + specialize (IH o (pre ++ [b]) ltac:(lia)). rewrite <- app_assoc in IH. simpl in IH.
      rewrite length_app in IH. simpl in IH.
      replace (Z.of_nat (length pre + 1)) with (Z.of_nat (length pre) + 1) in IH by lia.
      rewrite IH. f_equal. apply bool_decide_ext.
      split; [intros ->; reflexivity|intros H; injection H; auto].
    + f_equal. symmetry. apply bool_decide_eq_false_2. congruence.
Qed.

Lemma write_package_loop_spec fuel other pos p :
  wf p -> wf other -> 0 <= pos <= end_pos other -> end_pos other < 2 ^ 64 ->
  (Z.to_nat (end_pos other - pos) < fuel)%nat ->
  exists d', write_package_loop fuel other pos p =
      (mkPackage d' (begin_pos p) (end_pos p + (end_pos other - pos)) (readout_positions p), None) /\
    wfd d' (end_pos p + (end_pos other - pos)) /\
    (forall i, 0 <= i < end_pos p -> bit_at d' i = bit_at (data p) i) /\
    (forall j, 0 <= j < end_pos other - pos ->
       bit_at d' (end_pos p + j) = bit_at (data other) (pos + j)).
Proof.
  revert pos p. induction fuel as [|fuel IH]; intros pos p Hwf Hwo Hpos He Hf; [lia|].
  cbn [write_package_loop].
  destruct (Z.eqb_spec pos (end_pos other)) as [Heq|Hne].
  - exists (data p). rewrite Heq, Z.sub_diag, Z.add_0_r. destruct p; simpl.
    split; [reflexivity|split; [exact Hwf|split; intros; [reflexivity|lia]]].
  - unfold iter_sub. destruct (Z.ltb_spec (end_pos other) pos); [lia|]. cbv beta iota.
    unfold BitsPerInteger.
    set (n := Z.min 64 (end_pos other - pos)).
    assert (Hn : 1 <= n <= 64 /\ n <= end_pos other - pos) by (unfold n; lia).
    rewrite read_spec by (try assumption; lia).
    pose proof (bits_msb_bound (data other) pos (Z.to_nat n)) as Hvb.
    rewrite Z2Nat.id in Hvb by lia.
    set (v := bits_msb (data other) pos (Z.to_nat n)) in *.
    destruct (write_spec p v n) as [d1 [Hw1 [Hwf1 [Hlow1 Hnew1]]]]; try assumption; try lia.
    rewrite Hw1.
    destruct (IH (pos + n) (mkPackage d1 (begin_pos p) (end_pos p + n) (readout_positions p)))
      as [d' [Hrun [Hwf' [Hlow' Hnew']]]]; try exact Hwf1; try assumption; try lia.
    simpl in Hrun, Hwf', Hlow', Hnew'.
    assert (E : end_pos p + n + (end_pos other - (pos + n)) = end_pos p + (end_pos other - pos)) by lia.
    rewrite E in Hrun, Hwf'. exists d'. rewrite Hrun.
    split; [reflexivity|split; [exact Hwf'|split]].
    + intros i Hi. rewrite Hlow' by lia. apply Hlow1. lia.
    + intros j Hj. destruct (Z.lt_ge_cases j n) as [Hjn|Hjn].
      * rewrite Hlow' by (pose proof (proj1 Hwf); lia). rewrite Hnew1 by lia.
        unfold v. replace (n - 1 - j) with (Z.of_nat (Z.to_nat n) - 1 - j) by lia.
        apply bits_msb_testbit. lia.
      * replace (end_pos p + j) with (end_pos p + n + (j - n)) by lia.
        rewrite Hnew' by lia. f_equal. lia.
Qed.

(** X1: on packages the program builds, [operator==] is the equality of
    the bit sizes and of the byte vectors: it never throws, and the begin
    position and the readout positions play no part. *)
Theorem package_eq_spec p q :
  built p -> built q ->
  package_eq p q = Ok (bool_decide (end_pos p = end_pos q /\ data p = data q)).
Proof.
  intros Hp Hq. apply built_wf in Hp, Hq. unfold package_eq.
  destruct (Z.eqb_spec (end_pos p) (end_pos q)) as [He|He]; cbn [negb].
  - assert (Hl : length (data p) = length (data q)).
    { destruct Hp as (_ & Hlp & _), Hq as (_ & Hlq & _). rewrite Hlp, Hlq, He. reflexivity. }
    pose proof (data_eq_spec (data p) (data q) [] Hl) as Hd. simpl in Hd. change 0 with (Z.of_nat 0). rewrite Hd. f_equal. apply bool_decide_ext. tauto.
  - f_equal. symmetry. apply bool_decide_eq_false_2. tauto.
Qed.

Lemma package_eq_spec_witness :
  built (fst (write empty 5 3)) /\ built (fst (write empty 7 4)) /\
  package_eq (fst (write empty 5 3)) (fst (write empty 7 4)) =
    Ok (bool_decide (end_pos (fst (write empty 5 3)) = end_pos (fst (write empty 7 4)) /\
                     data (fst (write empty 5 3)) = data (fst (write empty 7 4)))).
Proof.
  assert (H1 : built (fst (write empty 5 3))) by (apply built_write; [exact built_empty|lia|lia]).
  assert (H2 : built (fst (write empty 7 4))) by (apply built_write; [exact built_empty|lia|lia]).
  split; [exact H1|split; [exact H2|]]. apply (package_eq_spec _ _ H1 H2).
Defined.

(** X2: on a package the program builds, [finalize_byte] never throws and
    leaves the bytes as they are; it only moves the bit size up to the next
    multiple of 8 (by at most 7 bits), which is then 8 times the number of
    bytes; the begin position and the readout positions are kept. *)
Theorem finalize_byte_spec p :
  built p ->
  let p' := fst (finalize_byte p) in
  snd (finalize_byte p) = None /\ data p' = data p /\
  end_pos p' = 8 * Z.of_nat (length (data p)) /\
  end_pos p <= end_pos p' < end_pos p + 8 /\
  begin_pos p' = begin_pos p /\ readout_positions p' = readout_positions p.
Proof.
  intros Hb. pose proof (built_wf p Hb) as Hwf. unfold finalize_byte, BitsPerByte.
  set (e := end_pos p).
  pose proof (Z.mod_pos_bound e 8 ltac:(lia)) as Hr.
  pose proof (Z.div_mod e 8 ltac:(lia)) as Hdm.
  set (k := if e mod 8 =? 0 then 0 else 8 - e mod 8).
  assert (Hk : 0 <= k <= 7 /\ (e + k) mod 8 = 0 /\ (e + k + 7) / 8 = (e + 7) / 8 /\
               e + k = 8 * ((e + 7) / 8)).
  { unfold k. destruct (Z.eqb_spec (e mod 8) 0) as [H0|H0].
    - rewrite Z.add_0_r. split; [lia|]. split; [exact H0|split; [reflexivity|]].
      rewrite <- (Z.div_unique (e + 7) 8 (e / 8) 7) by lia. lia.
    - rewrite <- (Z.div_unique (e + (8 - e mod 8) + 7) 8 (e / 8 + 1) 7) by lia.
      rewrite <- (Z.div_unique (e + 7) 8 (e / 8 + 1) (e mod 8 - 1)) by lia.
      split; [lia|split; [|split; [reflexivity|lia]]].
      symmetry. apply (Z.mod_unique _ _ (e / 8 + 1)); lia. }
  destruct Hk as (Hk & Hmod & Hlen & Hmul).
  assert (H2k : 0 <= 0 < 2 ^ k) by (pose proof (Z.pow_pos_nonneg 2 k ltac:(lia)); lia).
  destruct (write_spec p 0 k) as [d' [Hw [Hwf' [Hlow Hnew]]]]; try assumption; try lia.
  rewrite Hw. cbn [fst snd data end_pos begin_pos readout_positions].
  destruct Hwf as (He0 & Hl & Hbytes & Hzero).
  assert (Hd : d' = data p).
  { apply (wfd_ext d' (e + k) (data p) e Hwf' (conj He0 (conj Hl (conj Hbytes Hzero)))).
    - destruct Hwf' as (_ & Hl' & _). rewrite Hl', Hl. f_equal. exact Hlen.
    - intros i Hi. destruct (Z.lt_ge_cases i e) as [Hie|Hie]; [apply Hlow; lia|].
      rewrite (Hzero i Hie). destruct (Z.lt_ge_cases i (e + k)) as [Hik|Hik].
      + replace i with (e + (i - e)) by lia. rewrite Hnew by lia. apply Z.testbit_0_l.
      + destruct Hwf' as (_ & _ & _ & Hz'). apply Hz'. exact Hik. }
  split; [reflexivity|split; [exact Hd|split; [|split; [lia|split; reflexivity]]]].
  rewrite Hl, Z2Nat.id by (apply Z.div_pos; lia). fold e. exact Hmul.
Qed.

Lemma finalize_byte_spec_witness :
  built (fst (write empty 5 3)) /\
  (let p' := fst (finalize_byte (fst (write empty 5 3))) in
  snd (finalize_byte (fst (write empty 5 3))) = None /\ data p' = data (fst (write empty 5 3)) /\
  end_pos p' = 8 * Z.of_nat (length (data (fst (write empty 5 3)))) /\
  end_pos (fst (write empty 5 3)) <= end_pos p' < end_pos (fst (write empty 5 3)) + 8 /\
  begin_pos p' = begin_pos (fst (write empty 5 3)) /\
  readout_positions p' = readout_positions (fst (write empty 5 3))).
Proof.
  assert (H1 : built (fst (write empty 5 3))) by (apply built_write; [exact built_empty|lia|lia]).
  split; [exact H1|]. apply (finalize_byte_spec _ H1).
Defined.

(** X3: [write(const Package& other)] appends [other] to a package the
    program builds (for [other] another such package of fewer than 2^64
    bits): it does not throw, the bit size becomes the sum of both sizes,
    the bits already written, the begin position and the readout positions
    are kept, and the new bits are those of [other] in order. *)
Theorem write_package_appends p other :
  built p -> built other -> end_pos other < 2 ^ 64 ->
  let p' := fst (write_package p other) in
  snd (write_package p other) = None /\ wf p' /\
  end_pos p' = end_pos p + end_pos other /\
  begin_pos p' = begin_pos p /\ readout_positions p' = readout_positions p /\
  (forall i, 0 <= i < end_pos p -> bit_at (data p') i = bit_at (data p) i) /\
  (forall j, 0 <= j < end_pos other -> bit_at (data p') (end_pos p + j) = bit_at (data other) j).
Proof.
  intros Hp Ho He. pose proof (built_begin other Ho) as Hb0.
  apply built_wf in Hp, Ho. unfold write_package. rewrite Hb0.
  destruct (write_package_loop_spec (S (Z.to_nat (end_pos other - 0))) other 0 p)
    as [d' [Hrun [Hwf' [Hlow Hnew]]]]; try assumption; try (pose proof (proj1 Ho); lia).
  rewrite Z.sub_0_r in Hrun, Hwf', Hnew |- *. rewrite Hrun. cbn [fst snd data end_pos begin_pos readout_positions].
  split; [reflexivity|split; [exact Hwf'|split; [reflexivity|split; [reflexivity|split; [reflexivity|]]]]].
  split; [exact Hlow|]. intros j Hj. rewrite Hnew by lia. f_equal.
Qed.

Lemma write_package_appends_witness :
  built (fst (write empty 5 3)) /\ built (fst (write empty 77 9)) /\
  end_pos (fst (write empty 77 9)) < 2 ^ 64 /\
  (let p' := fst (write_package (fst (write empty 5 3)) (fst (write empty 77 9))) in
  snd (write_package (fst (write empty 5 3)) (fst (write empty 77 9))) = None /\ wf p' /\
  end_pos p' = end_pos (fst (write empty 5 3)) + end_pos (fst (write empty 77 9)) /\
  begin_pos p' = begin_pos (fst (write empty 5 3)) /\
  readout_positions p' = readout_positions (fst (write empty 5 3)) /\
  (forall i, 0 <= i < end_pos (fst (write empty 5 3)) ->
     bit_at (data p') i = bit_at (data (fst (write empty 5 3))) i) /\
  (forall j, 0 <= j < end_pos (fst (write empty 77 9)) ->
     bit_at (data p') (end_pos (fst (write empty 5 3)) + j) = bit_at (data (fst (write empty 77 9))) j)).
Proof.
  assert (H1 : built (fst (write empty 5 3))) by (apply built_write; [exact built_empty|lia|lia]).
  assert (H2 : built (fst (write empty 77 9))) by (apply built_write; [exact built_empty|lia|lia]).
  assert (H3 : end_pos (fst (write empty 77 9)) < 2 ^ 64) by (vm_compute; reflexivity).
  split; [exact H1|split; [exact H2|split; [exact H3|]]].
  apply (write_package_appends _ _ H1 H2 H3).
Defined.

End PkgExtra.

(* ------------------------------------------------------------------ *)
(** ** Further properties of the multi-region layout *)

Module GeoExtra.
Import Machine Geo GeoClaims ChipView.

Lemma sz_le z : 0 <= z -> sz z <= z.
Proof. intros H. unfold sz. apply Z.mod_le; lia. Qed.

Lemma sz_nonneg z : 0 <= sz z.
Proof. unfold sz. apply Z.mod_pos_bound. lia. Qed.

(** The shape of [ActualRegionLayout] on a valid region id: the nominal
    region size, except in the last region row or column. *)
Lemma actual_shape m region_id :
  constructed m -> 0 <= region_id < GetNumberOfRegions m ->
  exists N M R C, base m = mkRegionLayout N M /\ region_layout m = mkRegionLayout R C /\
    1 <= N < 2 ^ 64 /\ 1 <= M < 2 ^ 64 /\ 1 <= R /\ 1 <= C /\
    n_region_rows m = ceil_div N R /\ n_region_columns m = ceil_div M C /\
    (ceil_div N R - 1) * R < N <= ceil_div N R * R /\
    (ceil_div M C - 1) * C < M <= ceil_div M C * C /\
    1 <= ceil_div N R <= N /\ 1 <= ceil_div M C <= M /\
    0 <= region_id / ceil_div M C < ceil_div N R /\
    0 <= region_id mod ceil_div M C < ceil_div M C /\
    ActualRegionLayout m region_id =
      Ok (mkRegionLayout
            (if region_id / ceil_div M C + 1 =? ceil_div N R then N - (ceil_div N R - 1) * R else R)
            (if region_id mod ceil_div M C + 1 =? ceil_div M C then M - (ceil_div M C - 1) * C else C)).
Proof.
  intros Hc Hid.
  destruct (constructed_facts m Hc) as
    (N & M & R & C & Hb & Hrl & HN & HM & HR & HC & Hnrr & Hnrc & Hlr & Hlc).
  exists N, M, R, C.
  pose proof (ceil_div_spec N R ltac:(lia) HR) as [HnrrP HnrrB].
  pose proof (ceil_div_spec M C ltac:(lia) HC) as [HnrcP HnrcB].
  pose proof (ceil_div_le N R ltac:(lia) HR) as HnrrN.
  pose proof (ceil_div_le M C ltac:(lia) HC) as HnrcM.
  set (nrr := ceil_div N R) in *. set (nrc := ceil_div M C) in *.
  unfold GetNumberOfRegions in Hid. rewrite Hnrr, Hnrc in Hid.
  pose proof (sz_le (nrr * nrc) ltac:(nia)) as Hsz.
  assert (Hi : 0 <= region_id / nrc < nrr).
  { split; [apply Z.div_pos; lia|]. apply Z.div_lt_upper_bound; nia. }
  pose proof (Z.mod_pos_bound region_id nrc ltac:(lia)) as Hj.
  do 14 (split; [assumption || lia|]).
  unfold ActualRegionLayout. rewrite Hnrr, Hnrc, Hlr, Hlc, Hrl. cbn [n_rows n_columns].
  fold nrr nrc.
  assert (Hdiv : (region_id - region_id mod nrc) / nrc = region_id / nrc).
  { rewrite (Z.div_mod region_id nrc) at 1 by lia.
    replace (nrc * (region_id / nrc) + region_id mod nrc - region_id mod nrc)
      with ((region_id / nrc) * nrc) by ring.
    apply Z.div_mul. lia. }
  rewrite Hdiv. rewrite !sz_small by lia.
  unfold make_RegionLayout.
  destruct (Z.eqb_spec (region_id / nrc + 1) nrr);
  destruct (Z.eqb_spec (region_id mod nrc + 1) nrc);
  rewrite (proj2 (Z.eqb_neq _ 0)) by nia; rewrite (proj2 (Z.eqb_neq _ 0)) by nia; reflexivity.
Qed.

(** X4: the constructor from the requested numbers of regions, for sizes
    below 2^53 (where the double quotients are exact) and requested counts
    of at least 1: it succeeds, the region size is the rounded-up quotient
    of the size by the requested count, the number of regions is then at
    least 1 and at most both the requested count and the size (it can be
    smaller than requested), and the region rows (resp. columns) cover the
    size exactly, the last one holding between 1 and the region size. *)
Theorem make_MultiRegionLayout4_spec nr nc a b :
  1 <= nr < 2 ^ 53 -> 1 <= nc < 2 ^ 53 -> 1 <= a -> 1 <= b ->
  exists m, make_MultiRegionLayout4 nr nc a b = Ok m /\
    base m = mkRegionLayout nr nc /\
    region_layout m = mkRegionLayout (ceil_div nr a) (ceil_div nc b) /\
    1 <= n_region_rows m <= Z.min a nr /\ 1 <= n_region_columns m <= Z.min b nc /\
    1 <= n_last_region_rows m <= ceil_div nr a /\ 1 <= n_last_region_columns m <= ceil_div nc b /\
    (n_region_rows m - 1) * ceil_div nr a + n_last_region_rows m = nr /\
    (n_region_columns m - 1) * ceil_div nc b + n_last_region_columns m = nc.
Proof.
  intros Hr Hc Ha Hb.
  pose proof (ceil_div_spec nr a ltac:(lia) Ha) as [Hrr1 Hrr2].
  pose proof (ceil_div_spec nc b ltac:(lia) Hb) as [Hrc1 Hrc2].
  set (rr := ceil_div nr a) in *. set (rc := ceil_div nc b) in *.
  pose proof (ceil_div_spec nr rr ltac:(lia) ltac:(lia)) as [Hn1 Hn2].
  pose proof (ceil_div_spec nc rc ltac:(lia) ltac:(lia)) as [Hm1 Hm2].
  pose proof (ceil_div_le nr rr ltac:(lia) ltac:(lia)) as Hn3.
  pose proof (ceil_div_le nc rc ltac:(lia) ltac:(lia)) as Hm3.
  set (nrr := ceil_div nr rr) in *. set (nrc := ceil_div nc rc) in *.
  assert (Hnrra : nrr <= a) by nia. assert (Hnrcb : nrc <= b) by nia.
  unfold make_MultiRegionLayout4, make_RegionLayout.
  destruct ((nr =? 0) || (nc =? 0)) eqn:E0.
  { exfalso. apply Bool.orb_true_iff in E0. destruct E0 as [E|E]; apply Z.eqb_eq in E; lia. }
  cbn [bind]. fold rr rc. fold nrr nrc.
  destruct ((nrr =? 0) || (nrc =? 0)) eqn:E1.
  { exfalso. apply Bool.orb_true_iff in E1. destruct E1 as [E|E]; apply Z.eqb_eq in E; lia. }
  rewrite (sz_small ((nrr - 1) * rr)) by nia. rewrite (sz_small ((nrc - 1) * rc)) by nia.
  rewrite !sz_small by nia.
  eexists. split; [reflexivity|]. cbn [base region_layout n_region_rows n_region_columns
    n_last_region_rows n_last_region_columns].
  repeat split; try reflexivity; lia.
Qed.

Lemma make_MultiRegionLayout4_spec_witness :
  1 <= 10 < 2 ^ 53 /\ 1 <= 10 < 2 ^ 53 /\ 1 <= 6 /\ 1 <= 4 /\
  exists m, make_MultiRegionLayout4 10 10 6 4 = Ok m /\
    base m = mkRegionLayout 10 10 /\
    region_layout m = mkRegionLayout (ceil_div 10 6) (ceil_div 10 4) /\
    1 <= n_region_rows m <= Z.min 6 10 /\ 1 <= n_region_columns m <= Z.min 4 10 /\
    1 <= n_last_region_rows m <= ceil_div 10 6 /\ 1 <= n_last_region_columns m <= ceil_div 10 4 /\
    (n_region_rows m - 1) * ceil_div 10 6 + n_last_region_rows m = 10 /\
    (n_region_columns m - 1) * ceil_div 10 4 + n_last_region_columns m = 10.
Proof.
  split; [lia|split; [lia|split; [lia|split; [lia|]]]].
  apply (make_MultiRegionLayout4_spec 10 10 6 4); lia.
Defined.

(** X5: for a layout built by a constructor whose numbers of rows and
    columns are below 2^53 (where the double quotients of the constructors
    are exact), every valid region id has an
    actual layout (no exception) of at least one pixel and at most the
    nominal region size in each direction; it has the nominal number of
    rows except in the last region row, where the region rows above it and
    this one add up to the number of rows of the whole layout (and the
    same for the columns).  So the actual regions tile the whole layout. *)
Theorem ActualRegionLayout_tiles m region_id :
  n_rows (base m) < 2 ^ 53 -> n_columns (base m) < 2 ^ 53 ->
  constructed m -> 0 <= region_id < GetNumberOfRegions m ->
  let i := region_id / n_region_columns m in
  let j := region_id mod n_region_columns m in
  exists l, ActualRegionLayout m region_id = Ok l /\
    1 <= n_rows l <= n_rows (region_layout m) /\ 1 <= n_columns l <= n_columns (region_layout m) /\
    0 <= i < n_region_rows m /\ 0 <= j < n_region_columns m /\
    (i + 1 < n_region_rows m -> n_rows l = n_rows (region_layout m)) /\
    (i + 1 = n_region_rows m -> i * n_rows (region_layout m) + n_rows l = n_rows (base m)) /\
    (j + 1 < n_region_columns m -> n_columns l = n_columns (region_layout m)) /\
    (j + 1 = n_region_columns m -> j * n_columns (region_layout m) + n_columns l = n_columns (base m)).
Proof.
  intros _ _ Hc Hid.
  destruct (actual_shape m region_id Hc Hid) as
    (N & M & R & C & Hb & Hrl & HN & HM & HR & HC & Hnrr & Hnrc & Hrows & Hcols & Hnr & Hnc &
     Hi & Hj & Hact).
  rewrite Hnrr, Hnrc, Hb, Hrl. cbn [n_rows n_columns].
  eexists. split; [exact Hact|]. cbn [n_rows n_columns].
  destruct (Z.eqb_spec (region_id / ceil_div M C + 1) (ceil_div N R));
  destruct (Z.eqb_spec (region_id mod ceil_div M C + 1) (ceil_div M C));
  repeat split; intros; nia.
Qed.

Lemma sample_layout_constructed : constructed sample_layout.
Proof. apply (constructed4 10 10 3 4); try lia. vm_compute. reflexivity. Qed.

Lemma ActualRegionLayout_tiles_witness :
  n_rows (base sample_layout) < 2 ^ 53 /\ n_columns (base sample_layout) < 2 ^ 53 /\
  constructed sample_layout /\ 0 <= 11 < GetNumberOfRegions sample_layout /\
  (let i := 11 / n_region_columns sample_layout in
  let j := 11 mod n_region_columns sample_layout in
  exists l, ActualRegionLayout sample_layout 11 = Ok l /\
    1 <= n_rows l <= n_rows (region_layout sample_layout) /\
    1 <= n_columns l <= n_columns (region_layout sample_layout) /\
    0 <= i < n_region_rows sample_layout /\ 0 <= j < n_region_columns sample_layout /\
    (i + 1 < n_region_rows sample_layout -> n_rows l = n_rows (region_layout sample_layout)) /\
    (i + 1 = n_region_rows sample_layout ->
       i * n_rows (region_layout sample_layout) + n_rows l = n_rows (base sample_layout)) /\
    (j + 1 < n_region_columns sample_layout ->
       n_columns l = n_columns (region_layout sample_layout)) /\
    (j + 1 = n_region_columns sample_layout ->
       j * n_columns (region_layout sample_layout) + n_columns l = n_columns (base sample_layout))).
Proof.
  assert (H : 0 <= 11 < GetNumberOfRegions sample_layout) by (replace (GetNumberOfRegions sample_layout) with 12 by reflexivity; lia).
  assert (Hr : n_rows (base sample_layout) < 2 ^ 53) by (vm_compute; reflexivity).
  assert (Hc : n_columns (base sample_layout) < 2 ^ 53) by (vm_compute; reflexivity).
  split; [exact Hr|split; [exact Hc|]].
  split; [exact sample_layout_constructed|split; [exact H|]].
  apply (ActualRegionLayout_tiles sample_layout 11 Hr Hc sample_layout_constructed H).
Defined.

(** X6: for a layout built by a constructor whose numbers of rows and
    columns are below 2^53 (where the double quotients of the constructors
    are exact) and a valid region id,
    [IsRegionComplete] does not throw, and it holds exactly when the region
    is not in the last region row, or the region height divides the number
    of rows, and likewise for the columns. *)
Theorem IsRegionComplete_iff m region_id :
  n_rows (base m) < 2 ^ 53 -> n_columns (base m) < 2 ^ 53 ->
  constructed m -> 0 <= region_id < GetNumberOfRegions m ->
  exists b, IsRegionComplete m region_id = Ok b /\
    (b = true <->
      (region_id / n_region_columns m + 1 < n_region_rows m \/
       n_region_rows m * n_rows (region_layout m) = n_rows (base m)) /\
      (region_id mod n_region_columns m + 1 < n_region_columns m \/
       n_region_columns m * n_columns (region_layout m) = n_columns (base m))).
Proof.
  intros _ _ Hc Hid.
  destruct (actual_shape m region_id Hc Hid) as
    (N & M & R & C & Hb & Hrl & HN & HM & HR & HC & Hnrr & Hnrc & Hrows & Hcols & Hnr & Hnc &
     Hi & Hj & Hact).
  unfold IsRegionComplete. rewrite Hact. cbn [bind n_rows n_columns].
  rewrite Hnrr, Hnrc, Hb, Hrl. cbn [n_rows n_columns].
  eexists. split; [reflexivity|]. rewrite Bool.andb_true_iff, !Z.eqb_eq.
  destruct (Z.eqb_spec (region_id / ceil_div M C + 1) (ceil_div N R));
  destruct (Z.eqb_spec (region_id mod ceil_div M C + 1) (ceil_div M C));
  split; intros; nia.
Qed.

Lemma IsRegionComplete_iff_witness :
  n_rows (base sample_layout) < 2 ^ 53 /\ n_columns (base sample_layout) < 2 ^ 53 /\
  constructed sample_layout /\ 0 <= 11 < GetNumberOfRegions sample_layout /\
  exists b, IsRegionComplete sample_layout 11 = Ok b /\
    (b = true <->
      (11 / n_region_columns sample_layout + 1 < n_region_rows sample_layout \/
       n_region_rows sample_layout * n_rows (region_layout sample_layout) =
         n_rows (base sample_layout)) /\
      (11 mod n_region_columns sample_layout + 1 < n_region_columns sample_layout \/
       n_region_columns sample_layout * n_columns (region_layout sample_layout) =
         n_columns (base sample_layout))).
Proof.
  assert (H : 0 <= 11 < GetNumberOfRegions sample_layout) by (replace (GetNumberOfRegions sample_layout) with 12 by reflexivity; lia).
  assert (Hr : n_rows (base sample_layout) < 2 ^ 53) by (vm_compute; reflexivity).
  assert (Hc : n_columns (base sample_layout) < 2 ^ 53) by (vm_compute; reflexivity).
  split; [exact Hr|split; [exact Hc|]].
  split; [exact sample_layout_constructed|split; [exact H|]].
  apply (IsRegionComplete_iff sample_layout 11 Hr Hc sample_layout_constructed H).
Defined.

End GeoExtra.

(* ------------------------------------------------------------------ *)
(** ** Pixel maps, regions and chips *)

Module ChipExtra.
Import Machine Geo GeoClaims Chips ChipView.

#[local] Instance Pixel_eq_dec : EqDecision Pixel.
Proof. solve_decision. Defined.

Ltac zcases :=
  repeat match goal with
  | |- context [Z.eqb ?a ?b] => destruct (Z.eqb_spec a b)
  | |- context [Z.ltb ?a ?b] => destruct (Z.ltb_spec a b)
  | H : context [Z.eqb ?a ?b] |- _ => destruct (Z.eqb_spec a b)
  | H : context [Z.ltb ?a ?b] |- _ => destruct (Z.ltb_spec a b)
  end; simpl in *; try congruence; try lia.

Lemma pixel_eqb_spec a b : pixel_eqb a b = true <-> a = b.
Proof.
  destruct a as [ra ca], b as [rb cb]. unfold pixel_eqb. simpl.
  rewrite Bool.andb_true_iff, !Z.eqb_eq. split; [intros [-> ->]; reflexivity|].
  intros H; injection H; auto.
Qed.

Lemma pixel_ltb_irrefl a : pixel_ltb a a = false.
Proof. unfold pixel_ltb. zcases. Qed.

Lemma pixel_ltb_trans a b c : pixel_ltb a b = true -> pixel_ltb b c = true -> pixel_ltb a c = true.
Proof. unfold pixel_ltb. zcases. Qed.

Lemma pixel_ltb_total a b : a <> b -> pixel_ltb a b = true \/ pixel_ltb b a = true.
Proof.
  destruct a as [ra ca], b as [rb cb]. unfold pixel_ltb. simpl. intros Hne.
  zcases; exfalso; apply Hne; f_equal; lia.
Qed.

Lemma pixel_ltb_asym a b : pixel_ltb a b = true -> pixel_ltb b a = false.
Proof. unfold pixel_ltb. zcases. Qed.

Lemma map_insert_perm p a m : Permutation (map_insert p a m) ((p, a) :: m).
Proof.
  induction m as [|[q b] m IH]; simpl; [reflexivity|].
  destruct (pixel_ltb p q); [reflexivity|].
  rewrite IH. apply perm_swap.
Qed.

Lemma map_insert_sorted p a m :
  keys_sorted m -> ~ In p (map fst m) -> keys_sorted (map_insert p a m).
Proof.
  unfold keys_sorted. induction 1 as [|[q b] m Hs IH Hf]; intros Hn; simpl.
  - repeat constructor.
  - simpl in Hn. destruct (pixel_ltb p q) eqn:E.
    + constructor; [constructor; assumption|].
      constructor; [exact E|]. eapply Forall_impl; [exact Hf|].
      intros x Hx. simpl in *. eapply pixel_ltb_trans; eassumption.
    + constructor; [apply IH; tauto|].
      eapply Permutation_Forall; [symmetry; apply map_insert_perm|].
      constructor; [|exact Hf]. simpl.
      destruct (pixel_ltb_total p q) as [H|H]; [intros ->; tauto|congruence|exact H].
Qed.

Lemma find_map_insert p a m x :
  ~ In p (map fst m) ->
  find (fun e => pixel_eqb e.1 x) (map_insert p a m) =
    if pixel_eqb p x then Some (p, a) else find (fun e => pixel_eqb e.1 x) m.
Proof.
  induction m as [|[q b] m IH]; intros Hn; simpl; [reflexivity|].
  simpl in Hn. destruct (pixel_ltb p q); simpl; [reflexivity|].
  destruct (pixel_eqb q x) eqn:Eq; destruct (pixel_eqb p x) eqn:Ep; try reflexivity.
  - apply pixel_eqb_spec in Eq, Ep. subst. tauto.
  - rewrite IH by tauto. reflexivity.
  - rewrite IH by tauto. reflexivity.
Qed.

Lemma keys_sorted_nodup (m : list (Pixel * Z)) : keys_sorted m -> NoDup (map fst m).
Proof.
  unfold keys_sorted. induction 1 as [|[q b] m Hs IH Hf]; simpl; constructor; [|exact IH].
  intros Hin. apply list_elem_of_In, in_map_iff in Hin as [[q' b'] [Heq Hin]]. simpl in Heq. subst q'.
  rewrite Forall_forall in Hf. specialize (Hf _ (proj2 (list_elem_of_In _ _) Hin)). simpl in Hf.
  rewrite pixel_ltb_irrefl in Hf. discriminate.
Qed.

Lemma existsb_key (m : list (Pixel * Z)) (pixel : Pixel) :
  existsb (fun e => pixel_eqb e.1 pixel) m = true <-> In pixel (map fst m).
Proof.
  rewrite existsb_exists, in_map_iff. split.
  - intros [e [Hin Heq]]. apply pixel_eqb_spec in Heq. exists e. auto.
  - intros [e [Heq Hin]]. exists e. split; [exact Hin|]. apply pixel_eqb_spec. exact Heq.
Qed.

Lemma CheckPixel_outside l p :
  IsPixelInside l p = false ->
  CheckPixel l p = throw "Pixel %1% = %2% is outside of the region interval [0, %3%].".
Proof.
  unfold IsPixelInside, CheckPixel. intros H.
  destruct ((row p <? 0) || (n_rows l <=? row p)) eqn:E1; [reflexivity|].
  destruct ((column p <? 0) || (n_columns l <=? column p)) eqn:E2; [reflexivity|].
  exfalso. apply Bool.orb_false_iff in E1, E2.
  destruct E1 as [E1 E1'], E2 as [E2 E2'].
  apply Z.ltb_ge in E1, E2. apply Z.leb_gt in E1', E2'.
  assert (T : forall a b, a <= b -> (a <=? b) = true) by (intros; apply Z.leb_le; lia).
  assert (U : forall a b, a < b -> (a <? b) = true) by (intros; apply Z.ltb_lt; lia).
  rewrite (T 0 (row p)), (U (row p) (n_rows l)), (T 0 (column p)), (U (column p) (n_columns l))
    in H by lia. discriminate.
Qed.

(** X7: [PixelRegion::AddPixel] on a pixel map: a pixel outside the
    region layout is refused with the "outside" exception, a pixel already
    present with "Pixel is alrady present.", and a new pixel is inserted
    with its ADC reduced to 16 bits, keeping the map sorted; [GetAdc] then
    returns that ADC for it and the old values for every other pixel. *)
Theorem AddPixel_region_spec r pixel adc :
  keys_sorted (pixels r) ->
  (IsPixelInside (Chips.region_layout r) pixel = false ->
     AddPixel_region r pixel adc =
       throw "Pixel %1% = %2% is outside of the region interval [0, %3%].") /\
  (IsPixelInside (Chips.region_layout r) pixel = true -> In pixel (map fst (pixels r)) ->
     AddPixel_region r pixel adc = throw "Pixel is alrady present.") /\
  (IsPixelInside (Chips.region_layout r) pixel = true -> ~ In pixel (map fst (pixels r)) ->
     exists r', AddPixel_region r pixel adc = Ok r' /\
       Chips.region_layout r' = Chips.region_layout r /\ keys_sorted (pixels r') /\
       Permutation (pixels r') ((pixel, adc mod 2 ^ 16) :: pixels r) /\
       GetAdc r' pixel = adc mod 2 ^ 16 /\
       (forall q, q <> pixel -> GetAdc r' q = GetAdc r q)).
Proof.
  intros Hs. unfold AddPixel_region. split; [|split].
  - intros Hout. rewrite (CheckPixel_outside _ _ Hout). reflexivity.
  - intros Hin Hp. rewrite (CheckPixel_inside _ _ Hin). cbn [bind].
    apply existsb_key in Hp. rewrite Hp. reflexivity.
  - intros Hin Hp. rewrite (CheckPixel_inside _ _ Hin). cbn [bind].
    destruct (existsb _ _) eqn:E; [apply existsb_key in E; tauto|].
    eexists. split; [reflexivity|]. cbn [Chips.region_layout pixels].
    split; [reflexivity|split; [apply map_insert_sorted; assumption|split; [apply map_insert_perm|]]].
    unfold GetAdc. cbn [pixels]. split.
    + rewrite find_map_insert by exact Hp.
      rewrite (proj2 (pixel_eqb_spec pixel pixel) eq_refl). reflexivity.
    + intros q Hq. rewrite find_map_insert by exact Hp.
      destruct (pixel_eqb pixel q) eqn:Eq; [apply pixel_eqb_spec in Eq; congruence|reflexivity].
Qed.

Lemma AddPixel_region_spec_witness :
  keys_sorted (pixels (mkPixelRegion (mkRegionLayout 4 4) [(mkPixel 0 1, 7)])) /\
  (IsPixelInside (mkRegionLayout 4 4) (mkPixel 2 3) = false ->
     AddPixel_region (mkPixelRegion (mkRegionLayout 4 4) [(mkPixel 0 1, 7)]) (mkPixel 2 3) 70000 =
       throw "Pixel %1% = %2% is outside of the region interval [0, %3%].") /\
  (IsPixelInside (mkRegionLayout 4 4) (mkPixel 2 3) = true ->
     In (mkPixel 2 3) (map fst [(mkPixel 0 1, 7)]) ->
     AddPixel_region (mkPixelRegion (mkRegionLayout 4 4) [(mkPixel 0 1, 7)]) (mkPixel 2 3) 70000 =
       throw "Pixel is alrady present.") /\
  (IsPixelInside (mkRegionLayout 4 4) (mkPixel 2 3) = true ->
     ~ In (mkPixel 2 3) (map fst [(mkPixel 0 1, 7)]) ->
     exists r', AddPixel_region (mkPixelRegion (mkRegionLayout 4 4) [(mkPixel 0 1, 7)])
                  (mkPixel 2 3) 70000 = Ok r' /\
       Chips.region_layout r' = mkRegionLayout 4 4 /\ keys_sorted (pixels r') /\
       Permutation (pixels r') ((mkPixel 2 3, 70000 mod 2 ^ 16) :: [(mkPixel 0 1, 7)]) /\
       GetAdc r' (mkPixel 2 3) = 70000 mod 2 ^ 16 /\
       (forall q, q <> mkPixel 2 3 ->
          GetAdc r' q = GetAdc (mkPixelRegion (mkRegionLayout 4 4) [(mkPixel 0 1, 7)]) q)).
Proof.
  assert (H : keys_sorted (pixels (mkPixelRegion (mkRegionLayout 4 4) [(mkPixel 0 1, 7)])))
    by (repeat constructor).
  split; [exact H|].
  exact (AddPixel_region_spec (mkPixelRegion (mkRegionLayout 4 4) [(mkPixel 0 1, 7)])
           (mkPixel 2 3) 70000 H).
Defined.

Lemma SS_impl {A} (R R' : A -> A -> Prop) l :
  (forall a b, R a b -> R' a b) -> StronglySorted R l -> StronglySorted R' l.
Proof.
  intros Himp. induction 1 as [|x l Hs IH Hf]; constructor; [exact IH|].
  eapply Forall_impl; [exact Hf|]. exact (Himp x).
Qed.

Lemma keys_unique (l : list (Pixel * Z)) x y :
  NoDup (map fst l) -> x ∈ l -> y ∈ l -> x.1 = y.1 -> x = y.
Proof.
  induction l as [|z l IH]; intros Hn Hx Hy Hk; [inversion Hx|].
  simpl in Hn. apply NoDup_cons in Hn as [Hz Hn].
  apply elem_of_cons in Hx, Hy.
  destruct Hx as [->|Hx], Hy as [->|Hy]; try reflexivity.
  - exfalso. apply Hz. rewrite Hk. apply (list_elem_of_fmap_2 fst). exact Hy.
  - exfalso. apply Hz. rewrite <- Hk. apply (list_elem_of_fmap_2 fst). exact Hx.
  - apply IH; assumption.
Qed.

Lemma SS_strict (lt : Pixel * Z -> Pixel * Z -> bool) l :
  (forall a b, sort_le lt a b -> a.1 <> b.1 -> lt a b = true) ->
  StronglySorted (sort_le lt) l -> NoDup (map fst l) ->
  StronglySorted (fun a b => lt a b = true) l.
Proof.
  intros Himp. induction 1 as [|x l Hs IH Hf]; intros Hn; constructor.
  - apply IH. simpl in Hn. apply NoDup_cons in Hn. tauto.
  - simpl in Hn. apply NoDup_cons in Hn as [Hx _].
    rewrite Forall_forall in Hf |- *. intros b Hb. apply Himp; [apply Hf, Hb|].
    intros Hk. apply Hx. rewrite Hk. apply (list_elem_of_fmap_2 fst). exact Hb.
Qed.

Lemma ByRow_lt_pixel a b : ByRow_lt a b = pixel_ltb a.1 b.1.
Proof. unfold ByRow_lt, pixel_ltb. zcases. Qed.

Ltac pair_cases :=
  repeat match goal with
  | x : Pixel * Z |- _ => destruct x as [[? ?] ?]
  end.

#[local] Instance ByRow_trans : Transitive (sort_le ByRow_lt).
Proof. intros a b c. unfold sort_le, ByRow_lt. pair_cases. simpl. zcases. Qed.

#[local] Instance ByRow_total : Total (sort_le ByRow_lt).
Proof. intros a b. unfold sort_le, ByRow_lt. pair_cases. simpl. zcases. Qed.

#[local] Instance ByColumn_trans : Transitive (sort_le ByColumn_lt).
Proof. intros a b c. unfold sort_le, ByColumn_lt. pair_cases. simpl. zcases. Qed.

#[local] Instance ByColumn_total : Total (sort_le ByColumn_lt).
Proof. intros a b. unfold sort_le, ByColumn_lt. pair_cases. simpl. zcases. Qed.

Lemma sort_le_both_key lt a b :
  (lt = ByRow_lt \/ lt = ByColumn_lt) -> sort_le lt a b -> sort_le lt b a -> a.1 = b.1.
Proof.
  intros [-> | ->]; unfold sort_le, ByRow_lt, ByColumn_lt; pair_cases; simpl;
  zcases; intros; f_equal; lia.
Qed.

(** X8: [PixelRegion::GetOrderedPixels] on a pixel map: [ByRow] gives the
    entries in the order of the map itself, [ByColumn] gives the same
    entries sorted strictly by column and then by row, and the region
    orderings are refused with "Unsupported ordering". *)
Theorem GetOrderedPixels_region_spec r :
  keys_sorted (pixels r) ->
  GetOrderedPixels_region r ByRow = Ok (pixels r) /\
  (exists l, GetOrderedPixels_region r ByColumn = Ok l /\ Permutation l (pixels r) /\
     StronglySorted (fun a b => ByColumn_lt a b = true) l) /\
  GetOrderedPixels_region r ByRegionByRow = throw "Unsupported ordering" /\
  GetOrderedPixels_region r ByRegionByColumn = throw "Unsupported ordering".
Proof.
  intros Hs. pose proof (keys_sorted_nodup _ Hs) as Hn.
  unfold GetOrderedPixels_region. split; [|split; [|split; reflexivity]].
  - f_equal. apply (StronglySorted_unique_strong (sort_le ByRow_lt)).
    + intros x1 x2 Hx1 Hx2 H12 H21. apply (keys_unique (pixels r)); [exact Hn| |exact Hx2|].
      * rewrite <- (merge_sort_Permutation (sort_le ByRow_lt) (pixels r)). exact Hx1.
      * exact (sort_le_both_key ByRow_lt x1 x2 (or_introl eq_refl) H12 H21).
    + apply StronglySorted_merge_sort; typeclasses eauto.
    + eapply SS_impl; [|exact Hs]. intros a b H. unfold sort_le.
      rewrite ByRow_lt_pixel. apply pixel_ltb_asym. exact H.
    + apply merge_sort_Permutation.
  - eexists. split; [reflexivity|]. split; [apply merge_sort_Permutation|].
    apply SS_strict.
    + intros a b H Hk. unfold sort_le, ByColumn_lt in *. pair_cases. simpl in *.
      zcases; exfalso; apply Hk; f_equal; lia.
    + apply StronglySorted_merge_sort; typeclasses eauto.
    + rewrite (merge_sort_Permutation (sort_le ByColumn_lt) (pixels r)). exact Hn.
Qed.

Lemma GetOrderedPixels_region_spec_witness :
  keys_sorted (pixels (mkPixelRegion (mkRegionLayout 4 4) [(mkPixel 0 1, 7); (mkPixel 1 0, 9)])) /\
  GetOrderedPixels_region (mkPixelRegion (mkRegionLayout 4 4) [(mkPixel 0 1, 7); (mkPixel 1 0, 9)]) ByRow =
    Ok [(mkPixel 0 1, 7); (mkPixel 1 0, 9)] /\
  (exists l, GetOrderedPixels_region
               (mkPixelRegion (mkRegionLayout 4 4) [(mkPixel 0 1, 7); (mkPixel 1 0, 9)]) ByColumn = Ok l /\
     Permutation l [(mkPixel 0 1, 7); (mkPixel 1 0, 9)] /\
     StronglySorted (fun a b => ByColumn_lt a b = true) l) /\
  GetOrderedPixels_region (mkPixelRegion (mkRegionLayout 4 4) [(mkPixel 0 1, 7); (mkPixel 1 0, 9)])
    ByRegionByRow = throw "Unsupported ordering" /\
  GetOrderedPixels_region (mkPixelRegion (mkRegionLayout 4 4) [(mkPixel 0 1, 7); (mkPixel 1 0, 9)])
    ByRegionByColumn = throw "Unsupported ordering".
Proof.
  assert (H : keys_sorted (pixels (mkPixelRegion (mkRegionLayout 4 4)
                                     [(mkPixel 0 1, 7); (mkPixel 1 0, 9)]))).
  { repeat constructor. }
  split; [exact H|].
  exact (GetOrderedPixels_region_spec (mkPixelRegion (mkRegionLayout 4 4)
           [(mkPixel 0 1, 7); (mkPixel 1 0, 9)]) H).
Defined.

Lemma same_pixels_loop_spec a b :
  length a = length b -> same_pixels_loop a b = bool_decide (a = b).
Proof.
  revert b. induction a as [|[p x] a IH]; intros [|[q y] b] Hl; simpl in Hl; try lia.
  - rewrite bool_decide_eq_true_2; reflexivity.
  - cbn [same_pixels_loop fst snd].
    destruct (pixel_eqb p q) eqn:Ep; [apply pixel_eqb_spec in Ep; subst q|]; cbn [andb].
    + destruct (Z.eqb_spec x y) as [<-|Hne].
      * rewrite IH by lia. apply bool_decide_ext.
        split; [intros ->; reflexivity|intros H; injection H; auto].
      * symmetry. apply bool_decide_eq_false_2. congruence.
    + symmetry. apply bool_decide_eq_false_2. intros H. injection H as Hpq _ _.
      rewrite Hpq, (proj2 (pixel_eqb_spec q q) eq_refl) in Ep. discriminate.
Qed.

(** X9: [HasSamePixels] (and so [PixelMultiRegion::operator==]) on two
    pixel maps holds exactly when they hold the same pixel and ADC
    entries; the region layouts play no part and, the maps being sorted,
    neither does the order in which the pixels were added. *)
Theorem HasSamePixels_spec r other :
  keys_sorted (pixels r) -> keys_sorted (pixels other) ->
  (HasSamePixels r other = true <-> Permutation (pixels r) (pixels other)).
Proof.
  intros Hr Ho. unfold HasSamePixels. split.
  - destruct (Nat.eqb_spec (length (pixels r)) (length (pixels other))) as [Hl|Hl];
      cbn [negb]; [|discriminate].
    rewrite same_pixels_loop_spec by exact Hl. intros H.
    apply bool_decide_eq_true_1 in H. rewrite H. reflexivity.
  - intros Hp. assert (He : pixels r = pixels other).
    { apply (StronglySorted_unique_strong (fun a b : Pixel * Z => pixel_ltb a.1 b.1 = true)); try assumption.
      intros x1 x2 _ _ H12 H21. rewrite (pixel_ltb_asym _ _ H12) in H21. discriminate. }
    rewrite He, Nat.eqb_refl. cbn [negb].
    rewrite same_pixels_loop_spec by reflexivity. apply bool_decide_eq_true_2. reflexivity.
Qed.

Lemma HasSamePixels_spec_witness :
  keys_sorted (pixels (mkPixelRegion (mkRegionLayout 4 4) [(mkPixel 0 1, 7)])) /\
  keys_sorted (pixels (mkPixelRegion (mkRegionLayout 8 2) [(mkPixel 0 1, 7)])) /\
  (HasSamePixels (mkPixelRegion (mkRegionLayout 4 4) [(mkPixel 0 1, 7)])
                 (mkPixelRegion (mkRegionLayout 8 2) [(mkPixel 0 1, 7)]) = true <->
   Permutation [(mkPixel 0 1, 7)] [(mkPixel 0 1, 7)]).
Proof.
  assert (H1 : keys_sorted (pixels (mkPixelRegion (mkRegionLayout 4 4) [(mkPixel 0 1, 7)])))
    by (repeat constructor).
  assert (H2 : keys_sorted (pixels (mkPixelRegion (mkRegionLayout 8 2) [(mkPixel 0 1, 7)])))
    by (repeat constructor).
  split; [exact H1|split; [exact H2|]].
  exact (HasSamePixels_spec _ _ H1 H2).
Defined.

(** *** Lists: filters, permutations and loops *)

Lemma Permutation_filter {A} (f : A -> bool) l l' :
  Permutation l l' -> Permutation (List.filter f l) (List.filter f l').
Proof.
  induction 1; simpl.
  - reflexivity.
  - destruct (f x); [apply perm_skip|]; assumption.
  - destruct (f x), (f y); try reflexivity; apply perm_swap.
  - etransitivity; eassumption.
Qed.

Lemma filter_all {A} (f : A -> bool) l : Forall (fun x => f x = true) l -> List.filter f l = l.
Proof. induction 1 as [|x l Hx _ IH]; simpl; [reflexivity|]. rewrite Hx, IH. reflexivity. Qed.

Lemma filter_none {A} (f : A -> bool) l : Forall (fun x => f x = false) l -> List.filter f l = [].
Proof. induction 1 as [|x l Hx _ IH]; simpl; [reflexivity|]. rewrite Hx. exact IH. Qed.

Lemma filter_or {A} (f g : A -> bool) l :
  (forall x, f x = true -> g x = false) ->
  Permutation (List.filter f l ++ List.filter g l) (List.filter (fun x => f x || g x) l).
Proof.
  intros Hd. induction l as [|x l IH]; simpl; [reflexivity|].
  destruct (f x) eqn:Ef; [rewrite (Hd x Ef); simpl; apply perm_skip; exact IH|].
  destruct (g x) eqn:Eg; simpl.
  - rewrite <- Permutation_middle. apply perm_skip. exact IH.
  - exact IH.
Qed.

(** The pieces of a list cut by the value of [g] in [0, m), in order of
    the value. *)
Lemma concat_filter_seq {A} (P : A -> bool) (g : A -> Z) l m :
  Permutation (concat (map (fun k => List.filter (fun e => P e && (g e =? Z.of_nat k)) l) (seq 0 m)))
              (List.filter (fun e => P e && ((0 <=? g e) && (g e <? Z.of_nat m))) l).
Proof.
  induction m as [|m IH].
  - simpl. symmetry. rewrite filter_none; [reflexivity|].
    apply Forall_forall. intros x _. destruct (P x); [|reflexivity]. cbn [andb].
    destruct (Z.leb_spec 0 (g x)); [|reflexivity]. apply Z.ltb_ge. lia.
  - rewrite seq_S, map_app, concat_app. simpl. rewrite app_nil_r.
    rewrite IH. etransitivity; [apply filter_or|].
    + intros x. destruct (P x), (Z.leb_spec 0 (g x)), (Z.ltb_spec (g x) (Z.of_nat m)),
        (Z.eqb_spec (g x) (Z.of_nat m)); simpl; intros; try discriminate; try reflexivity; lia.
    + erewrite filter_ext; [reflexivity|]. intros x. rewrite Nat2Z.inj_succ.
      destruct (P x), (Z.leb_spec 0 (g x)), (Z.ltb_spec (g x) (Z.of_nat m)),
        (Z.eqb_spec (g x) (Z.of_nat m)), (Z.ltb_spec (g x) (Z.succ (Z.of_nat m)));
        simpl; reflexivity || lia.
Qed.

Lemma concat_map_perm {A B} (f g : A -> list B) l :
  (forall x, In x l -> Permutation (f x) (g x)) ->
  Permutation (concat (map f l)) (concat (map g l)).
Proof.
  induction l as [|x l IH]; intros H; simpl; [reflexivity|].
  apply Permutation_app; [apply H; left; reflexivity|apply IH; intros; apply H; right; assumption].
Qed.

(** A [for] loop that appends, up to the order of the appended items. *)
Lemma foldM_perm {A B} (f : list B -> A -> result (list B)) (g : A -> list B) l acc :
  (forall res x, In x l -> exists out, f res x = Ok out /\ Permutation out (res ++ g x)) ->
  exists out, foldM f l acc = Ok out /\ Permutation out (acc ++ concat (map g l)).
Proof.
  revert acc. induction l as [|x l IH]; intros acc H; simpl.
  - exists acc. rewrite app_nil_r. split; reflexivity.
  - destruct (H acc x (or_introl eq_refl)) as [o1 [E1 P1]]. rewrite E1. cbn [bind].
    destruct (IH o1) as [out [E2 P2]]; [intros; apply H; right; assumption|].
    exists out. split; [exact E2|]. rewrite P2, P1, app_assoc. reflexivity.
Qed.

(** *** Region geometry on the pixels of a chip *)

Lemma layout_facts m :
  constructed m -> n_rows (base m) <= 2 ^ 15 -> n_columns (base m) <= 2 ^ 15 ->
  exists N M R C, base m = mkRegionLayout N M /\ Geo.region_layout m = mkRegionLayout R C /\
    1 <= N <= 2 ^ 15 /\ 1 <= M <= 2 ^ 15 /\ 1 <= R /\ 1 <= C /\
    1 <= n_region_rows m <= N /\ 1 <= n_region_columns m <= M /\
    N <= n_region_rows m * R /\ M <= n_region_columns m * C /\
    GetNumberOfRegions m = n_region_rows m * n_region_columns m.
Proof.
  intros Hc HN HM.
  destruct (constructed_facts m Hc)
    as (N & M & R & C & Hb & Hrl & HN1 & HM1 & HR & HC & Hnrr & Hnrc & _ & _).
  rewrite Hb in HN, HM. simpl in HN, HM.
  destruct (ceil_div_spec N R ltac:(lia) HR) as [Hq1 [_ Hq3]].
  destruct (ceil_div_spec M C ltac:(lia) HC) as [Hp1 [_ Hp3]].
  pose proof (ceil_div_le N R ltac:(lia) HR). pose proof (ceil_div_le M C ltac:(lia) HC).
  exists N, M, R, C. rewrite Hnrr, Hnrc.
  do 10 (split; [assumption || lia|]).
  unfold GetNumberOfRegions. rewrite Hnrr, Hnrc. apply sz_small. nia.
Qed.

Lemma convert_inside m N M R C p :
  base m = mkRegionLayout N M -> Geo.region_layout m = mkRegionLayout R C ->
  N <= 2 ^ 15 -> M <= 2 ^ 15 -> 1 <= R -> 1 <= C ->
  1 <= n_region_rows m <= N -> 1 <= n_region_columns m <= M ->
  N <= n_region_rows m * R -> M <= n_region_columns m * C ->
  IsPixelInside (base m) p = true ->
  0 <= row p / R < n_region_rows m /\ 0 <= column p / C < n_region_columns m /\
  ConvertToRegionPixel m p = (row p / R * n_region_columns m + column p / C,
                              mkPixel (row p mod R) (column p mod C)) /\
  ConvertFromRegionPixel m (row p / R * n_region_columns m + column p / C)
    (mkPixel (row p mod R) (column p mod C)) = p.
Proof.
  intros Hb Hrl HN HM HR HC Hnrr Hnrc HNr HMc Hin.
  rewrite Hb, inside_iff in Hin. simpl in Hin. destruct Hin as [Hr Hcl].
  set (nrr := n_region_rows m) in *. set (nrc := n_region_columns m) in *.
  assert (Hri : 0 <= row p / R < nrr)
    by (split; [apply Z.div_pos; lia|apply Z.div_lt_upper_bound; lia]).
  assert (Hci : 0 <= column p / C < nrc)
    by (split; [apply Z.div_pos; lia|apply Z.div_lt_upper_bound; lia]).
  pose proof (Z.mod_pos_bound (row p) R ltac:(lia)). pose proof (Z.mod_le (row p) R ltac:(lia) ltac:(lia)).
  pose proof (Z.mod_pos_bound (column p) C ltac:(lia)).
  pose proof (Z.mod_le (column p) C ltac:(lia) ltac:(lia)).
  pose proof (Z.div_mod (row p) R ltac:(lia)). pose proof (Z.div_mod (column p) C ltac:(lia)).
  split; [exact Hri|split; [exact Hci|split]].
  - unfold ConvertToRegionPixel. rewrite Hrl. cbn [n_rows n_columns]. fold nrc.
    rewrite (sz_small (row p)), (sz_small (column p)) by lia.
    rewrite (sz_small (row p / R * nrc)) by nia. rewrite (sz_small (_ + _)) by nia.
    rewrite !to_i16_small by lia. reflexivity.
  - unfold ConvertFromRegionPixel. rewrite Hrl. cbn [n_rows n_columns row column]. fold nrc.
    destruct (divmod_exact (row p / R) nrc (column p / C) Hci) as [Hd Hm].
    rewrite Hm.
    replace (row p / R * nrc + column p / C - column p / C) with (row p / R * nrc) by lia.
    rewrite Z.div_mul by lia.
    rewrite (sz_small (row p / R * R)), (sz_small (row p mod R)) by nia.
    rewrite (sz_small (column p / C * C)), (sz_small (column p mod C)) by nia.
    replace (row p / R * R + row p mod R) with (row p) by lia.
    replace (column p / C * C + column p mod C) with (column p) by lia.
    rewrite !sz_small, !to_i16_small by lia. destruct p; reflexivity.
Qed.

Lemma convert_from_zero m p :
  1 <= n_region_columns m -> 0 <= row p < 2 ^ 15 -> 0 <= column p < 2 ^ 15 ->
  ConvertFromRegionPixel m 0 p = p.
Proof.
  intros Hc Hr Hcl. unfold ConvertFromRegionPixel.
  rewrite Z.mod_0_l by lia. rewrite Z.sub_0_r, Z.div_0_l by lia.
  assert (E0 : forall x, sz (0 * x) = 0) by (intros; unfold sz; rewrite Z.mul_0_l; reflexivity).
  rewrite !E0, !Z.add_0_l.
  rewrite (sz_small (row p)), (sz_small (column p)) by lia.
  rewrite (sz_small (row p)), (sz_small (column p)) by lia.
  rewrite !to_i16_small by lia. destruct p; reflexivity.
Qed.

(** *** The regions of a chip *)

Lemma vat_nth_gen {A} (l : list A) i d :
  0 <= i -> (Z.to_nat i < length l)%nat -> vat l i = Ok (nth (Z.to_nat i) l d).
Proof.
  intros Hi Hl. unfold vat. destruct (Z.ltb_spec i 0); [lia|].
  destruct (nth_error l (Z.to_nat i)) eqn:E.
  - rewrite (nth_error_nth _ _ _ E). reflexivity.
  - apply nth_error_None in E. lia.
Qed.

Lemma CheckPixel_ok_inside l p u : CheckPixel l p = Ok u -> IsPixelInside l p = true.
Proof.
  unfold CheckPixel. intros H. apply inside_iff.
  destruct ((row p <? 0) || (n_rows l <=? row p)) eqn:E1; [discriminate|].
  destruct ((column p <? 0) || (n_columns l <=? column p)) eqn:E2; [discriminate|].
  apply Bool.orb_false_iff in E1, E2. destruct E1 as [E1 E1'], E2 as [E2 E2'].
  apply Z.ltb_ge in E1, E2. apply Z.leb_gt in E1', E2'. lia.
Qed.

Lemma region_entries_perm ml id E E' :
  Permutation E E' -> Permutation (region_entries ml id E) (region_entries ml id E').
Proof. intros H. unfold region_entries. apply Permutation_map, Permutation_filter, H. Qed.

Lemma slot_ok_perm ml id E E' s : Permutation E E' -> slot_ok ml id E s -> slot_ok ml id E' s.
Proof.
  intros HP. pose proof (region_entries_perm ml id E E' HP) as HR.
  destruct s as [r|]; simpl.
  - intros (H1 & H2 & H3). split; [exact H1|split].
    + intros H. apply H2. rewrite H in HR. apply Permutation_nil_r in HR. exact HR.
    + rewrite H3. exact HR.
  - intros H. rewrite H in HR. symmetry in HR. apply Permutation_nil_r in HR. exact HR.
Qed.

Lemma region_entries_cons ml id e E :
  region_entries ml id (e :: E) =
    if (ConvertToRegionPixel ml e.1).1 =? id
    then ((ConvertToRegionPixel ml e.1).2, e.2) :: region_entries ml id E
    else region_entries ml id E.
Proof. unfold region_entries. simpl. destruct (_ =? id); reflexivity. Qed.

Lemma in_region_entries ml id E x :
  In x (region_entries ml id E) ->
  exists e, In e E /\ ConvertToRegionPixel ml e.1 = (id, x.1) /\ e.2 = x.2.
Proof.
  unfold region_entries. intros H. apply in_map_iff in H as [e [<- He]].
  apply filter_In in He as [He Hid]. apply Z.eqb_eq in Hid.
  exists e. split; [exact He|]. cbn [fst snd]. split; [|reflexivity].
  rewrite <- Hid. destruct (ConvertToRegionPixel ml e.1) as [z q]. reflexivity.
Qed.

(** One call of [AddPixelToRegion] with more than one region, for a new
    pixel of the chip. *)
Lemma add_to_region_step b ml regs E pixel adc :
  constructed ml -> n_rows (base ml) <= 2 ^ 15 -> n_columns (base ml) <= 2 ^ 15 ->
  1 < GetNumberOfRegions ml ->
  length regs = Z.to_nat (GetNumberOfRegions ml) ->
  (forall id, 0 <= id < GetNumberOfRegions ml -> slot_ok ml id E (nth (Z.to_nat id) regs None)) ->
  Forall (fun e => IsPixelInside (base ml) e.1 = true) E ->
  IsPixelInside (base ml) pixel = true -> ~ In pixel (map fst E) ->
  exists regs', AddPixelToRegion (mkPixelMultiRegion b ml regs) pixel adc =
                  Ok (mkPixelMultiRegion b ml regs') /\
    length regs' = Z.to_nat (GetNumberOfRegions ml) /\
    (forall id, 0 <= id < GetNumberOfRegions ml ->
       slot_ok ml id ((pixel, adc mod 2 ^ 16) :: E) (nth (Z.to_nat id) regs' None)).
Proof.
  intros Hc HN HM Hn Hlen Hslots HE Hin Hnew.
  destruct (layout_facts ml Hc HN HM)
    as (N & M & R & C & Hb & Hrl & HN1 & HM1 & HR & HC & Hnrr & Hnrc & HNr & HMc & Hregs).
  destruct (convert_inside ml N M R C pixel Hb Hrl ltac:(lia) ltac:(lia) HR HC Hnrr Hnrc HNr HMc Hin)
    as (Hri & Hci & Hto & Hfrom).
  set (id := row pixel / R * n_region_columns ml + column pixel / C) in *.
  set (rp := mkPixel (row pixel mod R) (column pixel mod C)) in *.
  assert (Hid : 0 <= id < GetNumberOfRegions ml) by (rewrite Hregs; unfold id; nia).
  assert (Hrp : IsPixelInside (Geo.region_layout ml) rp = true).
  { rewrite Hrl, inside_iff. unfold rp. simpl.
    pose proof (Z.mod_pos_bound (row pixel) R ltac:(lia)).
    pose proof (Z.mod_pos_bound (column pixel) C ltac:(lia)). lia. }
  (* a pixel of region [id] already present would be [pixel] itself *)
  assert (Hfresh : ~ In rp (map fst (region_entries ml id E))).
  { intros H. apply in_map_iff in H as [x [Hx H]].
    destruct (in_region_entries ml id E x H) as [e [He [Hce _]]].
    rewrite Hx in Hce.
    rewrite Forall_forall in HE. specialize (HE e (proj2 (list_elem_of_In _ _) He)).
    destruct (convert_inside ml N M R C e.1 Hb Hrl ltac:(lia) ltac:(lia) HR HC Hnrr Hnrc HNr HMc HE)
      as (_ & _ & Hto' & Hfrom'). rewrite Hto' in Hce. injection Hce as Hi Hp Hq.
    rewrite Hi, Hp, Hq in Hfrom'. fold rp in Hfrom'. rewrite Hfrom in Hfrom'.
    apply Hnew.
    apply in_map_iff. exists e. split; [symmetry; exact Hfrom'|exact He]. }
  unfold AddPixelToRegion. cbn [multi_region_layout regions base_region].
  destruct (Z.leb_spec (GetNumberOfRegions ml) 1); [lia|]. rewrite Hto. cbv beta iota.
  rewrite (vat_nth_gen regs id None) by lia.
  cbn [bind].
  pose proof (Hslots id Hid) as Hsl.
  set (slot := nth (Z.to_nat id) regs None) in *.
  assert (Hreg : exists r, (match slot with Some r => r | None => mkPixelRegion (Geo.region_layout ml) [] end) = r /\
      Chips.region_layout r = Geo.region_layout ml /\ Permutation (pixels r) (region_entries ml id E)).
  { destruct slot as [r|]; simpl in Hsl.
    - exists r. split; [reflexivity|tauto].
    - exists (mkPixelRegion (Geo.region_layout ml) []). cbn [pixels Chips.region_layout].
      rewrite Hsl. split; [reflexivity|split; reflexivity]. }
  destruct Hreg as [r [-> [Hrl' Hpr]]].
  unfold AddPixel_region. rewrite Hrl', (CheckPixel_inside _ _ Hrp). cbn [bind].
  destruct (existsb _ (pixels r)) eqn:Eex.
  { exfalso. apply existsb_key in Eex. apply Hfresh.
    eapply Permutation_in; [apply Permutation_map; exact Hpr|exact Eex]. }
  eexists. split; [reflexivity|]. split; [rewrite length_insert; exact Hlen|].
  intros id' Hid'. rewrite !nth_lookup.
  destruct (Z.eqb_spec id id') as [<-|Hne].
  - rewrite list_lookup_insert_eq by lia. cbn [default]. unfold slot_ok.
    rewrite region_entries_cons. cbn [fst snd]. rewrite Hto. cbn [fst snd]. rewrite Z.eqb_refl.
    split; [reflexivity|split; [discriminate|]]. cbn [pixels].
    etransitivity; [apply map_insert_perm|]. apply perm_skip. exact Hpr.
  - rewrite list_lookup_insert_ne by lia. rewrite <- nth_lookup.
    assert (HRe : region_entries ml id' ((pixel, adc mod 2 ^ 16) :: E) = region_entries ml id' E).
    { rewrite region_entries_cons. cbn [fst]. rewrite Hto. cbn [fst].
      destruct (Z.eqb_spec id id'); [lia|reflexivity]. }
    pose proof (Hslots id' Hid') as Hs'. unfold slot_ok in *. rewrite HRe. exact Hs'.
Qed.

(** The loop of [CreateRegions] over the pixels of the chip. *)
Lemma create_fold b ml S P regs :
  constructed ml -> n_rows (base ml) <= 2 ^ 15 -> n_columns (base ml) <= 2 ^ 15 ->
  1 < GetNumberOfRegions ml ->
  length regs = Z.to_nat (GetNumberOfRegions ml) ->
  (forall id, 0 <= id < GetNumberOfRegions ml -> slot_ok ml id P (nth (Z.to_nat id) regs None)) ->
  Forall (fun e => IsPixelInside (base ml) e.1 = true /\ 0 <= e.2 < 2 ^ 16) (P ++ S) ->
  NoDup (map fst (P ++ S)) ->
  exists regs',
    fold_left (fun acc e => let* c' := acc in AddPixelToRegion c' e.1 e.2) S
      (Ok (mkPixelMultiRegion b ml regs)) = Ok (mkPixelMultiRegion b ml regs') /\
    length regs' = Z.to_nat (GetNumberOfRegions ml) /\
    (forall id, 0 <= id < GetNumberOfRegions ml ->
       slot_ok ml id (P ++ S) (nth (Z.to_nat id) regs' None)).
Proof.
  intros Hc HN HM Hn. revert P regs.
  induction S as [|e S IH]; intros P regs Hlen Hslots HF HD.
  - exists regs. rewrite app_nil_r. split; [reflexivity|split; assumption].
  - simpl.
    assert (HFP : Forall (fun e => IsPixelInside (base ml) e.1 = true) P).
    { apply Forall_app in HF as [HF _]. eapply Forall_impl; [exact HF|]. intros x [Hx _]. exact Hx. }
    assert (He : IsPixelInside (base ml) e.1 = true /\ 0 <= e.2 < 2 ^ 16).
    { apply Forall_app in HF as [_ HF]. apply Forall_cons in HF. tauto. }
    assert (Hnew : ~ In e.1 (map fst P)).
    { intros Hin. rewrite map_app in HD. apply NoDup_app in HD as (_ & HD & _).
      apply (HD e.1); [apply list_elem_of_In; exact Hin|simpl; apply elem_of_cons; left; reflexivity]. }
    destruct (add_to_region_step b ml regs P e.1 e.2 Hc HN HM Hn Hlen Hslots HFP (proj1 He) Hnew)
      as [regs1 [Hstep [Hlen1 Hslots1]]].
    rewrite Hstep. rewrite (Z.mod_small e.2) in Hslots1 by lia.
    destruct (IH (P ++ [e]) regs1) as [regs' [Hrun [Hlen' Hslots']]].
    + exact Hlen1.
    + intros id Hid. eapply slot_ok_perm; [|apply Hslots1; exact Hid].
      destruct e. simpl. apply Permutation_cons_append.
    + rewrite <- app_assoc. exact HF.
    + rewrite <- app_assoc. exact HD.
    + exists regs'. split; [exact Hrun|split; [exact Hlen'|]].
      rewrite <- app_assoc in Hslots'. exact Hslots'.
Qed.

Lemma CreateRegions_inv b ml regs c' :
  constructed ml -> n_rows (base ml) <= 2 ^ 15 -> n_columns (base ml) <= 2 ^ 15 ->
  Chips.region_layout b = base ml -> keys_sorted (pixels b) ->
  Forall (fun e => IsPixelInside (base ml) e.1 = true /\ 0 <= e.2 < 2 ^ 16) (pixels b) ->
  CreateRegions (mkPixelMultiRegion b ml regs) = Ok c' -> chip_inv c'.
Proof.
  intros Hc HN HM Hl Hs HF. unfold CreateRegions. cbn [multi_region_layout base_region].
  destruct (Z.ltb_spec 1 (GetNumberOfRegions ml)) as [Hn|Hn].
  - destruct (create_fold b ml (pixels b) [] (repeat None (Z.to_nat (GetNumberOfRegions ml))))
      as [regs' [Hrun [Hlen Hslots]]]; try assumption.
    + apply repeat_length.
    + intros id _. rewrite nth_repeat. reflexivity.
    + apply keys_sorted_nodup. exact Hs.
    + rewrite Hrun. intros H. injection H as <-.
      unfold chip_inv. cbn [multi_region_layout base_region regions].
      do 6 (split; [assumption|]). intros _. split; assumption.
  - intros H. injection H as <-. unfold chip_inv. cbn [multi_region_layout base_region regions].
    do 6 (split; [assumption|]). intros Hn'. lia.
Qed.

Lemma make4_base nr nc a b m :
  make_MultiRegionLayout4 nr nc a b = Ok m -> base m = mkRegionLayout nr nc.
Proof.
  unfold make_MultiRegionLayout4, make_RegionLayout.
  destruct ((nr =? 0) || (nc =? 0)); [discriminate|]. cbn [bind].
  destruct (_ || _); [discriminate|]. intros H. injection H as <-. reflexivity.
Qed.

Lemma AddPixel_inv c pixel adc c' : chip_inv c -> AddPixel c pixel adc = Ok c' -> chip_inv c'.
Proof.
  intros (Hc & HN & HM & Hl & Hs & HF & Hregs). unfold AddPixel.
  destruct (AddPixel_region (base_region c) pixel adc) as [b'|e] eqn:Eb; [|discriminate].
  cbn [bind]. unfold AddPixel_region in Eb.
  destruct (CheckPixel (Chips.region_layout (base_region c)) pixel) as [u|e] eqn:Ec;
    [|discriminate]. cbn [bind] in Eb.
  destruct (existsb _ _) eqn:Ee in Eb; [discriminate|]. injection Eb as <-.
  apply CheckPixel_ok_inside in Ec. rewrite Hl in Ec.
  assert (Hnew : ~ In pixel (map fst (pixels (base_region c)))).
  { intros H. apply existsb_key in H. congruence. }
  set (ml := multi_region_layout c) in *.
  set (E := pixels (base_region c)) in *.
  set (b' := mkPixelRegion (Chips.region_layout (base_region c)) (map_insert pixel (adc mod 2 ^ 16) E)).
  assert (Hperm : Permutation (pixels b') ((pixel, adc mod 2 ^ 16) :: E)) by apply map_insert_perm.
  assert (Hbase : Chips.region_layout b' = base ml /\ keys_sorted (pixels b') /\
    Forall (fun e => IsPixelInside (base ml) e.1 = true /\ 0 <= e.2 < 2 ^ 16) (pixels b')).
  { split; [exact Hl|split; [apply map_insert_sorted; assumption|]].
    eapply Permutation_Forall; [symmetry; exact Hperm|]. constructor; [|exact HF].
    split; [exact Ec|]. simpl. apply Z.mod_pos_bound. lia. }
  destruct Hbase as (Hl' & Hs' & HF').
  unfold AddPixelToRegion. cbn [multi_region_layout regions base_region]. fold ml.
  destruct (Z.leb_spec (GetNumberOfRegions ml) 1) as [Hn|Hn].
  - intros H. injection H as <-. unfold chip_inv. cbn [multi_region_layout base_region regions].
    do 6 (split; [assumption|]). intros. lia.
  - intros H.
    destruct (Hregs Hn) as [Hlen Hslots].
    assert (HFE : Forall (fun e => IsPixelInside (base ml) e.1 = true) E).
    { eapply Forall_impl; [exact HF|]. intros x [Hx _]. exact Hx. }
    destruct (add_to_region_step b' ml (regions c) E pixel adc Hc HN HM Hn Hlen Hslots HFE Ec Hnew)
      as [regs' [Hstep [Hlen' Hslots']]].
    unfold AddPixelToRegion in Hstep. cbn [multi_region_layout regions base_region] in Hstep.
    destruct (Z.leb_spec (GetNumberOfRegions ml) 1); [lia|].
    rewrite Hstep in H. injection H as <-.
    unfold chip_inv. cbn [multi_region_layout base_region regions].
    do 6 (split; [assumption|]). intros _. split; [exact Hlen'|].
    intros id Hid. eapply slot_ok_perm; [symmetry; exact Hperm|]. apply Hslots'. exact Hid.
Qed.

Lemma split_inv c a b c' :
  chip_inv c -> 0 <= a < 2 ^ 64 -> 0 <= b < 2 ^ 64 -> split_Chip c a b = Ok c' -> chip_inv c'.
Proof.
  intros (Hc & HN & HM & Hl & Hs & HF & _) Ha Hb. unfold split_Chip.
  destruct (layout_facts _ Hc HN HM) as (N & M & R & C & Hbm & _ & HN1 & HM1 & _).
  rewrite Hl, Hbm. cbn [n_rows n_columns].
  destruct (make_MultiRegionLayout4 N M a b) as [ml'|e] eqn:Em; [|discriminate]. cbn [bind].
  pose proof (make4_base _ _ _ _ _ Em) as Hb'.
  assert (Hc' : constructed ml') by (apply (constructed4 N M a b); try assumption; lia).
  apply CreateRegions_inv; try assumption.
  - rewrite Hb'. simpl. lia.
  - rewrite Hb'. simpl. lia.
  - rewrite Hl, Hbm, Hb'. reflexivity.
  - rewrite Hb', <- Hbm. exact HF.
Qed.

Lemma chip_built_inv c : chip_built c -> chip_inv c.
Proof.
  induction 1 as [layout c Hc HN HM H|c pixel adc c' _ IH H|c a b c' _ IH Ha Hb H].
  - unfold make_Chip in H. eapply CreateRegions_inv; try eassumption.
    + reflexivity.
    + constructor.
    + constructor.
  - exact (AddPixel_inv c pixel adc c' IH H).
  - exact (split_inv c a b c' IH Ha Hb H).
Qed.

(** *** Region queries on a chip *)

Lemma existsb_filter {A} (f : A -> bool) l :
  existsb f l = negb (length (List.filter f l) =? 0)%nat.
Proof. induction l as [|x l IH]; simpl; [reflexivity|]. destruct (f x); simpl; [reflexivity|exact IH]. Qed.

Lemma grid_eq a b c d w : 0 <= b < w -> 0 <= d < w -> a * w + b = c * w + d -> a = c /\ b = d.
Proof.
  intros Hb Hd Heq.
  assert (Ha : a = (a * w + b) / w) by (apply (Z.div_unique _ _ _ b); [left; lia|lia]).
  assert (Hc : c = (c * w + d) / w) by (apply (Z.div_unique _ _ _ d); [left; lia|lia]).
  assert (a = c) by (rewrite Ha, Hc, Heq; reflexivity). subst. lia.
Qed.

Section Layout.
Variable ml : MultiRegionLayout.
Hypothesis Hc : constructed ml.
Hypothesis HN : n_rows (base ml) <= 2 ^ 15.
Hypothesis HM : n_columns (base ml) <= 2 ^ 15.

Lemma convert_back p :
  IsPixelInside (base ml) p = true ->
  0 <= (ConvertToRegionPixel ml p).1 < GetNumberOfRegions ml /\
  ConvertFromRegionPixel ml (ConvertToRegionPixel ml p).1 (ConvertToRegionPixel ml p).2 = p.
Proof.
  intros Hin.
  destruct (layout_facts ml Hc HN HM)
    as (N & M & R & C & Hb & Hrl & HN1 & HM1 & HR & HC & Hnrr & Hnrc & HNr & HMc & Hregs).
  destruct (convert_inside ml N M R C p Hb Hrl ltac:(lia) ltac:(lia) HR HC Hnrr Hnrc HNr HMc Hin)
    as (Hri & Hci & Hto & Hfrom).
  rewrite Hto. cbn [fst snd]. split; [rewrite Hregs; nia|exact Hfrom].
Qed.

(** The region id of an inside pixel, tested against a grid position. *)
Lemma convert_id_grid p n k :
  IsPixelInside (base ml) p = true -> 0 <= k < n_region_columns ml ->
  ((ConvertToRegionPixel ml p).1 =? n * n_region_columns ml + k) =
    (row p / n_rows (Geo.region_layout ml) =? n) &&
    (column p / n_columns (Geo.region_layout ml) =? k).
Proof.
  intros Hin Hk.
  destruct (layout_facts ml Hc HN HM)
    as (N & M & R & C & Hb & Hrl & HN1 & HM1 & HR & HC & Hnrr & Hnrc & HNr & HMc & Hregs).
  destruct (convert_inside ml N M R C p Hb Hrl ltac:(lia) ltac:(lia) HR HC Hnrr Hnrc HNr HMc Hin)
    as (Hri & Hci & Hto & _).
  rewrite Hto, Hrl. cbn [fst n_rows n_columns].
  destruct (Z.eqb_spec (row p / R * n_region_columns ml + column p / C) (n * n_region_columns ml + k))
    as [E|E].
  - destruct (grid_eq _ _ _ _ _ Hci Hk E) as [-> ->]. rewrite !Z.eqb_refl. reflexivity.
  - destruct (Z.eqb_spec (row p / R) n), (Z.eqb_spec (column p / C) k); try reflexivity.
    subst. lia.
Qed.

(** Gathering the pixels of every region of the grid, rows or columns of
    regions first, gives back all the pixels. *)
Lemma region_grid_perm (E : list (Pixel * Z)) (by_row : bool) :
  Forall (fun e => IsPixelInside (base ml) e.1 = true) E ->
  let rid (n k : Z) := if by_row then n * n_region_columns ml + k else k * n_region_columns ml + n in
  let '(n1, n2) := if by_row then (n_region_rows ml, n_region_columns ml)
                   else (n_region_columns ml, n_region_rows ml) in
  Permutation
    (concat (map (fun n => concat (map (fun k =>
        List.filter (fun e => (ConvertToRegionPixel ml e.1).1 =? rid (Z.of_nat n) (Z.of_nat k)) E)
      (seq 0 (Z.to_nat n2)))) (seq 0 (Z.to_nat n1)))) E.
Proof.
  intros HE rid.
  destruct (layout_facts ml Hc HN HM)
    as (N & M & R & C & Hb & Hrl & HN1 & HM1 & HR & HC & Hnrr & Hnrc & HNr & HMc & Hregs).
  set (ri := fun e : Pixel * Z => row e.1 / R). set (ci := fun e : Pixel * Z => column e.1 / C).
  assert (Hrange : forall e, In e E -> 0 <= ri e < n_region_rows ml /\ 0 <= ci e < n_region_columns ml).
  { intros e He. rewrite Forall_forall in HE. specialize (HE e (proj2 (list_elem_of_In _ _) He)).
    destruct (convert_inside ml N M R C e.1 Hb Hrl ltac:(lia) ltac:(lia) HR HC Hnrr Hnrc HNr HMc HE)
      as (Hri & Hci & _). unfold ri, ci. lia. }
  set (fa := fun e => if by_row then ri e else ci e).
  set (fb := fun e => if by_row then ci e else ri e).
  assert (Hcell : forall n k, (k < Z.to_nat (if by_row then n_region_columns ml else n_region_rows ml))%nat ->
     (n < Z.to_nat (if by_row then n_region_rows ml else n_region_columns ml))%nat ->
     forall e, In e E ->
     ((ConvertToRegionPixel ml e.1).1 =? rid (Z.of_nat n) (Z.of_nat k)) =
       true && (fa e =? Z.of_nat n) && (fb e =? Z.of_nat k)).
  { intros n k Hk Hn e He. rewrite Forall_forall in HE.
    specialize (HE e (proj2 (list_elem_of_In _ _) He)).
    unfold rid, fa, fb, ri, ci. destruct by_row.
    - rewrite convert_id_grid by (exact HE || lia). rewrite Hrl. reflexivity.
    - rewrite convert_id_grid by (exact HE || lia). rewrite Hrl. cbn [n_rows n_columns].
      rewrite andb_comm. reflexivity. }
  assert (Hperm : forall n1 n2,
    n1 = (if by_row then n_region_rows ml else n_region_columns ml) ->
    n2 = (if by_row then n_region_columns ml else n_region_rows ml) ->
    Permutation
    (concat (map (fun n => concat (map (fun k =>
        List.filter (fun e => (ConvertToRegionPixel ml e.1).1 =? rid (Z.of_nat n) (Z.of_nat k)) E)
      (seq 0 (Z.to_nat n2)))) (seq 0 (Z.to_nat n1)))) E).
  { intros n1 n2 H1 H2.
    transitivity (concat (map (fun n => List.filter (fun e => true && (fa e =? Z.of_nat n)) E)
                    (seq 0 (Z.to_nat n1)))).
    - apply concat_map_perm. intros n Hn. apply in_seq in Hn.
      transitivity (concat (map (fun k => List.filter
          (fun e => (true && (fa e =? Z.of_nat n)) && (fb e =? Z.of_nat k)) E) (seq 0 (Z.to_nat n2)))).
      { apply Permutation_refl'. f_equal. apply map_ext_in. intros k Hk. apply in_seq in Hk.
        apply filter_ext_in. intros e He. apply Hcell; [subst n2; lia|subst n1; lia|exact He]. }
      rewrite concat_filter_seq. apply Permutation_refl'. apply filter_ext_in. intros e He.
      destruct (Hrange e He). unfold fb. subst n2.
      destruct by_row; rewrite Z2Nat.id by lia;
        rewrite (proj2 (Z.leb_le _ _)), (proj2 (Z.ltb_lt _ _)) by lia; rewrite !andb_true_r; reflexivity.
    - rewrite concat_filter_seq. rewrite filter_all; [reflexivity|]. apply Forall_forall.
      intros e He. apply list_elem_of_In in He. destruct (Hrange e He). unfold fa. subst n1.
      rewrite Z2Nat.id by (destruct by_row; lia).
      destruct by_row; rewrite (proj2 (Z.leb_le _ _)), (proj2 (Z.ltb_lt _ _)) by lia; reflexivity. }
  destruct by_row; apply Hperm; reflexivity.
Qed.

End Layout.

Section Chip.
Variable c : PixelMultiRegion.
Hypothesis Hinv : chip_inv c.

Let ml := multi_region_layout c.
Let E := pixels (base_region c).
Let in_region (region_id : Z) := fun e : Pixel * Z => (ConvertToRegionPixel ml e.1).1 =? region_id.

Lemma region_active_eq region_id :
  0 <= region_id < GetNumberOfRegions ml ->
  IsRegionActive c region_id = Ok (existsb (in_region region_id) E).
Proof.
  intros Hid. destruct Hinv as (Hc & HN & HM & Hl & Hs & HF & Hregs). fold ml E in Hc, HN, HM, Hl, Hs, HF, Hregs.
  unfold IsRegionActive. fold ml. destruct (Z.leb_spec (GetNumberOfRegions ml) region_id); [lia|].
  destruct (Z.eqb_spec (GetNumberOfRegions ml) 1) as [Hn1|Hn1].
  - fold E. f_equal. rewrite existsb_filter, filter_all; [reflexivity|].
    apply Forall_forall. intros e He. apply list_elem_of_In in He. rewrite Forall_forall in HF.
    destruct (HF e (proj2 (list_elem_of_In _ _) He)) as [Hin _].
    destruct (convert_back ml Hc HN HM e.1 Hin) as [Hr _]. unfold in_region. apply Z.eqb_eq. lia.
  - destruct (Hregs ltac:(lia)) as [Hlen Hslots].
    rewrite (vat_nth_gen (regions c) region_id None) by lia. cbn [bind]. f_equal.
    pose proof (Hslots region_id Hid) as Hsl. rewrite existsb_filter. fold E.
    destruct (nth (Z.to_nat region_id) (regions c) None) as [r|]; simpl in Hsl.
    + destruct Hsl as (_ & Hne & _). rewrite bool_decide_eq_true_2 by (eexists; reflexivity).
      unfold region_entries in Hne.
      destruct (List.filter _ E) eqn:Ef; [simpl in Hne; congruence|reflexivity].
    + rewrite bool_decide_eq_false_2 by (intros [? ?]; discriminate).
      unfold region_entries in Hsl. apply map_eq_nil in Hsl. fold E in Hsl.
      unfold in_region. rewrite Hsl. reflexivity.
Qed.

Lemma append_region_ok res region_id :
  0 <= region_id < GetNumberOfRegions ml ->
  exists out, append_region c res region_id = Ok out /\
    Permutation out (res ++ List.filter (in_region region_id) E).
Proof.
  intros Hid. pose proof (region_active_eq region_id Hid) as Ha.
  destruct Hinv as (Hc & HN & HM & Hl & Hs & HF & Hregs). fold ml E in Hc, HN, HM, Hl, Hs, HF, Hregs.
  assert (Hback : forall e, In e (List.filter (in_region region_id) E) ->
            ConvertFromRegionPixel ml region_id (ConvertToRegionPixel ml e.1).2 = e.1).
  { intros e He. apply filter_In in He as [He Hr]. apply Z.eqb_eq in Hr.
    rewrite Forall_forall in HF. destruct (HF e (proj2 (list_elem_of_In _ _) He)) as [Hin _].
    rewrite <- Hr. apply convert_back; assumption. }
  destruct (existsb (in_region region_id) E) eqn:Eex.
  2:{ unfold append_region. rewrite Ha. cbn [bind negb]. exists res. split; [reflexivity|].
      rewrite existsb_filter in Eex. destruct (List.filter _ E); [|discriminate].
      rewrite app_nil_r. reflexivity. }
  unfold append_region. rewrite Ha. cbn [bind negb].
  unfold GetRegion. rewrite Ha. cbn [negb bind]. fold ml.
  destruct (Z.eqb_spec (GetNumberOfRegions ml) 1) as [Hn1|Hn1].
  - eexists. split; [reflexivity|]. apply Permutation_app_head. fold E.
    rewrite filter_all.
    + apply Permutation_refl'. transitivity (map (fun x => x) E); [|apply map_id]. apply map_ext_in. intros [p a] He.
      cbn [fst snd]. f_equal.
      rewrite Forall_forall in HF. destruct (HF _ (proj2 (list_elem_of_In _ _) He)) as [Hin _].
      destruct (convert_back ml Hc HN HM p Hin) as [Hr Hfrom].
      replace region_id with (ConvertToRegionPixel ml p).1 by lia.
      (* a single region: region 0, and its pixels are the chip's *)
      destruct (layout_facts ml Hc HN HM)
        as (N & M & R & C & Hb & Hrl & HN1 & HM1 & HR & HC & Hnrr & Hnrc & HNr & HMc & Hregs').
      rewrite Hb, inside_iff in Hin. cbn [n_rows n_columns] in Hin.
      replace (ConvertToRegionPixel ml p).1 with 0 by lia.
      cbn [fst] in Hin. apply convert_from_zero; lia.
    + apply Forall_forall. intros e He. apply list_elem_of_In in He.
      rewrite Forall_forall in HF. destruct (HF e (proj2 (list_elem_of_In _ _) He)) as [Hin _].
      destruct (convert_back ml Hc HN HM e.1 Hin) as [Hr _]. unfold in_region. apply Z.eqb_eq. lia.
  - destruct (Hregs ltac:(lia)) as [Hlen Hslots].
    rewrite (vat_nth_gen (regions c) region_id None) by lia. cbn [bind].
    pose proof (Hslots region_id Hid) as Hsl.
    destruct (nth (Z.to_nat region_id) (regions c) None) as [r|]; simpl in Hsl.
    + destruct Hsl as (_ & _ & Hpr). eexists. split; [reflexivity|]. apply Permutation_app_head.
      fold E. unfold region_entries in Hpr.
      etransitivity; [apply Permutation_map; exact Hpr|]. rewrite map_map.
      apply Permutation_refl'. transitivity (map (fun x => x) (List.filter (in_region region_id) E)); [|apply map_id]. apply map_ext_in.
      intros e He. cbn [fst snd]. rewrite (Hback e He). destruct e; reflexivity.
    + rewrite existsb_filter in Eex. unfold region_entries in Hsl. apply map_eq_nil in Hsl.
      fold E in Hsl. unfold in_region in Eex. rewrite Hsl in Eex. discriminate.
Qed.

End Chip.

Lemma foldM_perm_to {A B} (f : list B -> A -> result (list B)) (g : A -> list B) l acc target :
  (forall res x, In x l -> exists out, f res x = Ok out /\ Permutation out (res ++ g x)) ->
  Permutation (acc ++ concat (map g l)) target ->
  exists out, foldM f l acc = Ok out /\ Permutation out target.
Proof.
  intros H Ht. destruct (foldM_perm f g l acc H) as [out [H1 H2]].
  exists out. split; [exact H1|]. rewrite H2. exact Ht.
Qed.

Lemma sample_chip_built : chip_built sample_chip.
Proof.
  apply (chip_built_add sample_chip1 (mkPixel 9 1) 7).
  - apply (chip_built_add sample_chip0 (mkPixel 5 7) 100).
    + apply (chip_built_make sample_layout).
      * exact GeoExtra.sample_layout_constructed.
      * vm_compute. discriminate.
      * vm_compute. discriminate.
      * vm_compute. reflexivity.
    + vm_compute. reflexivity.
  - vm_compute. reflexivity.
Qed.

(** X10: on a chip the program built, [IsRegionActive] throws for a
    region id past the number of regions, and otherwise tells whether
    some pixel of the chip falls into that region. *)
Theorem IsRegionActive_spec c region_id :
  chip_built c -> 0 <= region_id ->
  IsRegionActive c region_id =
    if GetNumberOfRegions (multi_region_layout c) <=? region_id
    then throw "Invalid region id = %1%."
    else Ok (existsb (fun e => (ConvertToRegionPixel (multi_region_layout c) e.1).1 =? region_id)
                     (pixels (base_region c))).
Proof.
  intros Hb Hid. destruct (Z.leb_spec (GetNumberOfRegions (multi_region_layout c)) region_id).
  - unfold IsRegionActive. destruct (Z.leb_spec (GetNumberOfRegions (multi_region_layout c)) region_id);
      [reflexivity|lia].
  - apply region_active_eq; [apply chip_built_inv; exact Hb|lia].
Qed.

Lemma IsRegionActive_spec_witness :
  IsRegionActive sample_chip 6 = Ok true /\ IsRegionActive sample_chip 7 = Ok false.
Proof.
  split.
  - rewrite (IsRegionActive_spec sample_chip 6 sample_chip_built ltac:(lia)). vm_compute. reflexivity.
  - rewrite (IsRegionActive_spec sample_chip 7 sample_chip_built ltac:(lia)). vm_compute. reflexivity.
Defined.

(** X11: on a chip the program built, [GetOrderedPixels] by region (rows
    or columns of regions first) succeeds and returns each pixel of the
    chip with its ADC value exactly once: a permutation of the chip's
    pixels. *)
Theorem GetOrderedPixels_by_region_perm c ordering :
  chip_built c -> (ordering = ByRegionByRow \/ ordering = ByRegionByColumn) ->
  exists l, GetOrderedPixels c ordering = Ok l /\ Permutation l (pixels (base_region c)).
Proof.
  intros Hb Ho. pose proof (chip_built_inv c Hb) as Hinv.
  pose proof Hinv as (Hc & HN & HM & Hl & Hs & HF & _).
  destruct (layout_facts _ Hc HN HM)
    as (N & M & R & C & Hbm & Hrl & HN1 & HM1 & HR & HC & Hnrr & Hnrc & HNr & HMc & Hregs).
  assert (HFin : Forall (fun e => IsPixelInside (base (multi_region_layout c)) e.1 = true)
                   (pixels (base_region c))).
  { eapply Forall_impl; [exact HF|]. intros x [Hx _]. exact Hx. }
  assert (Hrid : forall a b, 0 <= a -> 0 <= b -> a * n_region_columns (multi_region_layout c) + b <
                   GetNumberOfRegions (multi_region_layout c) ->
             GetRegionId (multi_region_layout c) a b = a * n_region_columns (multi_region_layout c) + b).
  { intros a b Ha Hb' Hlt. unfold GetRegionId. rewrite (sz_small (a * _)) by nia.
    apply sz_small. nia. }
  destruct Ho as [-> | ->]; unfold GetOrderedPixels; cbv beta iota zeta.
  - pose proof (region_grid_perm _ Hc HN HM _ true HFin) as Hg. cbv beta iota zeta in Hg.
    apply (foldM_perm_to _ (fun n => concat (map (fun k => List.filter
        (fun e => (ConvertToRegionPixel (multi_region_layout c) e.1).1 =?
                  Z.of_nat n * n_region_columns (multi_region_layout c) + Z.of_nat k)
        (pixels (base_region c))) (seq 0 (Z.to_nat (n_region_columns (multi_region_layout c))))))
        (seq 0 (Z.to_nat (n_region_rows (multi_region_layout c)))) []);
      [|exact Hg].
    intros res n Hn. apply in_seq in Hn.
    apply foldM_perm. intros res' k Hk. apply in_seq in Hk.
    rewrite Hrid by nia.
    destruct (append_region_ok c Hinv res' (Z.of_nat n * n_region_columns (multi_region_layout c) + Z.of_nat k)
                ltac:(nia)) as [o [Ho Hpo]].
    exists o. split; [exact Ho|exact Hpo].
  - pose proof (region_grid_perm _ Hc HN HM _ false HFin) as Hg. cbv beta iota zeta in Hg.
    apply (foldM_perm_to _ (fun n => concat (map (fun k => List.filter
        (fun e => (ConvertToRegionPixel (multi_region_layout c) e.1).1 =?
                  Z.of_nat k * n_region_columns (multi_region_layout c) + Z.of_nat n)
        (pixels (base_region c))) (seq 0 (Z.to_nat (n_region_rows (multi_region_layout c))))))
        (seq 0 (Z.to_nat (n_region_columns (multi_region_layout c)))) []);
      [|exact Hg].
    intros res n Hn. apply in_seq in Hn.
    apply foldM_perm. intros res' k Hk. apply in_seq in Hk.
    rewrite Hrid by nia.
    destruct (append_region_ok c Hinv res' (Z.of_nat k * n_region_columns (multi_region_layout c) + Z.of_nat n)
                ltac:(nia)) as [o [Ho Hpo]].
    exists o. split; [exact Ho|exact Hpo].
Qed.

Lemma GetOrderedPixels_by_region_perm_witness :
  exists l, GetOrderedPixels sample_chip ByRegionByColumn = Ok l /\
    Permutation l (pixels (base_region sample_chip)).
Proof.
  exact (GetOrderedPixels_by_region_perm sample_chip ByRegionByColumn sample_chip_built (or_intror eq_refl)).
Defined.

End ChipExtra.

(* ------------------------------------------------------------------ *)
(** ** Encoding and decoding one letter *)

Module HuffExtra.
Import Machine Pkg PkgView PkgBits Huff HuffCoder.

Lemma land1_bit x n : 0 <= n -> Z.land (Z.shiftr x n) 1 = Z.b2z (Z.testbit x n).
Proof.
  intros Hn. apply Z.bits_inj'. intros i Hi.
  rewrite Z.land_spec, Z.shiftr_spec by lia.
  destruct (Z.eqb_spec i 0) as [->|Hi0].
  - rewrite Z.add_0_l. destruct (Z.testbit x n); reflexivity.
  - rewrite (Z.bits_above_log2 1 i) by (simpl; lia).
    destruct (Z.testbit x n); simpl; rewrite ?andb_false_r;
      [rewrite Z.bits_above_log2 by (simpl; lia)|rewrite Z.bits_0]; reflexivity.
Qed.

Lemma encode_loop_spec fuel c n p :
  wf p -> 0 <= n -> Z.of_nat fuel = n_bits c - n ->
  exists d', encode_loop fuel c n p =
      (mkPackage d' (begin_pos p) (end_pos p + Z.of_nat fuel) (readout_positions p), None) /\
    wfd d' (end_pos p + Z.of_nat fuel) /\
    (forall i, 0 <= i < end_pos p -> bit_at d' i = bit_at (data p) i) /\
    (forall j, 0 <= j < Z.of_nat fuel -> bit_at d' (end_pos p + j) = Z.testbit (code c) (n + j)).
Proof.
  revert n p. induction fuel as [|fuel IH]; intros n p Hwf Hn Hf;
    pose proof Hwf as Hw0; unfold wf, wfd in Hw0; destruct Hw0 as [He0 _].
  - exists (data p). destruct p as [d b e r]. cbn. rewrite Z.add_0_r.
    split; [reflexivity|split; [exact Hwf|split; [reflexivity|intros; lia]]].
  - cbn [encode_loop]. destruct (Z.ltb_spec n (n_bits c)) as [_|]; [|lia].
    rewrite land1_bit by lia.
    assert (Hv : 0 <= Z.b2z (Z.testbit (code c) n) < 2 ^ 1) by (destruct (Z.testbit _ _); simpl; lia).
    destruct (write_spec p _ 1 Hwf ltac:(lia) Hv) as [d1 [Hw [Hwf1 [Hpre1 Hbit1]]]].
    rewrite Hw.
    destruct (IH (n + 1) (mkPackage d1 (begin_pos p) (end_pos p + 1) (readout_positions p))
                Hwf1 ltac:(lia) ltac:(lia)) as [d' [Hl [Hwf' [Hpre' Hbit']]]].
    cbn [begin_pos end_pos readout_positions data] in *.
    exists d'. rewrite Hl. replace (end_pos p + Z.of_nat (S fuel)) with (end_pos p + 1 + Z.of_nat fuel) by lia.
    split; [reflexivity|split; [exact Hwf'|split]].
    + intros i Hi. rewrite Hpre' by lia. apply Hpre1. exact Hi.
    + intros j Hj. destruct (Z.eqb_spec j 0) as [->|Hj0].
      * rewrite Hpre' by lia. rewrite Hbit1 by lia. rewrite Z.add_0_r.
        replace (1 - 1 - 0) with 0 by lia. destruct (Z.testbit (code c) n); reflexivity.
      * replace (end_pos p + j) with (end_pos p + 1 + (j - 1)) by lia.
        rewrite Hbit' by lia. f_equal. lia.
Qed.

Lemma append_bit_mod v k :
  0 <= k < 64 -> Append (mkHuffmanCode (v mod 2 ^ k) k) (Z.testbit v k) =
                 Ok (mkHuffmanCode (v mod 2 ^ (k + 1)) (k + 1)).
Proof.
  intros Hk. unfold Append, MaxNumberOfBits. cbn [n_bits code].
  destruct (Z.gtb_spec (k + 1) 64); [lia|].
  assert (Hp : 2 ^ k < 2 ^ 64) by (apply Z.pow_lt_mono_r; lia).
  assert (Hp1 : 2 ^ (k + 1) <= 2 ^ 64) by (apply Z.pow_le_mono_r; lia).
  assert (Hs : sz (Z.shiftl (Z.b2z (Z.testbit v k)) k) = Z.b2z (Z.testbit v k) * 2 ^ k).
  { destruct (Z.testbit v k); cbn [Z.b2z].
    - rewrite Z.shiftl_1_l, sz_small by lia. lia.
    - rewrite Z.shiftl_0_l. reflexivity. }
  rewrite Hs.
  assert (Hl : Z.lor (Z.b2z (Z.testbit v k) * 2 ^ k) (v mod 2 ^ k) = v mod 2 ^ (k + 1)).
  { apply Z.bits_inj'. intros i Hi. rewrite Z.lor_spec.
    destruct (Z.testbit v k) eqn:Ev; cbn [Z.b2z]; rewrite ?Z.mul_1_l, ?Z.mul_0_l, ?Z.bits_0;
      [rewrite Z.pow2_bits_eqb by lia|]; cbn [orb];
      (destruct (Z.ltb_spec i k);
       [rewrite !Z.mod_pow2_bits_low by lia|
        rewrite (Z.mod_pow2_bits_high v k i) by lia;
        destruct (Z.ltb_spec i (k + 1));
        [rewrite Z.mod_pow2_bits_low by lia|rewrite Z.mod_pow2_bits_high by lia]]);
      try (replace i with k in * by lia; rewrite ?Ev, ?Z.eqb_refl; reflexivity).
    - destruct (Z.eqb_spec k i); [lia|reflexivity].
    - rewrite (proj2 (Z.eqb_neq k i)) by lia. reflexivity.
    - destruct (Z.eqb_spec k i); [lia|reflexivity].
    - reflexivity. }
  assert (Hpos : 0 < 2 ^ (k + 1)) by (apply Z.pow_pos_nonneg; lia).
  pose proof (Z.mod_pos_bound v (2 ^ (k + 1)) Hpos).
  rewrite Hl, (sz_small (v mod _)), (sz_small (k + 1)) by lia.
  reflexivity.
Qed.

Lemma read_one q pos :
  wf q -> 0 <= pos -> pos + 1 <= end_pos q -> end_pos q < 2 ^ 64 ->
  read q pos 1 false = Ok (Z.b2z (bit_at (data q) pos), pos + 1).
Proof.
  intros Hwf Hp Hq Hq2. rewrite read_spec by (assumption || lia).
  change (Z.to_nat 1) with 1%nat. cbn [bits_msb]. change (2 ^ Z.of_nat 0) with 1.
  rewrite Z.mul_1_r, Z.add_0_r. reflexivity.
Qed.

Lemma table_ok_spec t : table_ok t = true ->
  (forall e, In e t -> code_ok e.2 = true) /\
  (forall e1 e2, In e1 t -> In e2 t -> prefix_of e1.2 e2.2 = false) /\
  (forall e1 e2, In e1 t -> In e2 t -> e1.2 = e2.2 -> e1.1 = e2.1).
Proof.
  unfold table_ok. intros H. apply andb_prop in H as [H1 H2].
  rewrite forallb_forall in H1, H2. split; [exact H1|split].
  - intros e1 e2 He1 He2. specialize (H2 e1 He1). rewrite forallb_forall in H2.
    specialize (H2 e2 He2). apply andb_prop in H2 as [H _]. destruct (prefix_of _ _); [discriminate|reflexivity].
  - intros e1 e2 He1 He2 Heq. specialize (H2 e1 He1). rewrite forallb_forall in H2.
    specialize (H2 e2 He2). apply andb_prop in H2 as [_ H]. rewrite Heq in H.
    destruct e2 as [l2 [c2 n2]]. unfold code_eqb in H. cbn in H. rewrite !Z.eqb_refl in H.
    cbn in H. apply Z.eqb_eq in H. exact H.
Qed.

Section Decode.
Variable s : Statistics.
Variable letter : Z.
Variable c : HuffmanCode.
Hypothesis Htab : table_ok (huffman_table s) = true.
Hypothesis Hin : In (letter, c) (huffman_table s).
Variable q : Package.
Variable pos : Z.
Hypothesis Hwf : wf q.
Hypothesis Hpos : 0 <= pos.
Hypothesis Hend : pos + n_bits c <= end_pos q.
Hypothesis Hend64 : end_pos q < 2 ^ 64.
Hypothesis Hbits : forall j, 0 <= j < n_bits c -> bit_at (data q) (pos + j) = Z.testbit (code c) j.

Lemma decode_from fuel k :
  0 <= k < n_bits c -> n_bits c - k <= Z.of_nat fuel ->
  decode_loop fuel s q (mkHuffmanCode (code c mod 2 ^ k) k) (pos + k) = Ok (letter, pos + n_bits c).
Proof.
  destruct (table_ok_spec _ Htab) as (Hok & Hpf & Huniq).
  pose proof (Hok _ Hin) as Hc. unfold code_ok in Hc. cbn [snd] in Hc.
  repeat rewrite andb_true_iff in Hc. destruct Hc as [[[Hc1 Hc2] Hc3] Hc4].
  apply Z.leb_le in Hc1, Hc2, Hc3. apply Z.ltb_lt in Hc4.
  revert k. induction fuel as [|fuel IH]; intros k Hk Hf; [lia|].
  cbn [decode_loop]. rewrite read_one by (assumption || lia). cbn [bind].
  rewrite Hbits by lia.
  replace (negb (Z.b2z (Z.testbit (code c) k) =? 0)) with (Z.testbit (code c) k)
    by (destruct (Z.testbit _ _); reflexivity).
  rewrite append_bit_mod by lia. cbn [bind].
  unfold GetLetterFromHuffmanCode.
  destruct (Z.eqb_spec (k + 1) (n_bits c)) as [Hlast|Hmid].
  - rewrite Hlast, (Z.mod_small (code c)) by lia.
    destruct (List.find (fun e => code_eqb e.2 (mkHuffmanCode (code c) (n_bits c))) (huffman_table s))
      as [e|] eqn:Ef.
    + apply List.find_some in Ef as [He Heq]. apply HuffClaims.code_eqb_true in Heq.
      destruct c as [cv cn]. cbn in Heq.
      rewrite (Huniq e (letter, mkHuffmanCode cv cn) He Hin Heq). f_equal. f_equal. cbn in *. lia.
    + exfalso. pose proof (List.find_none _ _ Ef _ Hin) as H. cbn in H.
      destruct c as [cv cn]. unfold code_eqb in H. cbn in H. rewrite !Z.eqb_refl in H. discriminate.
  - destruct (List.find (fun e => code_eqb e.2 (mkHuffmanCode (code c mod 2 ^ (k + 1)) (k + 1)))
                (huffman_table s)) as [e|] eqn:Ef.
    + exfalso. apply List.find_some in Ef as [He Heq]. apply HuffClaims.code_eqb_true in Heq.
      pose proof (Hpf e (letter, c) He Hin) as H. rewrite Heq in H. unfold prefix_of in H. cbn in H.
      destruct (Z.ltb_spec (k + 1) (n_bits c)); [|lia]. cbn in H.
      rewrite Z.eqb_refl in H. discriminate.
    + replace (pos + k + 1) with (pos + (k + 1)) by lia. apply IH; lia.
Qed.

End Decode.

Lemma encode_decode_letter s letter p :
  table_ok (huffman_table s) = true -> In letter (alphabet s) ->
  In letter (map fst (huffman_table s)) -> wf p -> end_pos p + 64 < 2 ^ 64 ->
  exists c p', GetHuffmanCode s letter = Ok c /\ EncodeLetter s letter p = (p', None) /\
    end_pos p' = end_pos p + n_bits c /\ wf p' /\
    (forall i, 0 <= i < end_pos p -> bit_at (data p') i = bit_at (data p) i) /\
    forall q, wf q -> end_pos p' <= end_pos q < 2 ^ 64 ->
      (forall i, 0 <= i < end_pos p' -> bit_at (data q) i = bit_at (data p') i) ->
      DecodeLetter s q (end_pos p) = Ok (letter, end_pos p').
Proof.
  intros Htab Hal Hl Hwf H64.
  assert (Hcheck : CheckLetter s letter = Ok tt).
  { unfold CheckLetter. replace (existsb _ _) with true; [reflexivity|].
    symmetry. apply existsb_exists. exists letter. split; [exact Hal|apply Z.eqb_refl]. }
  destruct (List.find (fun e => e.1 =? letter) (huffman_table s)) as [[l c]|] eqn:Ef.
  2:{ exfalso. apply in_map_iff in Hl as [[l c] [Hlc Hin]]. cbn in Hlc. subst l.
      pose proof (List.find_none _ _ Ef _ Hin) as H. cbn in H. rewrite Z.eqb_refl in H. discriminate. }
  apply List.find_some in Ef as Hf. destruct Hf as [Hin Hlt]. cbn in Hlt. apply Z.eqb_eq in Hlt. subst l.
  assert (Hget : GetHuffmanCode s letter = Ok c) by (unfold GetHuffmanCode; rewrite Hcheck; cbn; rewrite Ef; reflexivity).
  destruct (table_ok_spec _ Htab) as (Hok & _ & _).
  pose proof (Hok _ Hin) as Hc. unfold code_ok in Hc. cbn [snd] in Hc.
  repeat rewrite andb_true_iff in Hc. destruct Hc as [[[Hc1 Hc2] Hc3] Hc4].
  apply Z.leb_le in Hc1, Hc2, Hc3. apply Z.ltb_lt in Hc4.
  destruct (encode_loop_spec (Z.to_nat (n_bits c)) c 0 p Hwf ltac:(lia) ltac:(lia))
    as [d' [Henc [Hwf' [Hpre Hbits]]]].
  rewrite Z2Nat.id in Henc, Hwf', Hbits by lia.
  exists c, (mkPackage d' (begin_pos p) (end_pos p + n_bits c) (readout_positions p)).
  split; [exact Hget|split; [unfold EncodeLetter; rewrite Hget; exact Henc|]].
  cbn [end_pos data]. split; [reflexivity|split; [exact Hwf'|split; [exact Hpre|]]].
  intros q Hq [Hq1 Hq2] Hagree.
  pose proof Hwf as Hw0. unfold wf, wfd in Hw0. destruct Hw0 as [Hp0 _].
  unfold DecodeLetter.
  replace code0 with (mkHuffmanCode (code c mod 2 ^ 0) 0) by (rewrite Z.pow_0_r, Z.mod_1_r; reflexivity).
  rewrite <- (Z.add_0_r (end_pos p)) at 1.
  apply (decode_from s letter c Htab Hin q (end_pos p)); try (assumption || lia).
  intros j Hj. rewrite Hagree by lia. rewrite Hbits by lia. reflexivity.
Qed.

(** X12: with a table the decoder can read back, [EncodeLetter] of a letter
    of the alphabet that has a code appends exactly the code's bits to a
    package, and [DecodeLetter] from where it started returns that letter
    and stops right after the code, also in any longer package that keeps
    these bits. *)
Theorem EncodeLetter_DecodeLetter s letter p :
  table_ok (huffman_table s) = true -> In letter (alphabet s) ->
  In letter (map fst (huffman_table s)) -> built p -> end_pos p + 64 < 2 ^ 64 ->
  exists c p', GetHuffmanCode s letter = Ok c /\ EncodeLetter s letter p = (p', None) /\
    end_pos p' = end_pos p + n_bits c /\ wf p' /\
    (forall i, 0 <= i < end_pos p -> bit_at (data p') i = bit_at (data p) i) /\
    forall q, wf q -> end_pos p' <= end_pos q < 2 ^ 64 ->
      (forall i, 0 <= i < end_pos p' -> bit_at (data q) i = bit_at (data p') i) ->
      DecodeLetter s q (end_pos p) = Ok (letter, end_pos p').
Proof.
  intros Htab Hal Hl Hb H64. exact (encode_decode_letter s letter p Htab Hal Hl (built_wf p Hb) H64).
Qed.

Lemma EncodeLetter_DecodeLetter_witness :
  exists c p', GetHuffmanCode sample_statistics 2 = Ok c /\
    EncodeLetter sample_statistics 2 (fst (write empty 5 3)) = (p', None) /\
    end_pos p' = end_pos (fst (write empty 5 3)) + n_bits c /\ wf p' /\
    (forall i, 0 <= i < end_pos (fst (write empty 5 3)) ->
       bit_at (data p') i = bit_at (data (fst (write empty 5 3))) i) /\
    forall q, wf q -> end_pos p' <= end_pos q < 2 ^ 64 ->
      (forall i, 0 <= i < end_pos p' -> bit_at (data q) i = bit_at (data p') i) ->
      DecodeLetter sample_statistics q (end_pos (fst (write empty 5 3))) = Ok (2, end_pos p').
Proof.
  apply EncodeLetter_DecodeLetter.
  - vm_compute. reflexivity.
  - simpl. tauto.
  - simpl. tauto.
  - apply built_write; [apply built_empty|lia|lia].
  - vm_compute. reflexivity.
Defined.

Lemma Append_bits c b c' : 0 <= n_bits c -> Append c b = Ok c' -> n_bits c' = n_bits c + 1.
Proof.
  intros Hn. unfold Append, MaxNumberOfBits.
  destruct (Z.gtb_spec (n_bits c + 1) 64); [discriminate|].
  intros HA. injection HA as <-. cbn [n_bits]. apply sz_small. lia.
Qed.

Lemma decode_loop_empty_code fuel s l q c pos :
  huffman_table s = [(l, code0)] -> 0 <= n_bits c ->
  exists e, decode_loop fuel s q c pos = Err e.
Proof.
  intros Ht. revert c pos. induction fuel as [|fuel IH]; intros c pos Hn; cbn [decode_loop].
  - eexists. reflexivity.
  - destruct (read q pos 1 false) as [[bit pos']|e]; cbn [bind]; [|eexists; reflexivity].
    destruct (Append c (negb (bit =? 0))) as [c'|e] eqn:Ea; cbn [bind]; [|eexists; reflexivity].
    apply Append_bits in Ea; [|exact Hn].
    unfold GetLetterFromHuffmanCode. rewrite Ht. cbn [List.find snd].
    replace (code_eqb code0 c') with false.
    + apply IH. lia.
    + unfold code_eqb. cbn [code n_bits code0]. rewrite (proj2 (Z.eqb_neq 0 (n_bits c'))) by lia.
      rewrite andb_false_r. reflexivity.
Qed.

(** X13: for a frequency map with a single letter, the Huffman table gives
    that letter the empty code (0 bits).  With that table, [EncodeLetter]
    writes nothing for the letter, and [DecodeLetter] never returns a
    letter: it throws on every package and position. *)
Theorem single_letter_code_empty pop_top l f :
  HuffmanTree pop_top {[l := f]} = Ok [(l, code0)] /\
  (forall alph p, In l alph ->
     EncodeLetter (mkStatistics alph [(l, code0)]) l p = (p, None)) /\
  (forall alph q pos, exists e,
     DecodeLetter (mkStatistics alph [(l, code0)]) q pos = Err e).
Proof.
  split; [|split].
  - unfold HuffmanTree, map_entries. rewrite map_to_list_singleton. reflexivity.
  - intros alph p Hl. unfold EncodeLetter, GetHuffmanCode, CheckLetter. cbn [alphabet huffman_table].
    replace (existsb (Z.eqb l) alph) with true.
    + cbn. rewrite Z.eqb_refl. reflexivity.
    + symmetry. apply existsb_exists. exists l. split; [exact Hl|apply Z.eqb_refl].
  - intros alph q pos. unfold DecodeLetter.
    apply (decode_loop_empty_code 65 _ l); [reflexivity|cbn; lia].
Qed.

End HuffExtra.

(* ------------------------------------------------------------------ *)
(** * DictionaryBuilder: the delta letters of the ordered pixels *)

Module DictExtra.
Import Machine Geo Prod Dict.

Section Deltas.
Variable layout : RegionLayout.
Hypothesis Hr : 1 <= n_rows layout <= 2 ^ 15.
Hypothesis Hc : 1 <= n_columns layout <= 2 ^ 15.

Definition delta_letter (previous_pixel pixel : Pixel) : Z :=
  ((row pixel - row previous_pixel) mod n_rows layout) * n_columns layout
  + (column pixel - column previous_pixel) mod n_columns layout.

Lemma pixel_inside_bounds p :
  IsPixelInside layout p = true ->
  0 <= row p < n_rows layout /\ 0 <= column p < n_columns layout.
Proof.
  unfold IsPixelInside. intros H.
  repeat rewrite andb_true_iff in H. rewrite !Z.leb_le, !Z.ltb_lt in H. lia.
Qed.

Lemma delta_mod (x px n : Z) :
  1 <= n <= 2 ^ 15 -> 0 <= x < n -> 0 <= px < n ->
  sz (sz (sz x + n) - sz px) mod n = (x - px) mod n.
Proof.
  intros Hn Hx Hp.
  rewrite (sz_small x), (sz_small px), (sz_small (x + n)), (sz_small (x + n - px)) by lia.
  replace (x + n - px) with (x - px + 1 * n) by lia.
  apply Z.mod_add. lia.
Qed.

Lemma process_pixel_inside a d prev pixel adc :
  IsPixelInside layout prev = true -> IsPixelInside layout pixel = true ->
  process_pixel layout (a, d, prev) (pixel, adc)
  = Ok (AddCount a adc, AddCount d (delta_letter prev pixel), pixel).
Proof.
  intros Hp Hx. apply pixel_inside_bounds in Hp, Hx.
  unfold process_pixel. cbn [fst snd].
  rewrite !delta_mod by lia.
  pose proof (Z.mod_pos_bound (row pixel - row prev) (n_rows layout) ltac:(lia)) as Hdr.
  pose proof (Z.mod_pos_bound (column pixel - column prev) (n_columns layout) ltac:(lia)) as Hdc.
  rewrite !to_i16_small by lia.
  unfold GetPixelId, CheckPixel. cbn [row column].
  destruct ((_ mod n_rows layout <? 0) || (n_rows layout <=? _ mod n_rows layout)) eqn:E1.
  { exfalso. rewrite orb_true_iff, Z.ltb_lt, Z.leb_le in E1. lia. }
  destruct ((_ mod n_columns layout <? 0) || (n_columns layout <=? _ mod n_columns layout)) eqn:E2.
  { exfalso. rewrite orb_true_iff, Z.ltb_lt, Z.leb_le in E2. lia. }
  cbn [bind].
  assert (Hm : 0 <= (row pixel - row prev) mod n_rows layout * n_columns layout
               <= (n_rows layout - 1) * n_columns layout) by nia.
  rewrite (sz_small ((row pixel - row prev) mod n_rows layout)),
    (sz_small ((column pixel - column prev) mod n_columns layout)) by lia.
  rewrite sz_small by nia.
  assert (Hn : n_rows layout * n_columns layout <= 2 ^ 15 * 2 ^ 15) by nia.
  unfold to_int, delta_letter.
  assert (Hs : (row pixel - row prev) mod n_rows layout * n_columns layout
               + (column pixel - column prev) mod n_columns layout
               < n_rows layout * n_columns layout) by nia.
  rewrite (Z.mod_small (_ + 2 ^ 31) (2 ^ 32)), Z.add_simpl_r by lia. reflexivity.
Qed.

Lemma delta_letter_bounds prev pixel :
  0 <= delta_letter prev pixel < n_rows layout * n_columns layout.
Proof.
  unfold delta_letter.
  pose proof (Z.mod_pos_bound (row pixel - row prev) (n_rows layout) ltac:(lia)).
  pose proof (Z.mod_pos_bound (column pixel - column prev) (n_columns layout) ltac:(lia)).
  nia.
Qed.

Lemma delta_letter_decode prev pixel :
  IsPixelInside layout pixel = true ->
  mkPixel ((row prev + delta_letter prev pixel / n_columns layout) mod n_rows layout)
          ((column prev + delta_letter prev pixel mod n_columns layout) mod n_columns layout)
  = pixel.
Proof.
  intros Hx. apply pixel_inside_bounds in Hx.
  pose proof (Z.mod_pos_bound (column pixel - column prev) (n_columns layout) ltac:(lia)).
  unfold delta_letter.
  rewrite Z.div_add_l, Z.div_small, Z.add_0_r by lia.
  rewrite (Z.add_comm (_ * n_columns layout)), Z.mod_add, (Z.mod_small ((column pixel - column prev) mod n_columns layout))
    by lia.
  rewrite !Z.add_mod_idemp_r by lia.
  replace (row prev + (row pixel - row prev)) with (row pixel) by lia.
  replace (column prev + (column pixel - column prev)) with (column pixel) by lia.
  rewrite !Z.mod_small by lia. destruct pixel; reflexivity.
Qed.

Lemma process_loop_inside ordered a d prev :
  IsPixelInside layout prev = true ->
  Forall (fun e => IsPixelInside layout e.1 = true) ordered ->
  exists letters last,
    process_loop layout ordered (a, d, prev)
    = Ok (fold_left AddCount (map snd ordered) a, fold_left AddCount letters d, last) /\
    Forall (fun x => 0 <= x < GetNumberOfPixels layout) letters /\
    delta_decode layout prev letters = map fst ordered.
Proof.
  intros Hp Hall. revert a d prev Hp.
  induction Hall as [|[pixel adc] rest Hx Hrest IH]; intros a d prev Hp.
  - exists [], prev. repeat split; constructor.
  - cbn [fst] in Hx. cbn [process_loop].
    rewrite process_pixel_inside by assumption. cbn [bind].
    destruct (IH (AddCount a adc) (AddCount d (delta_letter prev pixel)) pixel Hx)
      as (letters & last & Hl & Hb & Hd).
    exists (delta_letter prev pixel :: letters), last. split; [|split].
    + rewrite Hl. reflexivity.
    + constructor; [|exact Hb].
      pose proof (delta_letter_bounds prev pixel).
      unfold GetNumberOfPixels. rewrite sz_small by nia. lia.
    + cbn [delta_decode map fst]. rewrite delta_letter_decode by assumption.
      rewrite Hd. reflexivity.
Qed.

End Deltas.

(** X14: for a region layout of at most 2^15 rows and columns and ordered
    pixels inside it, [ProcessOrderedPixels] never throws: it counts every
    adc in [active_adc_prod] and one delta letter per pixel in
    [delta_row_column_prod]; the letters lie in [0, GetNumberOfPixels()),
    and the pixel positions are recovered from them by stepping from
    pixel (0, 0) by letter / n_columns rows and letter mod n_columns
    columns, modulo the layout. *)
Theorem ProcessOrderedPixels_deltas layout ordered active_adc_prod delta_row_column_prod :
  1 <= n_rows layout <= 2 ^ 15 -> 1 <= n_columns layout <= 2 ^ 15 ->
  Forall (fun e => IsPixelInside layout e.1 = true) ordered ->
  exists letters,
    ProcessOrderedPixels layout ordered active_adc_prod delta_row_column_prod
    = Ok (fold_left AddCount (map snd ordered) active_adc_prod,
          fold_left AddCount letters delta_row_column_prod) /\
    Forall (fun x => 0 <= x < GetNumberOfPixels layout) letters /\
    delta_decode layout (mkPixel 0 0) letters = map fst ordered.
Proof.
  intros Hr Hc Hall.
  assert (H0 : IsPixelInside layout (mkPixel 0 0) = true).
  { unfold IsPixelInside. cbn [row column]. apply andb_true_iff; split;
      [apply andb_true_iff; split; [apply andb_true_iff; split|]|];
      first [apply Z.leb_le | apply Z.ltb_lt]; lia. }
  destruct (process_loop_inside layout Hr Hc ordered active_adc_prod delta_row_column_prod
              (mkPixel 0 0) H0 Hall) as (letters & last & Hl & Hb & Hd).
  exists letters. split; [|split; assumption].
  unfold ProcessOrderedPixels. rewrite Hl. reflexivity.
Qed.

Lemma ProcessOrderedPixels_deltas_witness :
  exists letters,
    ProcessOrderedPixels (mkRegionLayout 4 3) [(mkPixel 2 1, 9); (mkPixel 0 2, 5)]
      (make_with_alphabet "active_adc" [1; 2]) (make_with_alphabet "delta_row_column" [0])
    = Ok (fold_left AddCount [9; 5] (make_with_alphabet "active_adc" [1; 2]),
          fold_left AddCount letters (make_with_alphabet "delta_row_column" [0])) /\
    Forall (fun x => 0 <= x < GetNumberOfPixels (mkRegionLayout 4 3)) letters /\
    delta_decode (mkRegionLayout 4 3) (mkPixel 0 0) letters = [mkPixel 2 1; mkPixel 0 2].
Proof.
  apply (ProcessOrderedPixels_deltas (mkRegionLayout 4 3) [(mkPixel 2 1, 9); (mkPixel 0 2, 5)]).
  - cbn. lia.
  - cbn. lia.
  - repeat constructor.
Defined.

Lemma delta_decode_length layout p letters :
  length (delta_decode layout p letters) = length letters.
Proof.
  revert p. induction letters as [|x l IH]; intros p; cbn [delta_decode length]; [reflexivity|].
  f_equal. apply IH.
Qed.

Lemma to_int_small x : - 2 ^ 31 <= x < 2 ^ 31 -> to_int x = x.
Proof. intros H. unfold to_int. rewrite Z.mod_small by lia. lia. Qed.

Lemma alphabet_lookup (al : list Z) (m : gmap Z Z) x :
  is_Some (foldl (fun m l => <[l := 0]> m) m al !! x) <-> is_Some (m !! x) \/ In x al.
Proof.
  revert m. induction al as [|y al IH]; intros m; cbn [foldl].
  - cbn [In]. tauto.
  - rewrite IH. cbn [In]. rewrite lookup_insert_is_Some'. intuition congruence.
Qed.

Lemma CreateProducer_lookup nm n x :
  0 <= n < 2 ^ 31 ->
  is_Some (letter_frequencies (CreateProducer nm 0 n) !! x) <-> 0 <= x < n.
Proof.
  intros Hn. unfold CreateProducer, make_with_alphabet. cbn [letter_frequencies].
  rewrite alphabet_lookup, lookup_empty, Z.sub_0_r, (Z.mod_small n) by lia.
  rewrite in_map_iff. split.
  - intros [[? Hs] | (i & Hi & Hin)]; [discriminate|].
    apply in_seq in Hin. rewrite to_int_small in Hi by lia. lia.
  - intros Hx. right. exists (Z.to_nat x). split.
    + rewrite to_int_small; lia.
    + apply in_seq. lia.
Qed.

Lemma AddCount_lookup p y x :
  is_Some (letter_frequencies (AddCount p y) !! x)
  <-> is_Some (letter_frequencies p !! x) \/ (IntegerLimitIsReached p = false /\ x = y).
Proof.
  unfold AddCount. destruct (IntegerLimitIsReached p).
  - intuition discriminate.
  - cbn [letter_frequencies]. rewrite lookup_insert_is_Some'. intuition.
Qed.

Lemma fold_AddCount_dom (S : Z -> Prop) letters p :
  (forall x, is_Some (letter_frequencies p !! x) <-> S x) -> Forall S letters ->
  forall x, is_Some (letter_frequencies (fold_left AddCount letters p) !! x) <-> S x.
Proof.
  intros Hp Hl. revert p Hp. induction Hl as [|y l Hy Hl IH]; intros p Hp; cbn [fold_left].
  - exact Hp.
  - apply IH. intros x. rewrite AddCount_lookup, Hp. intuition congruence.
Qed.

Lemma fold_AddCount_counts letters p :
  0 <= n_counts p -> n_counts p + Z.of_nat (length letters) <= IntegerMax ->
  n_counts (fold_left AddCount letters p) = n_counts p + Z.of_nat (length letters).
Proof.
  revert p. induction letters as [|y l IH]; intros p H0 Hb; cbn [fold_left length] in *.
  - lia.
  - assert (Hc : n_counts (AddCount p y) = n_counts p + 1).
    { unfold AddCount, IntegerLimitIsReached.
      destruct (n_counts p =? IntegerMax) eqn:E.
      - apply Z.eqb_eq in E. unfold IntegerMax in *. lia.
      - cbn [n_counts]. unfold IntegerMax in *. apply sz_small. lia. }
    rewrite IH; rewrite Hc; lia.
Qed.

(** X15: with [delta_row_column_prod] created as in the [DictionaryBuilder]
    constructor, [CreateProducer("delta_row_column", 0,
    GetNumberOfPixels())], processing pixels inside a layout of at most
    2^15 rows and columns never extends its alphabet: afterwards its
    letters are exactly [0, GetNumberOfPixels()), and its count has grown
    by one per pixel (while below the integer limit). *)
Theorem delta_row_column_alphabet_kept layout ordered active_adc_prod :
  1 <= n_rows layout <= 2 ^ 15 -> 1 <= n_columns layout <= 2 ^ 15 ->
  Forall (fun e => IsPixelInside layout e.1 = true) ordered ->
  Z.of_nat (length ordered) <= IntegerMax ->
  exists active_adc_prod' delta_row_column_prod',
    ProcessOrderedPixels layout ordered active_adc_prod
      (CreateProducer "delta_row_column" 0 (to_int (GetNumberOfPixels layout)))
    = Ok (active_adc_prod', delta_row_column_prod') /\
    (forall x, is_Some (letter_frequencies delta_row_column_prod' !! x)
               <-> 0 <= x < GetNumberOfPixels layout) /\
    n_counts delta_row_column_prod' = Z.of_nat (length ordered).
Proof.
  intros Hr Hc Hall Hlen.
  assert (HN : GetNumberOfPixels layout = n_rows layout * n_columns layout).
  { unfold GetNumberOfPixels. apply sz_small. nia. }
  assert (HN' : 0 <= GetNumberOfPixels layout < 2 ^ 31) by nia.
  rewrite (to_int_small (GetNumberOfPixels layout)) by lia.
  assert (H0 : IsPixelInside layout (mkPixel 0 0) = true).
  { unfold IsPixelInside. cbn [row column]. apply andb_true_iff; split;
      [apply andb_true_iff; split; [apply andb_true_iff; split|]|];
      first [apply Z.leb_le | apply Z.ltb_lt]; lia. }
  set (D := CreateProducer "delta_row_column" 0 (GetNumberOfPixels layout)).
  destruct (process_loop_inside layout Hr Hc ordered active_adc_prod D (mkPixel 0 0) H0 Hall)
    as (letters & last & Hl & Hb & Hd).
  assert (Hlen' : length letters = length ordered).
  { rewrite <- (length_map fst ordered), <- Hd. symmetry. apply delta_decode_length. }
  exists (fold_left AddCount (map snd ordered) active_adc_prod), (fold_left AddCount letters D).
  split; [|split].
  - unfold ProcessOrderedPixels. rewrite Hl. reflexivity.
  - apply fold_AddCount_dom; [|exact Hb].
    intros x. apply CreateProducer_lookup. exact HN'.
  - rewrite fold_AddCount_counts, Hlen'; subst D; cbn [CreateProducer make_with_alphabet n_counts];
      unfold CreateProducer, make_with_alphabet; cbn [n_counts]; lia.
Qed.

Lemma delta_row_column_alphabet_kept_witness :
  exists active_adc_prod' delta_row_column_prod',
    ProcessOrderedPixels (mkRegionLayout 4 3) [(mkPixel 2 1, 9); (mkPixel 0 2, 5)]
      (CreateProducer "active_adc" 1 16)
      (CreateProducer "delta_row_column" 0 (to_int (GetNumberOfPixels (mkRegionLayout 4 3))))
    = Ok (active_adc_prod', delta_row_column_prod') /\
    (forall x, is_Some (letter_frequencies delta_row_column_prod' !! x)
               <-> 0 <= x < GetNumberOfPixels (mkRegionLayout 4 3)) /\
    n_counts delta_row_column_prod' = 2.
Proof.
  apply (delta_row_column_alphabet_kept (mkRegionLayout 4 3)
           [(mkPixel 2 1, 9); (mkPixel 0 2, 5)] (CreateProducer "active_adc" 1 16)).
  - cbn. lia.
  - cbn. lia.
  - repeat constructor.
  - unfold IntegerMax. cbn. lia.
Defined.

End DictExtra.

(* ------------------------------------------------------------------ *)
(** * DeltaPackageMaker: the escaped letter coder *)

Module DeltaExtra.
Import Machine Pkg PkgView PkgBits Huff HuffCoder HuffExtra.

Lemma bits_msb_agree d d' pos m :
  (forall j, 0 <= j < Z.of_nat m -> bit_at d (pos + j) = bit_at d' (pos + j)) ->
  bits_msb d pos m = bits_msb d' pos m.
Proof.
  revert pos. induction m as [|m IH]; intros pos H; cbn [bits_msb]; [reflexivity|].
  rewrite Nat2Z.inj_succ in H.
  rewrite <- (Z.add_0_r pos) at 1 2. rewrite H by lia. rewrite Z.add_0_r. f_equal.
  apply IH. intros j Hj. replace (pos + 1 + j) with (pos + (j + 1)) by lia. apply H. lia.
Qed.

Lemma in_alphabet_existsb s letter :
  existsb (Z.eqb letter) (alphabet s) = true <-> In letter (alphabet s).
Proof.
  rewrite existsb_exists. split.
  - intros [x [Hx He]]. apply Z.eqb_eq in He. subst. exact Hx.
  - intros H. exists letter. split; [exact H|apply Z.eqb_refl].
Qed.

Lemma GetHuffmanCode_bits s letter c :
  table_ok (huffman_table s) = true -> GetHuffmanCode s letter = Ok c -> 1 <= n_bits c <= 64.
Proof.
  intros Htab Hget. unfold GetHuffmanCode in Hget.
  destruct (CheckLetter s letter); cbn [bind] in Hget; [|discriminate].
  destruct (List.find _ _) as [e|] eqn:Ef; [|discriminate]. injection Hget as <-.
  apply List.find_some in Ef as [He _].
  destruct (table_ok_spec _ Htab) as (Hok & _ & _). pose proof (Hok e He) as Hce.
  unfold code_ok in Hce. repeat rewrite andb_true_iff in Hce.
  destruct Hce as [[[H1 H2] _] _]. apply Z.leb_le in H1, H2. lia.
Qed.

Lemma escape_roundtrip_as (f g : Z -> Z) s letter abs_value n p :
  table_ok (huffman_table s) = true ->
  In DeltaMaker.SpecialLetter (alphabet s) ->
  In DeltaMaker.SpecialLetter (map fst (huffman_table s)) ->
  (In letter (alphabet s) -> In letter (map fst (huffman_table s))) ->
  letter <> DeltaMaker.SpecialLetter -> 0 <= n <= 64 -> 0 <= abs_value < 2 ^ n ->
  wf p -> end_pos p + 128 < 2 ^ 64 ->
  f letter = letter -> f DeltaMaker.SpecialLetter = DeltaMaker.SpecialLetter -> g abs_value = abs_value ->
  exists p', DeltaMaker.EncodeLetter p s letter abs_value n = (p', None) /\ wf p' /\
    end_pos p <= end_pos p' <= end_pos p + 128 /\
    (forall i, 0 <= i < end_pos p -> bit_at (data p') i = bit_at (data p) i) /\
    forall q abs0, wf q -> end_pos p' <= end_pos q < 2 ^ 64 ->
      (forall i, 0 <= i < end_pos p' -> bit_at (data q) i = bit_at (data p') i) ->
      DeltaMaker.DecodeLetterAs f g q (end_pos p) s abs0 n =
        Ok (if in_dec Z.eq_dec letter (alphabet s) then (true, letter, abs0, end_pos p')
            else (false, DeltaMaker.SpecialLetter, abs_value, end_pos p')).
Proof.
  intros Htab Hsa Hst Hlt Hne Hn Hv Hb H128 Hf HfS Hg.
  assert (Hp0 : 0 <= end_pos p) by (destruct Hb as [H0 _]; exact H0).
  unfold DeltaMaker.EncodeLetter, DeltaMaker.DecodeLetterAs.
  destruct (in_dec Z.eq_dec letter (alphabet s)) as [Hal|Hal].
  - rewrite (proj2 (in_alphabet_existsb s letter) Hal).
    destruct (encode_decode_letter s letter p Htab Hal (Hlt Hal) Hb ltac:(lia))
      as (c & p' & Hget & Henc & Hend & Hwf' & Hpre & Hdec).
    pose proof (GetHuffmanCode_bits s letter c Htab Hget) as Hc.
    exists p'. split; [exact Henc|split; [exact Hwf'|split; [lia|split; [exact Hpre|]]]].
    intros q abs0 Hq Hqe Hagree. rewrite (Hdec q Hq Hqe Hagree). cbn [bind]. rewrite Hf.
    destruct (Z.eqb_spec letter DeltaMaker.SpecialLetter); [contradiction|reflexivity].
  - replace (existsb (Z.eqb letter) (alphabet s)) with false
      by (symmetry; apply not_true_iff_false; rewrite in_alphabet_existsb; exact Hal).
    destruct (encode_decode_letter s DeltaMaker.SpecialLetter p Htab Hsa Hst Hb ltac:(lia))
      as (c & p1 & Hget & Henc & Hend & Hwf1 & Hpre1 & Hdec).
    rewrite Henc.
    destruct (write_spec p1 abs_value n Hwf1 Hn Hv) as (d' & Hw & Hwfd & Hpre2 & Hbits).
    rewrite Hw.
    set (p' := mkPackage d' (begin_pos p1) (end_pos p1 + n) (readout_positions p1)).
    pose proof (GetHuffmanCode_bits s DeltaMaker.SpecialLetter c Htab Hget) as Hc.
    exists p'. split; [reflexivity|split; [exact Hwfd|split; [unfold p'; cbn [end_pos]; lia|split]]].
    + intros i Hi. unfold p'. cbn [data]. rewrite Hpre2 by lia. apply Hpre1. exact Hi.
    + intros q abs0 Hq Hqe Hagree. unfold p' in Hqe, Hagree. cbn [end_pos data] in Hqe, Hagree.
      rewrite (Hdec q Hq ltac:(lia)).
      2:{ intros i Hi. rewrite Hagree by lia. apply Hpre2. exact Hi. }
      cbn [bind]. rewrite HfS, Z.eqb_refl.
      pose proof Hq as Hq'. destruct Hq' as [Hq0 _].
      rewrite read_spec by (assumption || lia). cbn [bind negb].
      unfold p'. cbn [end_pos]. f_equal. f_equal. f_equal.
      rewrite <- Hg. f_equal. apply bits_msb_value.
      * intros j Hj. rewrite Z2Nat.id in Hj by lia. rewrite Z2Nat.id by lia.
        rewrite Hagree by lia. apply Hbits. exact Hj.
      * rewrite Z2Nat.id by lia. exact Hv.
Qed.

Lemma escape_roundtrip s letter abs_value n p :
  table_ok (huffman_table s) = true ->
  In DeltaMaker.SpecialLetter (alphabet s) ->
  In DeltaMaker.SpecialLetter (map fst (huffman_table s)) ->
  (In letter (alphabet s) -> In letter (map fst (huffman_table s))) ->
  letter <> DeltaMaker.SpecialLetter -> 0 <= n <= 64 -> 0 <= abs_value < 2 ^ n ->
  built p -> end_pos p + 128 < 2 ^ 64 ->
  exists p', DeltaMaker.EncodeLetter p s letter abs_value n = (p', None) /\ wf p' /\
    (forall i, 0 <= i < end_pos p -> bit_at (data p') i = bit_at (data p) i) /\
    forall q abs0, wf q -> end_pos p' <= end_pos q < 2 ^ 64 ->
      (forall i, 0 <= i < end_pos p' -> bit_at (data q) i = bit_at (data p') i) ->
      DeltaMaker.DecodeLetter q (end_pos p) s abs0 n =
        Ok (if in_dec Z.eq_dec letter (alphabet s) then (true, letter, abs0, end_pos p')
            else (false, DeltaMaker.SpecialLetter, abs_value, end_pos p')).
Proof.
  intros Htab Hsa Hst Hlt Hne Hn Hv Hb H128.
  destruct (escape_roundtrip_as (fun x => x) (fun x => x) s letter abs_value n p Htab Hsa Hst Hlt
              Hne Hn Hv (built_wf p Hb) H128 eq_refl eq_refl eq_refl)
    as (p' & Hw & Hwf' & _ & Hpre & Hdec).
  exists p'. split; [exact Hw|split; [exact Hwf'|split; [exact Hpre|exact Hdec]]].
Qed.

(** X16: with a table the decoder can read back that codes the special
    letter -1, the private [EncodeLetter] of [DeltaPackageMaker] followed
    by its [DecodeLetter] from the same position gives back, on any package
    that keeps the written bits: for a letter of the alphabet, the flag
    true, the letter and the untouched [abs_value]; for any other letter
    (other than -1), the flag false, the special letter and the raw value
    written after it. *)
Theorem EncodeLetter_DecodeLetter_escape s letter abs_value n p :
  table_ok (huffman_table s) = true ->
  In DeltaMaker.SpecialLetter (alphabet s) ->
  In DeltaMaker.SpecialLetter (map fst (huffman_table s)) ->
  (In letter (alphabet s) -> In letter (map fst (huffman_table s))) ->
  letter <> DeltaMaker.SpecialLetter -> 0 <= n <= 64 -> 0 <= abs_value < 2 ^ n ->
  built p -> end_pos p + 128 < 2 ^ 64 ->
  exists p', DeltaMaker.EncodeLetter p s letter abs_value n = (p', None) /\ wf p' /\
    (forall i, 0 <= i < end_pos p -> bit_at (data p') i = bit_at (data p) i) /\
    forall q abs0, wf q -> end_pos p' <= end_pos q < 2 ^ 64 ->
      (forall i, 0 <= i < end_pos p' -> bit_at (data q) i = bit_at (data p') i) ->
      DeltaMaker.DecodeLetter q (end_pos p) s abs0 n =
        Ok (if in_dec Z.eq_dec letter (alphabet s) then (true, letter, abs0, end_pos p')
            else (false, DeltaMaker.SpecialLetter, abs_value, end_pos p')).
Proof. exact (escape_roundtrip s letter abs_value n p). Qed.

Lemma EncodeLetter_DecodeLetter_escape_witness :
  exists p', DeltaMaker.EncodeLetter (fst (write empty 5 3)) DeltaMaker.sample_delta_statistics
               7 7 4 = (p', None) /\ wf p' /\
    (forall i, 0 <= i < end_pos (fst (write empty 5 3)) ->
       bit_at (data p') i = bit_at (data (fst (write empty 5 3))) i) /\
    forall q abs0, wf q -> end_pos p' <= end_pos q < 2 ^ 64 ->
      (forall i, 0 <= i < end_pos p' -> bit_at (data q) i = bit_at (data p') i) ->
      DeltaMaker.DecodeLetter q (end_pos (fst (write empty 5 3))) DeltaMaker.sample_delta_statistics
        abs0 4 =
        Ok (if in_dec Z.eq_dec 7 (alphabet DeltaMaker.sample_delta_statistics)
            then (true, 7, abs0, end_pos p')
            else (false, DeltaMaker.SpecialLetter, 7, end_pos p')).
Proof.
  apply (EncodeLetter_DecodeLetter_escape DeltaMaker.sample_delta_statistics 7 7 4
           (fst (write empty 5 3))).
  - vm_compute. reflexivity.
  - cbn. tauto.
  - cbn. tauto.
  - cbn. intros [H|[H|[H|[]]]]; discriminate.
  - unfold DeltaMaker.SpecialLetter. lia.
  - lia.
  - cbn. lia.
  - apply built_write; [apply built_empty|lia|lia].
  - vm_compute. reflexivity.
Defined.

Section Pixels.
Import Geo.
Variable layout : RegionLayout.
Hypothesis Hr : 1 <= n_rows layout <= 2 ^ 15.
Hypothesis Hc : 1 <= n_columns layout <= 2 ^ 15.

Lemma GetPixelId_inside px :
  IsPixelInside layout px = true ->
  GetPixelId layout px = Ok (row px * n_columns layout + column px).
Proof.
  intros Hx. apply DictExtra.pixel_inside_bounds in Hx.
  unfold GetPixelId, CheckPixel.
  destruct ((row px <? 0) || (n_rows layout <=? row px)) eqn:E1.
  { exfalso. rewrite orb_true_iff, Z.ltb_lt, Z.leb_le in E1. lia. }
  destruct ((column px <? 0) || (n_columns layout <=? column px)) eqn:E2.
  { exfalso. rewrite orb_true_iff, Z.ltb_lt, Z.leb_le in E2. lia. }
  cbn [bind]. rewrite (sz_small (row px)), (sz_small (column px)) by lia.
  rewrite sz_small by nia. reflexivity.
Qed.

Lemma GetPixel_inside px :
  IsPixelInside layout px = true ->
  GetPixel layout (row px * n_columns layout + column px) = Ok px.
Proof.
  intros Hx. pose proof Hx as Hb. apply DictExtra.pixel_inside_bounds in Hb.
  unfold GetPixel.
  rewrite (Z.add_comm (row px * n_columns layout)), Z.mod_add, Z.mod_small by lia.
  replace (column px + row px * n_columns layout - column px) with (row px * n_columns layout) by lia.
  rewrite Z.div_mul by lia. rewrite !to_i16_small by lia.
  unfold CheckPixel. cbn [row column].
  destruct ((row px <? 0) || (n_rows layout <=? row px)) eqn:E1.
  { exfalso. rewrite orb_true_iff, Z.ltb_lt, Z.leb_le in E1. lia. }
  destruct ((column px <? 0) || (n_columns layout <=? column px)) eqn:E2.
  { exfalso. rewrite orb_true_iff, Z.ltb_lt, Z.leb_le in E2. lia. }
  cbn [bind]. destruct px; reflexivity.
Qed.

Lemma step_back (a x n : Z) :
  1 <= n <= 2 ^ 15 -> 0 <= a < n -> 0 <= x < n ->
  to_i16 (sz (a + (x - a) mod n) mod n) = x.
Proof.
  intros Hn Ha Hx.
  pose proof (Z.mod_pos_bound (x - a) n ltac:(lia)).
  rewrite (sz_small (a + _)) by lia.
  rewrite Z.add_mod_idemp_r by lia.
  replace (a + (x - a)) with x by lia.
  rewrite Z.mod_small by lia. apply to_i16_small. lia.
Qed.

Lemma BitsPerValue_bounds n :
  1 <= n <= 2 ^ 30 -> 0 <= BitsPerValue n <= 64 /\ n <= 2 ^ BitsPerValue n.
Proof.
  intros H1. unfold BitsPerValue.
  destruct (Z.eq_dec n 1) as [E|E].
  - subst n. cbn. lia.
  - destruct (Z.log2_up_spec n ltac:(lia)) as [_ Hup].
    split; [|exact Hup]. split; [apply Z.log2_up_nonneg|].
    assert (Z.log2_up n <= Z.log2_up (2 ^ 30)) by (apply Z.log2_up_le_mono; lia).
    rewrite Z.log2_up_pow2 in H by lia. lia.
Qed.

Lemma BitsPerId_bounds :
  0 <= BitsPerValue (GetNumberOfPixels layout) <= 64 /\
  GetNumberOfPixels layout <= 2 ^ BitsPerValue (GetNumberOfPixels layout).
Proof.
  assert (HN : GetNumberOfPixels layout = n_rows layout * n_columns layout).
  { unfold GetNumberOfPixels. apply sz_small. nia. }
  unfold BitsPerValue. rewrite HN.
  assert (H1 : 1 <= n_rows layout * n_columns layout <= 2 ^ 30) by nia.
  destruct (Z.eq_dec (n_rows layout * n_columns layout) 1) as [E|E].
  - rewrite E. cbn. lia.
  - destruct (Z.log2_up_spec (n_rows layout * n_columns layout) ltac:(lia)) as [_ Hup].
    split; [|exact Hup]. split; [apply Z.log2_up_nonneg|].
    assert (Z.log2_up (n_rows layout * n_columns layout) <= Z.log2_up (2 ^ 30))
      by (apply Z.log2_up_le_mono; lia).
    rewrite Z.log2_up_pow2 in H by lia. lia.
Qed.

End Pixels.

(** X17: in the combined mode, for a region layout of at most 2^15 rows
    and columns, two pixels inside it, and a delta table the decoder can
    read back that codes the special letter and every letter of its
    alphabet, [EncodePixel] writes the pixel relative to the previous one,
    and [DecodePixel] from the same position, with the same previous
    pixel, gives back the pixel and stops right after what was written, on
    any package that keeps the written bits.  This holds whether the delta
    letter is in the alphabet or is sent raw after the special letter. *)
Theorem EncodePixel_DecodePixel_combined m layout pixel previous_pixel p :
  DeltaMaker.mode m = DeltaMaker.CombinedDelta ->
  table_ok (huffman_table (DeltaMaker.delta_rowcolumn_stat m)) = true ->
  In DeltaMaker.SpecialLetter (alphabet (DeltaMaker.delta_rowcolumn_stat m)) ->
  In DeltaMaker.SpecialLetter (map fst (huffman_table (DeltaMaker.delta_rowcolumn_stat m))) ->
  (forall x, In x (alphabet (DeltaMaker.delta_rowcolumn_stat m)) ->
             In x (map fst (huffman_table (DeltaMaker.delta_rowcolumn_stat m)))) ->
  1 <= Geo.n_rows layout <= 2 ^ 15 -> 1 <= Geo.n_columns layout <= 2 ^ 15 ->
  Geo.IsPixelInside layout previous_pixel = true -> Geo.IsPixelInside layout pixel = true ->
  built p -> end_pos p + 128 < 2 ^ 64 ->
  exists p', DeltaMaker.EncodePixel m p layout pixel previous_pixel = (p', None) /\ wf p' /\
    (forall i, 0 <= i < end_pos p -> bit_at (data p') i = bit_at (data p) i) /\
    forall q, wf q -> end_pos p' <= end_pos q < 2 ^ 64 ->
      (forall i, 0 <= i < end_pos p' -> bit_at (data q) i = bit_at (data p') i) ->
      DeltaMaker.DecodePixel m q (end_pos p) layout previous_pixel = Ok (pixel, end_pos p').
Proof.
  intros Hm Htab Hsa Hst Hall Hr Hc Hprev Hpix Hb H128.
  pose proof (DictExtra.pixel_inside_bounds _ _ Hprev) as Bp.
  pose proof (DictExtra.pixel_inside_bounds _ _ Hpix) as Bx.
  set (dr := (Geo.row pixel - Geo.row previous_pixel) mod Geo.n_rows layout).
  set (dc := (Geo.column pixel - Geo.column previous_pixel) mod Geo.n_columns layout).
  assert (Hdr : 0 <= dr < Geo.n_rows layout) by (apply Z.mod_pos_bound; lia).
  assert (Hdc : 0 <= dc < Geo.n_columns layout) by (apply Z.mod_pos_bound; lia).
  assert (Hdin : Geo.IsPixelInside layout (Geo.mkPixel dr dc) = true).
  { unfold Geo.IsPixelInside. cbn [Geo.row Geo.column].
    repeat rewrite andb_true_iff. rewrite !Z.leb_le, !Z.ltb_lt. lia. }
  set (L := dr * Geo.n_columns layout + dc).
  set (id := Geo.row pixel * Geo.n_columns layout + Geo.column pixel).
  set (nb := Geo.BitsPerValue (Geo.GetNumberOfPixels layout)).
  destruct (BitsPerId_bounds layout Hr Hc) as [Hnb HNb]. fold nb in Hnb, HNb.
  assert (HN : Geo.GetNumberOfPixels layout = Geo.n_rows layout * Geo.n_columns layout).
  { unfold Geo.GetNumberOfPixels. apply sz_small. nia. }
  assert (HL : 0 <= L < 2 ^ 30) by (unfold L; nia).
  assert (Hid : 0 <= id < 2 ^ nb) by (unfold id; nia).
  assert (Henc : DeltaMaker.EncodePixel m p layout pixel previous_pixel
                 = DeltaMaker.EncodeLetter p (DeltaMaker.delta_rowcolumn_stat m) L id nb).
  { unfold DeltaMaker.EncodePixel. rewrite Hm.
    rewrite !DictExtra.delta_mod by lia. fold dr dc.
    rewrite !to_i16_small by lia.
    rewrite (GetPixelId_inside layout Hr Hc _ Hdin), (GetPixelId_inside layout Hr Hc _ Hpix).
    cbn [Geo.row Geo.column]. fold L id nb.
    rewrite DictExtra.to_int_small by lia. reflexivity. }
  assert (HLs : L <> DeltaMaker.SpecialLetter) by (unfold DeltaMaker.SpecialLetter; lia).
  destruct (escape_roundtrip (DeltaMaker.delta_rowcolumn_stat m) L id nb p Htab Hsa Hst (Hall L)
              HLs Hnb Hid Hb H128) as (p' & Hw & Hwf' & Hpre & Hdec).
  exists p'. rewrite Henc.
  split; [exact Hw|split; [exact Hwf'|split; [exact Hpre|]]].
  intros q Hq Hqe Hagree.
  unfold DeltaMaker.DecodePixel. rewrite Hm. fold nb.
  rewrite (Hdec q 0 Hq Hqe Hagree).
  destruct (in_dec Z.eq_dec L (alphabet (DeltaMaker.delta_rowcolumn_stat m))); cbn [bind].
  - rewrite (sz_small L) by lia.
    pose proof (GetPixel_inside layout Hr Hc _ Hdin) as HG. cbn [Geo.row Geo.column] in HG.
    fold L in HG. rewrite HG. cbn [bind Geo.row Geo.column].
    unfold dr, dc. rewrite !step_back by lia. destruct pixel; reflexivity.
  - pose proof (GetPixel_inside layout Hr Hc _ Hpix) as HG. fold id in HG.
    rewrite HG. cbn [bind Geo.row Geo.column].
    destruct pixel; reflexivity.
Qed.

Lemma EncodePixel_DecodePixel_combined_witness :
  exists p', DeltaMaker.EncodePixel DeltaMaker.sample_delta_maker (fst (write empty 5 3))
               (Geo.mkRegionLayout 4 3) (Geo.mkPixel 2 1) (Geo.mkPixel 3 2) = (p', None) /\ wf p' /\
    (forall i, 0 <= i < end_pos (fst (write empty 5 3)) ->
       bit_at (data p') i = bit_at (data (fst (write empty 5 3))) i) /\
    forall q, wf q -> end_pos p' <= end_pos q < 2 ^ 64 ->
      (forall i, 0 <= i < end_pos p' -> bit_at (data q) i = bit_at (data p') i) ->
      DeltaMaker.DecodePixel DeltaMaker.sample_delta_maker q (end_pos (fst (write empty 5 3)))
        (Geo.mkRegionLayout 4 3) (Geo.mkPixel 3 2) = Ok (Geo.mkPixel 2 1, end_pos p').
Proof.
  apply (EncodePixel_DecodePixel_combined DeltaMaker.sample_delta_maker (Geo.mkRegionLayout 4 3)
           (Geo.mkPixel 2 1) (Geo.mkPixel 3 2) (fst (write empty 5 3))).
  - reflexivity.
  - vm_compute. reflexivity.
  - cbn. tauto.
  - cbn. tauto.
  - cbn. intros x Hx. exact Hx.
  - cbn. lia.
  - cbn. lia.
  - reflexivity.
  - reflexivity.
  - apply built_write; [apply built_empty|lia|lia].
  - vm_compute. reflexivity.
Defined.

(** X18: in the separate mode, for a region layout of at most 2^15 rows
    and columns, two pixels inside it, and row and column delta tables the
    decoder can read back that code the special letter and every letter of
    their alphabets, [DecodePixel] from where [EncodePixel] started, with
    the same previous pixel, gives back the pixel and stops right after
    what was written, on any package that keeps the written bits; each of
    the row and the column is sent as a delta letter or raw after the
    special letter. *)
Theorem EncodePixel_DecodePixel_separate m layout pixel previous_pixel p :
  DeltaMaker.mode m = DeltaMaker.SeparateDelta ->
  table_ok (huffman_table (DeltaMaker.delta_row_stat m)) = true ->
  In DeltaMaker.SpecialLetter (alphabet (DeltaMaker.delta_row_stat m)) ->
  In DeltaMaker.SpecialLetter (map fst (huffman_table (DeltaMaker.delta_row_stat m))) ->
  (forall x, In x (alphabet (DeltaMaker.delta_row_stat m)) ->
             In x (map fst (huffman_table (DeltaMaker.delta_row_stat m)))) ->
  table_ok (huffman_table (DeltaMaker.delta_column_stat m)) = true ->
  In DeltaMaker.SpecialLetter (alphabet (DeltaMaker.delta_column_stat m)) ->
  In DeltaMaker.SpecialLetter (map fst (huffman_table (DeltaMaker.delta_column_stat m))) ->
  (forall x, In x (alphabet (DeltaMaker.delta_column_stat m)) ->
             In x (map fst (huffman_table (DeltaMaker.delta_column_stat m)))) ->
  1 <= Geo.n_rows layout <= 2 ^ 15 -> 1 <= Geo.n_columns layout <= 2 ^ 15 ->
  Geo.IsPixelInside layout previous_pixel = true -> Geo.IsPixelInside layout pixel = true ->
  built p -> end_pos p + 256 < 2 ^ 64 ->
  exists p', DeltaMaker.EncodePixel m p layout pixel previous_pixel = (p', None) /\ wf p' /\
    (forall i, 0 <= i < end_pos p -> bit_at (data p') i = bit_at (data p) i) /\
    forall q, wf q -> end_pos p' <= end_pos q < 2 ^ 64 ->
      (forall i, 0 <= i < end_pos p' -> bit_at (data q) i = bit_at (data p') i) ->
      DeltaMaker.DecodePixel m q (end_pos p) layout previous_pixel = Ok (pixel, end_pos p').
Proof.
  intros Hm HtR HsR HtsR HaR HtC HsC HtsC HaC Hr Hc Hprev Hpix Hb H256.
  pose proof (DictExtra.pixel_inside_bounds _ _ Hprev) as Bp.
  pose proof (DictExtra.pixel_inside_bounds _ _ Hpix) as Bx.
  set (dr := (Geo.row pixel - Geo.row previous_pixel) mod Geo.n_rows layout).
  set (dc := (Geo.column pixel - Geo.column previous_pixel) mod Geo.n_columns layout).
  assert (Hdr : 0 <= dr < Geo.n_rows layout) by (apply Z.mod_pos_bound; lia).
  assert (Hdc : 0 <= dc < Geo.n_columns layout) by (apply Z.mod_pos_bound; lia).
  set (nbr := Geo.BitsPerValue (Geo.n_rows layout)).
  set (nbc := Geo.BitsPerValue (Geo.n_columns layout)).
  destruct (BitsPerValue_bounds (Geo.n_rows layout) ltac:(lia)) as [Hnbr Hr2]. fold nbr in Hnbr, Hr2.
  destruct (BitsPerValue_bounds (Geo.n_columns layout) ltac:(lia)) as [Hnbc Hc2]. fold nbc in Hnbc, Hc2.
  assert (Hi16 : forall x, - 2 ^ 15 <= x < 2 ^ 15 -> to_i16 x = x) by exact to_i16_small.
  assert (Hs : to_i16 DeltaMaker.SpecialLetter = DeltaMaker.SpecialLetter) by reflexivity.
  assert (Hwf0 : wf p) by (apply built_wf; exact Hb).
  destruct (escape_roundtrip_as to_i16 to_i16 (DeltaMaker.delta_row_stat m) dr (Geo.row pixel) nbr p
              HtR HsR HtsR (HaR dr) ltac:(unfold DeltaMaker.SpecialLetter; lia) Hnbr ltac:(lia)
              Hwf0 ltac:(lia) ltac:(apply Hi16; lia) Hs ltac:(apply Hi16; lia))
    as (p1 & Hw1 & Hwf1 & Hb1 & Hpre1 & Hdec1).
  destruct (escape_roundtrip_as to_i16 to_i16 (DeltaMaker.delta_column_stat m) dc (Geo.column pixel)
              nbc p1 HtC HsC HtsC (HaC dc) ltac:(unfold DeltaMaker.SpecialLetter; lia) Hnbc ltac:(lia)
              Hwf1 ltac:(lia) ltac:(apply Hi16; lia) Hs ltac:(apply Hi16; lia))
    as (p2 & Hw2 & Hwf2 & Hb2 & Hpre2 & Hdec2).
  exists p2. split; [|split; [exact Hwf2|split]].
  - unfold DeltaMaker.EncodePixel. rewrite Hm.
    rewrite !DictExtra.delta_mod by lia. fold dr dc.
    rewrite !to_i16_small by lia.
    rewrite (sz_small (Geo.row pixel)), (sz_small (Geo.column pixel)) by lia. fold nbr nbc.
    rewrite Hw1. exact Hw2.
  - intros i Hi. rewrite Hpre2 by lia. apply Hpre1. exact Hi.
  - intros q Hq Hqe Hagree.
    unfold DeltaMaker.DecodePixel. rewrite Hm. fold nbr nbc.
    rewrite (Hdec1 q 0 Hq ltac:(lia)).
    2:{ intros i Hi. rewrite Hagree by lia. apply Hpre2. lia. }
    destruct (in_dec Z.eq_dec dr (alphabet (DeltaMaker.delta_row_stat m))); cbn [bind];
      rewrite (Hdec2 q 0 Hq Hqe Hagree);
      destruct (in_dec Z.eq_dec dc (alphabet (DeltaMaker.delta_column_stat m))); cbn [bind];
      cbn [Geo.row Geo.column]; unfold dr, dc; rewrite ?step_back by lia;
      destruct pixel; reflexivity.
Qed.

Lemma EncodePixel_DecodePixel_separate_witness :
  exists p', DeltaMaker.EncodePixel DeltaMaker.sample_separate_maker (fst (write empty 5 3))
               (Geo.mkRegionLayout 4 3) (Geo.mkPixel 2 1) (Geo.mkPixel 3 1) = (p', None) /\ wf p' /\
    (forall i, 0 <= i < end_pos (fst (write empty 5 3)) ->
       bit_at (data p') i = bit_at (data (fst (write empty 5 3))) i) /\
    forall q, wf q -> end_pos p' <= end_pos q < 2 ^ 64 ->
      (forall i, 0 <= i < end_pos p' -> bit_at (data q) i = bit_at (data p') i) ->
      DeltaMaker.DecodePixel DeltaMaker.sample_separate_maker q (end_pos (fst (write empty 5 3)))
        (Geo.mkRegionLayout 4 3) (Geo.mkPixel 3 1) = Ok (Geo.mkPixel 2 1, end_pos p').
Proof.
  apply (EncodePixel_DecodePixel_separate DeltaMaker.sample_separate_maker (Geo.mkRegionLayout 4 3)
           (Geo.mkPixel 2 1) (Geo.mkPixel 3 1) (fst (write empty 5 3))).
  - reflexivity.
  - vm_compute. reflexivity.
  - cbn. tauto.
  - cbn. tauto.
  - cbn. intros x Hx. exact Hx.
  - vm_compute. reflexivity.
  - cbn. tauto.
  - cbn. tauto.
  - cbn. intros x Hx. exact Hx.
  - cbn. lia.
  - cbn. lia.
  - reflexivity.
  - reflexivity.
  - apply built_write; [apply built_empty|lia|lia].
  - vm_compute. reflexivity.
Defined.

End DeltaExtra.

(* ------------------------------------------------------------------ *)
(** ** DefaultPackageMaker: what Read gets back from Make *)

Module MakeReadExtra.
Import Machine Pkg PkgView PkgBits Geo GeoClaims Chips ChipView ChipExtra.

(** [n] stream bits from [pos] on hold [v], most significant first. *)
Definition field (d : list Z) (pos n v : Z) : Prop :=
  forall j, 0 <= j < n -> bit_at d (pos + j) = Z.testbit v (n - 1 - j).

(** The records [DefaultPackageMaker] writes from [pos] on: per pixel its
    id ([row * n_columns + column]) on [nb] bits and its ADC on [na] bits. *)
Fixpoint records (nc nb na : Z) (d : list Z) (pos : Z) (W : list (Pixel * Z)) : Prop :=
  match W with
  | [] => True
  | e :: W' => field d pos nb (row e.1 * nc + column e.1) /\ field d (pos + nb) na e.2 /\
               records nc nb na d (pos + (nb + na)) W'
  end.

(** The pixels a region iterator has still to visit. *)
Definition remaining (it : RegionIterator) : list (Pixel * Z) :=
  skipn (Z.to_nat (current_position it)) (it_pixels it).

(** [move_next] on the iterators that have a current pixel. *)
Definition advance (it : RegionIterator) : RegionIterator :=
  if has_current it then mkRegionIterator (it_pixels it) (current_position it + 1) else it.

(** The pixels one pass of the round-robin takes, in order. *)
Definition heads (its : list RegionIterator) : list (Pixel * Z) :=
  concat (map (fun it => firstn 1 (remaining it)) its).

Lemma field_ext d d' pos n v :
  (forall i, pos <= i < pos + n -> bit_at d' i = bit_at d i) -> field d pos n v -> field d' pos n v.
Proof. intros Hk H j Hj. rewrite Hk by lia. apply H, Hj. Qed.

Lemma records_ext nc nb na d d' pos W :
  0 <= nb -> 0 <= na ->
  (forall i, pos <= i < pos + Z.of_nat (length W) * (nb + na) -> bit_at d' i = bit_at d i) ->
  records nc nb na d pos W -> records nc nb na d' pos W.
Proof.
  intros Hb Ha. revert pos. induction W as [|e W IH]; intros pos Hk H; [exact I|].
  destruct H as (H1 & H2 & H3). cbn [length] in Hk. rewrite Nat2Z.inj_succ in Hk.
  assert (0 <= Z.of_nat (length W) * (nb + na)) by nia.
  split; [|split].
  - eapply field_ext; [|exact H1]. intros i Hi. apply Hk. nia.
  - eapply field_ext; [|exact H2]. intros i Hi. apply Hk. nia.
  - apply IH; [|exact H3]. intros i Hi. apply Hk. nia.
Qed.

Lemma records_app nc nb na d pos W1 W2 :
  records nc nb na d pos (W1 ++ W2) <->
  records nc nb na d pos W1 /\ records nc nb na d (pos + Z.of_nat (length W1) * (nb + na)) W2.
Proof.
  revert pos. induction W1 as [|e W1 IH]; intros pos.
  - cbn. rewrite Z.add_0_r. tauto.
  - cbn [app records length]. rewrite IH.
    replace (pos + (nb + na) + Z.of_nat (length W1) * (nb + na))
      with (pos + Z.of_nat (S (length W1)) * (nb + na)) by lia.
    tauto.
Qed.

Lemma concat_map_app_perm {A B} (f g : A -> list B) l :
  Permutation (concat (map (fun x => f x ++ g x) l)) (concat (map f l) ++ concat (map g l)).
Proof.
  induction l as [|x l IH]; [reflexivity|]. cbn [map concat]. rewrite IH.
  rewrite <- !app_assoc. apply Permutation_app_head. rewrite !app_assoc.
  apply Permutation_app_tail. apply Permutation_app_comm.
Qed.

Lemma skipn_nth {A} (l : list A) k d :
  (k < length l)%nat -> skipn k l = nth k l d :: skipn (S k) l.
Proof.
  revert k. induction l as [|x l IH]; intros k Hk; [cbn in Hk; lia|].
  destruct k as [|k]; [reflexivity|]. cbn [skipn nth]. apply IH. cbn in Hk. lia.
Qed.

(** [package.write] on a value that fits: the bits are appended. *)
Lemma write_or_throw_spec p value n :
  wf p -> 0 <= n <= 64 -> 0 <= value < 2 ^ n ->
  exists p', write_or_throw p value n = Ok p' /\ wf p' /\
    begin_pos p' = begin_pos p /\ end_pos p' = end_pos p + n /\
    (forall i, 0 <= i < end_pos p -> bit_at (data p') i = bit_at (data p) i) /\
    field (data p') (end_pos p) n value.
Proof.
  intros Hw Hn Hv. destruct (write_spec p value n Hw Hn Hv) as (d' & Hwr & Hwf & Hk & Hf).
  unfold write_or_throw. rewrite Hwr.
  eexists. split; [reflexivity|]. cbn [data begin_pos end_pos].
  split; [exact Hwf|]. split; [reflexivity|]. split; [reflexivity|]. split; [exact Hk|].
  intros j Hj. apply Hf, Hj.
Qed.

(** A chip holds at most one entry per pixel of its layout. *)
Lemma NoDup_map_on {A B} (f : A -> B) l :
  (forall x y, In x l -> In y l -> f x = f y -> x = y) -> List.NoDup l -> List.NoDup (map f l).
Proof.
  induction l as [|x l IH]; intros Hi Hn; constructor.
  - intros H. apply in_map_iff in H as [y [Hy Hyl]].
    apply NoDup_cons_iff in Hn as [Hx _]. apply Hx.
    rewrite (Hi x y (or_introl eq_refl) (or_intror Hyl) (eq_sym Hy)). exact Hyl.
  - apply IH; [|exact (proj2 (proj1 (NoDup_cons_iff _ _) Hn))].
    intros a b Ha Hb. apply Hi; right; assumption.
Qed.

Lemma chip_length c :
  chip_inv c ->
  Z.of_nat (length (pixels (base_region c))) <=
    n_rows (base (multi_region_layout c)) * n_columns (base (multi_region_layout c)).
Proof.
  intros (Hc & HN & HM & Hl & Hs & HF & _).
  destruct (layout_facts _ Hc HN HM) as (N & M & R & C & Hb & _ & HN1 & HM1 & _).
  rewrite Hb in HF |- *. cbn [n_rows n_columns].
  set (E := pixels (base_region c)) in *.
  set (id := fun e : Pixel * Z => row e.1 * M + column e.1).
  assert (Hin : forall e, In e E -> 0 <= row e.1 < N /\ 0 <= column e.1 < M).
  { intros e He. rewrite Forall_forall in HF. destruct (HF e (proj2 (list_elem_of_In _ _) He)) as [Hx _].
    apply inside_iff in Hx. exact Hx. }
  assert (Hnd : List.NoDup (map id E)).
  { apply NoDup_map_on.
    - intros x y Hx Hy Hxy. destruct (Hin x Hx), (Hin y Hy). unfold id in Hxy.
      destruct (grid_eq (row x.1) (column x.1) (row y.1) (column y.1) M ltac:(lia) ltac:(lia) Hxy).
      apply (keys_unique E); [apply keys_sorted_nodup, Hs|apply list_elem_of_In, Hx|apply list_elem_of_In, Hy|].
      destruct x as [[] ?], y as [[] ?]. cbn in *. congruence.
    - apply NoDup_map_inv with (f := fst). apply NoDup_ListNoDup, keys_sorted_nodup, Hs. }
  assert (Hincl : incl (map id E) (map Z.of_nat (seq 0 (Z.to_nat (N * M))))).
  { intros z Hz. apply in_map_iff in Hz as [e [<- He]]. destruct (Hin e He).
    apply in_map_iff. exists (Z.to_nat (id e)). split; [unfold id; lia|].
    apply in_seq. unfold id. nia. }
  pose proof (NoDup_incl_length Hnd Hincl) as HL.
  rewrite !length_map, length_seq in HL. lia.
Qed.

Section Make.
Variable ml : MultiRegionLayout.
Variable na : Z.
Hypothesis Hr : 1 <= n_rows (base ml) <= 2 ^ 15.
Hypothesis Hc : 1 <= n_columns (base ml) <= 2 ^ 15.
Hypothesis Hna : 0 <= na <= 64.

Let nb := BitsPerValue (GetNumberOfPixels (base ml)).
Let nc := n_columns (base ml).

(** The entries [Make] may meet: pixels of the layout, ADCs on [na] bits. *)
Let entry_ok (e : Pixel * Z) : Prop := IsPixelInside (base ml) e.1 = true /\ 0 <= e.2 < 2 ^ na.

Let it_ok (it : RegionIterator) : Prop :=
  0 <= current_position it <= Z.of_nat (length (it_pixels it)) /\
  Z.of_nat (length (it_pixels it)) < 2 ^ 63 /\ Forall entry_ok (it_pixels it).

Lemma advance_ok it : it_ok it -> it_ok (advance it).
Proof.
  intros (H1 & H2 & H3). unfold advance, has_current.
  destruct (Z.ltb_spec (current_position it) (Z.of_nat (length (it_pixels it)))); [|split; auto].
  unfold it_ok. cbn [current_position it_pixels]. split; [lia|]. split; assumption.
Qed.

Lemma remaining_advance it : it_ok it -> remaining (advance it) = skipn 1 (remaining it).
Proof.
  intros (H1 & _ & _). unfold advance, has_current, remaining.
  destruct (Z.ltb_spec (current_position it) (Z.of_nat (length (it_pixels it)))).
  - cbn [current_position it_pixels]. rewrite skipn_skipn. f_equal. lia.
  - rewrite skipn_all2 by lia. reflexivity.
Qed.

Lemma make_round_spec its p :
  Forall it_ok its -> wf p ->
  exists p', make_round ml nb na its p = Ok (map advance its, p') /\
    wf p' /\ begin_pos p' = begin_pos p /\
    end_pos p' = end_pos p + Z.of_nat (length (heads its)) * (nb + na) /\
    (forall i, 0 <= i < end_pos p -> bit_at (data p') i = bit_at (data p) i) /\
    records nc nb na (data p') (end_pos p) (heads its).
Proof.
  destruct (DeltaExtra.BitsPerId_bounds (base ml) Hr Hc) as [Hnb HN].
  fold nb in Hnb, HN.
  assert (HNe : GetNumberOfPixels (base ml) = n_rows (base ml) * nc).
  { unfold GetNumberOfPixels, nc. apply sz_small. nia. }
  revert p. induction its as [|it its IH]; intros p Hok Hw.
  - exists p. cbn. split; [reflexivity|]. split; [exact Hw|]. split; [reflexivity|].
    split; [lia|]. split; [reflexivity|exact I].
  - apply Forall_cons in Hok as [Hit Hok].
    pose proof Hit as (Hp1 & Hp2 & Hp3).
    pose proof (proj1 Hw) as He0.
    cbn [make_round map].
    destruct (has_current it) eqn:Eh.
    + unfold has_current in Eh. apply Z.ltb_lt in Eh.
      set (k := current_position it) in *.
      rewrite (vat_nth_gen (it_pixels it) k (mkPixel 0 0, 0)) by lia. cbn [bind].
      assert (Hkl : (Z.to_nat k < length (it_pixels it))%nat) by lia.
      pose proof (nth_In (it_pixels it) (mkPixel 0 0, 0) Hkl) as Hin.
      assert (Hrem : remaining it = nth (Z.to_nat k) (it_pixels it) (mkPixel 0 0, 0) ::
                                    skipn (S (Z.to_nat k)) (it_pixels it))
        by (apply skipn_nth, Hkl).
      destruct (nth (Z.to_nat k) (it_pixels it) (mkPixel 0 0, 0)) as [px a] eqn:Ee.
      rewrite Forall_forall in Hp3.
      destruct (Hp3 (px, a) (proj2 (list_elem_of_In _ _) Hin)) as [Hpx Ha]. cbn [fst snd] in Hpx, Ha.
      rewrite (DeltaExtra.GetPixelId_inside (base ml) Hr Hc px Hpx). cbn [bind].
      pose proof (DictExtra.pixel_inside_bounds (base ml) px Hpx) as Hb.
      assert (Hid : 0 <= row px * n_columns (base ml) + column px < 2 ^ nb) by (unfold nc in *; nia).
      destruct (write_or_throw_spec p _ nb Hw ltac:(lia) Hid) as (p1 & Hw1 & Hwf1 & Hb1 & He1 & Hk1 & Hf1).
      rewrite Hw1. cbn [bind].
      destruct (write_or_throw_spec p1 a na Hwf1 Hna Ha) as (p2 & Hw2 & Hwf2 & Hb2 & He2 & Hk2 & Hf2).
      rewrite Hw2. cbn [bind].
      destruct (IH p2 Hok Hwf2) as (p' & Hr' & Hwf' & Hb' & He' & Hk' & Hrec').
      rewrite Hr'. cbn [bind].
      exists p'. split.
      { unfold advance, has_current. fold k. rewrite (proj2 (Z.ltb_lt _ _) Eh).
        rewrite sz_small by lia. reflexivity. }
      assert (Hh : heads (it :: its) = (px, a) :: heads its).
      { unfold heads. cbn [map concat]. rewrite Hrem. reflexivity. }
      rewrite Hh. cbn [length]. rewrite Nat2Z.inj_succ.
      split; [exact Hwf'|]. split; [congruence|].
      split; [rewrite He', He2, He1; lia|].
      split.
      { intros i Hi. rewrite Hk' by lia. rewrite Hk2 by lia. apply Hk1, Hi. }
      cbn [records fst snd]. split; [|split].
      * eapply field_ext; [|exact Hf1]. intros i Hi. rewrite Hk' by lia. apply Hk2. lia.
      * eapply field_ext; [|rewrite <- He1; exact Hf2]. intros i Hi. apply Hk'. lia.
      * replace (end_pos p + (nb + na)) with (end_pos p2) by lia. exact Hrec'.
    + destruct (IH p Hok Hw) as (p' & Hr' & Hwf' & Hb' & He' & Hk' & Hrec').
      rewrite Hr'. cbn [bind]. exists p'.
      assert (Hrem : remaining it = []).
      { unfold has_current in Eh. apply Z.ltb_ge in Eh. unfold remaining. apply skipn_all2. lia. }
      assert (Hh : heads (it :: its) = heads its).
      { unfold heads. cbn [map concat]. rewrite Hrem. reflexivity. }
      rewrite Hh. split; [|tauto].
      unfold advance. rewrite Eh. reflexivity.
Qed.

Lemma make_loop_spec fuel n max_size its p :
  0 <= n -> n + Z.of_nat fuel = max_size -> Forall it_ok its ->
  Forall (fun it => Z.of_nat (length (remaining it)) <= max_size - n) its ->
  wf p ->
  exists W p', make_loop fuel ml nb na n max_size its p = Ok p' /\
    Permutation W (concat (map remaining its)) /\
    wf p' /\ begin_pos p' = begin_pos p /\
    end_pos p' = end_pos p + Z.of_nat (length W) * (nb + na) /\
    (forall i, 0 <= i < end_pos p -> bit_at (data p') i = bit_at (data p) i) /\
    records nc nb na (data p') (end_pos p) W.
Proof.
  destruct (DeltaExtra.BitsPerId_bounds (base ml) Hr Hc) as [Hnb _]. fold nb in Hnb.
  revert n its p. induction fuel as [|fuel IH]; intros n its p Hn Hf Hok Hlen Hw.
  - exists [], p. cbn [make_loop]. split; [reflexivity|].
    split.
    { assert (Hnil : concat (map remaining its) = []).
      { induction its as [|it its IHi]; [reflexivity|].
        apply Forall_cons in Hlen as [H1 H2]. apply Forall_cons in Hok as [_ Hok].
        cbn [map concat]. rewrite (IHi Hok H2).
        destruct (remaining it); [reflexivity|cbn in H1; lia]. }
      rewrite Hnil. reflexivity. }
    split; [exact Hw|]. split; [reflexivity|]. split; [cbn; lia|]. split; [reflexivity|exact I].
  - cbn [make_loop]. rewrite (proj2 (Z.ltb_lt n max_size)) by lia.
    destruct (make_round_spec its p Hok Hw) as (p1 & Hr1 & Hwf1 & Hb1 & He1 & Hk1 & Hrec1).
    rewrite Hr1. cbn [bind].
    set (p1' := if (sz (n + 1) mod 2 =? 0) || (sz (n + 1) =? max_size) then next_readout_cicle p1 else p1).
    assert (Hp1' : data p1' = data p1 /\ begin_pos p1' = begin_pos p1 /\ end_pos p1' = end_pos p1).
    { unfold p1'. destruct (_ || _); split; reflexivity || (split; reflexivity). }
    destruct Hp1' as (Hd' & Hbg' & He').
    assert (Hwf1' : wf p1') by (unfold wf in *; rewrite Hd', He'; exact Hwf1).
    assert (Hok' : Forall it_ok (map advance its)).
    { apply Forall_map. eapply Forall_impl; [exact Hok|]. intros it. apply advance_ok. }
    assert (Hlen' : Forall (fun it => Z.of_nat (length (remaining it)) <= max_size - (n + 1))
                      (map advance its)).
    { apply Forall_forall. intros it' Hit'. apply list_elem_of_In, in_map_iff in Hit' as [it [<- Hit]].
      rewrite Forall_forall in Hok, Hlen.
      pose proof (Hlen it (proj2 (list_elem_of_In _ _) Hit)) as Hl.
      rewrite (remaining_advance it (Hok it (proj2 (list_elem_of_In _ _) Hit))).
      destruct (remaining it); cbn [skipn length] in *; rewrite ?skipn_0; lia. }
    destruct (IH (n + 1) (map advance its) p1' ltac:(lia) ltac:(lia) Hok' Hlen' Hwf1')
      as (W & p' & Hl' & Hperm & Hwf' & Hb' & He'' & Hk' & Hrec').
    exists (heads its ++ W), p'. split; [exact Hl'|].
    split.
    { rewrite Hperm. rewrite map_map.
      transitivity (concat (map (fun it => firstn 1 (remaining it) ++ skipn 1 (remaining it)) its)).
      - unfold heads. rewrite (concat_map_app_perm (fun it => firstn 1 (remaining it))).
        apply Permutation_app_head. apply Permutation_refl'. f_equal. apply map_ext_in.
        intros it Hit. rewrite Forall_forall in Hok.
        apply remaining_advance, Hok, list_elem_of_In, Hit.
      - apply Permutation_refl'. f_equal. apply map_ext. intros it. apply firstn_skipn. }
    split; [exact Hwf'|]. split; [congruence|].
    split; [rewrite He'', He', He1, length_app, Nat2Z.inj_add; lia|].
    split.
    { intros i Hi. rewrite Hk' by (rewrite He', He1; nia). rewrite Hd'. apply Hk1, Hi. }
    apply records_app. split.
    + eapply records_ext; [lia|lia| |exact Hrec1]. intros i Hi. rewrite Hk' by (pose proof (proj1 Hw); rewrite He', He1; nia). rewrite Hd'. reflexivity.
    + rewrite <- He1, <- He'. exact Hrec'.
Qed.

End Make.

Lemma fold_max (its : list RegionIterator) m :
  0 <= m ->
  m <= fold_left (fun m it => Z.max m (Z.of_nat (length (it_pixels it)))) its m /\
  Forall (fun it => Z.of_nat (length (it_pixels it)) <=
                    fold_left (fun m it => Z.max m (Z.of_nat (length (it_pixels it)))) its m) its /\
  fold_left (fun m it => Z.max m (Z.of_nat (length (it_pixels it)))) its m <=
    m + Z.of_nat (length (concat (map it_pixels its))).
Proof.
  revert m. induction its as [|it its IH]; intros m Hm.
  - cbn. split; [lia|]. split; [constructor|lia].
  - cbn [fold_left map concat]. rewrite length_app.
    destruct (IH (Z.max m (Z.of_nat (length (it_pixels it)))) ltac:(lia)) as (H1 & H2 & H3).
    split; [lia|]. split; [constructor; [lia|exact H2]|lia].
Qed.

(** The iterators [Make] sets up: one per region, holding the pixels of the
    chip in that region, from the first. *)
Lemma mapM_iterators c (l : list nat) :
  chip_inv c ->
  (forall id, In id l -> Z.of_nat id < GetNumberOfRegions (multi_region_layout c)) ->
  exists its,
    mapM (fun id : nat =>
      let* active := IsRegionActive c (Z.of_nat id) in
      if active then
        let* region := GetRegion c (Z.of_nat id) in
        Ok (mkRegionIterator
              (map (fun e => (ConvertFromRegionPixel (multi_region_layout c) (Z.of_nat id) e.1, e.2))
                 (pixels region)) 0)
      else Ok (mkRegionIterator [] 0)) l = Ok its /\
    Forall (fun it => current_position it = 0) its /\
    Permutation (concat (map it_pixels its))
      (concat (map (fun id : nat => List.filter
         (fun e => (ConvertToRegionPixel (multi_region_layout c) e.1).1 =? Z.of_nat id)
         (pixels (base_region c))) l)).
Proof.
  intros Hinv. induction l as [|id l IH]; intros Hl.
  - exists []. split; [reflexivity|]. split; constructor.
  - destruct (IH (fun i Hi => Hl i (or_intror Hi))) as (its & Hm & H0 & Hp).
    destruct (append_region_ok c Hinv [] (Z.of_nat id) ltac:(specialize (Hl id (or_introl eq_refl)); lia))
      as (out & Ha & Hpo).
    cbn [app] in Hpo. unfold append_region in Ha. cbn [mapM].
    destruct (IsRegionActive c (Z.of_nat id)) as [[|]|e]; cbn [bind negb] in Ha |- *;
      [destruct (GetRegion c (Z.of_nat id)) as [r|e]; cbn [bind] in Ha |- *| |discriminate];
      [|discriminate|];
      injection Ha as <-; rewrite Hm; cbn [bind];
      (eexists; split; [reflexivity|]; split; [constructor; [reflexivity|exact H0]|]);
      cbn [map concat it_pixels]; rewrite Hp; apply Permutation_app_tail; exact Hpo.
Qed.

Lemma concat_regions c :
  chip_inv c ->
  Permutation
    (concat (map (fun id : nat => List.filter
       (fun e => (ConvertToRegionPixel (multi_region_layout c) e.1).1 =? Z.of_nat id)
       (pixels (base_region c)))
     (seq 0 (Z.to_nat (GetNumberOfRegions (multi_region_layout c))))))
    (pixels (base_region c)).
Proof.
  intros (Hc & HN & HM & Hl & Hs & HF & _).
  pose proof (concat_filter_seq (fun _ => true)
    (fun e : Pixel * Z => (ConvertToRegionPixel (multi_region_layout c) e.1).1)
    (pixels (base_region c)) (Z.to_nat (GetNumberOfRegions (multi_region_layout c)))) as H.
  cbn [andb] in H. rewrite H. rewrite filter_all; [reflexivity|].
  apply Forall_forall. intros e He. rewrite Forall_forall in HF.
  destruct (HF e He) as [Hin _].
  destruct (convert_back _ Hc HN HM e.1 Hin) as [Hr _].
  rewrite Z2Nat.id by lia. apply andb_true_iff. split; [apply Z.leb_le|apply Z.ltb_lt]; lia.
Qed.

(** What [Make] writes for a chip: its pixels, each once, in some order,
    as records of the id and the ADC from bit 0 to the end. *)
Lemma Make_records c na :
  chip_inv c -> 0 <= na <= 64 -> Forall (fun e => e.2 < 2 ^ na) (pixels (base_region c)) ->
  exists W p, DefaultPackageMaker_Make na c = Ok p /\
    Permutation W (pixels (base_region c)) /\ wf p /\ begin_pos p = 0 /\
    end_pos p = Z.of_nat (length W) *
                (BitsPerValue (GetNumberOfPixels (base (multi_region_layout c))) + na) /\
    records (n_columns (base (multi_region_layout c)))
      (BitsPerValue (GetNumberOfPixels (base (multi_region_layout c)))) na (data p) 0 W.
Proof.
  intros Hinv Hna Hadc. pose proof Hinv as (Hc & HN & HM & Hl & Hs & HF & _).
  set (ml := multi_region_layout c) in *.
  destruct (layout_facts ml Hc HN HM) as (N & M & R & C & Hb & _ & HN1 & HM1 & _).
  assert (Hr : 1 <= n_rows (base ml) <= 2 ^ 15) by (rewrite Hb; cbn; lia).
  assert (Hcl : 1 <= n_columns (base ml) <= 2 ^ 15) by (rewrite Hb; cbn; lia).
  pose proof (chip_length c Hinv) as HL. fold ml in HL.
  set (E := pixels (base_region c)) in *.
  destruct (mapM_iterators c (seq 0 (Z.to_nat (GetNumberOfRegions ml))) Hinv)
    as (its & Hm & H0 & Hp).
  { intros id Hid. apply in_seq in Hid. fold ml. lia. }
  pose proof (Permutation_trans Hp (concat_regions c Hinv)) as Hp'. clear Hp.
  rename Hp' into Hp. fold ml E in Hp.
  unfold DefaultPackageMaker_Make. fold ml. cbv zeta. fold ml in Hm. rewrite Hm. cbn [bind].
  set (max_size := fold_left _ its 0).
  destruct (fold_max its 0 ltac:(lia)) as (Hm1 & Hm2 & Hm3). fold max_size in Hm1, Hm2, Hm3.
  pose proof (Permutation_length Hp) as HpL.
  assert (Hin : forall it e, In it its -> In e (it_pixels it) -> In e E).
  { intros it e Hit He. eapply Permutation_in; [exact Hp|].
    apply in_concat. exists (it_pixels it). split; [apply in_map, Hit|exact He]. }
  destruct (make_loop_spec ml na Hr Hcl Hna (Z.to_nat max_size) 0 max_size its empty)
    as (W & p & Hl' & Hperm & Hwf & Hbeg & Hend & _ & Hrec).
  - lia.
  - lia.
  - apply Forall_forall. intros it Hit. apply list_elem_of_In in Hit.
    rewrite Forall_forall in H0. rewrite (H0 it (proj2 (list_elem_of_In _ _) Hit)).
    rewrite Forall_forall in Hm2.
    pose proof (Hm2 it (proj2 (list_elem_of_In _ _) Hit)).
    split; [lia|]. split; [nia|].
    apply Forall_forall. intros e He. apply list_elem_of_In in He.
    pose proof (Hin it e Hit He) as HeE.
    rewrite Forall_forall in HF, Hadc.
    destruct (HF e (proj2 (list_elem_of_In _ _) HeE)) as [Hx Ha].
    split; [exact Hx|]. split; [lia|]. apply Hadc, list_elem_of_In, HeE.
  - apply Forall_forall. intros it Hit. rewrite Forall_forall in H0, Hm2.
    unfold remaining. rewrite (H0 it Hit). change (Z.to_nat 0) with 0%nat. rewrite skipn_0.
    pose proof (Hm2 it Hit). lia.
  - apply wf_empty.
  - exists W, p. split; [exact Hl'|].
    split.
    { rewrite Hperm. rewrite <- Hp. apply Permutation_refl'. f_equal. apply map_ext_in.
      intros it Hit. rewrite Forall_forall in H0. unfold remaining.
      rewrite (H0 it (proj2 (list_elem_of_In _ _) Hit)). reflexivity. }
    split; [exact Hwf|]. split; [exact Hbeg|]. split; [rewrite Hend; reflexivity|exact Hrec].
Qed.

(** [PixelMultiRegion::AddPixel] of a new pixel of the layout. *)
Lemma AddPixel_ok c px a :
  chip_inv c -> IsPixelInside (base (multi_region_layout c)) px = true ->
  ~ In px (map fst (pixels (base_region c))) ->
  exists c', AddPixel c px a = Ok c' /\ multi_region_layout c' = multi_region_layout c /\
    pixels (base_region c') = map_insert px (a mod 2 ^ 16) (pixels (base_region c)).
Proof.
  intros Hinv Hin Hnew. pose proof Hinv as (Hc & HN & HM & Hl & Hs & HF & Hregs).
  unfold AddPixel, AddPixel_region.
  rewrite (CheckPixel_inside (Chips.region_layout (base_region c)) px) by (rewrite Hl; exact Hin).
  cbn [bind].
  destruct (existsb _ _) eqn:Ee.
  { exfalso. apply existsb_key in Ee. contradiction. }
  cbn [bind].
  destruct (Z.le_gt_cases (GetNumberOfRegions (multi_region_layout c)) 1) as [Hn|Hn].
  - unfold AddPixelToRegion. cbn [multi_region_layout].
    rewrite (proj2 (Z.leb_le _ _) Hn). eexists. split; [reflexivity|]. split; reflexivity.
  - destruct (Hregs ltac:(lia)) as [Hlen Hslots].
    assert (HFE : Forall (fun e => IsPixelInside (base (multi_region_layout c)) e.1 = true)
                    (pixels (base_region c))).
    { eapply Forall_impl; [exact HF|]. intros x [Hx _]. exact Hx. }
    destruct (add_to_region_step
        (mkPixelRegion (Chips.region_layout (base_region c))
           (map_insert px (a mod 2 ^ 16) (pixels (base_region c))))
        (multi_region_layout c) (regions c) (pixels (base_region c)) px a
        Hc HN HM ltac:(lia) Hlen Hslots HFE Hin Hnew) as [regs' [Hstep _]].
    rewrite Hstep. eexists. split; [reflexivity|]. split; reflexivity.
Qed.

Lemma make_Chip_ok ml :
  constructed ml -> n_rows (base ml) <= 2 ^ 15 -> n_columns (base ml) <= 2 ^ 15 ->
  exists c, make_Chip ml = Ok c /\ chip_inv c /\ multi_region_layout c = ml /\
    pixels (base_region c) = [].
Proof.
  intros Hc HN HM.
  assert (Hm : exists c, make_Chip ml = Ok c /\ multi_region_layout c = ml /\ pixels (base_region c) = []).
  { unfold make_Chip, CreateRegions. cbn [multi_region_layout base_region pixels fold_left].
    destruct (1 <? GetNumberOfRegions ml); (eexists; split; [reflexivity|split; reflexivity]). }
  destruct Hm as (c & Hm & Hl & Hp). exists c. split; [exact Hm|]. split; [|tauto].
  unfold make_Chip in Hm. eapply CreateRegions_inv; try eassumption; try reflexivity; constructor.
Qed.

(** Two sorted pixel maps with the same entries are equal. *)
Lemma sorted_perm_eq (a b : list (Pixel * Z)) :
  keys_sorted a -> keys_sorted b -> Permutation a b -> a = b.
Proof.
  revert b. induction a as [|x a IH]; intros b Ha Hb H.
  - symmetry. apply Permutation_nil, H.
  - destruct b as [|y b]; [apply Permutation_length in H; discriminate|].
    unfold keys_sorted in *.
    apply StronglySorted_inv in Ha as [Ha Hfa]. apply StronglySorted_inv in Hb as [Hb Hfb].
    assert (Hx : In x (y :: b)) by (eapply Permutation_in; [exact H|left; reflexivity]).
    destruct Hx as [<-|Hx].
    + f_equal. apply IH; [exact Ha|exact Hb|]. eapply Permutation_cons_inv, H.
    + assert (Hy : In y (x :: a)) by (eapply Permutation_in; [symmetry; exact H|left; reflexivity]).
      destruct Hy as [->|Hy].
      * f_equal. apply IH; [exact Ha|exact Hb|]. eapply Permutation_cons_inv, H.
      * exfalso. rewrite List.Forall_forall in Hfa, Hfb.
        pose proof (Hfa y Hy) as H1. pose proof (Hfb x Hx) as H2.
        rewrite (pixel_ltb_asym _ _ H1) in H2. discriminate.
Qed.

Section Read.
Variable ml : MultiRegionLayout.
Variable na : Z.
Hypothesis Hr : 1 <= n_rows (base ml) <= 2 ^ 15.
Hypothesis Hc : 1 <= n_columns (base ml) <= 2 ^ 15.
Hypothesis Hna : 0 <= na <= 64.

Let nb := BitsPerValue (GetNumberOfPixels (base ml)).

Lemma read_pixels_loop_spec fuel W q pos ch :
  wf q -> end_pos q < 2 ^ 64 -> 0 <= pos -> 1 <= nb + na ->
  pos + Z.of_nat (length W) * (nb + na) = end_pos q ->
  records (n_columns (base ml)) nb na (data q) pos W ->
  Forall (fun e => IsPixelInside (base ml) e.1 = true /\ 0 <= e.2 < 2 ^ na /\ e.2 < 2 ^ 16) W ->
  NoDup (map fst W) ->
  chip_inv ch -> multi_region_layout ch = ml ->
  (forall x, In x (map fst W) -> ~ In x (map fst (pixels (base_region ch)))) ->
  (length W < fuel)%nat ->
  exists c', read_pixels_loop fuel ml nb na q pos ch = Some (Ok c') /\
    chip_inv c' /\ multi_region_layout c' = ml /\
    Permutation (pixels (base_region c')) (W ++ pixels (base_region ch)).
Proof.
  destruct (DeltaExtra.BitsPerId_bounds (base ml) Hr Hc) as [Hnb HN]. fold nb in Hnb, HN.
  revert fuel pos ch. induction W as [|[px a] W IH]; intros fuel pos ch Hw Hq Hpos H1 Hend Hrec HF Hnd Hinv Hml Hdis Hfuel;
    (destruct fuel as [|fuel]; [cbn in Hfuel; lia|]); cbn [read_pixels_loop].
  - cbn [length] in Hend. replace pos with (end_pos q) by lia. rewrite Z.eqb_refl.
    exists ch. split; [reflexivity|]. split; [exact Hinv|]. split; [exact Hml|reflexivity].
  - cbn [length] in Hend, Hfuel. rewrite Nat2Z.inj_succ in Hend.
    assert (HW0 : 0 <= Z.of_nat (length W) * (nb + na)) by nia.
    rewrite (proj2 (Z.eqb_neq pos (end_pos q))) by nia.
    destruct Hrec as (Hf1 & Hf2 & Hrec). cbn [fst snd] in Hf1, Hf2.
    apply Forall_cons in HF as [[Hpx [Ha Ha16]] HF]. cbn [fst snd] in Hpx, Ha, Ha16.
    pose proof (DictExtra.pixel_inside_bounds (base ml) px Hpx) as Hb.
    assert (Hid : 0 <= row px * n_columns (base ml) + column px < 2 ^ nb).
    { assert (GetNumberOfPixels (base ml) = n_rows (base ml) * n_columns (base ml))
        by (unfold GetNumberOfPixels; apply sz_small; nia).
      nia. }
    rewrite (read_spec q pos nb false Hw ltac:(lia) ltac:(nia) ltac:(lia) ltac:(lia)). cbn [bind].
    rewrite (bits_msb_value (data q) pos (Z.to_nat nb) (row px * n_columns (base ml) + column px)).
    2:{ rewrite Z2Nat.id by lia. exact Hf1. }
    2:{ rewrite Z2Nat.id by lia. exact Hid. }
    rewrite (read_spec q (pos + nb) na false Hw ltac:(lia) ltac:(nia) ltac:(lia) Hna). cbn [bind].
    rewrite (bits_msb_value (data q) (pos + nb) (Z.to_nat na) a).
    2:{ rewrite Z2Nat.id by lia. exact Hf2. }
    2:{ rewrite Z2Nat.id by lia. exact Ha. }
    rewrite (DeltaExtra.GetPixel_inside (base ml) Hr Hc px Hpx). cbn [bind].
    cbn [map] in Hnd, Hdis. apply NoDup_cons in Hnd as [Hpxn Hnd].
    assert (Hnew : ~ In px (map fst (pixels (base_region ch)))) by (apply Hdis; left; reflexivity).
    destruct (AddPixel_ok ch px (a mod 2 ^ 16) Hinv ltac:(rewrite Hml; exact Hpx) Hnew)
      as (c1 & Hadd & Hml1 & Hp1).
    rewrite Hadd. cbn [bind].
    rewrite !(Z.mod_small a (2 ^ 16)) in Hp1 by lia.
    pose proof (AddPixel_inv ch px (a mod 2 ^ 16) c1 Hinv Hadd) as Hinv1.
    destruct (IH fuel (pos + nb + na) c1 Hw Hq ltac:(lia) H1 ltac:(lia)
        ltac:(replace (pos + nb + na) with (pos + (nb + na)) by lia; exact Hrec)
        HF Hnd Hinv1 ltac:(congruence)) as (c' & Hread & Hinv' & Hml' & Hp').
    + intros x Hx Hx1. rewrite Hp1 in Hx1.
      apply (Permutation_in _ (Permutation_map fst (map_insert_perm px a _))) in Hx1.
      destruct Hx1 as [Hx1|Hx1].
      * cbn in Hx1. subst x. apply Hpxn, list_elem_of_In, Hx.
      * apply (Hdis x); [right; exact Hx|exact Hx1].
    + lia.
    + exists c'. split; [exact Hread|]. split; [exact Hinv'|]. split; [exact Hml'|].
      rewrite Hp', Hp1, map_insert_perm. cbn [app]. symmetry. apply Permutation_middle.
Qed.

End Read.

Lemma make4_ok nr nc a b :
  1 <= nr < 2 ^ 53 -> 1 <= nc < 2 ^ 53 -> 1 <= a -> 1 <= b ->
  exists m, make_MultiRegionLayout4 nr nc a b = Ok m.
Proof.
  intros Hr Hc Ha Hb.
  pose proof (ceil_div_spec nr a ltac:(lia) Ha) as [Hrr1 Hrr2].
  pose proof (ceil_div_spec nc b ltac:(lia) Hb) as [Hrc1 Hrc2].
  set (rr := ceil_div nr a) in *. set (rc := ceil_div nc b) in *.
  pose proof (ceil_div_spec nr rr ltac:(lia) ltac:(lia)) as [Hn1 Hn2].
  pose proof (ceil_div_spec nc rc ltac:(lia) ltac:(lia)) as [Hm1 Hm2].
  set (nrr := ceil_div nr rr) in *. set (nrc := ceil_div nc rc) in *.
  unfold make_MultiRegionLayout4, make_RegionLayout.
  destruct ((nr =? 0) || (nc =? 0)) eqn:E0.
  { exfalso. apply Bool.orb_true_iff in E0. destruct E0 as [E|E]; apply Z.eqb_eq in E; lia. }
  cbn [bind]. fold rr rc. fold nrr nrc.
  destruct ((nrr =? 0) || (nrc =? 0)) eqn:E1.
  { exfalso. apply Bool.orb_true_iff in E1. destruct E1 as [E|E]; apply Z.eqb_eq in E; lia. }
  eexists. reflexivity.
Qed.

(** [CreateRegions] does not throw on pixels of the layout; it keeps the
    base region and the layout. *)
Lemma CreateRegions_ok b ml regs :
  constructed ml -> n_rows (base ml) <= 2 ^ 15 -> n_columns (base ml) <= 2 ^ 15 ->
  keys_sorted (pixels b) ->
  Forall (fun e => IsPixelInside (base ml) e.1 = true /\ 0 <= e.2 < 2 ^ 16) (pixels b) ->
  exists c', CreateRegions (mkPixelMultiRegion b ml regs) = Ok c' /\
    base_region c' = b /\ multi_region_layout c' = ml.
Proof.
  intros Hc HN HM Hs HF. unfold CreateRegions. cbn [multi_region_layout base_region].
  destruct (Z.ltb_spec 1 (GetNumberOfRegions ml)) as [Hn|Hn].
  - destruct (create_fold b ml (pixels b) [] (repeat None (Z.to_nat (GetNumberOfRegions ml))))
      as [regs' [Hrun _]]; try assumption.
    + apply repeat_length.
    + intros id _. rewrite nth_repeat. reflexivity.
    + apply keys_sorted_nodup. exact Hs.
    + rewrite Hrun. eexists. split; [reflexivity|split; reflexivity].
  - eexists. split; [reflexivity|split; reflexivity].
Qed.

(** The splitting constructor of [PixelMultiRegion] does not throw for
    region counts of at least one; it keeps the pixels and the size. *)
Lemma split_Chip_ok c a b :
  chip_inv c -> 1 <= a < 2 ^ 64 -> 1 <= b < 2 ^ 64 ->
  exists c', split_Chip c a b = Ok c' /\ chip_inv c' /\ base_region c' = base_region c /\
    base (multi_region_layout c') = base (multi_region_layout c).
Proof.
  intros Hinv Ha Hb. pose proof Hinv as (Hc & HN & HM & Hl & Hs & HF & _).
  destruct (layout_facts _ Hc HN HM) as (N & M & R & C & Hbm & _ & HN1 & HM1 & _).
  assert (Hsp : exists c', split_Chip c a b = Ok c' /\ base_region c' = base_region c /\
    base (multi_region_layout c') = base (multi_region_layout c)).
  { unfold split_Chip. rewrite Hl, Hbm. cbn [n_rows n_columns].
    destruct (make4_ok N M a b ltac:(lia) ltac:(lia) ltac:(lia) ltac:(lia)) as [ml' Em].
    rewrite Em. cbn [bind].
    pose proof (make4_base _ _ _ _ _ Em) as Hb'.
    assert (Hc' : constructed ml') by (apply (constructed4 N M a b); try assumption; lia).
    destruct (CreateRegions_ok (base_region c) ml' [] Hc') as (c' & Hcr & Hbr & Hml).
    - rewrite Hb'. simpl. lia.
    - rewrite Hb'. simpl. lia.
    - exact Hs.
    - rewrite Hb', <- Hbm. exact HF.
    - exists c'. split; [exact Hcr|]. split; [exact Hbr|]. rewrite Hml, Hb'. reflexivity. }
  destruct Hsp as (c' & Hsp & Hbr & Hbl). exists c'. split; [exact Hsp|].
  split; [|split; assumption]. apply (split_inv c a b c'); [exact Hinv|lia|lia|exact Hsp].
Qed.

(** [DefaultPackageMaker::Read], on any constructed layout of the chip's
    size, of what [DefaultPackageMaker::Make] writes for the chip. *)
Lemma Make_Read c na L :
  chip_inv c -> constructed L -> base L = base (multi_region_layout c) -> 0 <= na <= 64 ->
  1 <= BitsPerValue (GetNumberOfPixels (base L)) + na ->
  Forall (fun e => e.2 < 2 ^ na) (pixels (base_region c)) ->
  exists package c',
    DefaultPackageMaker_Make na c = Ok package /\
    DefaultPackageMaker_Read na package L = Some (Ok c') /\
    multi_region_layout c' = L /\ pixels (base_region c') = pixels (base_region c).
Proof.
  intros Hinv HcL HbL Hna H1 Hadc. pose proof Hinv as (Hc & HN & HM & Hl & Hs & HF & _).
  set (ml := multi_region_layout c) in *.
  destruct (layout_facts ml Hc HN HM) as (N & M & R & C & Hb & _ & HN1 & HM1 & _).
  assert (Hr : 1 <= n_rows (base L) <= 2 ^ 15) by (rewrite HbL, Hb; cbn; lia).
  assert (Hcl : 1 <= n_columns (base L) <= 2 ^ 15) by (rewrite HbL, Hb; cbn; lia).
  destruct (DeltaExtra.BitsPerId_bounds (base L) Hr Hcl) as [Hnb _].
  set (nb := BitsPerValue (GetNumberOfPixels (base L))) in *.
  pose proof (chip_length c Hinv) as HL. fold ml in HL. rewrite <- HbL in HL.
  set (E := pixels (base_region c)) in *.
  destruct (Make_records c na Hinv Hna Hadc) as (W & p & Hm & Hperm & Hwf & Hbeg & Hend & Hrec).
  fold ml E in Hperm, Hend, Hrec. rewrite <- HbL in Hend, Hrec. fold nb in Hend, Hrec.
  pose proof (Permutation_length Hperm) as HWL.
  assert (Hend' : end_pos p < 2 ^ 64) by (rewrite Hend, HWL; nia).
  destruct (make_Chip_ok L HcL ltac:(lia) ltac:(lia)) as (ch & Hch & Hchinv & Hchl & Hchp).
  destruct (read_pixels_loop_spec L na Hr Hcl Hna
      (S (Z.to_nat (sz (end_pos p - begin_pos p)))) W p 0 ch Hwf Hend' ltac:(lia) H1
      ltac:(rewrite Hend; lia) Hrec)
    as (c' & Hread & Hinv' & Hml' & Hp').
  - eapply Permutation_Forall; [symmetry; exact Hperm|].
    apply Forall_forall. intros e He. rewrite Forall_forall in HF, Hadc.
    destruct (HF e He) as [Hx Ha]. rewrite HbL. split; [exact Hx|]. split; [|lia].
    pose proof (Hadc e He). lia.
  - rewrite (Permutation_map fst Hperm). apply keys_sorted_nodup, Hs.
  - exact Hchinv.
  - exact Hchl.
  - rewrite Hchp. intros x _ [].
  - rewrite Hbeg, Z.sub_0_r, sz_small by lia. rewrite Hend. nia.
  - exists p, c'. split; [exact Hm|].
    split.
    { unfold DefaultPackageMaker_Read. fold nb. rewrite Hch. rewrite Hbeg in Hread |- *. exact Hread. }
    split; [exact Hml'|].
    apply sorted_perm_eq; [apply Hinv'|exact Hs|].
    rewrite Hp', Hchp, app_nil_r. exact Hperm.
Qed.

(** X19: what [DefaultPackageMaker::Read] gets back from the package
    [DefaultPackageMaker::Make] writes for a chip the program built, on the
    chip's layout, when every ADC fits the [n_bits_per_adc] bits and a
    record is at least one bit wide: Make does not throw, Read ends without
    throwing, and the chip it returns has the same layout and the same
    pixels with the same ADCs, so [operator==] ([HasSamePixels]) holds. *)
Theorem DefaultPackageMaker_Read_Make c n_bits_per_adc :
  chip_built c -> 0 <= n_bits_per_adc <= 64 ->
  1 <= BitsPerValue (GetNumberOfPixels (base (multi_region_layout c))) + n_bits_per_adc ->
  Forall (fun e => e.2 < 2 ^ n_bits_per_adc) (pixels (base_region c)) ->
  exists package c',
    DefaultPackageMaker_Make n_bits_per_adc c = Ok package /\
    DefaultPackageMaker_Read n_bits_per_adc package (multi_region_layout c) = Some (Ok c') /\
    multi_region_layout c' = multi_region_layout c /\
    pixels (base_region c') = pixels (base_region c) /\
    HasSamePixels (base_region c') (base_region c) = true.
Proof.
  intros Hbuilt Hna H1 Hadc. pose proof (chip_built_inv c Hbuilt) as Hinv.
  destruct (Make_Read c n_bits_per_adc (multi_region_layout c) Hinv (proj1 Hinv) eq_refl Hna H1 Hadc)
    as (p & c' & Hm & Hread & Hml & Heq).
  exists p, c'. split; [exact Hm|]. split; [exact Hread|]. split; [exact Hml|].
  split; [exact Heq|].
  unfold HasSamePixels. rewrite Heq, Nat.eqb_refl. cbn [negb].
  rewrite same_pixels_loop_spec by reflexivity. apply bool_decide_eq_true_2. reflexivity.
Qed.

Lemma DefaultPackageMaker_Read_Make_witness :
  exists package c',
    DefaultPackageMaker_Make 7 sample_chip = Ok package /\
    DefaultPackageMaker_Read 7 package (multi_region_layout sample_chip) = Some (Ok c') /\
    multi_region_layout c' = multi_region_layout sample_chip /\
    pixels (base_region c') = pixels (base_region sample_chip) /\
    HasSamePixels (base_region c') (base_region sample_chip) = true.
Proof.
  apply (DefaultPackageMaker_Read_Make sample_chip 7 sample_chip_built).
  - lia.
  - vm_compute. intros H. discriminate H.
  - vm_compute. repeat constructor.
Defined.

(** X20: when a record is zero bits wide (a one-pixel layout, whose pixel
    id takes no bits, and zero-bit ADCs), [DefaultPackageMaker::Make] of a
    chip the program built writes an empty package, and
    [DefaultPackageMaker::Read] of it returns a chip on the same layout with
    no pixels at all: the pixel of the chip is not read back. *)
Theorem DefaultPackageMaker_zero_width c n_bits_per_adc :
  chip_built c -> 0 <= n_bits_per_adc ->
  BitsPerValue (GetNumberOfPixels (base (multi_region_layout c))) + n_bits_per_adc = 0 ->
  Forall (fun e => e.2 < 2 ^ n_bits_per_adc) (pixels (base_region c)) ->
  exists package c',
    DefaultPackageMaker_Make n_bits_per_adc c = Ok package /\ end_pos package = 0 /\
    DefaultPackageMaker_Read n_bits_per_adc package (multi_region_layout c) = Some (Ok c') /\
    multi_region_layout c' = multi_region_layout c /\ pixels (base_region c') = [].
Proof.
  intros Hbuilt Hna H0 Hadc. pose proof (chip_built_inv c Hbuilt) as Hinv.
  pose proof Hinv as (Hc & HN & HM & _).
  set (ml := multi_region_layout c) in *.
  destruct (layout_facts ml Hc HN HM) as (N & M & R & C & Hb & _ & HN1 & HM1 & _).
  assert (Hr : 1 <= n_rows (base ml) <= 2 ^ 15) by (rewrite Hb; cbn; lia).
  assert (Hcl : 1 <= n_columns (base ml) <= 2 ^ 15) by (rewrite Hb; cbn; lia).
  destruct (DeltaExtra.BitsPerId_bounds (base ml) Hr Hcl) as [Hnb _].
  destruct (Make_records c n_bits_per_adc Hinv ltac:(lia) Hadc)
    as (W & p & Hm & _ & _ & Hbeg & Hend & _).
  fold ml in Hend. rewrite H0, Z.mul_0_r in Hend.
  destruct (make_Chip_ok ml Hc HN HM) as (ch & Hch & _ & Hchl & Hchp).
  exists p, ch. split; [exact Hm|]. split; [exact Hend|].
  split; [|split; [exact Hchl|exact Hchp]].
  unfold DefaultPackageMaker_Read. rewrite Hch, Hbeg, Hend. cbn [read_pixels_loop]. rewrite Hend. reflexivity.
Qed.

Lemma one_pixel_chip_built : chip_built one_pixel_chip.
Proof.
  apply (chip_built_add one_pixel_chip0 (mkPixel 0 0) 0).
  - apply (chip_built_make one_pixel_layout).
    + apply (constructed4 1 1 1 1); try lia. vm_compute. reflexivity.
    + vm_compute. discriminate.
    + vm_compute. discriminate.
    + vm_compute. reflexivity.
  - vm_compute. reflexivity.
Qed.

Lemma DefaultPackageMaker_zero_width_witness :
  pixels (base_region one_pixel_chip) = [(mkPixel 0 0, 0)] /\
  exists package c',
    DefaultPackageMaker_Make 0 one_pixel_chip = Ok package /\ end_pos package = 0 /\
    DefaultPackageMaker_Read 0 package (multi_region_layout one_pixel_chip) = Some (Ok c') /\
    multi_region_layout c' = multi_region_layout one_pixel_chip /\ pixels (base_region c') = [].
Proof.
  split; [vm_compute; reflexivity|].
  apply (DefaultPackageMaker_zero_width one_pixel_chip 0 one_pixel_chip_built).
  - lia.
  - vm_compute. reflexivity.
  - vm_compute. repeat constructor.
Defined.

(** X21: [ChipDataEncoder::Decode] of [ChipDataEncoder::Encode] in the
    [SinglePixel] format, for a chip the program built whose size is the
    size of [chip_layout], every ADC below [max_adc] and a record at least
    one bit wide: Encode does not throw, whether it packs the chip as it is
    (same layout by [operator==]) or splits it into the regions of
    [chip_layout] first, and Decode returns a chip on [chip_layout] with the
    pixels and ADCs of the original. *)
Theorem SinglePixel_Decode_Encode chip_layout max_adc original :
  chip_built original -> constructed chip_layout ->
  base chip_layout = base (multi_region_layout original) ->
  0 <= max_adc < 2 ^ 64 ->
  2 <= n_rows (base chip_layout) * n_columns (base chip_layout) \/ 2 <= max_adc ->
  Forall (fun e => e.2 < max_adc) (pixels (base_region original)) ->
  exists package c',
    Encode_SinglePixel chip_layout max_adc original = Ok package /\
    Decode_SinglePixel chip_layout max_adc package = Some (Ok c') /\
    multi_region_layout c' = chip_layout /\
    pixels (base_region c') = pixels (base_region original).
Proof.
  intros Hbuilt HcL HbL Hmax H2 Hadc. pose proof (chip_built_inv original Hbuilt) as Hinv.
  pose proof Hinv as (Hc & HN & HM & Hl & Hs & HF & _).
  destruct (layout_facts _ Hc HN HM) as (N & M & R & C & Hb & _ & HN1 & HM1 & _).
  destruct (layout_facts chip_layout HcL ltac:(rewrite HbL; lia) ltac:(rewrite HbL; lia))
    as (N' & M' & R' & C' & Hb' & _ & HN1' & HM1' & _ & _ & Hnrr & Hnrc & _).
  set (na := BitsPerValue max_adc).
  assert (Hna : 0 <= na <= 64).
  { unfold na, BitsPerValue. split; [apply Z.log2_up_nonneg|].
    destruct (Z.le_gt_cases max_adc 0) as [H0|H0].
    - rewrite Z.log2_up_nonpos by exact H0. lia.
    - apply Z.log2_up_le_pow2; lia. }
  assert (Hadc' : Forall (fun e => e.2 < 2 ^ na) (pixels (base_region original))).
  { apply Forall_forall. intros e He. rewrite Forall_forall in HF, Hadc.
    pose proof (HF e He) as [_ Ha]. pose proof (Hadc e He) as Hlt.
    assert (max_adc <= 2 ^ na) by (apply Z.log2_up_le_pow2; unfold na, BitsPerValue; lia). lia. }
  assert (H1 : 1 <= BitsPerValue (GetNumberOfPixels (base chip_layout)) + na).
  { unfold GetNumberOfPixels, na, BitsPerValue. rewrite Hb' in H2 |- *. cbn [n_rows n_columns] in H2 |- *.
    rewrite sz_small by nia.
    pose proof (Z.log2_up_nonneg (N' * M')). pose proof (Z.log2_up_nonneg max_adc).
    destruct H2 as [H2|H2]; [pose proof (Z.log2_up_pos (N' * M') ltac:(lia))
                            |pose proof (Z.log2_up_pos max_adc ltac:(lia))]; lia. }
  unfold Encode_SinglePixel, Decode_SinglePixel. fold na.
  destruct (multi_layout_eqb (multi_region_layout original) chip_layout).
  - cbn [bind]. exact (Make_Read original na chip_layout Hinv HcL HbL Hna H1 Hadc').
  - destruct (split_Chip_ok original (n_region_rows chip_layout) (n_region_columns chip_layout) Hinv
        ltac:(lia) ltac:(lia)) as (c2 & Hsp & Hinv2 & Hbr & Hbl).
    rewrite Hsp. cbn [bind].
    destruct (Make_Read c2 na chip_layout Hinv2 HcL ltac:(rewrite Hbl; exact HbL) Hna H1
        ltac:(rewrite Hbr; exact Hadc')) as (p & c' & Hm & Hread & Hml & Heq).
    exists p, c'. rewrite Hbr in Heq. tauto.
Qed.

Lemma SinglePixel_Decode_Encode_witness :
  exists package c',
    Encode_SinglePixel single_region_layout 128 sample_chip = Ok package /\
    Decode_SinglePixel single_region_layout 128 package = Some (Ok c') /\
    multi_region_layout c' = single_region_layout /\
    pixels (base_region c') = pixels (base_region sample_chip).
Proof.
  apply (SinglePixel_Decode_Encode single_region_layout 128 sample_chip sample_chip_built).
  - apply (constructed4 10 10 1 1); try lia. vm_compute. reflexivity.
  - vm_compute. reflexivity.
  - lia.
  - right. lia.
  - vm_compute. repeat constructor.
Defined.

End MakeReadExtra.

(* ------------------------------------------------------------------ *)
(** ** BlockPackageMaker: [Read] after [Make] in raw mode *)

Module BlockExtra.
Import Machine Pkg PkgView PkgBits Geo GeoClaims Chips ChipView ChipExtra MakeReadExtra BlockMaker.

(** The cells of a readout unit, row after row, as the two [for] loops
    visit them. *)
Definition cells (u : RegionLayout) : list (nat * nat) :=
  concat (map (fun r => map (fun c => (r, c)) (seq 0 (Z.to_nat (n_columns u))))
              (seq 0 (Z.to_nat (n_rows u)))).

(** [Pixel(row, column)] of a cell. *)
Definition cell_pixel (rc : nat * nat) : Pixel :=
  mkPixel (to_i16 (Z.of_nat rc.1)) (to_i16 (Z.of_nat rc.2)).

(** The ADCs [Make] writes for a readout unit. *)
Definition unit_values (u : RegionLayout) (U : PixelRegion) : list Z :=
  map (fun rc => GetAdc U (cell_pixel rc)) (cells u).

(** Consecutive [n]-bit fields holding [vs]. *)
Fixpoint vfields (d : list Z) (pos n : Z) (vs : list Z) : Prop :=
  match vs with
  | [] => True
  | v :: vs' => field d pos n v /\ vfields d (pos + n) n vs'
  end.

(** The size of one record: the full region id and the cells. *)
Definition record_size (u : RegionLayout) (nb na : Z) : Z :=
  nb + Z.of_nat (length (cells u)) * na.

(** The chip pixel of a cell of readout unit [region_id] of macro-region
    [macro_region_id], as [Read] computes it. *)
Definition unit_pixel (ml L2 : MultiRegionLayout) (m rid : Z) (rc : nat * nat) : Pixel :=
  ConvertFromRegionPixel ml m (ConvertFromRegionPixel L2 rid (cell_pixel rc)).

(** The pixels [Read] adds for a record: the cells with a non-zero ADC. *)
Definition added (ml L2 : MultiRegionLayout) (u : RegionLayout) (r : Z * Z * PixelRegion)
    : list (Pixel * Z) :=
  List.filter (fun e => negb (e.2 =? 0))
    (map (fun rc => (unit_pixel ml L2 r.1.1 r.1.2 rc, GetAdc r.2 (cell_pixel rc))) (cells u)).

(** One turn of the two [for] loops of [Read]. *)
Definition read_cell (ml L2 : MultiRegionLayout) (na : Z) (q : Package) (m rid : Z)
    (acc : result (Z * PixelMultiRegion)) (rc : nat * nat) : result (Z * PixelMultiRegion) :=
  let* (pos, chip) := acc in
  let* (value, pos') := read q pos na false in
  let adc := value mod 2 ^ 16 in
  if adc =? 0 then Ok (pos', chip) else
  let* chip := AddPixel chip (unit_pixel ml L2 m rid rc) adc in
  Ok (pos', chip).

(** The records of [BlockPackageMaker] from [pos] on, one per readout unit
    [(macro_region_id, region_id, region)]. *)
Fixpoint brecords (u : RegionLayout) (nmac nb na : Z) (d : list Z) (pos : Z)
    (Rs : list (Z * Z * PixelRegion)) : Prop :=
  match Rs with
  | [] => True
  | r :: Rs' => field d pos nb (GetFullRegionId r.1.1 r.1.2 nmac) /\
                vfields d (pos + nb) na (unit_values u r.2) /\
                brecords u nmac nb na d (pos + record_size u nb na) Rs'
  end.

(** The readout units of [region_pixels], and the first one of every
    macro-region. *)
Definition recs (coll : list (Z * list (Z * PixelRegion))) : list (Z * Z * PixelRegion) :=
  concat (map (fun mr => map (fun ru => (mr.1, ru.1, ru.2)) mr.2) coll).

Definition firsts (coll : list (Z * list (Z * PixelRegion))) : list (Z * Z * PixelRegion) :=
  concat (map (fun mr => map (fun ru => (mr.1, ru.1, ru.2)) (firstn 1 mr.2)) coll).

Lemma fold_left_map' {A B C} (f : A -> B -> A) (g : C -> B) l a :
  fold_left f (map g l) a = fold_left (fun acc x => f acc (g x)) l a.
Proof. revert a. induction l as [|x l IH]; intros a; [reflexivity|]. apply IH. Qed.

Lemma fold_nested {A} (f : A -> nat -> nat -> A) rows cols a :
  fold_left (fun acc r => fold_left (fun acc c => f acc r c) cols acc) rows a =
  fold_left (fun acc rc => f acc rc.1 rc.2) (concat (map (fun r => map (fun c => (r, c)) cols) rows)) a.
Proof.
  revert a. induction rows as [|r rows IH]; intros a; [reflexivity|].
  cbn [fold_left map concat]. rewrite fold_left_app, IH, fold_left_map'. reflexivity.
Qed.

Lemma write_unit_values u na U p :
  write_unit u na U p =
    fold_left (fun acc v => let* p := acc in write_or_throw p v na) (unit_values u U) (Ok p).
Proof.
  unfold write_unit, unit_values, cells. rewrite fold_left_map'. apply fold_nested.
Qed.

Lemma fail_fold {A B} (f : A -> B -> result A) l e :
  fold_left (fun acc x => let* a := acc in f a x) l (Err e) = Err e.
Proof. induction l as [|x l IH]; [reflexivity|]. exact IH. Qed.

Lemma vfields_ext d d' pos n vs :
  0 <= n ->
  (forall i, pos <= i < pos + Z.of_nat (length vs) * n -> bit_at d' i = bit_at d i) ->
  vfields d pos n vs -> vfields d' pos n vs.
Proof.
  intros Hn. revert pos. induction vs as [|v vs IH]; intros pos Hk H; [exact I|].
  destruct H as [H1 H2]. cbn [length] in Hk. rewrite Nat2Z.inj_succ in Hk.
  assert (0 <= Z.of_nat (length vs) * n) by nia.
  split.
  - eapply field_ext; [|exact H1]. intros i Hi. apply Hk. nia.
  - apply IH; [|exact H2]. intros i Hi. apply Hk. nia.
Qed.

Lemma brecords_ext u nmac nb na d d' pos Rs :
  0 <= nb -> 0 <= na ->
  (forall i, pos <= i < pos + Z.of_nat (length Rs) * record_size u nb na -> bit_at d' i = bit_at d i) ->
  brecords u nmac nb na d pos Rs -> brecords u nmac nb na d' pos Rs.
Proof.
  intros Hb Ha. assert (Hw : 0 <= Z.of_nat (length (cells u)) * na) by nia.
  revert pos. induction Rs as [|r Rs IH]; intros pos Hk H; [exact I|].
  destruct H as (H1 & H2 & H3). cbn [length] in Hk. rewrite Nat2Z.inj_succ, Z.mul_succ_l in Hk.
  assert (0 <= Z.of_nat (length Rs) * record_size u nb na) by (unfold record_size; nia).
  assert (0 <= record_size u nb na) by (unfold record_size; nia).
  split; [|split].
  - eapply field_ext; [|exact H1]. intros i Hi. apply Hk. unfold record_size in *. lia.
  - eapply vfields_ext; [lia| |exact H2]. intros i Hi. apply Hk.
    unfold unit_values in Hi. rewrite length_map in Hi. unfold record_size in *. lia.
  - apply IH; [|exact H3]. intros i Hi. apply Hk. lia.
Qed.

Lemma brecords_app u nmac nb na d pos R1 R2 :
  brecords u nmac nb na d pos (R1 ++ R2) <->
  brecords u nmac nb na d pos R1 /\
  brecords u nmac nb na d (pos + Z.of_nat (length R1) * record_size u nb na) R2.
Proof.
  revert pos. induction R1 as [|r R1 IH]; intros pos.
  - cbn. rewrite Z.add_0_r. tauto.
  - cbn [app brecords length]. rewrite IH.
    replace (pos + record_size u nb na + Z.of_nat (length R1) * record_size u nb na)
      with (pos + Z.of_nat (S (length R1)) * record_size u nb na) by lia.
    tauto.
Qed.

(** Writing a list of values that fit, one [package.write] each. *)
Lemma write_values_spec na vs p :
  wf p -> 0 <= na <= 64 -> Forall (fun v => 0 <= v < 2 ^ na) vs ->
  exists p', fold_left (fun acc v => let* p := acc in write_or_throw p v na) vs (Ok p) = Ok p' /\
    wf p' /\ begin_pos p' = begin_pos p /\ end_pos p' = end_pos p + Z.of_nat (length vs) * na /\
    (forall i, 0 <= i < end_pos p -> bit_at (data p') i = bit_at (data p) i) /\
    vfields (data p') (end_pos p) na vs.
Proof.
  intros Hw Hna. revert p Hw. induction vs as [|v vs IH]; intros p Hw HF.
  - exists p. cbn. split; [reflexivity|]. split; [exact Hw|]. split; [reflexivity|].
    split; [lia|]. split; [reflexivity|exact I].
  - apply Forall_cons in HF as [Hv HF].
    destruct (write_or_throw_spec p v na Hw Hna Hv) as (p1 & Hw1 & Hwf1 & Hb1 & He1 & Hk1 & Hf1).
    destruct (IH p1 Hwf1 HF) as (p' & Hrun & Hwf' & Hb' & He' & Hk' & Hf').
    exists p'. cbn [fold_left bind]. rewrite Hw1. split; [exact Hrun|].
    split; [exact Hwf'|]. split; [congruence|]. cbn [length]. split; [lia|].
    split; [intros i Hi; rewrite Hk' by lia; apply Hk1; lia|].
    split.
    + assert (0 <= end_pos p) by (destruct Hw; lia).
      eapply field_ext; [|exact Hf1]. intros i Hi. apply Hk'. lia.
    + rewrite He1 in Hf'. exact Hf'.
Qed.

Section Write.
Variable u : RegionLayout.
Variables nb na nmac : Z.
Hypothesis Hnb : 0 <= nb <= 64.
Hypothesis Hna : 0 <= na <= 64.

Let recok (r : Z * Z * PixelRegion) : Prop :=
  0 <= GetFullRegionId r.1.1 r.1.2 nmac < 2 ^ nb /\
  Forall (fun v => 0 <= v < 2 ^ na) (unit_values u r.2).

Lemma recs_cons m regs coll :
  recs ((m, regs) :: coll) = map (fun ru => (m, ru.1, ru.2)) regs ++ recs coll.
Proof. reflexivity. Qed.

Lemma write_pass_spec coll p :
  wf p -> Forall (fun mr => mr.2 <> []) coll -> Forall recok (recs coll) ->
  exists coll' p', write_pass u nb na nmac coll p = Ok (coll', p') /\
    Permutation (recs coll) (firsts coll ++ recs coll') /\
    Forall (fun mr => mr.2 <> []) coll' /\ length (firsts coll) = length coll /\
    wf p' /\ begin_pos p' = begin_pos p /\
    end_pos p' = end_pos p + Z.of_nat (length (firsts coll)) * record_size u nb na /\
    (forall i, 0 <= i < end_pos p -> bit_at (data p') i = bit_at (data p) i) /\
    brecords u nmac nb na (data p') (end_pos p) (firsts coll).
Proof.
  assert (HK : 0 <= Z.of_nat (length (cells u)) * na) by nia.
  revert p. induction coll as [|[m regs] coll IH]; intros p Hw Hne Hok;
    assert (He0 : 0 <= end_pos p) by (destruct Hw; lia).
  - exists [], p. split; [reflexivity|]. split; [reflexivity|]. split; [constructor|].
    split; [reflexivity|]. split; [exact Hw|]. split; [reflexivity|]. split; [cbn; lia|].
    split; [reflexivity|exact I].
  - apply Forall_cons in Hne as [Hne1 Hne]. cbn [snd] in Hne1.
    destruct regs as [|[rid U] regs']; [congruence|].
    rewrite recs_cons in Hok. cbn [map app] in Hok.
    apply Forall_cons in Hok as [[Hid Hvals] Hok]. cbn [fst snd] in Hid, Hvals.
    apply Forall_app in Hok as [Hok1 Hok].
    destruct (write_or_throw_spec p _ nb Hw Hnb Hid) as (p1 & Hw1 & Hwf1 & Hb1 & He1 & Hk1 & Hf1).
    destruct (write_values_spec na (unit_values u U) p1 Hwf1 Hna Hvals)
      as (p2 & Hw2 & Hwf2 & Hb2 & He2 & Hk2 & Hf2).
    destruct (IH p2 Hwf2 Hne Hok) as (coll' & p' & Hw3 & Hperm & Hne' & Hlen & Hwf' & Hb' & He' & Hk' & Hf').
    exists (if (length regs' =? 0)%nat then coll' else (m, regs') :: coll'), p'.
    cbn [write_pass]. rewrite Hw1. cbn [bind]. rewrite write_unit_values, Hw2. cbn [bind].
    rewrite Hw3. cbn [bind].
    assert (Hr : recs (if (length regs' =? 0)%nat then coll' else (m, regs') :: coll') =
                 map (fun ru => (m, ru.1, ru.2)) regs' ++ recs coll')
      by (destruct regs'; reflexivity).
    assert (Hf : firsts ((m, (rid, U) :: regs') :: coll) = (m, rid, U) :: firsts coll) by reflexivity.
    unfold unit_values in He2. rewrite length_map in He2.
    split; [reflexivity|]. rewrite Hr, Hf, recs_cons. cbn [map app length fst snd].
    split.
    { constructor. rewrite Hperm. apply Permutation_app_swap_app. }
    split; [destruct regs'; [exact Hne'|constructor; [cbn; congruence|exact Hne']]|].
    split; [cbn [length] in Hlen |- *; lia|].
    split; [exact Hwf'|]. split; [congruence|].
    split; [rewrite Nat2Z.inj_succ, Z.mul_succ_l; unfold record_size in *; lia|].
    split; [intros i Hi; rewrite Hk', Hk2, Hk1 by lia; reflexivity|].
    assert (Hw0 : 0 <= Z.of_nat (length (firsts coll)) * record_size u nb na)
      by (unfold record_size; nia).
    split; [|split].
    + eapply field_ext; [|exact Hf1]. intros i Hi. rewrite Hk', Hk2 by lia. reflexivity.
    + rewrite <- He1. eapply vfields_ext; [lia| |exact Hf2]. intros i Hi.
      unfold unit_values in Hi. rewrite length_map in Hi. apply Hk'. lia.
    + replace (end_pos p + record_size u nb na) with (end_pos p2) by (unfold record_size; lia).
      exact Hf'.
Qed.

Lemma block_write_loop_spec fuel coll p :
  (length (recs coll) < fuel)%nat ->
  wf p -> Forall (fun mr => mr.2 <> []) coll -> Forall recok (recs coll) ->
  exists Rs p', write_regions_loop fuel u nb na nmac coll p = Ok p' /\
    Permutation Rs (recs coll) /\ wf p' /\ begin_pos p' = begin_pos p /\
    end_pos p' = end_pos p + Z.of_nat (length Rs) * record_size u nb na /\
    (forall i, 0 <= i < end_pos p -> bit_at (data p') i = bit_at (data p) i) /\
    brecords u nmac nb na (data p') (end_pos p) Rs.
Proof.
  revert coll p. induction fuel as [|fuel IH]; intros coll p Hfuel Hw Hne Hok; [lia|].
  destruct coll as [|mr coll0].
  { exists [], p. split; [reflexivity|]. split; [reflexivity|]. split; [exact Hw|].
    split; [reflexivity|]. split; [cbn; lia|]. split; [reflexivity|exact I]. }
  set (coll := mr :: coll0) in *.
  destruct (write_pass_spec coll p Hw Hne Hok)
    as (coll' & p1 & Hpass & Hperm & Hne' & Hlen & Hwf1 & Hb1 & He1 & Hk1 & Hf1).
  assert (Hok' : Forall recok (recs coll')).
  { pose proof Hok as H. rewrite Hperm in H. apply Forall_app in H. tauto. }
  pose proof (Permutation_length Hperm) as Hl. rewrite length_app in Hl.
  assert (Hc : (1 <= length coll)%nat) by (cbn; lia).
  destruct (IH coll' (next_readout_cicle p1) ltac:(lia) Hwf1 Hne' Hok')
    as (Rs' & p' & Hrun & Hperm' & Hwf' & Hb' & He' & Hk' & Hf').
  exists (firsts coll ++ Rs'), p'. cbn [write_regions_loop]. unfold coll at 1.
  fold coll. rewrite Hpass. cbn [bind]. split; [exact Hrun|].
  cbn [begin_pos end_pos data next_readout_cicle] in Hb', He', Hk', Hf'.
  split; [rewrite Hperm', Hperm; reflexivity|].
  split; [exact Hwf'|]. split; [congruence|].
  split; [rewrite length_app, Nat2Z.inj_add; lia|].
  assert (Hw0 : 0 <= Z.of_nat (length (firsts coll)) * record_size u nb na)
    by (unfold record_size; nia).
  split; [intros i Hi; rewrite Hk', Hk1 by lia; reflexivity|].
  apply brecords_app. split.
  - assert (0 <= end_pos p) by (destruct Hw; lia).
    eapply brecords_ext; [lia|lia| |exact Hf1]. intros i Hi. apply Hk'. lia.
  - rewrite <- He1. exact Hf'.
Qed.

End Write.

Lemma read_unit_cells ml L2 u na q m rid pos ch :
  read_unit ml L2 u na q m rid pos ch = fold_left (read_cell ml L2 na q m rid) (cells u) (Ok (pos, ch)).
Proof. unfold read_unit, cells. apply fold_nested. Qed.

Lemma full_id_split m rid nmac :
  0 <= m < nmac -> 0 <= rid -> rid * nmac + m < 2 ^ 64 ->
  GetFullRegionId m rid nmac = rid * nmac + m /\ SplitFullRegionId (rid * nmac + m) nmac = (m, rid).
Proof.
  intros Hm Hr H. unfold GetFullRegionId, SplitFullRegionId.
  assert (0 <= rid * nmac) by nia.
  rewrite (sz_small (rid * nmac)) by lia. rewrite sz_small by lia. split; [reflexivity|].
  rewrite Z.add_comm, Z.mod_add, Z.mod_small by lia.
  replace (m + rid * nmac - m) with (rid * nmac) by lia. rewrite sz_small by lia.
  rewrite Z.div_mul by lia. reflexivity.
Qed.

Section Read.
Variables ml L2 : MultiRegionLayout.
Variable u : RegionLayout.
Variables nb na nmac : Z.
Variable q : Package.
Hypothesis Hnb : 0 <= nb <= 64.
Hypothesis Hna : 0 <= na <= 64.
Hypothesis Hwf : wf q.
Hypothesis Hq64 : end_pos q < 2 ^ 64.

Lemma read_cells_spec m rid U cs pos ch :
  0 <= pos -> pos + Z.of_nat (length cs) * na <= end_pos q ->
  vfields (data q) pos na (map (fun rc => GetAdc U (cell_pixel rc)) cs) ->
  Forall (fun v => 0 <= v < 2 ^ na /\ v < 2 ^ 16) (map (fun rc => GetAdc U (cell_pixel rc)) cs) ->
  let A := List.filter (fun e => negb (e.2 =? 0))
             (map (fun rc => (unit_pixel ml L2 m rid rc, GetAdc U (cell_pixel rc))) cs) in
  Forall (fun e => IsPixelInside (base ml) e.1 = true) A ->
  NoDup (map fst A) ->
  chip_inv ch -> multi_region_layout ch = ml ->
  (forall x, In x (map fst A) -> ~ In x (map fst (pixels (base_region ch)))) ->
  exists ch', fold_left (read_cell ml L2 na q m rid) cs (Ok (pos, ch)) =
                Ok (pos + Z.of_nat (length cs) * na, ch') /\
    chip_inv ch' /\ multi_region_layout ch' = ml /\
    Permutation (pixels (base_region ch')) (A ++ pixels (base_region ch)).
Proof.
  revert pos ch. induction cs as [|rc cs IH]; intros pos ch Hpos Hend Hf HF A HA Hnd Hinv Hml Hdis.
  - exists ch. cbn. rewrite Z.add_0_r. split; [reflexivity|]. split; [exact Hinv|]. split; [exact Hml|reflexivity].
  - cbn [length] in Hend |- *. rewrite Nat2Z.inj_succ, Z.mul_succ_l in Hend |- *.
    assert (H0 : 0 <= Z.of_nat (length cs) * na) by nia.
    cbn [map] in Hf, HF. destruct Hf as [Hf1 Hf]. apply Forall_cons in HF as [[Hv Hv16] HF].
    set (v := GetAdc U (cell_pixel rc)) in *.
    cbn [fold_left]. unfold read_cell at 2. cbn [bind].
    rewrite (read_spec q pos na false Hwf Hpos ltac:(lia) ltac:(lia) Hna). cbn [bind].
    rewrite (bits_msb_value (data q) pos (Z.to_nat na) v).
    2:{ rewrite Z2Nat.id by lia. exact Hf1. }
    2:{ rewrite Z2Nat.id by lia. exact Hv. }
    rewrite (Z.mod_small v) by lia.
    unfold A in HA, Hnd, Hdis |- *. cbn [map List.filter fst snd] in HA, Hnd, Hdis |- *. fold v in HA, Hnd, Hdis |- *.
    destruct (Z.eqb_spec v 0) as [Hv0|Hv0]; cbn [negb] in HA, Hnd, Hdis |- *.
    + destruct (IH (pos + na) ch ltac:(lia) ltac:(lia) Hf HF HA Hnd Hinv Hml Hdis)
        as (ch' & Hrun & Hinv' & Hml' & Hp').
      exists ch'. rewrite Hrun. split; [f_equal; f_equal; lia|]. auto.
    + apply Forall_cons in HA as [Hin HA]. cbn [fst] in Hin.
      cbn [map] in Hnd, Hdis. apply NoDup_cons in Hnd as [Hpxn Hnd].
      set (px := unit_pixel ml L2 m rid rc) in *.
      assert (Hnew : ~ In px (map fst (pixels (base_region ch)))) by (apply Hdis; left; reflexivity).
      destruct (AddPixel_ok ch px v Hinv ltac:(rewrite Hml; exact Hin) Hnew) as (c1 & Hadd & Hml1 & Hp1).
      rewrite Hadd. cbn [bind].
      rewrite (Z.mod_small v (2 ^ 16)) in Hp1 by lia.
      pose proof (AddPixel_inv ch px v c1 Hinv Hadd) as Hinv1.
      destruct (IH (pos + na) c1 ltac:(lia) ltac:(lia) Hf HF HA Hnd Hinv1 ltac:(congruence))
        as (ch' & Hrun & Hinv' & Hml' & Hp').
      * intros x Hx Hx1. rewrite Hp1 in Hx1.
        apply (Permutation_in _ (Permutation_map fst (map_insert_perm px v _))) in Hx1.
        destruct Hx1 as [Hx1|Hx1].
        -- cbn in Hx1. subst x. apply Hpxn, list_elem_of_In, Hx.
        -- apply (Hdis x); [right; exact Hx|exact Hx1].
      * exists ch'. rewrite Hrun. split; [f_equal; f_equal; lia|]. split; [exact Hinv'|]. split; [exact Hml'|].
        rewrite Hp', Hp1, map_insert_perm. cbn [app]. symmetry. apply Permutation_middle.
Qed.

Lemma read_records_spec fuel Rs pos ch :
  0 <= pos -> 1 <= record_size u nb na ->
  pos + Z.of_nat (length Rs) * record_size u nb na = end_pos q ->
  brecords u nmac nb na (data q) pos Rs ->
  Forall (fun r => 0 <= r.1.1 < nmac /\ 0 <= r.1.2 /\ r.1.2 * nmac + r.1.1 < 2 ^ nb /\
                   Forall (fun v => 0 <= v < 2 ^ na /\ v < 2 ^ 16) (unit_values u r.2)) Rs ->
  let A := concat (map (added ml L2 u) Rs) in
  Forall (fun e => IsPixelInside (base ml) e.1 = true) A ->
  NoDup (map fst A) ->
  chip_inv ch -> multi_region_layout ch = ml ->
  (forall x, In x (map fst A) -> ~ In x (map fst (pixels (base_region ch)))) ->
  (length Rs < fuel)%nat ->
  exists c', read_regions_loop fuel ml L2 u nb na nmac q pos ch = Some (Ok c') /\
    chip_inv c' /\ multi_region_layout c' = ml /\
    Permutation (pixels (base_region c')) (A ++ pixels (base_region ch)).
Proof.
  revert fuel pos ch. induction Rs as [|[[m rid] U] Rs IH];
    intros fuel pos ch Hpos H1 Hend Hrec HF A HA Hnd Hinv Hml Hdis Hfuel;
    (destruct fuel as [|fuel]; [cbn in Hfuel; lia|]); cbn [read_regions_loop].
  - cbn [length] in Hend. replace pos with (end_pos q) by lia. rewrite Z.eqb_refl.
    exists ch. split; [reflexivity|]. split; [exact Hinv|]. split; [exact Hml|reflexivity].
  - cbn [length] in Hend, Hfuel. rewrite Nat2Z.inj_succ, Z.mul_succ_l in Hend.
    assert (HW0 : 0 <= Z.of_nat (length Rs) * record_size u nb na) by nia.
    rewrite (proj2 (Z.eqb_neq pos (end_pos q))) by lia.
    destruct Hrec as (Hf1 & Hf2 & Hrec). cbn [fst snd] in Hf1, Hf2.
    apply Forall_cons in HF as [(Hm & Hrid & Hfull & Hvals) HF]. cbn [fst snd] in Hm, Hrid, Hfull, Hvals.
    assert (Hnb64 : 2 ^ nb <= 2 ^ 64) by (apply Z.pow_le_mono_r; lia).
    destruct (full_id_split m rid nmac Hm Hrid ltac:(lia)) as [Hget Hsplit].
    rewrite Hget in Hf1.
    assert (HK : 0 <= Z.of_nat (length (cells u)) * na) by nia.
    unfold record_size in *.
    rewrite (read_spec q pos nb false Hwf Hpos ltac:(lia) ltac:(lia) Hnb). cbn [bind].
    rewrite (bits_msb_value (data q) pos (Z.to_nat nb) (rid * nmac + m)).
    2:{ rewrite Z2Nat.id by lia. exact Hf1. }
    2:{ rewrite Z2Nat.id by lia. nia. }
    rewrite Hsplit. rewrite read_unit_cells.
    unfold A in HA, Hnd, Hdis. cbn [map concat] in HA, Hnd, Hdis.
    rewrite map_app in Hnd, Hdis. apply Forall_app in HA as [HA1 HA2].
    apply NoDup_app in Hnd as (Hnd1 & Hdj & Hnd2).
    destruct (read_cells_spec m rid U (cells u) (pos + nb) ch ltac:(lia)
        ltac:(lia) Hf2 Hvals HA1 Hnd1 Hinv Hml)
      as (c1 & Hrun & Hinv1 & Hml1 & Hp1).
    { intros x Hx. apply Hdis. apply in_app_iff. left. exact Hx. }
    rewrite Hrun.
    destruct (IH fuel (pos + nb + Z.of_nat (length (cells u)) * na) c1 ltac:(lia) H1 ltac:(lia)
        ltac:(replace (pos + nb + Z.of_nat (length (cells u)) * na)
                with (pos + (nb + Z.of_nat (length (cells u)) * na)) by lia; exact Hrec)
        HF HA2 Hnd2 Hinv1 Hml1) as (c' & Hread & Hinv' & Hml' & Hp').
    + intros x Hx Hx1. rewrite Hp1 in Hx1. rewrite map_app in Hx1. apply in_app_iff in Hx1 as [Hx1|Hx1].
      * apply (Hdj x); apply list_elem_of_In; assumption.
      * apply (Hdis x); [apply in_app_iff; right; exact Hx|exact Hx1].
    + lia.
    + exists c'. split; [exact Hread|]. split; [exact Hinv'|]. split; [exact Hml'|].
      rewrite Hp', Hp1. cbn [map concat]. rewrite !app_assoc. apply Permutation_app_tail.
      apply Permutation_app_comm.
Qed.

End Read.

(** What a [PixelMultiRegion] built by [CreateRegions] from distinct
    pixels of its layout keeps (as [chip_inv], without the order). *)
Definition area_ok (pa : PixelMultiRegion) : Prop :=
  let ml := multi_region_layout pa in
  constructed ml /\ n_rows (base ml) <= 2 ^ 15 /\ n_columns (base ml) <= 2 ^ 15 /\
  NoDup (map fst (pixels (base_region pa))) /\
  Forall (fun e => IsPixelInside (base ml) e.1 = true /\ 0 <= e.2 < 2 ^ 16) (pixels (base_region pa)) /\
  (1 < GetNumberOfRegions ml ->
     length (regions pa) = Z.to_nat (GetNumberOfRegions ml) /\
     forall region_id, 0 <= region_id < GetNumberOfRegions ml ->
       slot_ok ml region_id (pixels (base_region pa)) (nth (Z.to_nat region_id) (regions pa) None)).

Lemma pixel_eta (p : Pixel) : mkPixel (row p) (column p) = p.
Proof. destruct p; reflexivity. Qed.

Lemma filter_map_comm {A B} (g : B -> bool) (f : A -> B) l :
  List.filter g (map f l) = map f (List.filter (fun x => g (f x)) l).
Proof. induction l as [|x l IH]; cbn; [reflexivity|]. destruct (g (f x)); cbn; rewrite IH; reflexivity. Qed.

Lemma NoDup_fst_filter (f : Pixel * Z -> bool) l :
  NoDup (map fst l) -> NoDup (map fst (List.filter f l)).
Proof.
  induction l as [|x l IH]; cbn; intros H; [constructor|].
  apply NoDup_cons in H as [Hx H]. destruct (f x); cbn; [|auto].
  constructor; [|auto]. intros Hin. apply Hx.
  apply list_elem_of_In in Hin. apply list_elem_of_In.
  apply in_map_iff in Hin as [y [Hy Hyl]]. apply in_map_iff. exists y.
  split; [exact Hy|]. apply filter_In in Hyl. tauto.
Qed.

Lemma sorted_filter (f : Pixel * Z -> bool) l : keys_sorted l -> keys_sorted (List.filter f l).
Proof.
  unfold keys_sorted. induction l as [|x l IH]; intros H; cbn; [constructor|].
  apply StronglySorted_inv in H as [H Hx]. destruct (f x); [|auto].
  constructor; [auto|]. rewrite List.Forall_forall in Hx |- *. intros y Hy.
  apply filter_In in Hy. apply Hx; tauto.
Qed.

Lemma GetAdc_cases U q :
  GetAdc U q = 0 \/ exists x, In x (pixels U) /\ x.1 = q /\ GetAdc U q = x.2.
Proof.
  unfold GetAdc. destruct (find _ _) as [x|] eqn:Ef; [|left; reflexivity]. right.
  apply find_some in Ef as [Hx Hq]. apply pixel_eqb_spec in Hq. exists x. auto.
Qed.

Lemma in_cells u r col :
  In (r, col) (cells u) <-> (r < Z.to_nat (n_rows u))%nat /\ (col < Z.to_nat (n_columns u))%nat.
Proof.
  unfold cells. rewrite in_concat. split.
  - intros [l [Hl Hin]]. apply in_map_iff in Hl as [r' [<- Hr']].
    apply in_map_iff in Hin as [c' [Heq Hc']].
    injection Heq as -> ->. apply in_seq in Hr', Hc'. lia.
  - intros [Hr Hc]. exists (map (fun c => (r, c)) (seq 0 (Z.to_nat (n_columns u)))). split.
    + apply in_map_iff. exists r. split; [reflexivity|]. apply in_seq. lia.
    + apply in_map_iff. exists col. split; [reflexivity|]. apply in_seq. lia.
Qed.

Lemma cells_NoDup u : List.NoDup (cells u).
Proof.
  unfold cells. generalize (seq_NoDup (Z.to_nat (n_rows u)) 0).
  generalize (seq 0 (Z.to_nat (n_rows u))) as rows.
  intros rows Hr. induction Hr as [|r rows Hr _ IH]; cbn [map concat]; [constructor|].
  apply List.NoDup_app; [| exact IH |].
  - apply NoDup_map_on; [|apply seq_NoDup]. intros x y _ _ H. injection H. auto.
  - intros a Ha Hb. apply in_map_iff in Ha as [c1 [<- _]]. apply in_concat in Hb as [l [Hl Hin]].
    apply in_map_iff in Hl as [r' [<- Hr']]. apply in_map_iff in Hin as [c2 [Heq _]].
    injection Heq as -> _. contradiction.
Qed.

Lemma cell_pixel_inj u a b :
  n_rows u <= 2 ^ 15 -> n_columns u <= 2 ^ 15 ->
  In a (cells u) -> In b (cells u) -> cell_pixel a = cell_pixel b -> a = b.
Proof.
  destruct a as [r1 c1], b as [r2 c2]. rewrite !in_cells. intros Hr Hc [H1 H2] [H3 H4] H.
  unfold cell_pixel in H. cbn [fst snd] in H. injection H as E1 E2.
  rewrite !to_i16_small in E1, E2 by lia. f_equal; lia.
Qed.

Lemma chip_inv_area c : chip_inv c -> area_ok c.
Proof.
  intros (Hc & HN & HM & Hl & Hs & HF & Hregs).
  split; [exact Hc|]. split; [exact HN|]. split; [exact HM|].
  split; [apply keys_sorted_nodup, Hs|]. split; [exact HF|exact Hregs].
Qed.

(** With a single region every pixel is its own region pixel in region 0. *)
Lemma single_region m p :
  constructed m -> n_rows (base m) <= 2 ^ 15 -> n_columns (base m) <= 2 ^ 15 ->
  GetNumberOfRegions m = 1 -> IsPixelInside (base m) p = true ->
  ConvertToRegionPixel m p = (0, p).
Proof.
  intros Hc HN HM Hn Hin.
  destruct (layout_facts m Hc HN HM)
    as (N & M & R & C & Hb & Hrl & HN1 & HM1 & HR & HC & Hnrr & Hnrc & HNr & HMc & Hregs).
  assert (n_region_rows m = 1 /\ n_region_columns m = 1) as [Hr1 Hc1] by nia.
  destruct (convert_inside m N M R C p Hb Hrl ltac:(lia) ltac:(lia) HR HC Hnrr Hnrc HNr HMc Hin)
    as (_ & _ & Hto & _).
  rewrite Hto. rewrite Hb, inside_iff in Hin. cbn [n_rows n_columns] in Hin.
  rewrite (Z.div_small (row p) R), (Z.div_small (column p) C), (Z.mod_small (row p) R),
    (Z.mod_small (column p) C) by nia.
  rewrite pixel_eta; try (f_equal; lia).
Qed.

Lemma area_region pa rid :
  area_ok pa -> 0 <= rid < GetNumberOfRegions (multi_region_layout pa) ->
  let ml := multi_region_layout pa in
  let E := pixels (base_region pa) in
  IsRegionActive pa rid = Ok (existsb (fun e => (ConvertToRegionPixel ml e.1).1 =? rid) E) /\
  (existsb (fun e => (ConvertToRegionPixel ml e.1).1 =? rid) E = true ->
   exists U, GetRegion pa rid = Ok U /\ Permutation (pixels U) (region_entries ml rid E) /\
     Chips.region_layout U = if GetNumberOfRegions ml =? 1 then Chips.region_layout (base_region pa)
                             else Geo.region_layout ml).
Proof.
  intros (Hc & HN & HM & Hnd & HF & Hregs) Hid ml E. fold ml E in Hc, HN, HM, Hnd, HF, Hregs, Hid.
  assert (Hact : IsRegionActive pa rid = Ok (existsb (fun e => (ConvertToRegionPixel ml e.1).1 =? rid) E)).
  { unfold IsRegionActive. fold ml. destruct (Z.leb_spec (GetNumberOfRegions ml) rid); [lia|].
    destruct (Z.eqb_spec (GetNumberOfRegions ml) 1) as [Hn1|Hn1].
    - fold E. f_equal. rewrite existsb_filter, filter_all; [reflexivity|].
      apply Forall_forall. intros e He. apply list_elem_of_In in He. rewrite Forall_forall in HF.
      destruct (HF e (proj2 (list_elem_of_In _ _) He)) as [Hin _].
      rewrite (single_region ml e.1 Hc HN HM Hn1 Hin). apply Z.eqb_eq. cbn. lia.
    - destruct (Hregs ltac:(lia)) as [Hlen Hslots].
      rewrite (vat_nth_gen (regions pa) rid None) by lia. cbn [bind]. f_equal.
      pose proof (Hslots rid Hid) as Hsl. rewrite existsb_filter. fold E.
      destruct (nth (Z.to_nat rid) (regions pa) None) as [r|]; cbn [slot_ok] in Hsl.
      + destruct Hsl as (_ & Hne & _). rewrite bool_decide_eq_true_2 by (eexists; reflexivity).
        unfold region_entries in Hne.
        destruct (List.filter _ E) eqn:Ef; [cbn in Hne; congruence|reflexivity].
      + rewrite bool_decide_eq_false_2 by (intros [? ?]; discriminate).
        unfold region_entries in Hsl. apply map_eq_nil in Hsl. rewrite Hsl. reflexivity. }
  split; [exact Hact|]. intros Hex.
  unfold GetRegion. rewrite Hact, Hex. cbn [bind negb]. fold ml.
  destruct (Z.eqb_spec (GetNumberOfRegions ml) 1) as [Hn1|Hn1].
  - exists (base_region pa). split; [reflexivity|]. split; [|reflexivity]. fold E.
    apply Permutation_refl'. symmetry. unfold region_entries. rewrite filter_all.
    + transitivity (map (fun x => x) E); [|apply map_id]. apply map_ext_in. intros e He.
      rewrite Forall_forall in HF. destruct (HF e (proj2 (list_elem_of_In _ _) He)) as [Hin _].
      rewrite (single_region ml e.1 Hc HN HM Hn1 Hin). destruct e; reflexivity.
    + apply Forall_forall. intros e He. apply list_elem_of_In in He. rewrite Forall_forall in HF.
      destruct (HF e (proj2 (list_elem_of_In _ _) He)) as [Hin _].
      rewrite (single_region ml e.1 Hc HN HM Hn1 Hin). apply Z.eqb_eq. cbn. lia.
  - destruct (Hregs ltac:(lia)) as [Hlen Hslots].
    rewrite (vat_nth_gen (regions pa) rid None) by lia. cbn [bind].
    pose proof (Hslots rid Hid) as Hsl.
    destruct (nth (Z.to_nat rid) (regions pa) None) as [r|]; cbn [slot_ok] in Hsl.
    + destruct Hsl as (Hl & _ & Hp). exists r. split; [reflexivity|]. split; [exact Hp|exact Hl].
    + exfalso. rewrite existsb_filter in Hex. unfold region_entries in Hsl. apply map_eq_nil in Hsl.
      fold E in Hsl. rewrite Hsl in Hex. discriminate.
Qed.

(** [CreateRegions] on distinct pixels of the layout. *)
Lemma CreateRegions_area b ml :
  constructed ml -> n_rows (base ml) <= 2 ^ 15 -> n_columns (base ml) <= 2 ^ 15 ->
  NoDup (map fst (pixels b)) ->
  Forall (fun e => IsPixelInside (base ml) e.1 = true /\ 0 <= e.2 < 2 ^ 16) (pixels b) ->
  exists pa, CreateRegions (mkPixelMultiRegion b ml []) = Ok pa /\ area_ok pa /\
    base_region pa = b /\ multi_region_layout pa = ml.
Proof.
  intros Hc HN HM Hnd HF. unfold CreateRegions. cbn [multi_region_layout base_region].
  destruct (Z.ltb_spec 1 (GetNumberOfRegions ml)) as [Hn|Hn].
  - destruct (create_fold b ml (pixels b) [] (repeat None (Z.to_nat (GetNumberOfRegions ml))))
      as [regs' [Hrun [Hlen Hslots]]]; try assumption.
    + apply repeat_length.
    + intros id _. rewrite nth_repeat. reflexivity.
    + rewrite Hrun. eexists. split; [reflexivity|]. split; [|split; reflexivity].
      split; [exact Hc|]. split; [exact HN|]. split; [exact HM|]. split; [exact Hnd|].
      split; [exact HF|]. intros _. split; [exact Hlen|exact Hslots].
  - eexists. split; [reflexivity|]. split; [|split; reflexivity].
    split; [exact Hc|]. split; [exact HN|]. split; [exact HM|]. split; [exact Hnd|].
    split; [exact HF|]. cbn. lia.
Qed.

Lemma length_pairs (rows cols : list nat) :
  length (concat (map (fun r => map (fun c => (r, c)) cols) rows)) = (length rows * length cols)%nat.
Proof.
  induction rows as [|r rows IH]; cbn; [reflexivity|].
  rewrite length_app, length_map, IH. reflexivity.
Qed.

Lemma cells_length u :
  length (cells u) = (Z.to_nat (n_rows u) * Z.to_nat (n_columns u))%nat.
Proof. unfold cells. rewrite length_pairs, !length_seq. reflexivity. Qed.

Lemma recs_length coll : length (recs coll) = length (concat (map snd coll)).
Proof.
  induction coll as [|[m regs] coll IH]; [reflexivity|].
  rewrite recs_cons. cbn [map concat snd]. rewrite !length_app, length_map, IH. reflexivity.
Qed.

Lemma concat_perm {A B} (f : A -> list B) l l' :
  Permutation l l' -> Permutation (concat (map f l)) (concat (map f l')).
Proof. intros H. rewrite <- !flat_map_concat_map. apply Permutation_flat_map, H. Qed.

Section Geometry.
Variable c : PixelMultiRegion.
Hypothesis Hinv : chip_inv c.
Variable u : RegionLayout.
Hypothesis Hur : 1 <= n_rows u <= n_rows (Geo.region_layout (multi_region_layout c)).
Hypothesis Huc : 1 <= n_columns u <= n_columns (Geo.region_layout (multi_region_layout c)).
Hypothesis Hfr : n_rows (Geo.region_layout (multi_region_layout c)) <= n_rows (base (multi_region_layout c)).
Hypothesis Hfc : n_columns (Geo.region_layout (multi_region_layout c)) <= n_columns (base (multi_region_layout c)).
Variable L2 : MultiRegionLayout.
Hypothesis HL2 : make_MultiRegionLayout (n_rows (Geo.region_layout (multi_region_layout c)))
                   (n_columns (Geo.region_layout (multi_region_layout c))) u = Ok L2.

Let ml := multi_region_layout c.
Let E := pixels (base_region c).
Let macro_of (p : Pixel) : Z := (ConvertToRegionPixel ml p).1.
Let local_of (p : Pixel) : Pixel := (ConvertToRegionPixel ml p).2.
Let unit_of (p : Pixel) : Z := (ConvertToRegionPixel L2 (local_of p)).1.
Let cell_of (p : Pixel) : Pixel := (ConvertToRegionPixel L2 (local_of p)).2.
Let cell_index (p : Pixel) : nat * nat := (Z.to_nat (row (cell_of p)), Z.to_nat (column (cell_of p))).
Let EU (m rid : Z) := region_entries L2 rid (region_entries ml m E).
Let T (m rid : Z) :=
  List.filter (fun e => (negb (e.2 =? 0) && (macro_of e.1 =? m)) && (unit_of e.1 =? rid)) E.

Lemma ml_facts :
  exists N M R C, base ml = mkRegionLayout N M /\ Geo.region_layout ml = mkRegionLayout R C /\
    1 <= N <= 2 ^ 15 /\ 1 <= M <= 2 ^ 15 /\ 1 <= R <= N /\ 1 <= C <= M /\
    1 <= n_rows u <= R /\ 1 <= n_columns u <= C /\
    n_region_rows ml = ceil_div N R /\ n_region_columns ml = ceil_div M C /\
    GetNumberOfRegions ml = n_region_rows ml * n_region_columns ml.
Proof.
  pose proof Hinv as (Hc & HN & HM & _). fold ml in Hc, HN, HM.
  destruct (layout_facts ml Hc HN HM)
    as (N & M & R & C & Hb & Hrl & HN1 & HM1 & HR & HC & _ & _ & _ & _ & Hregs).
  destruct (constructed_facts ml Hc) as (N' & M' & R' & C' & Hb' & Hrl' & _ & _ & _ & _ & Hnrr & Hnrc & _).
  rewrite Hb in Hb'. rewrite Hrl in Hrl'. injection Hb' as <- <-. injection Hrl' as <- <-.
  pose proof Hur as Hur'. pose proof Huc as Huc'. pose proof Hfr as Hfr'. pose proof Hfc as Hfc'.
  fold ml in Hur', Huc', Hfr', Hfc'. rewrite Hb, Hrl in *. cbn [n_rows n_columns] in *.
  exists N, M, R, C. repeat split; try assumption; lia.
Qed.

Lemma L2_facts :
  constructed L2 /\ base L2 = Geo.region_layout ml /\ Geo.region_layout L2 = u /\
  n_region_rows L2 = ceil_div (n_rows (Geo.region_layout ml)) (n_rows u) /\
  n_region_columns L2 = ceil_div (n_columns (Geo.region_layout ml)) (n_columns u) /\
  1 <= n_rows (base L2) <= 2 ^ 15 /\ 1 <= n_columns (base L2) <= 2 ^ 15.
Proof.
  destruct ml_facts as (N & M & R & C & Hb & Hrl & HN & HM & HR & HC & Hu1 & Hu2 & _).
  assert (Hu : make_RegionLayout (n_rows u) (n_columns u) = Ok u).
  { unfold make_RegionLayout. rewrite (proj2 (Z.eqb_neq (n_rows u) 0)), (proj2 (Z.eqb_neq (n_columns u) 0)) by lia.
    cbn. destruct u; reflexivity. }
  pose proof HL2 as H. fold ml in H. rewrite Hrl in H. cbn [n_rows n_columns] in H.
  pose proof H as H'.
  unfold make_MultiRegionLayout, make_RegionLayout in H.
  rewrite (proj2 (Z.eqb_neq R 0)), (proj2 (Z.eqb_neq C 0)) in H by lia. cbn [orb bind] in H.
  destruct ((ceil_div R (n_rows u) =? 0) || (ceil_div C (n_columns u) =? 0)); [discriminate|].
  injection H as HL. rewrite <- HL. cbn [base Geo.region_layout n_region_rows n_region_columns].
  rewrite Hrl. cbn [n_rows n_columns].
  split; [|repeat split; try reflexivity; lia].
  rewrite HL. apply (constructed3 R C (n_rows u) (n_columns u)); try lia.
  rewrite Hu. cbn [bind]. exact H'.
Qed.

Lemma E_inside e : In e E -> IsPixelInside (base ml) e.1 = true /\ 0 <= e.2 < 2 ^ 16.
Proof.
  intros He. pose proof Hinv as (_ & _ & _ & _ & _ & HF & _).
  rewrite List.Forall_forall in HF. exact (HF e He).
Qed.

Lemma E_keys : NoDup (map fst E).
Proof. pose proof Hinv as (_ & _ & _ & _ & Hs & _). apply keys_sorted_nodup, Hs. Qed.

Lemma E_NoDup : List.NoDup E.
Proof. apply (NoDup_map_inv fst). apply NoDup_ListNoDup, E_keys. Qed.

Lemma pixel_geo p :
  IsPixelInside (base ml) p = true ->
  0 <= macro_of p < GetNumberOfRegions ml /\ ConvertFromRegionPixel ml (macro_of p) (local_of p) = p /\
  IsPixelInside (base L2) (local_of p) = true /\
  0 <= unit_of p < GetNumberOfRegions L2 /\
  ConvertFromRegionPixel L2 (unit_of p) (cell_of p) = local_of p /\
  0 <= row (cell_of p) < n_rows u /\ 0 <= column (cell_of p) < n_columns u.
Proof.
  intros Hin. pose proof Hinv as (Hc & HN & HM & _). fold ml in Hc, HN, HM.
  destruct L2_facts as (Hc2 & Hb2 & Hrl2 & _ & _ & HN2 & HM2).
  destruct (convert_back ml Hc HN HM p Hin) as [H1 H2].
  destruct (layout_facts ml Hc HN HM)
    as (N & M & R & C & Hb & Hrl & HN1 & HM1 & HR & HC & Hnrr & Hnrc & HNr & HMc & _).
  destruct (convert_inside ml N M R C p Hb Hrl ltac:(lia) ltac:(lia) HR HC Hnrr Hnrc HNr HMc Hin)
    as (_ & _ & Hto & _).
  assert (Hloc : local_of p = mkPixel (row p mod R) (column p mod C))
    by (unfold local_of; rewrite Hto; reflexivity).
  assert (Hin2 : IsPixelInside (base L2) (local_of p) = true).
  { rewrite Hloc, Hb2, Hrl, inside_iff. cbn. split; apply Z.mod_pos_bound; lia. }
  destruct (convert_back L2 Hc2 (proj2 HN2) (proj2 HM2) (local_of p) Hin2) as [H3 H4].
  destruct (layout_facts L2 Hc2 (proj2 HN2) (proj2 HM2))
    as (N' & M' & R' & C' & Hb' & Hrl' & HN1' & HM1' & HR' & HC' & Hnrr' & Hnrc' & HNr' & HMc' & _).
  destruct (convert_inside L2 N' M' R' C' (local_of p) Hb' Hrl' ltac:(lia) ltac:(lia) HR' HC'
              Hnrr' Hnrc' HNr' HMc' Hin2) as (_ & _ & Hto' & _).
  assert (Hcell : cell_of p = mkPixel (row (local_of p) mod R') (column (local_of p) mod C'))
    by (unfold cell_of; rewrite Hto'; reflexivity).
  rewrite Hrl2 in Hrl'.
  split; [exact H1|]. split; [exact H2|]. split; [exact Hin2|]. split; [exact H3|].
  split; [exact H4|].
  rewrite Hcell, Hrl'. cbn. split; apply Z.mod_pos_bound; lia.
Qed.

Lemma u_small : n_rows u <= 2 ^ 15 /\ n_columns u <= 2 ^ 15.
Proof. destruct ml_facts as (N & M & R & C & _ & _ & HN & HM & HR & HC & Hu1 & Hu2 & _). lia. Qed.

Lemma cell_index_ok p :
  IsPixelInside (base ml) p = true ->
  In (cell_index p) (cells u) /\ cell_pixel (cell_index p) = cell_of p /\
  unit_pixel ml L2 (macro_of p) (unit_of p) (cell_index p) = p.
Proof.
  intros Hin. destruct (pixel_geo p Hin) as (_ & H2 & _ & _ & H5 & Hr & Hc).
  pose proof u_small as [Hs1 Hs2].
  assert (Hcp : cell_pixel (cell_index p) = cell_of p).
  { unfold cell_pixel, cell_index. cbn [fst snd]. rewrite !Z2Nat.id by lia.
    rewrite !to_i16_small by lia. apply pixel_eta. }
  split; [|split; [exact Hcp|]].
  - unfold cell_index. apply in_cells. lia.
  - unfold unit_pixel. rewrite Hcp, H5. exact H2.
Qed.

Lemma in_EU m rid x :
  In x (EU m rid) <-> exists e, In e E /\ macro_of e.1 = m /\ unit_of e.1 = rid /\ x = (cell_of e.1, e.2).
Proof.
  unfold EU, region_entries. rewrite in_map_iff. split.
  - intros [y [<- Hy]]. apply filter_In in Hy as [Hy Hry]. apply in_map_iff in Hy as [e [<- He]].
    apply filter_In in He as [He Hm]. exists e. cbn [fst snd] in *.
    apply Z.eqb_eq in Hm, Hry. repeat split; auto.
  - intros (e & He & Hm & Hr & ->). exists (local_of e.1, e.2). split; [reflexivity|].
    apply filter_In. split.
    + apply in_map_iff. exists e. split; [reflexivity|]. apply filter_In.
      split; [exact He|]. apply Z.eqb_eq. exact Hm.
    + apply Z.eqb_eq. exact Hr.
Qed.

Lemma same_cell e e' :
  In e E -> In e' E -> macro_of e.1 = macro_of e'.1 -> unit_of e.1 = unit_of e'.1 ->
  cell_of e.1 = cell_of e'.1 -> e = e'.
Proof.
  intros He He' Hm Hr Hc.
  destruct (pixel_geo e.1 (proj1 (E_inside e He))) as (_ & H2 & _ & _ & H5 & _).
  destruct (pixel_geo e'.1 (proj1 (E_inside e' He'))) as (_ & H2' & _ & _ & H5' & _).
  apply (keys_unique E); [apply E_keys|apply list_elem_of_In, He|apply list_elem_of_In, He'|].
  rewrite <- H2, <- H2', <- H5, <- H5', Hm, Hr, Hc. reflexivity.
Qed.

Lemma unit_content m rid U :
  Permutation (pixels U) (EU m rid) -> Permutation (added ml L2 u (m, rid, U)) (T m rid).
Proof.
  intros HU. pose proof u_small as [Hs1 Hs2].
  assert (Key1 : forall q, In q (cells u) -> GetAdc U (cell_pixel q) <> 0 ->
     exists e, In e E /\ macro_of e.1 = m /\ unit_of e.1 = rid /\ cell_of e.1 = cell_pixel q /\
               GetAdc U (cell_pixel q) = e.2 /\ unit_pixel ml L2 m rid q = e.1).
  { intros q Hq Hnz. destruct (GetAdc_cases U (cell_pixel q)) as [H0|(x & Hx & Hxq & Hv)];
      [contradiction|].
    apply (Permutation_in _ HU), in_EU in Hx as (e & He & Hm & Hr & ->). cbn [fst snd] in Hxq, Hv.
    exists e. split; [exact He|]. split; [exact Hm|]. split; [exact Hr|]. split; [exact Hxq|].
    split; [exact Hv|].
    destruct (pixel_geo e.1 (proj1 (E_inside e He))) as (_ & H2 & _ & _ & H5 & _).
    unfold unit_pixel. rewrite <- Hxq, <- Hm, <- Hr, H5. exact H2. }
  assert (Key2 : forall e, In e E -> macro_of e.1 = m -> unit_of e.1 = rid ->
                           GetAdc U (cell_of e.1) = e.2).
  { intros e He Hm Hr. unfold GetAdc.
    destruct (find (fun x => pixel_eqb x.1 (cell_of e.1)) (pixels U)) as [x|] eqn:Ef.
    - apply find_some in Ef as [Hx Hq]. apply pixel_eqb_spec in Hq.
      apply (Permutation_in _ HU), in_EU in Hx as (e' & He' & Hm' & Hr' & ->).
      cbn [fst snd] in Hq |- *.
      rewrite (same_cell e' e He' He ltac:(congruence) ltac:(congruence) Hq). reflexivity.
    - exfalso. assert (Hx : In (cell_of e.1, e.2) (pixels U)).
      { apply (Permutation_in _ (Permutation_sym HU)), in_EU. exists e. auto. }
      pose proof (find_none _ _ Ef _ Hx) as H. cbn [fst] in H.
      rewrite (proj2 (pixel_eqb_spec (cell_of e.1) (cell_of e.1)) eq_refl) in H. discriminate. }
  apply Permutation.NoDup_Permutation.
  - unfold added. cbn [fst snd]. rewrite filter_map_comm.
    apply NoDup_map_on; [|apply List.NoDup_filter, cells_NoDup].
    intros q1 q2 Hq1 Hq2 Heq. apply filter_In in Hq1 as [Hq1 Hnz1]. apply filter_In in Hq2 as [Hq2 Hnz2].
    cbn [snd] in Hnz1, Hnz2. apply Bool.negb_true_iff, Z.eqb_neq in Hnz1, Hnz2.
    destruct (Key1 q1 Hq1 Hnz1) as (e1 & He1 & _ & _ & Hc1 & _ & Hp1).
    destruct (Key1 q2 Hq2 Hnz2) as (e2 & He2 & _ & _ & Hc2 & _ & Hp2).
    apply (f_equal fst) in Heq. cbn [fst] in Heq.
    apply (cell_pixel_inj u); [lia|lia|exact Hq1|exact Hq2|].
    rewrite <- Hc1, <- Hc2. rewrite <- Hp1, <- Hp2, Heq. reflexivity.
  - apply List.NoDup_filter, E_NoDup.
  - intros x. unfold added, T. cbn [fst snd]. rewrite !filter_In, in_map_iff. split.
    + intros [[q [<- Hq]] Hnz]. cbn [snd] in Hnz. apply Bool.negb_true_iff, Z.eqb_neq in Hnz.
      destruct (Key1 q Hq Hnz) as (e & He & Hm & Hr & _ & Hv & Hp). rewrite Hv, Hp.
      destruct e as [p a]. cbn [fst snd] in *. split; [exact He|].
      rewrite Hm, Hr, !Z.eqb_refl. rewrite Hv in Hnz.
      apply Z.eqb_neq in Hnz. rewrite Hnz. reflexivity.
    + intros [He Hb]. apply andb_true_iff in Hb as [Hb Hr]. apply andb_true_iff in Hb as [Hnz Hm].
      apply Z.eqb_eq in Hm, Hr.
      destruct (cell_index_ok x.1 (proj1 (E_inside x He))) as (Hq & Hcp & Hp).
      split.
      * exists (cell_index x.1). split; [|exact Hq].
        transitivity (x.1, x.2); [|destruct x; reflexivity]. f_equal.
        -- rewrite <- Hm, <- Hr. exact Hp.
        -- transitivity (GetAdc U (cell_of x.1)); [f_equal; exact Hcp|exact (Key2 x He Hm Hr)].
      * cbn [snd]. replace (GetAdc U (cell_pixel (cell_index x.1))) with x.2; [exact Hnz|].
        transitivity (GetAdc U (cell_of x.1)); [symmetry; exact (Key2 x He Hm Hr)|f_equal; symmetry; exact Hcp].
Qed.

Lemma range_true (x n : Z) : 0 <= x < n -> (0 <=? x) && (x <? Z.of_nat (Z.to_nat n)) = true.
Proof. intros H. apply andb_true_iff. split; [apply Z.leb_le|apply Z.ltb_lt]; lia. Qed.

Lemma macro_units m :
  Permutation (concat (map (fun k => T m (Z.of_nat k)) (seq 0 (Z.to_nat (GetNumberOfRegions L2)))))
              (List.filter (fun e => negb (e.2 =? 0) && (macro_of e.1 =? m)) E).
Proof.
  etransitivity;
    [apply (concat_filter_seq (fun e => negb (e.2 =? 0) && (macro_of e.1 =? m)) (fun e => unit_of e.1))|].
  apply Permutation_refl'. apply filter_ext_in. intros e He.
  destruct (pixel_geo e.1 (proj1 (E_inside e He))) as (_ & _ & _ & Hu & _).
  rewrite (range_true _ _ Hu). apply andb_true_r.
Qed.

Lemma macro_cover :
  Permutation (concat (map (fun k => List.filter (fun e => negb (e.2 =? 0) && (macro_of e.1 =? Z.of_nat k)) E)
                           (seq 0 (Z.to_nat (GetNumberOfRegions ml)))))
              (List.filter (fun e => negb (e.2 =? 0)) E).
Proof.
  etransitivity; [apply (concat_filter_seq (fun e => negb (e.2 =? 0)) (fun e => macro_of e.1))|].
  apply Permutation_refl'. apply filter_ext_in. intros e He.
  destruct (pixel_geo e.1 (proj1 (E_inside e He))) as (Hm & _).
  rewrite (range_true _ _ Hm). apply andb_true_r.
Qed.

Lemma active_regions_ok m pa ids :
  area_ok pa -> multi_region_layout pa = L2 ->
  Permutation (pixels (base_region pa)) (region_entries ml m E) ->
  (forall id, In id ids -> Z.of_nat id < GetNumberOfRegions L2) ->
  exists regs, active_regions pa ids = Ok regs /\
    (length regs <= length ids)%nat /\
    Forall (fun ru => 0 <= ru.1 < GetNumberOfRegions L2 /\ Permutation (pixels ru.2) (EU m ru.1)) regs /\
    Permutation (concat (map (fun ru => added ml L2 u (m, ru.1, ru.2)) regs))
                (concat (map (fun id => T m (Z.of_nat id)) ids)).
Proof.
  intros Hpa Hml HX. induction ids as [|id ids IH]; intros Hids.
  - exists []. split; [reflexivity|]. split; [cbn; lia|]. split; [constructor|reflexivity].
  - destruct IH as (regs & Hrun & Hlen & HF & Hperm).
    { intros id' H. apply Hids. right. exact H. }
    assert (Hid : 0 <= Z.of_nat id < GetNumberOfRegions (multi_region_layout pa))
      by (rewrite Hml; split; [lia|apply Hids; left; reflexivity]).
    pose proof (area_region pa (Z.of_nat id) Hpa Hid) as H. cbv zeta in H.
    destruct H as [Hact Hget]. rewrite Hml in Hact, Hget.
    cbn [active_regions]. rewrite Hact. cbn [bind].
    destruct (existsb _ _) eqn:Eex; cbn [negb].
    + destruct (Hget eq_refl) as (U & HgetU & HpU & _). rewrite HgetU. cbn [bind].
      rewrite Hrun. cbn [bind].
      eexists. split; [reflexivity|]. split; [cbn; lia|].
      assert (HU : Permutation (pixels U) (EU m (Z.of_nat id)))
        by (rewrite HpU; unfold EU; apply region_entries_perm, HX).
      split; [constructor; [split; [cbn [fst]; pose proof (Hids id (or_introl eq_refl)); lia|exact HU]|exact HF]|].
      cbn [map concat]. apply Permutation_app; [apply unit_content, HU|exact Hperm].
    + rewrite Hrun. eexists. split; [reflexivity|]. split; [cbn; lia|]. split; [exact HF|].
      cbn [map concat]. replace (T m (Z.of_nat id)) with (@nil (Pixel * Z)); [exact Hperm|].
      symmetry. unfold T. apply filter_none. apply List.Forall_forall. intros e He.
      destruct (_ && _) eqn:Ee; [|reflexivity]. exfalso.
      apply andb_true_iff in Ee as [Ee Hr]. apply andb_true_iff in Ee as [_ Hm].
      apply Z.eqb_eq in Hm, Hr.
      assert (Hx : In (local_of e.1, e.2) (pixels (base_region pa))).
      { apply (Permutation_in _ (Permutation_sym HX)). unfold region_entries. apply in_map_iff.
        exists e. split; [reflexivity|]. apply filter_In. split; [exact He|]. apply Z.eqb_eq. exact Hm. }
      assert (Hex : existsb (fun e0 => (ConvertToRegionPixel L2 e0.1).1 =? Z.of_nat id)
                      (pixels (base_region pa)) = true).
      { apply existsb_exists. exists (local_of e.1, e.2). split; [exact Hx|]. cbn [fst].
        apply Z.eqb_eq. exact Hr. }
      congruence.
Qed.

Lemma entries_keys m : NoDup (map fst (region_entries ml m E)).
Proof.
  apply NoDup_ListNoDup. unfold region_entries. rewrite map_map. cbn [fst].
  apply NoDup_map_on; [|apply List.NoDup_filter, E_NoDup].
  intros x y Hx Hy Hxy. apply filter_In in Hx as [Hx Hmx]. apply filter_In in Hy as [Hy Hmy].
  apply Z.eqb_eq in Hmx, Hmy.
  destruct (pixel_geo x.1 (proj1 (E_inside x Hx))) as (_ & H2 & _).
  destruct (pixel_geo y.1 (proj1 (E_inside y Hy))) as (_ & H2' & _).
  apply (keys_unique E); [apply E_keys|apply list_elem_of_In, Hx|apply list_elem_of_In, Hy|].
  rewrite <- H2, <- H2'. unfold macro_of, local_of. rewrite Hmx, Hmy, Hxy. reflexivity.
Qed.

Lemma entries_inside m :
  Forall (fun e => IsPixelInside (base L2) e.1 = true /\ 0 <= e.2 < 2 ^ 16) (region_entries ml m E).
Proof.
  apply List.Forall_forall. intros x Hx. unfold region_entries in Hx.
  apply in_map_iff in Hx as [e [<- He]]. apply filter_In in He as [He _].
  destruct (E_inside e He) as [Hin Ha].
  destruct (pixel_geo e.1 Hin) as (_ & _ & Hin2 & _). split; [exact Hin2|exact Ha].
Qed.

Lemma macro_layout Rm :
  Chips.region_layout Rm = (if GetNumberOfRegions ml =? 1 then Chips.region_layout (base_region c)
                             else Geo.region_layout ml) ->
  Chips.region_layout Rm = Geo.region_layout ml.
Proof.
  intros HlR. rewrite HlR. destruct (Z.eqb_spec (GetNumberOfRegions ml) 1) as [Hn1|Hn1]; [|reflexivity].
  pose proof Hinv as (Hc & _ & _ & Hl & _). fold ml in Hl. rewrite Hl.
  destruct ml_facts as (N & M & R & C & Hb & Hrl & HN & HM & HR & HC & _ & _ & Hnrr & Hnrc & Hregs).
  destruct (constructed_facts ml Hc) as (N' & M' & R' & C' & Hb' & Hrl' & _ & _ & HR' & HC' & _).
  rewrite Hb, Hrl. 
  pose proof (ceil_div_spec N R ltac:(lia) ltac:(lia)) as HcN.
  pose proof (ceil_div_spec M C ltac:(lia) ltac:(lia)) as HcM.
  assert (ceil_div N R = 1 /\ ceil_div M C = 1) as [H1 H2] by nia.
  f_equal; nia.
Qed.

Lemma collect_ok ids nr0 :
  (forall id, In id ids -> Z.of_nat id < GetNumberOfRegions ml) ->
  exists nr coll, collect_regions c u ids nr0 = Ok (nr, coll) /\
    (nr = nr0 \/ nr = GetNumberOfRegions L2) /\ (coll <> [] -> nr = GetNumberOfRegions L2) /\
    Forall (fun mr => mr.2 <> []) coll /\
    (length (recs coll) <= length ids * Z.to_nat (GetNumberOfRegions L2))%nat /\
    Forall (fun r => 0 <= r.1.1 < GetNumberOfRegions ml /\ 0 <= r.1.2 < GetNumberOfRegions L2 /\
                     Permutation (pixels r.2) (EU r.1.1 r.1.2)) (recs coll) /\
    Permutation (concat (map (added ml L2 u) (recs coll)))
                (concat (map (fun id => List.filter (fun e => negb (e.2 =? 0) && (macro_of e.1 =? Z.of_nat id)) E) ids)).
Proof.
  revert nr0. induction ids as [|id ids IH]; intros nr0 Hids.
  - exists nr0, []. split; [reflexivity|]. split; [left; reflexivity|].
    split; [intros H; congruence|]. split; [constructor|]. split; [cbn; lia|].
    split; [constructor|reflexivity].
  - assert (Hid : 0 <= Z.of_nat id < GetNumberOfRegions (multi_region_layout c))
      by (split; [lia|apply Hids; left; reflexivity]).
    pose proof (area_region c (Z.of_nat id) (chip_inv_area c Hinv) Hid) as H. cbv zeta in H.
    destruct H as [Hact Hget].
    assert (Hids' : forall id', In id' ids -> Z.of_nat id' < GetNumberOfRegions ml)
      by (intros id' H; apply Hids; right; exact H).
    cbn [collect_regions]. rewrite Hact. cbn [bind].
    destruct (existsb _ _) eqn:Eex; cbn [negb].
    + destruct (Hget eq_refl) as (Rm & HgetR & HpR & HlR). rewrite HgetR. cbn [bind].
      pose proof (macro_layout Rm HlR) as HlR'.
      unfold make_Chip_layout. rewrite HlR'. pose proof HL2 as HL2'. fold ml in HL2'.
      rewrite HL2'. cbn [bind].
      destruct L2_facts as (Hc2 & _ & _ & _ & _ & HN2 & HM2).
      assert (HX : Permutation (pixels Rm) (region_entries ml (Z.of_nat id) E)) by exact HpR.
      assert (Hnd : NoDup (map fst (pixels Rm))).
      { apply NoDup_ListNoDup. apply (Permutation_NoDup (Permutation_map fst (Permutation_sym HX))).
        apply NoDup_ListNoDup, entries_keys. }
      assert (HFR : Forall (fun e => IsPixelInside (base L2) e.1 = true /\ 0 <= e.2 < 2 ^ 16) (pixels Rm)).
      { pose proof (entries_inside (Z.of_nat id)) as HF. rewrite List.Forall_forall in HF |- *.
        intros x Hx. apply HF. exact (Permutation_in _ HX Hx). }
      destruct (CreateRegions_area Rm L2 Hc2 (proj2 HN2) (proj2 HM2) Hnd HFR)
        as (pa & Hcr & Hpa & Hbpa & Hmlpa).
      rewrite Hcr. cbn [bind]. rewrite Hmlpa.
      destruct (active_regions_ok (Z.of_nat id) pa (seq 0 (Z.to_nat (GetNumberOfRegions L2))) Hpa Hmlpa
                  ltac:(rewrite Hbpa; exact HX)) as (regs & Hrun & Hlen & HFr & Hperm).
      { intros k Hk. apply in_seq in Hk. lia. }
      rewrite Hrun. cbn [bind].
      destruct (IH (GetNumberOfRegions L2) Hids')
        as (nr & coll & Hcol & Hnr & Hne & Hnonempty & Hlen' & HF' & Hperm').
      rewrite Hcol. cbn [bind].
      exists nr, (if (length regs =? 0)%nat then coll else (Z.of_nat id, regs) :: coll).
      assert (Hr : recs (if (length regs =? 0)%nat then coll else (Z.of_nat id, regs) :: coll) =
                   map (fun ru => (Z.of_nat id, ru.1, ru.2)) regs ++ recs coll)
        by (destruct regs; reflexivity).
      split; [reflexivity|]. rewrite Hr. rewrite length_seq in Hlen.
      split; [right; destruct Hnr; assumption|].
      split; [intros _; destruct Hnr; assumption|].
      split; [destruct regs; [exact Hnonempty|constructor; [cbn; congruence|exact Hnonempty]]|].
      split; [rewrite length_app, length_map; cbn [length]; rewrite Nat.mul_succ_l; lia|].
      split.
      * apply Forall_app. split; [|exact HF']. apply List.Forall_map.
        eapply Forall_impl; [exact HFr|]. intros ru [Hru HU]. cbn [fst snd]. split; [pose proof (Hids id (or_introl eq_refl)); lia|].
        split; [exact Hru|exact HU].
      * rewrite map_app, concat_app, map_map. cbn [map concat fst snd].
        apply Permutation_app; [|exact Hperm'].
        etransitivity; [exact Hperm|apply macro_units].
    + destruct (IH nr0 Hids') as (nr & coll & Hcol & Hnr & Hne & Hnonempty & Hlen' & HF' & Hperm').
      exists nr, coll. split; [exact Hcol|]. split; [exact Hnr|]. split; [exact Hne|].
      split; [exact Hnonempty|]. split; [cbn [length]; lia|]. split; [exact HF'|].
      cbn [map concat].
      replace (List.filter (fun e => negb (e.2 =? 0) && (macro_of e.1 =? Z.of_nat id)) E)
        with (@nil (Pixel * Z)); [exact Hperm'|].
      symmetry. apply filter_none. apply List.Forall_forall. intros e He.
      destruct (_ && _) eqn:Ee; [|reflexivity]. exfalso.
      apply andb_true_iff in Ee as [_ Hm].
      assert (Hex : existsb (fun e0 => (ConvertToRegionPixel (multi_region_layout c) e0.1).1 =? Z.of_nat id)
                      (pixels (base_region c)) = true).
      { apply existsb_exists. exists e. split; [exact He|exact Hm]. }
      congruence.
Qed.

Lemma sizes :
  1 <= GetNumberOfRegions ml /\ 1 <= GetNumberOfRegions L2 /\ 1 <= Z.of_nat (length (cells u)) /\
  GetNumberOfRegions L2 * GetNumberOfRegions ml * Z.of_nat (length (cells u)) <= 2 ^ 34.
Proof.
  destruct ml_facts as (N & M & R & C & Hb & Hrl & HN & HM & HR & HC & Hu1 & Hu2 & Hnrr & Hnrc & Hregs).
  destruct L2_facts as (Hc2 & Hb2 & Hrl2 & Hnrr2 & Hnrc2 & HN2 & HM2).
  destruct (layout_facts L2 Hc2 (proj2 HN2) (proj2 HM2))
    as (_ & _ & _ & _ & _ & _ & _ & _ & _ & _ & _ & _ & _ & _ & Hregs2).
  rewrite Hrl in Hnrr2, Hnrc2. cbn [n_rows n_columns] in Hnrr2, Hnrc2.
  rewrite cells_length, Nat2Z.inj_mul, !Z2Nat.id by lia.
  pose proof (ceil_div_spec N R ltac:(lia) ltac:(lia)) as A1.
  pose proof (ceil_div_spec M C ltac:(lia) ltac:(lia)) as A2.
  pose proof (ceil_div_spec R (n_rows u) ltac:(lia) ltac:(lia)) as A3.
  pose proof (ceil_div_spec C (n_columns u) ltac:(lia) ltac:(lia)) as A4.
  rewrite Hregs, Hregs2, Hnrr, Hnrc, Hnrr2, Hnrc2.
  revert A1 A2 A3 A4 Hu1 Hu2.
  generalize (ceil_div N R) (ceil_div M C) (ceil_div R (n_rows u)) (ceil_div C (n_columns u)).
  intros a b a2 b2. generalize (n_rows u) (n_columns u). intros ur uc A1 A2 A3 A4 Hu1 Hu2.
  assert (a2 * ur <= 2 * R) by nia. assert (b2 * uc <= 2 * C) by nia.
  assert (a * R <= 2 * N) by nia. assert (b * C <= 2 * M) by nia.
  assert (a * (a2 * ur) <= 4 * N) by nia. assert (b * (b2 * uc) <= 4 * M) by nia.
  assert (1 <= a * b) by nia. assert (1 <= a2 * b2) by nia. assert (1 <= ur * uc) by nia.
  split; [lia|]. split; [lia|]. split; [lia|].
  replace (a2 * b2 * (a * b) * (ur * uc)) with ((a * (a2 * ur)) * (b * (b2 * uc))) by ring.
  assert (4 * N * (4 * M) <= 2 ^ 34) by nia. nia.
Qed.

Lemma unit_values_E m rid U :
  Permutation (pixels U) (EU m rid) ->
  Forall (fun v => v = 0 \/ exists e, In e E /\ e.2 = v) (unit_values u U).
Proof.
  intros HU. apply List.Forall_forall. intros v Hv. unfold unit_values in Hv.
  apply in_map_iff in Hv as [rc [<- _]].
  destruct (GetAdc_cases U (cell_pixel rc)) as [H0|(x & Hx & _ & Hv)]; [left; exact H0|right].
  apply (Permutation_in _ HU), in_EU in Hx as (e & He & _ & _ & ->).
  exists e. split; [exact He|]. rewrite Hv. reflexivity.
Qed.

Lemma block_roundtrip na :
  0 <= na <= 64 -> Forall (fun e => e.2 < 2 ^ na) (pixels (base_region c)) ->
  exists package c', BlockPackageMaker_Make u na c = Ok package /\
    BlockPackageMaker_Read u na package (multi_region_layout c) = Some (Ok c') /\
    multi_region_layout c' = multi_region_layout c /\
    pixels (base_region c') = List.filter (fun e => negb (e.2 =? 0)) (pixels (base_region c)).
Proof.
  intros Hna Hadc.
  pose proof sizes as (Hm1 & Hn21 & HK1 & Hsz).
  pose proof Hinv as (Hc & HN & HM & _ & Hs & HFE & _).
  destruct (collect_ok (seq 0 (Z.to_nat (GetNumberOfRegions ml))) 0)
    as (nr & coll & Hcol & Hnr & Hne & Hnonempty & Hlen & HF & Hperm).
  { intros k Hk. apply in_seq in Hk. lia. }
  rewrite length_seq in Hlen.
  assert (HA : Permutation (concat (map (added ml L2 u) (recs coll)))
                           (List.filter (fun e => negb (e.2 =? 0)) E))
    by (etransitivity; [exact Hperm|apply macro_cover]).
  assert (Hnb2 : GetNumberOfRegions L2 * GetNumberOfRegions ml <=
                   2 ^ BitsPerValue (sz (GetNumberOfRegions L2 * GetNumberOfRegions ml)) /\
                 0 <= BitsPerValue (sz (GetNumberOfRegions L2 * GetNumberOfRegions ml)) <= 64).
  { assert (Hp : 0 < GetNumberOfRegions L2 * GetNumberOfRegions ml) by nia.
    rewrite sz_small by nia. unfold BitsPerValue. split.
    - apply (proj2 (Z.log2_up_le_pow2 _ _ Hp)). lia.
    - split; [apply Z.log2_up_nonneg|]. apply (Z.log2_up_le_pow2 _ _ Hp).
      assert (GetNumberOfRegions L2 * GetNumberOfRegions ml <= 2 ^ 34) by nia.
      assert (2 ^ 34 <= 2 ^ 64) by (apply Z.pow_le_mono_r; lia). lia. }
  assert (Hnb : 0 <= BitsPerValue (sz (nr * GetNumberOfRegions ml)) <= 64).
  { destruct Hnr as [-> | ->]; [|exact (proj2 Hnb2)].
    unfold BitsPerValue. rewrite Z.mul_0_l, sz_small by lia. cbn. lia. }
  assert (Hnr2 : recs coll <> [] -> nr = GetNumberOfRegions L2).
  { intros H. apply Hne. intros ->. apply H. reflexivity. }
  assert (Hvals : Forall (fun r => Forall (fun v => 0 <= v < 2 ^ na /\ v < 2 ^ 16) (unit_values u r.2))
                         (recs coll)).
  { rewrite List.Forall_forall in HF |- *. intros r Hr. destruct (HF r Hr) as (_ & _ & HU).
    pose proof (unit_values_E _ _ _ HU) as HV. rewrite List.Forall_forall in HV |- *.
    intros v Hv. destruct (HV v Hv) as [->|(e & He & <-)].
    - pose proof (Z.pow_pos_nonneg 2 na ltac:(lia) ltac:(lia)). lia.
    - destruct (E_inside e He) as [_ Ha]. rewrite List.Forall_forall in Hadc.
      pose proof (Hadc e He). lia. }
  assert (Hrecok : Forall (fun r => 0 <= GetFullRegionId r.1.1 r.1.2 (GetNumberOfRegions ml) <
                                           2 ^ BitsPerValue (sz (nr * GetNumberOfRegions ml)) /\
                                    Forall (fun v => 0 <= v < 2 ^ na) (unit_values u r.2)) (recs coll)).
  { rewrite List.Forall_forall in HF, Hvals |- *. intros r Hr.
    assert (Hnr' : nr = GetNumberOfRegions L2) by (apply Hnr2; intros H; rewrite H in Hr; contradiction).
    destruct (HF r Hr) as (Hm & Hrid & _). split.
    - rewrite Hnr'. destruct (full_id_split r.1.1 r.1.2 (GetNumberOfRegions ml)) as [-> _]; [lia|lia|nia|].
      destruct Hnb2 as [Hb2 _]. nia.
    - eapply Forall_impl; [exact (Hvals r Hr)|]. intros v. cbn. lia. }
  destruct (block_write_loop_spec u (BitsPerValue (sz (nr * GetNumberOfRegions ml))) na (GetNumberOfRegions ml)
              Hnb Hna (S (length (concat (map snd coll)))) coll empty)
    as (Rs & p' & Hw & HRs & Hwf' & Hbeg & Hend & _ & Hbr).
  { rewrite recs_length. lia. }
  { apply wf_empty. }
  { exact Hnonempty. }
  { exact Hrecok. }
  assert (HMake : BlockPackageMaker_Make u na c = Ok p').
  { unfold ml in Hcol. unfold BlockPackageMaker_Make. cbv zeta. rewrite Hcol. cbn [bind]. exact Hw. }
  destruct (make_Chip_ok (multi_region_layout c) Hc HN HM) as (ch0 & Hmk & Hinv0 & Hml0 & Hp0).
  cbn [end_pos begin_pos empty] in Hbeg, Hend, Hbr.
  assert (Hrs0 : 0 <= record_size u (BitsPerValue (sz (nr * GetNumberOfRegions ml))) na)
    by (unfold record_size; nia).
  exists p'. unfold BlockPackageMaker_Read. rewrite Hmk, HL2. cbv zeta.
  destruct (Z.eqb_spec (end_pos p') 0) as [H0|H0].
  - exists ch0. cbn [read_regions_loop]. rewrite Hbeg, H0. cbn [Z.eqb].
    split; [exact HMake|]. split; [reflexivity|]. split; [exact Hml0|]. rewrite Hp0.
    rewrite H0 in Hend. symmetry in Hend. apply Z.mul_eq_0 in Hend as [HL|HL].
    + assert (Hnil : recs coll = []).
      { apply length_zero_iff_nil. rewrite <- (Permutation_length HRs). lia. }
      rewrite Hnil in HA. cbn in HA. symmetry. apply Permutation_nil, HA.
    + assert (na = 0) as -> by (unfold record_size in HL; nia).
      symmetry. apply filter_none. rewrite List.Forall_forall in HFE, Hadc |- *. intros e He.
      pose proof (HFE e He). pose proof (Hadc e He). cbn in *.
      assert (e.2 = 0) as -> by lia. reflexivity.
  - assert (HRs1 : Rs <> []) by (intros ->; cbn in Hend; lia).
    assert (Hnr' : nr = GetNumberOfRegions L2).
    { apply Hnr2. intros H. apply HRs1. apply length_zero_iff_nil.
      rewrite (Permutation_length HRs), H. reflexivity. }
    subst nr.
    assert (Hrs1 : 1 <= record_size u (BitsPerValue (sz (GetNumberOfRegions L2 * GetNumberOfRegions ml))) na).
    { destruct (Z.eqb_spec (record_size u (BitsPerValue (sz (GetNumberOfRegions L2 * GetNumberOfRegions ml))) na) 0)
        as [Hz|Hz]; [rewrite Hz in Hend; lia|lia]. }
    assert (HLRs : Z.of_nat (length Rs) <= GetNumberOfRegions ml * GetNumberOfRegions L2).
    { rewrite (Permutation_length HRs). nia. }
    assert (Hq64 : end_pos p' < 2 ^ 64).
    { rewrite Hend. unfold record_size in *. destruct Hnb2 as [_ Hb64].
      assert (Z.of_nat (length Rs) * Z.of_nat (length (cells u)) <=
                GetNumberOfRegions L2 * GetNumberOfRegions ml * Z.of_nat (length (cells u))) by nia.
      nia. }
    assert (HA' : Permutation (concat (map (added ml L2 u) Rs)) (List.filter (fun e => negb (e.2 =? 0)) E))
      by (etransitivity; [apply concat_perm, HRs|exact HA]).
    destruct (read_records_spec (multi_region_layout c) L2 u
                (BitsPerValue (sz (GetNumberOfRegions L2 * GetNumberOfRegions ml))) na (GetNumberOfRegions ml) p'
                (proj2 Hnb2) Hna Hwf' Hq64 (S (Z.to_nat (sz (end_pos p' - begin_pos p')))) Rs (begin_pos p') ch0)
      as (c' & Hrd & Hinv' & Hml' & Hpix).
    + rewrite Hbeg. lia.
    + exact Hrs1.
    + rewrite Hbeg. lia.
    + rewrite Hbeg. exact Hbr.
    + rewrite List.Forall_forall in HF, Hvals |- *. intros r Hr.
      pose proof (Permutation_in _ HRs Hr) as Hr'.
      destruct (HF r Hr') as (Hm & Hrid & _). split; [lia|]. split; [lia|]. split; [|exact (Hvals r Hr')].
      destruct Hnb2 as [Hb2 _]. nia.
    + apply List.Forall_forall. intros e He. apply (Permutation_in _ HA'), filter_In in He as [He _].
      exact (proj1 (E_inside e He)).
    + apply NoDup_ListNoDup. apply (Permutation_NoDup (Permutation_map fst (Permutation_sym HA'))).
      apply NoDup_ListNoDup, NoDup_fst_filter, E_keys.
    + exact Hinv0.
    + exact Hml0.
    + intros x _. rewrite Hp0. intros [].
    + assert (Z.of_nat (length Rs) <= end_pos p') by nia.
      rewrite Hbeg, Z.sub_0_r, sz_small by lia. lia.
    + exists c'. split; [exact HMake|]. split; [exact Hrd|]. split; [exact Hml'|].
      apply sorted_perm_eq.
      * pose proof Hinv' as (_ & _ & _ & _ & Hs' & _). exact Hs'.
      * apply sorted_filter, Hs.
      * rewrite Hpix, Hp0, app_nil_r. exact HA'.
Qed.

End Geometry.

(** The layout of the readout units in a region, as [Make] and [Read]
    build it, does not throw. *)
Lemma unit_layout_ok c u :
  chip_inv c ->
  1 <= n_rows u <= n_rows (Geo.region_layout (multi_region_layout c)) ->
  1 <= n_columns u <= n_columns (Geo.region_layout (multi_region_layout c)) ->
  exists L2, make_MultiRegionLayout (n_rows (Geo.region_layout (multi_region_layout c)))
               (n_columns (Geo.region_layout (multi_region_layout c))) u = Ok L2.
Proof.
  intros Hinv Hur Huc. pose proof Hinv as (Hc & HN & HM & _).
  destruct (layout_facts _ Hc HN HM) as (N & M & R & C & _ & Hrl & _ & _ & HR & HC & _).
  rewrite Hrl in Hur, Huc |- *. cbn [n_rows n_columns] in *.
  pose proof (ceil_div_spec R (n_rows u) ltac:(lia) ltac:(lia)) as A3.
  pose proof (ceil_div_spec C (n_columns u) ltac:(lia) ltac:(lia)) as A4.
  unfold make_MultiRegionLayout, make_RegionLayout.
  rewrite (proj2 (Z.eqb_neq R 0)), (proj2 (Z.eqb_neq C 0)) by lia. cbn [orb bind].
  rewrite (proj2 (Z.eqb_neq (ceil_div R (n_rows u)) 0)), (proj2 (Z.eqb_neq (ceil_div C (n_columns u)) 0))
    by lia.
  eexists. reflexivity.
Qed.

(** X22: [BlockPackageMaker::Read] (raw ADCs) of what [BlockPackageMaker::Make]
    writes for a chip the program built returns a chip on the same layout
    whose pixels are the chip's pixels with a non-zero ADC, provided the
    region layout fits in the chip, the readout unit fits in a region and
    every ADC fits in [n_bits_per_adc <= 64] bits. *)
Theorem BlockPackageMaker_Read_Make u na c :
  chip_built c ->
  n_rows (Geo.region_layout (multi_region_layout c)) <= n_rows (base (multi_region_layout c)) ->
  n_columns (Geo.region_layout (multi_region_layout c)) <= n_columns (base (multi_region_layout c)) ->
  1 <= n_rows u <= n_rows (Geo.region_layout (multi_region_layout c)) ->
  1 <= n_columns u <= n_columns (Geo.region_layout (multi_region_layout c)) ->
  0 <= na <= 64 ->
  Forall (fun e => e.2 < 2 ^ na) (pixels (base_region c)) ->
  exists package c', BlockPackageMaker_Make u na c = Ok package /\
    BlockPackageMaker_Read u na package (multi_region_layout c) = Some (Ok c') /\
    multi_region_layout c' = multi_region_layout c /\
    pixels (base_region c') = List.filter (fun e => negb (e.2 =? 0)) (pixels (base_region c)).
Proof.
  intros Hb Hfr Hfc Hur Huc Hna Hadc.
  pose proof (chip_built_inv c Hb) as Hinv.
  destruct (unit_layout_ok c u Hinv Hur Huc) as [L2 HL2].
  eapply block_roundtrip; eassumption.
Qed.

Lemma BlockPackageMaker_Read_Make_witness :
  exists package c',
    BlockPackageMaker_Make (mkRegionLayout 2 2) 7 sample_chip = Ok package /\
    BlockPackageMaker_Read (mkRegionLayout 2 2) 7 package (multi_region_layout sample_chip) = Some (Ok c') /\
    multi_region_layout c' = multi_region_layout sample_chip /\
    pixels (base_region c') = List.filter (fun e => negb (e.2 =? 0)) (pixels (base_region sample_chip)).
Proof.
  apply (BlockPackageMaker_Read_Make (mkRegionLayout 2 2) 7 sample_chip sample_chip_built).
  - apply Z.leb_le. vm_compute. reflexivity.
  - apply Z.leb_le. vm_compute. reflexivity.
  - split; apply Z.leb_le; vm_compute; reflexivity.
  - split; apply Z.leb_le; vm_compute; reflexivity.
  - lia.
  - vm_compute. repeat constructor.
Defined.

End BlockExtra.

(* ------------------------------------------------------------------ *)
(** ** ChipDataEncoder in the [Region] format *)

Module RegionExtra.
Import Machine Pkg PkgView PkgBits Geo GeoClaims Chips ChipView ChipExtra MakeReadExtra BlockMaker BlockExtra.

(** Two constructed layouts of the same size that [operator==] finds equal
    are the same layout. *)
Lemma layout_eq a b :
  constructed a -> constructed b -> base a = base b -> multi_layout_eqb a b = true -> a = b.
Proof.
  intros Ha Hb Hbase Heq.
  destruct (constructed_facts a Ha) as (N & M & R & C & Hba & Hra & _ & _ & _ & _ & Hnrr & Hnrc & Hlr & Hlc).
  destruct (constructed_facts b Hb)
    as (N' & M' & R' & C' & Hbb & Hrb & _ & _ & _ & _ & Hnrr' & Hnrc' & Hlr' & Hlc').
  unfold multi_layout_eqb, layout_eqb in Heq. rewrite Hra, Hrb in Heq. cbn [n_rows n_columns] in Heq.
  apply andb_true_iff in Heq as [Heq Hc']. apply andb_true_iff in Heq as [Heq Hr'].
  apply andb_true_iff in Heq as [H1 H2]. apply Z.eqb_eq in H1, H2. subst R' C'.
  rewrite Hba, Hbb in Hbase. injection Hbase as <- <-.
  destruct a as [ba ra nra nca lra lca], b as [bb rb nrb ncb lrb lcb]; cbn in *. subst. reflexivity.
Qed.

(** X23: [ChipDataEncoder::Decode] of [ChipDataEncoder::Encode] in the
    [Region] format, for a chip the program built whose size is the size of
    [chip_layout], a region layout that fits in the chip, a readout unit
    that fits in a region and every ADC below [max_adc], when the chip
    packed is on [chip_layout] (the chip is on it by [operator==], or
    splitting it by the region counts of [chip_layout] gives
    [chip_layout] back): Encode does not throw, and Decode returns a chip
    on [chip_layout] whose pixels are those of the original with a
    non-zero ADC. *)
Theorem Region_Decode_Encode chip_layout u max_adc original :
  chip_built original -> constructed chip_layout ->
  base chip_layout = base (multi_region_layout original) ->
  n_rows (Geo.region_layout chip_layout) <= n_rows (base chip_layout) ->
  n_columns (Geo.region_layout chip_layout) <= n_columns (base chip_layout) ->
  1 <= n_rows u <= n_rows (Geo.region_layout chip_layout) ->
  1 <= n_columns u <= n_columns (Geo.region_layout chip_layout) ->
  0 <= max_adc < 2 ^ 64 ->
  Forall (fun e => e.2 < max_adc) (pixels (base_region original)) ->
  multi_layout_eqb (multi_region_layout original) chip_layout = true \/
  make_MultiRegionLayout4 (n_rows (base chip_layout)) (n_columns (base chip_layout))
    (n_region_rows chip_layout) (n_region_columns chip_layout) = Ok chip_layout ->
  exists package c',
    Encode_Region chip_layout u max_adc original = Ok package /\
    Decode_Region chip_layout u max_adc package = Some (Ok c') /\
    multi_region_layout c' = chip_layout /\
    pixels (base_region c') = List.filter (fun e => negb (e.2 =? 0)) (pixels (base_region original)).
Proof.
  intros Hbuilt HcL HbL Hfr Hfc Hur Huc Hmax Hadc Hcase.
  pose proof (chip_built_inv original Hbuilt) as Hinv.
  pose proof Hinv as (Hc & HN & HM & Hl & Hs & HF & _).
  set (na := BitsPerValue max_adc).
  assert (Hna : 0 <= na <= 64).
  { unfold na, BitsPerValue. split; [apply Z.log2_up_nonneg|].
    destruct (Z.le_gt_cases max_adc 0) as [H0|H0].
    - rewrite Z.log2_up_nonpos by exact H0. lia.
    - apply Z.log2_up_le_pow2; lia. }
  assert (Hadc' : Forall (fun e => e.2 < 2 ^ na) (pixels (base_region original))).
  { apply List.Forall_forall. intros e He. rewrite List.Forall_forall in HF, Hadc.
    pose proof (HF e He) as [_ Ha]. pose proof (Hadc e He) as Hlt.
    assert (max_adc <= 2 ^ na) by (apply Z.log2_up_le_pow2; unfold na, BitsPerValue; lia). lia. }
  assert (Hchip : exists chip,
    (if multi_layout_eqb (multi_region_layout original) chip_layout then Ok original
     else split_Chip original (n_region_rows chip_layout) (n_region_columns chip_layout)) = Ok chip /\
    chip_inv chip /\ multi_region_layout chip = chip_layout /\ base_region chip = base_region original).
  { destruct (multi_layout_eqb _ _) eqn:Eq.
    - exists original. split; [reflexivity|]. split; [exact Hinv|]. split; [|reflexivity].
      apply layout_eq; [exact Hc|exact HcL|symmetry; exact HbL|exact Eq].
    - destruct Hcase as [Hcase|Hcase]; [discriminate|].
      destruct (layout_facts chip_layout HcL ltac:(rewrite HbL; lia) ltac:(rewrite HbL; lia))
        as (N' & M' & R' & C' & Hb' & _ & HN1' & HM1' & _ & _ & Hnrr & Hnrc & _).
      destruct (split_Chip_ok original (n_region_rows chip_layout) (n_region_columns chip_layout) Hinv
                  ltac:(lia) ltac:(lia)) as (c2 & Hsp & Hinv2 & Hbr & _).
      exists c2. split; [exact Hsp|]. split; [exact Hinv2|]. split; [|exact Hbr].
      assert (Hsp' : exists c3, split_Chip original (n_region_rows chip_layout) (n_region_columns chip_layout)
                                  = Ok c3 /\ multi_region_layout c3 = chip_layout).
      { unfold split_Chip. cbv zeta. rewrite Hl, <- HbL, Hcase. cbn [bind].
        destruct (CreateRegions_ok (base_region original) chip_layout [] HcL
                    ltac:(rewrite HbL; lia) ltac:(rewrite HbL; lia) Hs ltac:(rewrite HbL; exact HF))
          as (c3 & Hcr & _ & Hml3).
        exists c3. split; [exact Hcr|exact Hml3]. }
      destruct Hsp' as (c3 & Hsp' & Hml3). rewrite Hsp in Hsp'. injection Hsp' as ->. exact Hml3. }
  destruct Hchip as (chip & Hch & Hinvc & Hmlc & Hbrc).
  assert (Hur' : 1 <= n_rows u <= n_rows (Geo.region_layout (multi_region_layout chip))) by (rewrite Hmlc; exact Hur).
  assert (Huc' : 1 <= n_columns u <= n_columns (Geo.region_layout (multi_region_layout chip)))
    by (rewrite Hmlc; exact Huc).
  assert (Hfr' : n_rows (Geo.region_layout (multi_region_layout chip)) <= n_rows (base (multi_region_layout chip)))
    by (rewrite Hmlc; exact Hfr).
  assert (Hfc' : n_columns (Geo.region_layout (multi_region_layout chip)) <=
                 n_columns (base (multi_region_layout chip))) by (rewrite Hmlc; exact Hfc).
  destruct (unit_layout_ok chip u Hinvc Hur' Huc') as [L2 HL2].
  destruct (block_roundtrip chip Hinvc u Hur' Huc' Hfr' Hfc' L2 HL2 na Hna ltac:(rewrite Hbrc; exact Hadc'))
    as (package & c' & Hmk & Hrd & Hml' & Hpx).
  exists package, c'. unfold Encode_Region, Decode_Region. fold na. rewrite Hch. cbn [bind].
  split; [exact Hmk|]. rewrite Hmlc in Hrd, Hml'. split; [exact Hrd|]. split; [exact Hml'|].
  rewrite Hpx, Hbrc. reflexivity.
Qed.

Lemma Region_Decode_Encode_witness :
  exists package c',
    Encode_Region sample_layout (mkRegionLayout 2 2) 128 sample_chip = Ok package /\
    Decode_Region sample_layout (mkRegionLayout 2 2) 128 package = Some (Ok c') /\
    multi_region_layout c' = sample_layout /\
    pixels (base_region c') = List.filter (fun e => negb (e.2 =? 0)) (pixels (base_region sample_chip)).
Proof.
  apply (Region_Decode_Encode sample_layout (mkRegionLayout 2 2) 128 sample_chip sample_chip_built
           GeoExtra.sample_layout_constructed).
  - vm_compute. reflexivity.
  - apply Z.leb_le. vm_compute. reflexivity.
  - apply Z.leb_le. vm_compute. reflexivity.
  - split; apply Z.leb_le; vm_compute; reflexivity.
  - split; apply Z.leb_le; vm_compute; reflexivity.
  - lia.
  - vm_compute. repeat constructor.
  - left. vm_compute. reflexivity.
Defined.

End RegionExtra.
